(** * Sorted sets over slices: a verification of [bursavich.dev/sets]

    The development embeds the slice algorithms of [internal/slicesx]
    (batched merge-insert, batched delete, stable sort with duplicate
    removal), the comparator sorted sets of [sorted.go] and of the v2
    package, the natural-order sets built on the same algorithms, and the
    hash-backed sets that the sorted sets meet as operands.

    Conventions of the embedding.
    - A slice is the list of its elements; a Go [int] is a [Z].  Lengths of
      slices are far below 2^63, so no arithmetic of the code wraps around.
    - Every indexing and slicing expression of the source goes through a
      checked primitive of [Module Go]; an index out of range yields
      [Panic], as the Go runtime does.
    - A slice expression [a[lo:hi]] is checked against the length of [a]
      rather than its capacity.  Capacity is at least the length, so a run
      that passes the checks of the model passes those of the runtime.
    - Loops whose trip count is not the length of a list run on a budget
      that is fixed by the sizes of the inputs; the theorems show that the
      budget is never exhausted ([Timeout] is never returned).
    - A [map[E]struct{}] is the finite set of its keys, with [==] on [E]
      being equality.  Go leaves the order in which a map is ranged over to
      the runtime: every loop over a map takes the order of the keys as an
      argument, and the theorems hold for every order. *)

From stdpp Require Import base list sorting gmap.
From Stdlib Require Import ZArith Lia.
From Stdlib Require String Ascii.
Local Open Scope Z_scope.

(** ** The Go runtime: checked slice primitives and loops *)

Module Go.

Inductive run (A : Type) : Type :=
| Ok (a : A)
| Panic
| Timeout.
Arguments Ok {A} a.
Arguments Panic {A}.
Arguments Timeout {A}.

#[global] Instance run_ret : MRet run := @Ok.
#[global] Instance run_bind : MBind run := λ A B f m,
  match m with
  | Ok a => f a
  | Panic => Panic
  | Timeout => Timeout
  end.

Definition len {A} (a : list A) : Z := Z.of_nat (length a).

(** [a[i]] *)
Definition index {A} (a : list A) (i : Z) : run A :=
  if bool_decide (0 ≤ i < len a)
  then from_option Ok Panic (a !! Z.to_nat i)
  else Panic.

(** [a[i] = v] *)
Definition store {A} (a : list A) (i : Z) (v : A) : run (list A) :=
  if bool_decide (0 ≤ i < len a)
  then Ok (<[Z.to_nat i := v]> a)
  else Panic.

(** The contents of the window of [n] elements of [a] that starts at [lo]. *)
Definition view {A} (a : list A) (lo n : Z) : list A :=
  take (Z.to_nat n) (drop (Z.to_nat lo) a).

(** [a[lo:hi]], read as a value. *)
Definition slice {A} (a : list A) (lo hi : Z) : run (list A) :=
  if bool_decide (0 ≤ lo ∧ lo ≤ hi ∧ hi ≤ len a)
  then Ok (view a lo (hi - lo))
  else Panic.

(** [copy(a[lo:hi], src)]: the elements of [src] are read before any is
    written (the builtin handles overlap), and [min(hi-lo, len(src))] of them
    are copied.  Returns the array and the number of elements copied. *)
Definition copy {A} (a : list A) (lo hi : Z) (src : list A) : run (list A * Z) :=
  if bool_decide (0 ≤ lo ∧ lo ≤ hi ∧ hi ≤ len a)
  then let n := Z.min (hi - lo) (len src) in
       Ok (list_inserts (Z.to_nat lo) (take (Z.to_nat n) src) a, n)
  else Panic.

(** [clear(a[lo:])] *)
Definition clear {A} (zero : A) (a : list A) (lo : Z) : run (list A) :=
  if bool_decide (0 ≤ lo ∧ lo ≤ len a)
  then Ok (take (Z.to_nat lo) a ++ replicate (Z.to_nat (len a - lo)) zero)
  else Panic.

(** [slices.Grow(a, k)[0:k]]: [Grow] panics on a negative [k] and otherwise
    guarantees capacity for [k] more elements, so that reslicing to [k]
    succeeds.  The slots past the old length hold no valid value; the
    model fills them with [zero]. *)
Definition grow_to {A} (zero : A) (a : list A) (k : Z) : run (list A) :=
  if bool_decide (0 ≤ k)
  then Ok (take (Z.to_nat k) a ++ replicate (Z.to_nat (k - len a)) zero)
  else Panic.

(** [slices.IndexFunc]: the first index whose element satisfies [f];
    [None] stands for the result [-1]. *)
Fixpoint IndexFunc {A} (s : list A) (f : A → bool) : option nat :=
  match s with
  | [] => None
  | x :: s' => if f x then Some 0%nat else S <$> IndexFunc s' f
  end.

(** [slices.ContainsFunc] *)
Definition ContainsFunc {A} (s : list A) (f : A → bool) : bool :=
  bool_decide (is_Some (IndexFunc s f)).

(** [for cond { body }] *)
Fixpoint while {S} (fuel : nat) (cond : S → bool) (body : S → run S) (s : S)
  : run S :=
  if cond s then
    match fuel with
    | O => Timeout
    | S fuel' => s' ← body s; while fuel' cond body s'
    end
  else Ok s.

(** [for _, x := range l { body }] *)
Fixpoint for_range {S A} (l : list A) (body : S → A → run S) (s : S) : run S :=
  match l with
  | [] => Ok s
  | x :: l' => s' ← body s x; for_range l' body s'
  end.

(** Loops that can [return] from the enclosing function: a step either
    goes on with the loop state or leaves with a result. *)
Inductive flow (S R : Type) : Type :=
| Next (s : S)
| Return (r : R).
Arguments Next {S R} s.
Arguments Return {S R} r.

(** [for ; cond; { body }] where the condition may index a slice and the
    body may return. *)
Fixpoint while_ret {S R} (fuel : nat) (cond : S → run bool)
    (body : S → run (flow S R)) (s : S) : run (flow S R) :=
  c ← cond s;
  if c : bool then
    match fuel with
    | O => Timeout
    | S fuel' =>
        r ← body s;
        match r with
        | Next s' => while_ret fuel' cond body s'
        | Return r => Ok (Return r)
        end
    end
  else Ok (Next s).

(** [for _, x := range l { body }] where the body may return. *)
Fixpoint for_range_ret {S R A} (l : list A) (body : S → A → run (flow S R)) (s : S)
  : run (flow S R) :=
  match l with
  | [] => Ok (Next s)
  | x :: l' =>
      r ← body s x;
      match r with
      | Next s' => for_range_ret l' body s'
      | Return r => Ok (Return r)
      end
  end.

(** The pairs [(i, x)] that [for i, x := range l] goes through. *)
Definition enumerate {A} (l : list A) : list (Z * A) :=
  imap (λ i x, (Z.of_nat i, x)) l.

(** [sort.Search(n, f)]: binary search for the least index in [0, n) at
    which [f] holds, [n] when there is none.  [f] may index a slice. *)
Definition Search (n : Z) (f : Z → run bool) : run Z :=
  '(i, _) ← while (Z.to_nat n)
    (λ '(i, j), bool_decide (i < j))
    (λ '(i, j),
       let h := (i + j) / 2 in
       fh ← f h;
       if negb fh then Ok (h + 1, j) else Ok (i, h))
    (0, n);
  Ok i.

(** [slices.BinarySearchFunc(x, target, cmp)] *)
Definition BinarySearchFunc {A T} (x : list A) (target : T) (cmp : A → T → Z)
  : run (Z * bool) :=
  let n := len x in
  '(i, _) ← while (Z.to_nat n)
    (λ '(i, j), bool_decide (i < j))
    (λ '(i, j),
       let h := (i + j) / 2 in
       xh ← index x h;
       if bool_decide (cmp xh target < 0) then Ok (h + 1, j) else Ok (i, h))
    (0, n);
  if bool_decide (i < n)
  then xi ← index x i; Ok (i, bool_decide (cmp xi target = 0))
  else Ok (i, false).

(** [cmp.Compare] on integers. *)
Definition Compare (a b : Z) : Z :=
  if bool_decide (a < b) then -1
  else if bool_decide (a > b) then 1
  else 0.

(** [slices.BinarySearch(x, target)] on integers. *)
Definition BinarySearch (x : list Z) (target : Z) : run (Z * bool) :=
  let n := len x in
  '(i, _) ← while (Z.to_nat n)
    (λ '(i, j), bool_decide (i < j))
    (λ '(i, j),
       let h := (i + j) / 2 in
       xh ← index x h;
       if bool_decide (xh < target) then Ok (h + 1, j) else Ok (i, h))
    (0, n);
  if bool_decide (i < n)
  then xi ← index x i; Ok (i, bool_decide (xi = target))
  else Ok (i, false).

(** [slices.SortStableFunc]: the library sorts blocks by insertion and
    merges them stably.  The model is the insertion sort of the library
    ([insertionSortCmpFunc]): each element moves left past the elements it
    is strictly less than.  The prefix sorted so far is kept reversed. *)
Fixpoint sort_insert {A} (cmp : A → A → Z) (x : A) (rev_prefix : list A) : list A :=
  match rev_prefix with
  | [] => [x]
  | y :: r => if bool_decide (cmp x y < 0)
              then y :: sort_insert cmp x r
              else x :: y :: r
  end.

Definition SortStableFunc {A} (cmp : A → A → Z) (l : list A) : list A :=
  reverse (foldl (λ acc x, sort_insert cmp x acc) [] l).

(** [slices.Compact]: replaces consecutive runs of equal elements with a
    single copy. *)
Fixpoint Compact `{EqDecision A} (l : list A) : list A :=
  match l with
  | [] => []
  | x :: l' =>
      match l' with
      | [] => [x]
      | y :: _ => if decide (y = x) then Compact l' else x :: Compact l'
      end
  end.

End Go.

(** ** [internal/slicesx]: the sequence algorithms *)

Module slicesx.
Import Go.

(** [type insert[E any] struct { i int; e E }] *)
Record insert (E : Type) : Type := Insert { ins_i : Z; ins_e : E }.
Arguments Insert {E} ins_i ins_e.
Arguments ins_i {E} _.
Arguments ins_e {E} _.

Section algorithms.
Context {E : Type}.
(** The zero value of [E]. *)
Variable zero : E.

(** [runEq] returns the run of equal elements starting at 0. *)
Fixpoint runEq_count (cmp : E → E → Z) (v0 : E) (rest : list E) (n : Z) : Z :=
  match rest with
  | [] => n
  | v :: rest' =>
      if bool_decide (cmp v0 v ≠ 0) then n else runEq_count cmp v0 rest' (n + 1)
  end.

Definition runEq (elems : list E) (cmp : E → E → Z) : list E :=
  if bool_decide (len elems < 2) then elems
  else match elems with
       | [] => elems
       | v0 :: rest => view elems 0 (runEq_count cmp v0 rest 1)
       end.

(** [insertInto]: realizes the scheduled insertions and the tail in one
    pass over the grown array, from the last insertion to the first. *)
Definition insertInto (a tail : list E) (inserts : list (insert E)) : run (list E) :=
  let extra := len inserts + len tail in
  let i := len a in
  let k := len a + extra in
  a ← grow_to zero a k;
  let k := k - len tail in
  '(a, _) ← copy a k (len a) tail;
  '(a, _, _) ← for_range (reverse inserts)
    (λ '(a, i, k) ins,
       let x := ins_i ins in
       let n := i - x in
       src ← slice a x (x + n);
       '(a, _) ← copy a (k - n) k src;
       let i := x in
       let k := k - (n + 1) in
       a ← store a k (ins_e ins);
       Ok (a, i, k))
    (a, i, k);
  Ok a.

(** [MergeSorted] merges B into A, both of which must be sorted.  The run
    [ar] is a window of [a]: writing [ar[i]] writes [a[ai+i]], and the
    search of a later element of [br] reads the window as it then is. *)
Definition MergeSorted (a b : list E) (cmp : E → E → Z) (eq : E → E → bool)
  : run (list E) :=
  let an := len a in
  let bn := len b in
  '(a, ai, bi, inserts) ← while (length a + length b)
    (λ '(a, ai, bi, inserts), bool_decide (ai < an) && bool_decide (bi < bn))
    (λ '(a, ai, bi, inserts),
       av ← index a ai;
       bv ← index b bi;
       let c := cmp av bv in
       if bool_decide (c < 0) then Ok (a, ai + 1, bi, inserts)
       else if bool_decide (c > 0) then Ok (a, ai, bi + 1, inserts ++ [Insert ai bv])
       else
         a_rest ← slice a ai (len a);
         b_rest ← slice b bi (len b);
         let ar_len := len (runEq a_rest cmp) in
         let br := runEq b_rest cmp in
         let ar_lo := ai in
         let ai := ai + ar_len in
         '(a, inserts) ← for_range br
           (λ '(a, inserts) be,
              match IndexFunc (view a ar_lo ar_len) (λ ae, eq be ae) with
              | Some i => a ← store a (ar_lo + Z.of_nat i) be; Ok (a, inserts)
              | None => Ok (a, inserts ++ [Insert ai be])
              end)
           (a, inserts);
         Ok (a, ai, bi + len br, inserts))
    (a, 0, 0, []);
  tail ← slice b bi (len b);
  insertInto a tail inserts.

(** [deleteFrom]: closes the gaps left by the deleted positions in one
    left-compaction pass, clears the vacated tail and truncates. *)
Definition deleteFrom (a : list E) (deletes : list Z) : run (list E) :=
  let n := len a in
  let d := len deletes in
  if bool_decide (d = 0) then Ok a
  else
    dst ← index deletes 0;
    let src := dst + 1 in
    '(a, dst, src) ← for_range (drop 1 deletes)
      (λ '(a, dst, src) end_,
         kept ← slice a src end_;
         '(a, c) ← copy a dst (len a) kept;
         Ok (a, dst + c, end_ + 1))
      (a, dst, src);
    kept ← slice a src (len a);
    '(a, _) ← copy a dst (len a) kept;
    a ← clear zero a (n - d);
    slice a 0 (n - d).

(** [DeleteSorted] deletes B from A (e.g. A - B), both of which must be
    sorted. *)
Definition DeleteSorted (a b : list E) (cmp : E → E → Z) (eq : E → E → bool)
  : run (list E) :=
  let an := len a in
  let bn := len b in
  '(ai, bi, deletes) ← while (length a + length b)
    (λ '(ai, bi, deletes), bool_decide (ai < an) && bool_decide (bi < bn))
    (λ '(ai, bi, deletes),
       av ← index a ai;
       bv ← index b bi;
       let c := cmp av bv in
       if bool_decide (c < 0) then Ok (ai + 1, bi, deletes)
       else if bool_decide (c > 0) then Ok (ai, bi + 1, deletes)
       else
         a_rest ← slice a ai (len a);
         b_rest ← slice b bi (len b);
         let ar := runEq a_rest cmp in
         let br := runEq b_rest cmp in
         let deletes :=
           foldl (λ deletes '(i, ae),
                    if ContainsFunc br (λ be, eq ae be)
                    then deletes ++ [ai + i] else deletes)
                 deletes (enumerate ar) in
         Ok (ai + len ar, bi + len br, deletes))
    (0, 0, []);
  deleteFrom a deletes.

(** [uniqEqSlow] removes duplicate elements in place and preserves order.
    Returns the whole array as the function leaves it together with the
    length [dst] of the slice [list[:dst]] it returns. *)
Definition uniqEqSlow (lst : list E) (eq : E → E → bool) : run (list E * Z) :=
  let n := len lst in
  if bool_decide (n < 2) then Ok (lst, n)
  else
    '(lst, dst) ← for_range (seqZ 1 (n - 1))
      (λ '(lst, dst) src,
         cur ← index lst src;
         seen ← slice lst 0 dst;
         match IndexFunc seen (λ a, eq cur a) with
         | Some idx => lst ← store lst (Z.of_nat idx) cur; Ok (lst, dst)
         | None => lst ← store lst dst cur; Ok (lst, dst + 1)
         end)
      (lst, 1);
    lst ← clear zero lst dst;
    Ok (lst, dst).

(** [UniqSortedFuncs] removes duplicate elements from the sorted list in
    place.  Each run [sorted[src:i]] is handed to [uniqEqSlow], which works
    inside the array; what it returns is then slid left to [dst]. *)
Definition uniq_run (sorted : list E) (src hi dst : Z) (eq : E → E → bool)
  : run (list E * Z) :=
  window ← slice sorted src hi;
  '(window, m) ← uniqEqSlow window eq;
  '(sorted, _) ← copy sorted src hi window;
  kept ← slice sorted src (src + m);
  '(sorted, c) ← copy sorted dst (len sorted) kept;
  Ok (sorted, dst + c).

Definition UniqSortedFuncs (sorted : list E) (cmp : E → E → Z) (eq : E → E → bool)
  : run (list E) :=
  let n := len sorted in
  if bool_decide (n = 0) then Ok []
  else
    prev ← index sorted 0;
    '(sorted, src, dst, _) ← for_range (seqZ 1 (n - 1))
      (λ '(sorted, src, dst, prev) i,
         next ← index sorted i;
         if bool_decide (cmp next prev = 0) then Ok (sorted, src, dst, prev)
         else
           '(sorted, dst) ← uniq_run sorted src i dst eq;
           Ok (sorted, i, dst, next))
      (sorted, 0, 0, prev);
    '(sorted, dst) ← uniq_run sorted src (len sorted) dst eq;
    sorted ← clear zero sorted dst;
    slice sorted 0 dst.

(** [StableSortFunc] stable sorts the list. *)
Definition StableSortFunc (lst : list E) (cmp : E → E → Z) : list E :=
  SortStableFunc cmp lst.

(** [StableSortUniqFuncs] stable sorts the list and removes duplicates in
    place. *)
Definition StableSortUniqFuncs (lst : list E) (cmp : E → E → Z) (eq : E → E → bool)
  : run (list E) :=
  UniqSortedFuncs (StableSortFunc lst cmp) cmp eq.

End algorithms.

(** [MergeSortedUniq] merges B into A, both of which must be sorted and
    contain unique values; the elements are integers in their natural
    order. *)
Definition MergeSortedUniq (a b : list Z) : run (list Z) :=
  let an := len a in
  let bn := len b in
  '(a, ai, bi, inserts) ← while (length a + length b)
    (λ '(a, ai, bi, inserts), bool_decide (ai < an) && bool_decide (bi < bn))
    (λ '(a, ai, bi, inserts),
       av ← index a ai;
       bv ← index b bi;
       if bool_decide (av < bv) then Ok (a, ai + 1, bi, inserts)
       else if bool_decide (av > bv) then Ok (a, ai, bi + 1, inserts ++ [Insert ai bv])
       else a ← store a ai bv; Ok (a, ai + 1, bi + 1, inserts))
    (a, 0, 0, []);
  tail ← slice b bi (len b);
  insertInto 0 a tail inserts.

(** [DeleteSortedUniq] deletes B from A (e.g. A - B), both of which must be
    sorted and contain unique values. *)
Definition DeleteSortedUniq (a b : list Z) : run (list Z) :=
  let an := len a in
  let bn := len b in
  '(ai, bi, deletes) ← while (length a + length b)
    (λ '(ai, bi, deletes), bool_decide (ai < an) && bool_decide (bi < bn))
    (λ '(ai, bi, deletes),
       av ← index a ai;
       bv ← index b bi;
       if bool_decide (av < bv) then Ok (ai + 1, bi, deletes)
       else if bool_decide (av > bv) then Ok (ai, bi + 1, deletes)
       else Ok (ai + 1, bi + 1, deletes ++ [ai]))
    (0, 0, []);
  deleteFrom 0 a deletes.

End slicesx.

(** ** [sorted.go]: the comparator sorted set of the first package *)

Module sets.
Import Go.

(** A set behind the [Set] interface, as a sorted set uses it as the other
    operand: whether it is the receiver itself, its [Contains], the list
    its [Elems] returns and the order in which its [Range] visits. *)
Record Set_ (E : Type) : Type := MkSet {
  is_receiver : bool;
  set_Contains : E → bool;
  set_Elems : list E;
  set_Range : list E;
}.
Arguments MkSet {E} _ _ _ _.
Arguments is_receiver {E} _.
Arguments set_Contains {E} _.
Arguments set_Elems {E} _.
Arguments set_Range {E} _.

(** [type sorted[E any] struct { elems []E; cmp func(E, E) int; eq func(E, E) bool }] *)
Record sorted (E : Type) : Type := MkSorted {
  elems : list E;
  cmp : E → E → Z;
  eq : E → E → bool;
}.
Arguments MkSorted {E} _ _ _.
Arguments elems {E} _.
Arguments cmp {E} _.
Arguments eq {E} _.

Section comparator.
Context {E : Type}.
(** The zero value of [E]. *)
Variable zero : E.

(** The slice helpers of [sorted.go] are copies of those of
    [internal/slicesx], statement for statement (a helper [zero] in place
    of the builtin [clear]). *)
Definition runEq := @slicesx.runEq E.
Definition insertInto := @slicesx.insertInto E zero.
Definition mergeSortedLists := @slicesx.MergeSorted E zero.
Definition deleteFrom := @slicesx.deleteFrom E zero.
Definition diffSortedLists := @slicesx.DeleteSorted E zero.
Definition uniqEqSlow := @slicesx.uniqEqSlow E zero.
Definition uniqCmpEq := @slicesx.UniqSortedFuncs E zero.
Definition stableSortCmp := @slicesx.StableSortFunc E.
Definition stableSortUniqCmpEq := @slicesx.StableSortUniqFuncs E zero.

(** [NewSortedCmpEqFunc]; the elements are cloned before they are sorted. *)
Definition NewSortedCmpEqFunc (cmp : E → E → Z) (eq : E → E → bool) (elems : list E)
  : run (sorted E) :=
  l ← stableSortUniqCmpEq elems cmp eq;
  Ok (MkSorted l cmp eq).

(** [NewSortedCmpFunc]: the comparison both orders and identifies. *)
Definition NewSortedCmpFunc (cmp : E → E → Z) (elems : list E) : run (sorted E) :=
  NewSortedCmpEqFunc cmp (λ a b, bool_decide (cmp a b = 0)) elems.

Definition search (set : sorted E) (elem : E) : run (Z * bool) :=
  let n := len (elems set) in
  idx ← Search n (λ i, x ← index (elems set) i;
                       Ok (bool_decide (cmp set elem x ≤ 0)));
  r ← while_ret (length (elems set))
    (λ idx, if bool_decide (idx < n)
            then x ← index (elems set) idx; Ok (bool_decide (cmp set elem x = 0))
            else Ok false)
    (λ idx, x ← index (elems set) idx;
            if eq set x elem then Ok (Return (idx, true))
            else Ok (Next (idx + 1)))
    idx;
  match r with
  | Return r => Ok r
  | Next idx => Ok (idx, false)
  end.

Definition Contains (set : sorted E) (elem : E) : run bool :=
  '(_, ok) ← search set elem; Ok ok.

Definition ContainsAll (set : sorted E) (elems : list E) : run bool :=
  r ← for_range_ret elems
    (λ _ e, '(_, ok) ← search set e;
            if negb ok then Ok (Return false) else Ok (Next tt))
    tt;
  match r with
  | Return b => Ok b
  | Next _ => Ok true
  end.

(** [ContainsSet]: another [*sorted[E]] hands over its elements, any other
    set is ranged over until an element is missing. *)
Definition ContainsSet (set : sorted E) (other : Set_ E) : run bool :=
  ContainsAll set (set_Range other).

Definition Insert (set : sorted E) (elem : E) : run (sorted E) :=
  '(idx, found) ← search set elem;
  if found : bool then
    l ← store (elems set) idx elem;
    Ok (MkSorted l (cmp set) (eq set))
  else
    let l := elems set ++ [elem] in
    moved ← slice l idx (len l);
    '(l, _) ← copy l (idx + 1) (len l) moved;
    l ← store l idx elem;
    Ok (MkSorted l (cmp set) (eq set)).

Definition insertAll (set : sorted E) (elems_ : list E) : run (sorted E) :=
  elems_ ← stableSortUniqCmpEq elems_ (cmp set) (eq set);
  l ← mergeSortedLists (elems set) elems_ (cmp set) (eq set);
  Ok (MkSorted l (cmp set) (eq set)).

(** [InsertAll] clones its argument and hands the clone to [insertAll]. *)
Definition InsertAll (set : sorted E) (elems : list E) : run (sorted E) :=
  insertAll set elems.

Definition InsertSet (set : sorted E) (other : Set_ E) : run (sorted E) :=
  if is_receiver other then Ok set
  else insertAll set (set_Elems other).

Definition Remove (set : sorted E) (elem : E) : run (sorted E) :=
  '(idx, found) ← search set elem;
  if negb found then Ok set
  else
    let last := len (elems set) - 1 in
    moved ← slice (elems set) (idx + 1) (len (elems set));
    '(l, _) ← copy (elems set) idx (len (elems set)) moved;
    l ← store l last zero;
    l ← slice l 0 last;
    Ok (MkSorted l (cmp set) (eq set)).

Definition removeAll (set : sorted E) (elems_ : list E) : run (sorted E) :=
  let elems_ := stableSortCmp elems_ (cmp set) in
  l ← diffSortedLists (elems set) elems_ (cmp set) (eq set);
  Ok (MkSorted l (cmp set) (eq set)).

Definition RemoveAll (set : sorted E) (elems : list E) : run (sorted E) :=
  removeAll set elems.

Definition RemoveSet (set : sorted E) (other : Set_ E) : run (sorted E) :=
  removeAll set (set_Elems other).

Definition Intersection (set : sorted E) (other : Set_ E) : run (sorted E) :=
  Ok (MkSorted (filter (λ v, set_Contains other v = true) (elems set))
               (cmp set) (eq set)).

Definition Clone (set : sorted E) : sorted E :=
  MkSorted (elems set) (cmp set) (eq set).

Definition Union (set : sorted E) (other : Set_ E) : run (sorted E) :=
  let v := Clone set in
  insertAll v (set_Elems other).

Definition Difference (set : sorted E) (other : Set_ E) : run (sorted E) :=
  Ok (MkSorted (filter (λ e, set_Contains other e = false) (elems set))
               (cmp set) (eq set)).

Definition SymmetricDifference (set : sorted E) (other : Set_ E) : run (sorted E) :=
  let s := MkSorted (filter (λ e, set_Contains other e = false) (elems set))
                    (cmp set) (eq set) in
  elems_ ← for_range (set_Range other)
    (λ elems_ e, c ← Contains set e;
                 if negb c then Ok (elems_ ++ [e]) else Ok elems_)
    [];
  insertAll s elems_.

Definition Len (set : sorted E) : Z := len (elems set).

(** [Elems] returns a clone of the element slice. *)
Definition Elems (set : sorted E) : list E := elems set.

(** [Range]: the elements the visitor is called with. *)
Fixpoint Range_visits (l : list E) (fn : E → bool) : list E :=
  match l with
  | [] => []
  | v :: l' => if fn v then v :: Range_visits l' fn else [v]
  end.

Definition Range (set : sorted E) (fn : E → bool) : list E :=
  Range_visits (elems set) fn.

End comparator.
End sets.

(** ** The comparator sorted set of the second package *)

Module sets2.
Import Go.

(** What a [View] argument is, as the type switches of the package see it
    once a wrapper is unwrapped by [view()]. *)
Inductive view_kind : Type :=
| IsReceiver      (* the receiver itself *)
| IsOrdered       (* another natural-order set, [*ordered[E]] *)
| IsFuncSorted    (* another comparator set, [*funcSorted[E]] *)
| IsTable         (* a hash-backed set *)
| IsExternal.     (* any other implementation of [View] *)

(** A set behind the [View] interface: its kind, its [Contains], the list
    its [Elems] returns (for a sorted set, its [data()]) and the order in
    which its [Range] visits. *)
Record View_ (E : Type) : Type := MkView {
  kind : view_kind;
  view_Contains : E → bool;
  view_Elems : list E;
  view_Range : list E;
}.
Arguments MkView {E} _ _ _ _.
Arguments kind {E} _.
Arguments view_Contains {E} _.
Arguments view_Elems {E} _.
Arguments view_Range {E} _.

(** [type funcSorted[E any] struct { list []E; cmp func(E, E) int; eq func(E, E) bool }] *)
Record funcSorted (E : Type) : Type := MkFuncSorted {
  list_ : list E;
  cmp : E → E → Z;
  eq : E → E → bool;
}.
Arguments MkFuncSorted {E} _ _ _.
Arguments list_ {E} _.
Arguments cmp {E} _.
Arguments eq {E} _.

Section comparator.
Context {E : Type}.
(** The zero value of [E]. *)
Variable zero : E.

(** [funcSort]: the elements are cloned, sorted and deduplicated. *)
Definition funcSort (elems : list E) (cmp : E → E → Z) (eq : E → E → bool)
  : run (funcSorted E) :=
  l ← slicesx.StableSortUniqFuncs zero elems cmp eq;
  Ok (MkFuncSorted l cmp eq).

(** [NewSortedMutableFuncs], [NewSortedImmutableFuncs] *)
Definition NewSortedFuncs (cmp : E → E → Z) (eq : E → E → bool) (elems : list E)
  : run (funcSorted E) :=
  funcSort elems cmp eq.

(** [NewSortedMutableFunc], [NewSortedImmutableFunc] *)
Definition NewSortedFunc (cmp : E → E → Z) (elems : list E) : run (funcSorted E) :=
  NewSortedFuncs cmp (λ a b, bool_decide (cmp a b = 0)) elems.

Definition clone (s : funcSorted E) : funcSorted E :=
  MkFuncSorted (list_ s) (cmp s) (eq s).

Definition search (s : funcSorted E) (e : E) : run (Z * bool) :=
  '(i, ok) ← BinarySearchFunc (list_ s) e (cmp s);
  if negb ok then Ok (i, false)
  else
    rest ← slice (list_ s) i (len (list_ s));
    r ← for_range_ret (enumerate rest)
      (λ _ '(j, v),
         if bool_decide (cmp s e v ≠ 0) then Ok (Return (i + j, false))
         else if eq s e v then Ok (Return (i + j, true))
         else Ok (Next tt))
      tt;
    match r with
    | Return r => Ok r
    | Next _ => Ok (len (list_ s), false)
    end.

Definition Contains (s : funcSorted E) (e : E) : run bool :=
  '(_, ok) ← search s e; Ok ok.

Definition ContainsAll (s : funcSorted E) (elems : list E) : run bool :=
  r ← for_range_ret elems
    (λ _ e, c ← Contains s e;
            if negb c then Ok (Return false) else Ok (Next tt))
    tt;
  match r with
  | Return b => Ok b
  | Next _ => Ok true
  end.

Definition Len (s : funcSorted E) : Z := len (list_ s).

Definition ContainsSet (s : funcSorted E) (other : View_ E) : run bool :=
  if bool_decide (len (view_Elems other) > len (list_ s)) then Ok false
  else
    match kind other with
    | IsReceiver => ContainsAll s (list_ s)
    | IsFuncSorted => ContainsAll s (view_Elems other)
    | _ => ContainsAll s (view_Range other)
    end.

(** [Elems] returns a clone of the element slice. *)
Definition Elems (s : funcSorted E) : list E := list_ s.

Definition Range (s : funcSorted E) (fn : E → bool) : list E :=
  sets.Range_visits (list_ s) fn.

Definition insert (s : funcSorted E) (e : E) : run (funcSorted E) :=
  '(i, ok) ← search s e;
  if ok : bool then
    l ← store (list_ s) i e;
    Ok (MkFuncSorted l (cmp s) (eq s))
  else
    let l := list_ s ++ [e] in
    moved ← slice l i (len l);
    '(l, _) ← copy l (i + 1) (len l) moved;
    l ← store l i e;
    Ok (MkFuncSorted l (cmp s) (eq s)).

Definition insertAll (s : funcSorted E) (unsorted : list E) : run (funcSorted E) :=
  sorted ← slicesx.StableSortUniqFuncs zero unsorted (cmp s) (eq s);
  l ← slicesx.MergeSorted zero (list_ s) sorted (cmp s) (eq s);
  Ok (MkFuncSorted l (cmp s) (eq s)).

Definition insertSet (s : funcSorted E) (other : View_ E) : run (funcSorted E) :=
  match kind other with
  | IsReceiver => Ok s
  | _ => insertAll s (view_Elems other)
  end.

Definition remove (s : funcSorted E) (e : E) : run (funcSorted E) :=
  '(i, ok) ← search s e;
  if negb ok then Ok s
  else
    let k := len (list_ s) - 1 in
    moved ← slice (list_ s) (i + 1) (len (list_ s));
    '(l, _) ← copy (list_ s) i (len (list_ s)) moved;
    l ← clear zero l k;
    l ← slice l 0 k;
    Ok (MkFuncSorted l (cmp s) (eq s)).

Definition removeAll (s : funcSorted E) (unsorted : list E) : run (funcSorted E) :=
  l ← slicesx.DeleteSorted zero (list_ s)
         (slicesx.StableSortFunc unsorted (cmp s)) (cmp s) (eq s);
  Ok (MkFuncSorted l (cmp s) (eq s)).

Definition removeSet (s : funcSorted E) (other : View_ E) : run (funcSorted E) :=
  match kind other with
  | IsReceiver =>
      l ← clear zero (list_ s) 0;
      l ← slice l 0 0;
      Ok (MkFuncSorted l (cmp s) (eq s))
  | _ => removeAll s (view_Elems other)
  end.

Definition intersection (s : funcSorted E) (other : View_ E) : funcSorted E :=
  MkFuncSorted (filter (λ v, view_Contains other v = true) (list_ s))
               (cmp s) (eq s).

Definition union (s : funcSorted E) (other : View_ E) : run (funcSorted E) :=
  let out := clone s in
  match kind other with
  | IsReceiver => insertAll out (list_ s)
  | _ => insertAll out (view_Elems other)
  end.

Definition difference (s : funcSorted E) (other : View_ E) : funcSorted E :=
  MkFuncSorted (filter (λ v, view_Contains other v = false) (list_ s))
               (cmp s) (eq s).

Definition symmetricDifference (s : funcSorted E) (other : View_ E)
  : run (funcSorted E) :=
  let out := MkFuncSorted (filter (λ v, view_Contains other v = false) (list_ s))
                          (cmp s) (eq s) in
  elems ← for_range (view_Range other)
    (λ elems e, c ← Contains s e;
                if negb c then Ok (elems ++ [e]) else Ok elems)
    [];
  insertAll out elems.

(** The public operations of the mutable wrappers [varFuncSorted] and
    [varFuncOrdered]: [InsertAll] and [RemoveAll] clone their arguments. *)
Definition Insert := insert.
Definition InsertAll := insertAll.
Definition InsertSet := insertSet.
Definition Remove := remove.
Definition RemoveAll := removeAll.
Definition RemoveSet := removeSet.

End comparator.
End sets2.

(** ** [sorted.go]: the natural-order sorted set of the first package

    The element type is instantiated at the integers, with [cmp.Compare]
    and the operators [<], [>], [==] of Go. *)

Module ordered.
Import Go.

(** What a [Set] argument is, as the type switches of the methods see it. *)
Inductive set_kind : Type :=
| IsReceiver    (* the receiver itself, an [*ordered[E]] *)
| IsOrdered     (* another [*ordered[E]] *)
| IsOther.      (* a [table[E]], a [*sorted[E]] or any other [Set] *)

(** A set behind the [Set] interface: its kind, its [Contains], the list
    its [Elems] returns (for an [*ordered[E]], its [elems]) and the order
    in which it is ranged over. *)
Record Set_ : Type := MkSet {
  kind : set_kind;
  set_Contains : Z → bool;
  set_Elems : list Z;
  set_Range : list Z;
}.

(** [type ordered[E cmp.Ordered] struct { elems []E }] *)
Record ordered : Type := MkOrdered { elems : list Z }.

Definition mergeUniqSortedLists := slicesx.MergeSortedUniq.
Definition diffUniqSortedLists := slicesx.DeleteSortedUniq.

(** [stableSort]: [slices.SortStableFunc(list, cmp.Compare[E])] *)
Definition stableSort (l : list Z) : list Z := SortStableFunc Compare l.

(** [uniq]: [slices.Compact], the vacated tail zeroed and cut off. *)
Definition uniq (l : list Z) : list Z := Compact l.

(** [NewSorted] *)
Definition NewSorted (elems : list Z) : ordered :=
  MkOrdered (uniq (stableSort elems)).

Definition search (set : ordered) (elem : Z) : run (Z * bool) :=
  let n := len (elems set) in
  idx ← Search n (λ i, x ← index (elems set) i; Ok (bool_decide (elem ≤ x)));
  if bool_decide (idx < n)
  then x ← index (elems set) idx; Ok (idx, bool_decide (elem = x))
  else Ok (idx, false).

Definition Contains (set : ordered) (elem : Z) : run bool :=
  '(_, ok) ← search set elem; Ok ok.

Definition ContainsAll (set : ordered) (elems : list Z) : run bool :=
  r ← for_range_ret elems
    (λ _ e, '(_, ok) ← search set e;
            if negb ok then Ok (Return false) else Ok (Next tt))
    tt;
  match r with
  | Return b => Ok b
  | Next _ => Ok true
  end.

(** [ContainsSet]: against another [*ordered[E]] both lists are walked in
    step; any other set is gone through element by element. *)
Definition ContainsSet (set : ordered) (other : Set_) : run bool :=
  match kind other with
  | IsOther => ContainsAll set (set_Range other)
  | _ =>
      let a := elems set in
      let b := match kind other with IsReceiver => elems set | _ => set_Elems other end in
      let an := len a in
      let bn := len b in
      r ← while_ret (length a + length b)
        (λ '(ai, bi), Ok (bool_decide (ai < an) && bool_decide (bi < bn)))
        (λ '(ai, bi),
           av ← index a ai;
           bv ← index b bi;
           if bool_decide (av < bv) then Ok (Next (ai + 1, bi))
           else if bool_decide (av = bv) then Ok (Next (ai + 1, bi + 1))
           else Ok (Return false))
        (0, 0);
      match r with
      | Return ok => Ok ok
      | Next (_, bi) => Ok (bool_decide (bi = bn))
      end
  end.

Definition Insert (set : ordered) (elem : Z) : run ordered :=
  '(idx, found) ← search set elem;
  if found : bool then
    l ← store (elems set) idx elem;
    Ok (MkOrdered l)
  else
    let l := elems set ++ [elem] in
    moved ← slice l idx (len l);
    '(l, _) ← copy l (idx + 1) (len l) moved;
    l ← store l idx elem;
    Ok (MkOrdered l).

Definition insertAll (set : ordered) (elems_ : list Z) : run ordered :=
  let elems_ := uniq (stableSort elems_) in
  l ← mergeUniqSortedLists (elems set) elems_;
  Ok (MkOrdered l).

(** [InsertAll] clones its argument and hands the clone to [insertAll]. *)
Definition InsertAll (set : ordered) (elems : list Z) : run ordered :=
  insertAll set elems.

Definition InsertSet (set : ordered) (other : Set_) : run ordered :=
  match kind other with
  | IsReceiver => Ok set
  | _ => insertAll set (set_Elems other)
  end.

Definition Remove (set : ordered) (elem : Z) : run ordered :=
  '(idx, found) ← search set elem;
  if negb found then Ok set
  else
    let last := len (elems set) - 1 in
    moved ← slice (elems set) (idx + 1) (len (elems set));
    '(l, _) ← copy (elems set) idx (len (elems set)) moved;
    l ← store l last 0;
    l ← slice l 0 last;
    Ok (MkOrdered l).

Definition removeAll (set : ordered) (elems_ : list Z) : run ordered :=
  let elems_ := stableSort elems_ in
  l ← diffUniqSortedLists (elems set) elems_;
  Ok (MkOrdered l).

Definition RemoveAll (set : ordered) (elems : list Z) : run ordered :=
  removeAll set elems.

Definition RemoveSet (set : ordered) (other : Set_) : run ordered :=
  match kind other with
  | IsReceiver => l ← diffUniqSortedLists (elems set) (elems set); Ok (MkOrdered l)
  | IsOrdered => l ← diffUniqSortedLists (elems set) (set_Elems other); Ok (MkOrdered l)
  | IsOther => removeAll set (set_Elems other)
  end.

(** The loop shared by the four operations of set algebra against another
    [*ordered[E]]: both lists are walked in step, and each of the three
    cases says whether its element is appended to the result. *)
Definition walk (a b : list Z) (keep_lt keep_gt keep_eq : bool)
  : run (Z * Z * list Z) :=
  let an := len a in
  let bn := len b in
  while (length a + length b)
    (λ '(ai, bi, out), bool_decide (ai < an) && bool_decide (bi < bn))
    (λ '(ai, bi, out),
       av ← index a ai;
       bv ← index b bi;
       if bool_decide (av < bv)
       then Ok (ai + 1, bi, if keep_lt then out ++ [av] else out)
       else if bool_decide (av > bv)
       then Ok (ai, bi + 1, if keep_gt then out ++ [bv] else out)
       else Ok (ai + 1, bi + 1, if keep_eq then out ++ [av] else out))
    (0, 0, []).

(** The list of the other operand when it is an [*ordered[E]]. *)
Definition ordered_elems (set : ordered) (other : Set_) : option (list Z) :=
  match kind other with
  | IsReceiver => Some (elems set)
  | IsOrdered => Some (set_Elems other)
  | IsOther => None
  end.

Definition Intersection (set : ordered) (other : Set_) : run ordered :=
  match ordered_elems set other with
  | Some b =>
      '(_, _, out) ← walk (elems set) b false false true;
      Ok (MkOrdered out)
  | None =>
      Ok (MkOrdered (filter (λ e, set_Contains other e = true) (elems set)))
  end.

Definition Union (set : ordered) (other : Set_) : run ordered :=
  match ordered_elems set other with
  | Some b =>
      let a := elems set in
      '(ai, bi, out) ← walk a b true true true;
      rest_a ← slice a ai (len a);
      rest_b ← slice b bi (len b);
      Ok (MkOrdered ((out ++ rest_a) ++ rest_b))
  | None =>
      let elems_ := stableSort (set_Elems other) in
      l ← mergeUniqSortedLists elems_ (elems set);
      Ok (MkOrdered l)
  end.

Definition Difference (set : ordered) (other : Set_) : run ordered :=
  match ordered_elems set other with
  | Some b =>
      let a := elems set in
      '(ai, _, out) ← walk a b true false false;
      rest_a ← slice a ai (len a);
      Ok (MkOrdered (out ++ rest_a))
  | None =>
      Ok (MkOrdered (filter (λ e, set_Contains other e = false) (elems set)))
  end.

Definition SymmetricDifference (set : ordered) (other : Set_) : run ordered :=
  match ordered_elems set other with
  | Some b =>
      let a := elems set in
      '(ai, bi, out) ← walk a b true true false;
      rest_a ← slice a ai (len a);
      rest_b ← slice b bi (len b);
      Ok (MkOrdered ((out ++ rest_a) ++ rest_b))
  | None =>
      let s := MkOrdered (filter (λ e, set_Contains other e = false) (elems set)) in
      elems_ ← for_range (set_Range other)
        (λ elems_ e, c ← Contains set e;
                     if negb c then Ok (elems_ ++ [e]) else Ok elems_)
        [];
      insertAll s elems_
  end.

Definition Len (set : ordered) : Z := len (elems set).

(** [Elems] returns a clone of the element slice. *)
Definition Elems (set : ordered) : list Z := elems set.

(** [Range]: the elements the visitor is called with. *)
Definition Range (set : ordered) (fn : Z → bool) : list Z :=
  sets.Range_visits (elems set) fn.

Definition Clone (set : ordered) : ordered := MkOrdered (elems set).

End ordered.

(** ** The natural-order sorted set of the second package *)

Module ordered2.
Import Go.
Import sets2 (view_kind, IsReceiver, IsOrdered, IsFuncSorted, IsTable, IsExternal,
              View_, kind, view_Contains, view_Elems, view_Range).

(** [type ordered[E cmp.Ordered] struct { list []E }] *)
Record ordered : Type := MkOrdered { list_ : list Z }.

(** [order]: the elements are cloned, sorted and compacted. *)
Definition order (elems : list Z) : ordered :=
  MkOrdered (Compact (SortStableFunc Compare elems)).

(** [NewSortedMutable], [NewSortedImmutable] *)
Definition NewSorted (elems : list Z) : ordered := order elems.

Definition Contains (s : ordered) (e : Z) : run bool :=
  '(_, ok) ← BinarySearch (list_ s) e; Ok ok.

Definition ContainsAll (s : ordered) (elems : list Z) : run bool :=
  r ← for_range_ret elems
    (λ _ e, c ← Contains s e;
            if negb c then Ok (Return false) else Ok (Next tt))
    tt;
  match r with
  | Return b => Ok b
  | Next _ => Ok true
  end.

Definition Len (s : ordered) : Z := len (list_ s).

(** [ContainsSet]: a longer set is not contained; against another
    [*ordered[E]] both lists are walked in step; a comparator set hands
    over its list, and a hash-backed or any other set is ranged over until
    an element is missing. *)
Definition ContainsSet (s : ordered) (other : View_ Z) : run bool :=
  if bool_decide (len (view_Elems other) > len (list_ s)) then Ok false
  else
    match kind other with
    | IsTable => ContainsAll s (view_Range other)
    | IsFuncSorted => ContainsAll s (view_Elems other)
    | IsExternal => ContainsAll s (view_Range other)
    | _ =>
        let a := list_ s in
        let b := match kind other with IsReceiver => list_ s | _ => view_Elems other end in
        let an := len a in
        let bn := len b in
        r ← while_ret (length a + length b)
          (λ '(ai, bi), Ok (bool_decide (ai < an) && bool_decide (bi < bn)))
          (λ '(ai, bi),
             av ← index a ai;
             bv ← index b bi;
             if bool_decide (av < bv) then Ok (Next (ai + 1, bi))
             else if bool_decide (av = bv) then Ok (Next (ai + 1, bi + 1))
             else Ok (Return false))
          (0, 0);
        match r with
        | Return ok => Ok ok
        | Next (_, bi) => Ok (bool_decide (bi = bn))
        end
    end.

(** [Elems] returns a clone of the element slice. *)
Definition Elems (s : ordered) : list Z := list_ s.

(** [Range]: the elements the visitor is called with. *)
Definition Range (s : ordered) (fn : Z → bool) : list Z :=
  sets.Range_visits (list_ s) fn.

Definition insert (s : ordered) (e : Z) : run ordered :=
  let l := list_ s in
  '(i, ok) ← BinarySearch l e;
  if ok : bool then
    l ← store l i e;
    Ok (MkOrdered l)
  else
    let l := l ++ [e] in
    moved ← slice l i (len l);
    '(l, _) ← copy l (i + 1) (len l) moved;
    l ← store l i e;
    Ok (MkOrdered l).

Definition insertAll (s : ordered) (unsorted : list Z) : run ordered :=
  let unsorted := SortStableFunc Compare unsorted in
  l ← slicesx.MergeSortedUniq (list_ s) (Compact unsorted);
  Ok (MkOrdered l).

(** [insertSet]: the list of another [*ordered[E]] is merged as it is; the
    elements of any other [SortedView[E]], which a comparator set is, are
    compacted and merged without being sorted; the elements of any other
    view go through [insertAll]. *)
Definition insertSet (s : ordered) (other : View_ Z) : run ordered :=
  match kind other with
  | IsReceiver =>
      l ← slicesx.MergeSortedUniq (list_ s) (list_ s); Ok (MkOrdered l)
  | IsOrdered =>
      l ← slicesx.MergeSortedUniq (list_ s) (view_Elems other); Ok (MkOrdered l)
  | IsFuncSorted =>
      l ← slicesx.MergeSortedUniq (list_ s) (Compact (view_Elems other));
      Ok (MkOrdered l)
  | _ => insertAll s (view_Elems other)
  end.

Definition remove (s : ordered) (e : Z) : run ordered :=
  let l := list_ s in
  '(i, ok) ← BinarySearch l e;
  if negb ok then Ok s
  else
    let k := len l - 1 in
    moved ← slice l (i + 1) (len l);
    '(l, _) ← copy l i (len l) moved;
    l ← clear 0 l k;
    l ← slice l 0 k;
    Ok (MkOrdered l).

Definition removeAll (s : ordered) (unsorted : list Z) : run ordered :=
  let unsorted := SortStableFunc Compare unsorted in
  l ← slicesx.DeleteSortedUniq (list_ s) (Compact unsorted);
  Ok (MkOrdered l).

Definition removeSet (s : ordered) (other : View_ Z) : run ordered :=
  let elems :=
    match kind other with
    | IsReceiver => list_ s
    | IsOrdered => view_Elems other
    | IsFuncSorted => Compact (view_Elems other)
    | _ => Compact (SortStableFunc Compare (view_Elems other))
    end in
  l ← slicesx.DeleteSortedUniq (list_ s) elems;
  Ok (MkOrdered l).

(** The list of the other operand when it is an [*ordered[E]]. *)
Definition ordered_list (s : ordered) (other : View_ Z) : option (list Z) :=
  match kind other with
  | IsReceiver => Some (list_ s)
  | IsOrdered => Some (view_Elems other)
  | _ => None
  end.

(** The loop of the four operations of set algebra against another
    [*ordered[E]] is the one of the first package. *)
Definition walk := ordered.walk.

Definition intersection (s : ordered) (other : View_ Z) : run ordered :=
  match ordered_list s other with
  | Some b =>
      '(_, _, out) ← walk (list_ s) b false false true;
      Ok (MkOrdered out)
  | None =>
      Ok (MkOrdered (filter (λ e, view_Contains other e = true) (list_ s)))
  end.

Definition union (s : ordered) (other : View_ Z) : run ordered :=
  match ordered_list s other with
  | Some b =>
      let a := list_ s in
      '(ai, bi, out) ← walk a b true true true;
      rest_a ← slice a ai (len a);
      rest_b ← slice b bi (len b);
      Ok (MkOrdered ((out ++ rest_a) ++ rest_b))
  | None =>
      let l := SortStableFunc Compare (view_Elems other) in
      l ← slicesx.MergeSortedUniq (Compact l) (list_ s);
      Ok (MkOrdered l)
  end.

Definition difference (s : ordered) (other : View_ Z) : run ordered :=
  match ordered_list s other with
  | Some b =>
      let a := list_ s in
      '(ai, _, out) ← walk a b true false false;
      rest_a ← slice a ai (len a);
      Ok (MkOrdered (out ++ rest_a))
  | None =>
      Ok (MkOrdered (filter (λ e, view_Contains other e = false) (list_ s)))
  end.

Definition symmetricDifference (s : ordered) (other : View_ Z) : run ordered :=
  match ordered_list s other with
  | Some b =>
      let a := list_ s in
      '(ai, bi, out) ← walk a b true true false;
      rest_a ← slice a ai (len a);
      rest_b ← slice b bi (len b);
      Ok (MkOrdered ((out ++ rest_a) ++ rest_b))
  | None =>
      let l := filter (λ e, view_Contains other e = false) (list_ s) in
      b ← for_range (view_Range other)
        (λ b e, c ← Contains s e;
                if negb c then Ok (b ++ [e]) else Ok b)
        [];
      let b := SortStableFunc Compare b in
      l ← slicesx.MergeSortedUniq l (Compact b);
      Ok (MkOrdered l)
  end.

Definition clone (s : ordered) : ordered := MkOrdered (list_ s).

(** The public operations of the mutable wrappers [varSorted] and
    [varOrdered]: [InsertAll] and [RemoveAll] clone their arguments. *)
Definition Insert := insert.
Definition InsertAll := insertAll.
Definition InsertSet := insertSet.
Definition Remove := remove.
Definition RemoveAll := removeAll.
Definition RemoveSet := removeSet.

End ordered2.

(** ** The hash-backed set of [set.go] *)

Module table.
Import Go.

(** [type table[E comparable] map[E]struct{}] *)
Abbreviation table E := (gset E) (only parsing).

Section table.
Context `{Countable E}.

(** A set behind the [Set] interface, as the type switches of the methods
    see it.  An operand that is ranged over carries the order in which its
    elements come: for a table the order in which the runtime ranges over
    its keys in this call. *)
Inductive Set_ : Type :=
| Receiver (keys : list E)                       (* the receiver itself *)
| Table (m : table E) (keys : list E)              (* another [table[E]] *)
| Sorted (elems : list E) (contains : E → bool)  (* a [*sorted[E]] *)
| Other (contains : E → bool) (range : list E).  (* any other [Set] *)

(** [other.Contains(e)]; for a table this is the lookup [other[e]]. *)
Definition other_Contains (set : table E) (other : Set_) (e : E) : bool :=
  match other with
  | Receiver _ => bool_decide (e ∈ set)
  | Table m _ => bool_decide (e ∈ m)
  | Sorted _ contains => contains e
  | Other contains _ => contains e
  end.

(** The elements that ranging over the operand yields: the keys of a
    table, the [elems] of a [*sorted[E]], the elements [Range] passes. *)
Definition visits (other : Set_) : list E :=
  match other with
  | Receiver keys => keys
  | Table _ keys => keys
  | Sorted elems _ => elems
  | Other _ range => range
  end.

(** [New] *)
Definition New (elems : list E) : table E :=
  foldl (λ set elem, {[elem]} ∪ set) ∅ elems.

Definition Contains (set : table E) (elem : E) : bool := bool_decide (elem ∈ set).

Definition ContainsAll (set : table E) (elems : list E) : bool :=
  forallb (λ e, bool_decide (e ∈ set)) elems.

(** [ContainsSet]: the operand is ranged over until an element is
    missing. *)
Definition ContainsSet (set : table E) (other : Set_) : bool :=
  forallb (λ e, bool_decide (e ∈ set)) (visits other).

Definition Insert (set : table E) (elem : E) : table E := {[elem]} ∪ set.

Definition InsertAll (set : table E) (elems : list E) : table E :=
  foldl Insert set elems.

(** A loop [for e := range m] whose body changes [m] itself: a key that
    was deleted before it is reached is not visited.  No body of the
    package creates a key in the map it ranges over. *)
Definition range_live (keys : list E) (body : table E → E → table E) (m : table E)
  : table E :=
  foldl (λ m e, if bool_decide (e ∈ m) then body m e else m) m keys.

Definition InsertSet (set : table E) (other : Set_) : table E :=
  match other with
  | Receiver keys => range_live keys Insert set
  | _ => foldl Insert set (visits other)
  end.

Definition Remove (set : table E) (elem : E) : table E := set ∖ {[elem]}.

Definition RemoveAll (set : table E) (elems : list E) : table E :=
  foldl Remove set elems.

Definition RemoveSet (set : table E) (other : Set_) : table E :=
  match other with
  | Receiver keys => range_live keys Remove set
  | _ => foldl Remove set (visits other)
  end.

Definition Intersection (set : table E) (other : Set_) : table E :=
  foldl (λ s e, if bool_decide (e ∈ set) then Insert s e else s) ∅ (visits other).

(** [Clone]: [maps.Clone(set)] *)
Definition Clone (set : table E) : table E := set.

(** [Union]: the clone of the receiver is another map than any operand,
    the receiver included. *)
Definition Union (set : table E) (other : Set_) : table E :=
  InsertSet (Clone set)
    match other with
    | Receiver keys => Table set keys
    | _ => other
    end.

(** [Difference]; [keys] is the order in which the receiver is ranged
    over. *)
Definition Difference (set : table E) (keys : list E) (other : Set_) : table E :=
  foldl (λ s e, if negb (other_Contains set other e) then Insert s e else s)
        ∅ keys.

Definition SymmetricDifference (set : table E) (keys : list E) (other : Set_)
  : table E :=
  let s := foldl (λ s e, if negb (other_Contains set other e)
                         then Insert s e else s) ∅ keys in
  foldl (λ s e, if negb (bool_decide (e ∈ set)) then Insert s e else s)
        s (visits other).

Definition Len (set : table E) : Z := Z.of_nat (size set).

(** [Elems]: [maps.Keys(set)], the keys in the order in which the runtime
    ranges over the map. *)
Definition Elems (set : table E) (keys : list E) : list E := keys.

(** [Range]: the elements the visitor is called with. *)
Definition Range (set : table E) (keys : list E) (fn : E → bool) : list E :=
  sets.Range_visits keys fn.

End table.
Arguments Set_ E {_ _}.
End table.

(** ** The hash-backed set of the second package *)

Module table2.
Import Go.

Section table.
Context `{Countable E}.

(** [type table[E comparable] struct { tbl map[E]struct{} }] *)
Record table : Type := MkTable { tbl : gset E }.

(** A set behind the [View] interface, as the type switches of the methods
    see it: a [tableView[E]] hands over its map, a [listView[E]] (a sorted
    set) its list, any other view is ranged over.  A table carries the
    order in which the runtime ranges over its keys in this call. *)
Inductive View_ : Type :=
| Receiver (keys : list E)                          (* the receiver itself *)
| Table (m : gset E) (keys : list E)                (* another table *)
| List (data : list E) (contains : E → bool)        (* a sorted set *)
| Other (contains : E → bool) (range : list E) (len : Z).  (* any other view *)

(** [other.Contains(e)]; for a table this is the lookup in its map. *)
Definition other_Contains (s : table) (other : View_) (e : E) : bool :=
  match other with
  | Receiver _ => bool_decide (e ∈ tbl s)
  | Table m _ => bool_decide (e ∈ m)
  | List _ contains => contains e
  | Other contains _ _ => contains e
  end.

(** [other.Len()] *)
Definition other_Len (s : table) (other : View_) : Z :=
  match other with
  | Receiver _ => Z.of_nat (size (tbl s))
  | Table m _ => Z.of_nat (size m)
  | List data _ => len data
  | Other _ _ n => n
  end.

(** The elements that ranging over the operand yields. *)
Definition visits (other : View_) : list E :=
  match other with
  | Receiver keys => keys
  | Table _ keys => keys
  | List data _ => data
  | Other _ range _ => range
  end.

Definition newTable (elems : list E) : table :=
  MkTable (foldl (λ t e, {[e]} ∪ t) ∅ elems).

(** [NewImmutable], [NewMutable] *)
Definition New (elems : list E) : table := newTable elems.

Definition clone (s : table) : table := MkTable (tbl s).

Definition Contains (s : table) (elem : E) : bool := bool_decide (elem ∈ tbl s).

Definition ContainsAll (s : table) (elems : list E) : bool :=
  forallb (λ e, bool_decide (e ∈ tbl s)) elems.

Definition Len (s : table) : Z := Z.of_nat (size (tbl s)).

(** [ContainsSet]: a longer set is not contained; otherwise the operand is
    ranged over until an element is missing. *)
Definition ContainsSet (s : table) (other : View_) : bool :=
  if bool_decide (other_Len s other > Len s) then false
  else forallb (λ e, bool_decide (e ∈ tbl s)) (visits other).

(** [Elems]: [maps.Keys(s.tbl)], the keys in the order in which the
    runtime ranges over the map. *)
Definition Elems (s : table) (keys : list E) : list E := keys.

Definition Range (s : table) (keys : list E) (fn : E → bool) : list E :=
  sets.Range_visits keys fn.

Definition intersection (s : table) (other : View_) : table :=
  MkTable (foldl (λ t e, if bool_decide (e ∈ tbl s) then {[e]} ∪ t else t)
                 ∅ (visits other)).

(** [union]: the operand is ranged over into a clone of the map. *)
Definition union (s : table) (other : View_) : table :=
  MkTable (foldl (λ t e, {[e]} ∪ t) (tbl s) (visits other)).

(** [difference]; [keys] is the order in which the receiver is ranged
    over. *)
Definition difference (s : table) (keys : list E) (other : View_) : table :=
  MkTable (foldl (λ t e, if negb (other_Contains s other e)
                         then {[e]} ∪ t else t) ∅ keys).

(** [symmetricDifference]: against a sorted set the list of the operand is
    gone through first, otherwise the map of the receiver. *)
Definition symmetricDifference (s : table) (keys : list E) (other : View_)
  : table :=
  let own t0 :=
    foldl (λ t e, if negb (other_Contains s other e) then {[e]} ∪ t else t)
          t0 keys in
  let theirs t0 :=
    foldl (λ t e, if negb (bool_decide (e ∈ tbl s)) then {[e]} ∪ t else t)
          t0 (visits other) in
  match other with
  | List _ _ => MkTable (own (theirs ∅))
  | _ => MkTable (theirs (own ∅))
  end.

(** The mutable wrapper [varTable]. *)
Definition Insert (s : table) (elem : E) : table := MkTable ({[elem]} ∪ tbl s).

Definition InsertAll (s : table) (elems : list E) : table :=
  foldl Insert s elems.

(** A loop over the map whose body changes the map itself: a key that was
    deleted before it is reached is not visited.  No body of the package
    creates a key in the map it ranges over. *)
Definition range_live (keys : list E) (body : table → E → table) (s : table)
  : table :=
  foldl (λ s e, if bool_decide (e ∈ tbl s) then body s e else s) s keys.

Definition InsertSet (s : table) (other : View_) : table :=
  match other with
  | Receiver keys => range_live keys Insert s
  | _ => foldl Insert s (visits other)
  end.

Definition Remove (s : table) (elem : E) : table := MkTable (tbl s ∖ {[elem]}).

Definition RemoveAll (s : table) (elems : list E) : table :=
  foldl Remove s elems.

Definition RemoveSet (s : table) (other : View_) : table :=
  match other with
  | Receiver keys => range_live keys Remove s
  | _ => foldl Remove s (visits other)
  end.

End table.
Arguments table E {_ _}.
Arguments MkTable {E _ _} _.
Arguments View_ E {_ _}.
End table2.

Module Spec.
Import Go slicesx.
Section vocabulary.
Context {E : Type}.

(** What [insertInto] computes: each scheduled element is placed in front
    of the element of [a] that stands at its position; [pos] is the
    position in the original array of the head of [a]. *)
Fixpoint weave (a : list E) (pos : Z) (inserts : list (insert E)) : list E :=
  match inserts with
  | [] => a
  | ins :: inserts' =>
      let n := Z.to_nat (ins_i ins - pos) in
      take n a ++ ins_e ins :: weave (drop n a) (ins_i ins) inserts'
  end.

(** Scheduled positions never decrease and stay within [lo, hi]. *)
Fixpoint positions_ok (lo hi : Z) (inserts : list (insert E)) : Prop :=
  match inserts with
  | [] => lo ≤ hi
  | ins :: inserts' => lo ≤ ins_i ins ∧ positions_ok (ins_i ins) hi inserts'
  end.

End vocabulary.
End Spec.

Module InsertIntoLoop.
Import Go slicesx Spec.
Section loop.
Context {E : Type}.
Implicit Types a junk rest : list E.
Implicit Types inserts : list (insert E).

Definition insert_body : list E * Z * Z → insert E → run (list E * Z * Z) :=
  λ '(a, i, k) ins,
    let x := ins_i ins in
    let n := i - x in
    src ← slice a x (x + n);
    '(a, _) ← copy a (k - n) k src;
    let i := x in
    let k := k - (n + 1) in
    a ← store a k (ins_e ins);
    Ok (a, i, k).

End loop.
End InsertIntoLoop.

Module Spec2.
Import Go slicesx.
Section vocabulary.
Context {E : Type}.

(** What [deleteFrom] computes: the array without the elements at the
    given positions; [pos] is the position in the original array of the
    head of [a]. *)
Fixpoint cut (a : list E) (pos : Z) (deletes : list Z) : list E :=
  match deletes with
  | [] => a
  | d :: deletes' =>
      take (Z.to_nat (d - pos)) a
      ++ cut (drop (Z.to_nat (d - pos + 1)) a) (d + 1) deletes'
  end.

(** Deleted positions strictly increase and stay within [lo, hi). *)
Fixpoint deletes_ok (lo hi : Z) (deletes : list Z) : Prop :=
  match deletes with
  | [] => lo ≤ hi
  | d :: deletes' => lo ≤ d ∧ deletes_ok (d + 1) hi deletes'
  end.

End vocabulary.
End Spec2.

Module DeleteFromLoop.
Import Go slicesx Spec Spec2.
Section loop.
Context {E : Type}.
Implicit Types a K G T : list E.
Implicit Types deletes : list Z.

Definition delete_body : list E * Z * Z → Z → run (list E * Z * Z) :=
  λ '(a, dst, src) end_,
    kept ← slice a src end_;
    '(a, c) ← copy a dst (len a) kept;
    Ok (a, dst + c, end_ + 1).

End loop.
End DeleteFromLoop.

Module Spec3.
Import Go slicesx Spec Spec2.
Section vocabulary.
Context {E : Type}.

(** The reconciliation of a run [br] of B with the window [w] of A that
    has the same order key: an element of [br] overwrites the first element
    of the window with its identity, or is scheduled for insertion at
    position [at_]. *)
Definition reconcile (eq : E → E → bool) (at_ : Z)
    (st : list E * list (insert E)) (be : E) : list E * list (insert E) :=
  match IndexFunc st.1 (λ ae, eq be ae) with
  | Some i => (<[i := be]> st.1, st.2)
  | None => (st.1, st.2 ++ [Insert at_ be])
  end.

Definition merge_run (eq : E → E → bool) (at_ : Z) (w br : list E)
    (inserts : list (insert E)) : list E * list (insert E) :=
  foldl (reconcile eq at_) (w, inserts) br.

(** The positions of the window [ar] whose element has its identity in [br]. *)
Definition delete_run (eq : E → E → bool) (ai : Z) (ar br : list E)
    (deletes : list Z) : list Z :=
  foldl (λ deletes '(i, ae),
           if ContainsFunc br (λ be, eq ae be)
           then deletes ++ [ai + i] else deletes)
        deletes (enumerate ar).

End vocabulary.
End Spec3.

Module MergeLoop.
Import Go slicesx Spec Spec2 Spec3 InsertIntoLoop.
Section loop.
Context {E : Type}.
Variable cmp : E → E → Z.
Variable eq : E → E → bool.
Implicit Types a b p w r : list E.
Implicit Types inserts : list (insert E).

Definition merge_state : Type := list E * Z * Z * list (insert E).

Definition merge_cond (an bn : Z) : merge_state → bool :=
  λ '(a, ai, bi, inserts), bool_decide (ai < an) && bool_decide (bi < bn).

Definition merge_body (b : list E) : merge_state → run merge_state :=
  λ '(a, ai, bi, inserts),
    av ← index a ai;
    bv ← index b bi;
    let c := cmp av bv in
    if bool_decide (c < 0) then Ok (a, ai + 1, bi, inserts)
    else if bool_decide (c > 0) then Ok (a, ai, bi + 1, inserts ++ [Insert ai bv])
    else
      a_rest ← slice a ai (len a);
      b_rest ← slice b bi (len b);
      let ar_len := len (runEq a_rest cmp) in
      let br := runEq b_rest cmp in
      let ar_lo := ai in
      let ai := ai + ar_len in
      '(a, inserts) ← for_range br
        (λ '(a, inserts) be,
           match IndexFunc (view a ar_lo ar_len) (λ ae, eq be ae) with
           | Some i => a ← store a (ar_lo + Z.of_nat i) be; Ok (a, inserts)
           | None => Ok (a, inserts ++ [Insert ai be])
           end)
        (a, inserts);
      Ok (a, ai, bi + len br, inserts).

(** One round of the loop, with the arrays split at the two cursors. *)
Inductive merge_step (b : list E) : merge_state → merge_state → Prop :=
| merge_step_lt p av ra q bv rb inserts :
    b = q ++ bv :: rb → cmp av bv < 0 →
    merge_step b (p ++ av :: ra, len p, len q, inserts)
                 (p ++ av :: ra, len p + 1, len q, inserts)
| merge_step_gt p av ra q bv rb inserts :
    b = q ++ bv :: rb → cmp av bv > 0 →
    merge_step b (p ++ av :: ra, len p, len q, inserts)
                 (p ++ av :: ra, len p, len q + 1, inserts ++ [Insert (len p) bv])
| merge_step_eq p av ra ar ra' q bv rb br rb' inserts :
    b = q ++ bv :: rb → cmp av bv = 0 →
    ar = runEq (av :: ra) cmp → av :: ra = ar ++ ra' →
    br = runEq (bv :: rb) cmp → bv :: rb = br ++ rb' →
    ar ≠ [] → br ≠ [] →
    merge_step b (p ++ av :: ra, len p, len q, inserts)
                 (p ++ (merge_run eq (len p + len ar) ar br inserts).1 ++ ra',
                  len p + len ar, len q + len br,
                  (merge_run eq (len p + len ar) ar br inserts).2).

(** The bounds the loop maintains, whatever [cmp] and [eq] are. *)
Definition merge_shape (a0 b : list E) : merge_state → Prop :=
  λ '(a, ai, bi, inserts),
    len a = len a0 ∧ 0 ≤ ai ≤ len a0 ∧ 0 ≤ bi ≤ len b
    ∧ positions_ok 0 ai inserts.

Definition merge_measure (a0 b : list E) : merge_state → nat :=
  λ '(_, ai, bi, _), Z.to_nat ((len a0 - ai) + (len b - bi)).

End loop.
End MergeLoop.

Module Spec4.
Import Go slicesx.
Section vocabulary.
Context {E : Type}.

(** The contract of an ordering function: a strict weak order, read off
    the sign of the result. *)
Record Comparator (cmp : E → E → Z) : Prop := {
  cmp_antisym : ∀ a b, cmp a b < 0 ↔ cmp b a > 0;
  cmp_trans : ∀ a b c, cmp a b ≤ 0 → cmp b c ≤ 0 → cmp a c ≤ 0;
}.

(** The contract of an identity function: an equivalence that only
    identifies elements of equal order key. *)
Record Identity (cmp : E → E → Z) (eq : E → E → bool) : Prop := {
  id_refl : ∀ a, eq a a = true;
  id_sym : ∀ a b, eq a b = eq b a;
  id_trans : ∀ a b c, eq a b = true → eq b c = true → eq a c = true;
  id_cmp : ∀ a b, eq a b = true → cmp a b = 0;
}.

(** Non-decreasing by order key. *)
Definition ascending (cmp : E → E → Z) (l : list E) : Prop :=
  StronglySorted (λ x y, cmp x y ≤ 0) l.

(** Strictly ascending by order key. *)
Definition strictly_ascending (cmp : E → E → Z) (l : list E) : Prop :=
  StronglySorted (λ x y, cmp x y < 0) l.

(** No two elements with equal identity. *)
Definition distinct (eq : E → E → bool) (l : list E) : Prop :=
  StronglySorted (λ x y, eq x y = false) l.

End vocabulary.
End Spec4.

Module MergeRun.
Import Go slicesx Spec Spec2 Spec3 Spec4 InsertIntoLoop MergeLoop.
Section vocabulary.
Context {E : Type}.
Variable eq : E → E → bool.
Implicit Types a b p q w r : list E.
Implicit Types inserts : list (insert E).

(** What holds of the window [w] and of the elements [extra] scheduled for
    insertion once the elements [done] of the run of B are processed. *)
Definition run_inv (ar done w extra : list E) : Prop :=
  distinct eq (w ++ extra)
  ∧ (∀ x, x ∈ w ++ extra → x ∈ ar ∨ x ∈ done)
  ∧ (∀ y, y ∈ done → y ∈ w ++ extra)
  ∧ (∀ x, x ∈ ar → (∀ y, y ∈ done → eq x y = false) → x ∈ w)
  ∧ (∀ x, x ∈ extra → x ∈ done).

End vocabulary.
End MergeRun.

Module MergeInvariant.
Import Go slicesx Spec Spec2 Spec3 Spec4 InsertIntoLoop MergeLoop MergeRun.
Section vocabulary.
Context {E : Type}.
Variable cmp : E → E → Z.
Variable eq : E → E → bool.
Implicit Types a b p q w r : list E.
Implicit Types inserts : list (insert E).
Variables a0 b : list E.

(** [R] is the merge of the consumed prefixes [p0] of A and [q] of B. *)
Definition merged (R p0 q ra rb : list E) : Prop :=
  a0 = p0 ++ ra ∧ b = q ++ rb
  ∧ ascending cmp R ∧ distinct eq R
  ∧ (∀ x, x ∈ R → x ∈ p0 ∨ x ∈ q)
  ∧ (∀ y, y ∈ q → y ∈ R)
  ∧ (∀ x, x ∈ p0 → (∀ y, y ∈ q → eq x y = false) → x ∈ R)
  ∧ (∀ x y, x ∈ q → y ∈ ra → cmp x y < 0)
  ∧ (∀ x y, x ∈ p0 → y ∈ rb → cmp x y < 0).

Definition merge_inv (s : merge_state) : Prop :=
  ∃ p p0 q ra rb inserts,
    s = (p ++ ra, len p, len q, inserts) ∧ len p0 = len p
    ∧ merged (weave p 0 inserts) p0 q ra rb.

End vocabulary.
End MergeInvariant.

Module DeleteSortedLoop.
Import Go slicesx Spec Spec2 Spec3 Spec4 DeleteFromLoop.
Section loop.
Context {E : Type}.
Variable cmp : E → E → Z.
Variable eq : E → E → bool.
Implicit Types a b p q w r : list E.
Implicit Types deletes : list Z.

Definition delete_state : Type := Z * Z * list Z.

Definition delete_cond (an bn : Z) : delete_state → bool :=
  λ '(ai, bi, deletes), bool_decide (ai < an) && bool_decide (bi < bn).

Definition delete_loop_body (a b : list E) : delete_state → run delete_state :=
  λ '(ai, bi, deletes),
    av ← index a ai;
    bv ← index b bi;
    let c := cmp av bv in
    if bool_decide (c < 0) then Ok (ai + 1, bi, deletes)
    else if bool_decide (c > 0) then Ok (ai, bi + 1, deletes)
    else
      a_rest ← slice a ai (len a);
      b_rest ← slice b bi (len b);
      let ar := runEq a_rest cmp in
      let br := runEq b_rest cmp in
      let deletes :=
        foldl (λ deletes '(i, ae),
                 if ContainsFunc br (λ be, eq ae be)
                 then deletes ++ [ai + i] else deletes)
              deletes (enumerate ar) in
      Ok (ai + len ar, bi + len br, deletes).

Inductive delete_step (a b : list E) : delete_state → delete_state → Prop :=
| delete_step_lt p av ra q bv rb deletes :
    a = p ++ av :: ra → b = q ++ bv :: rb → cmp av bv < 0 →
    delete_step a b (len p, len q, deletes) (len p + 1, len q, deletes)
| delete_step_gt p av ra q bv rb deletes :
    a = p ++ av :: ra → b = q ++ bv :: rb → cmp av bv > 0 →
    delete_step a b (len p, len q, deletes) (len p, len q + 1, deletes)
| delete_step_eq p av ra ar ra' q bv rb br rb' deletes :
    a = p ++ av :: ra → b = q ++ bv :: rb → cmp av bv = 0 →
    ar = runEq (av :: ra) cmp → av :: ra = ar ++ ra' →
    br = runEq (bv :: rb) cmp → bv :: rb = br ++ rb' →
    ar ≠ [] → br ≠ [] →
    delete_step a b (len p, len q, deletes)
      (len p + len ar, len q + len br, delete_run eq (len p) ar br deletes).

Definition delete_shape (a b : list E) : delete_state → Prop :=
  λ '(ai, bi, deletes),
    0 ≤ ai ≤ len a ∧ 0 ≤ bi ≤ len b ∧ deletes_ok 0 ai deletes.

Definition delete_measure (a b : list E) : delete_state → nat :=
  λ '(ai, bi, _), Z.to_nat ((len a - ai) + (len b - bi)).

End loop.
End DeleteSortedLoop.

Module DeleteInvariant.
Import Go slicesx Spec Spec2 Spec3 Spec4 DeleteFromLoop DeleteSortedLoop.
Section vocabulary.
Context {E : Type}.
Variable cmp : E → E → Z.
Variable eq : E → E → bool.
Variables a b : list E.
Implicit Types p q r : list E.

(** An element of A stays when no element of B has its identity. *)
Definition stays (ae : E) : Prop := ContainsFunc b (λ be, eq ae be) = false.

#[export] Instance stays_dec (ae : E) : Decision (stays ae) :=
  decide (ContainsFunc b (λ be, eq ae be) = false).

Definition delete_inv (s : delete_state) : Prop :=
  ∃ p q ra rb deletes,
    s = (len p, len q, deletes) ∧ a = p ++ ra ∧ b = q ++ rb
    ∧ cut p 0 deletes = filter stays p
    ∧ (∀ x y, x ∈ q → y ∈ ra → cmp x y < 0)
    ∧ (∀ x y, x ∈ p → y ∈ rb → cmp x y < 0).

End vocabulary.
End DeleteInvariant.

Module Spec5.
Import Go slicesx Spec4.
Section vocabulary.
Context {E : Type}.

(** What [uniqEqSlow] keeps of a list: an element overwrites the first
    kept element with its identity, or is kept after the others. *)
Definition dedup_step (eq : E → E → bool) (kept : list E) (x : E) : list E :=
  match IndexFunc kept (λ a, eq x a) with
  | Some idx => <[idx := x]> kept
  | None => kept ++ [x]
  end.

Definition dedup (eq : E → E → bool) (l : list E) : list E :=
  foldl (dedup_step eq) [] l.

(** The runs [UniqSortedFuncs] cuts a list into: an element extends the
    current run when it compares equal to the head [prev] of that run. *)
Fixpoint runs_from (cmp : E → E → Z) (prev : E) (cur : list E) (l : list E)
  : list (list E) :=
  match l with
  | [] => [cur]
  | next :: l' =>
      if bool_decide (cmp next prev = 0)
      then runs_from cmp prev (cur ++ [next]) l'
      else cur :: runs_from cmp next [next] l'
  end.

Definition runs (cmp : E → E → Z) (l : list E) : list (list E) :=
  match l with
  | [] => []
  | x :: l' => runs_from cmp x [x] l'
  end.

End vocabulary.
End Spec5.

Module UniqLoop.
Import Go slicesx Spec Spec2 Spec3 Spec4 DeleteFromLoop Spec5.
Section loop.
Context {E : Type}.
Variable zero : E.
Variable cmp : E → E → Z.
Variable eq : E → E → bool.
Implicit Types l acc stale rest P G W R cur : list E.

Definition uniq_body : list E * Z → Z → run (list E * Z) :=
  λ '(lst, dst) src,
    cur ← index lst src;
    seen ← slice lst 0 dst;
    match IndexFunc seen (λ a, eq cur a) with
    | Some idx => lst ← store lst (Z.of_nat idx) cur; Ok (lst, dst)
    | None => lst ← store lst dst cur; Ok (lst, dst + 1)
    end.

Definition uniq_sorted_body
  : list E * Z * Z * E → Z → run (list E * Z * Z * E) :=
  λ '(sorted, src, dst, prev) i,
    next ← index sorted i;
    if bool_decide (cmp next prev = 0) then Ok (sorted, src, dst, prev)
    else
      '(sorted, dst) ← uniq_run zero sorted src i dst eq;
      Ok (sorted, i, dst, next).

End loop.
End UniqLoop.

Module SortOrder.
Import Go slicesx Spec Spec2 Spec3 Spec4 Spec5.
Section vocabulary.
Context {E : Type}.
Variable cmp : E → E → Z.
Implicit Types l r : list E.

(** The prefix sorted so far, last element first. *)
Definition descending (r : list E) : Prop :=
  StronglySorted (λ x y, cmp y x ≤ 0) r.

End vocabulary.
End SortOrder.

Module Spec6.
Import Go slicesx Spec4 Spec5.
Section vocabulary.
Context {E : Type}.

(** The specification of the duplicate removal, in its own words: of each
    identity the first occurrence fixes the place ... *)
Fixpoint first_seen (eq : E → E → bool) (seen l : list E) : list E :=
  match l with
  | [] => []
  | x :: l' =>
      if ContainsFunc seen (λ y, eq x y)
      then first_seen eq (seen ++ [x]) l'
      else x :: first_seen eq (seen ++ [x]) l'
  end.

(** ... and the last occurrence the value. *)
Definition last_value (eq : E → E → bool) (l : list E) (x : E) : E :=
  default x (last (filter (λ y, eq x y = true) l)).

Definition keep_last (eq : E → E → bool) (l : list E) : list E :=
  last_value eq l <$> first_seen eq [] l.

(** The maximal runs of neighbours of equal order key. *)
Fixpoint maximal_runs (cmp : E → E → Z) (l : list E) : list (list E) :=
  match l with
  | [] => []
  | x :: l' =>
      match maximal_runs cmp l' with
      | (y :: run) :: rest =>
          if bool_decide (cmp x y = 0)
          then (x :: y :: run) :: rest
          else [x] :: (y :: run) :: rest
      | _ => [[x]]
      end
  end.

(** [StableSortDedup] as the specification words it: sort stably, cut
    into runs of equal order key, keep one element per identity in each. *)
Definition StableSortDedup_spec (cmp : E → E → Z) (eq : E → E → bool)
    (l : list E) : list E :=
  concat (keep_last eq <$> maximal_runs cmp (SortStableFunc cmp l)).

End vocabulary.
End Spec6.

Module RunsOrder.
Import Go slicesx Spec Spec2 Spec3 Spec4 Spec5 Spec6 UniqLoop SortOrder.
Section vocabulary.
Context {E : Type}.
Variable cmp : E → E → Z.
Implicit Types l cur r : list E.
Implicit Types rs : list (list E).

(** Runs of an ascending list: each of one order key, and of order keys
    that strictly ascend from run to run. *)
Definition same_key (r : list E) : Prop :=
  r ≠ [] ∧ ∀ x y, x ∈ r → y ∈ r → cmp x y = 0.

Definition run_before (r1 r2 : list E) : Prop :=
  ∀ x y, x ∈ r1 → y ∈ r2 → cmp x y < 0.

End vocabulary.
End RunsOrder.

Module SetScan.
Import Go slicesx Spec Spec2 Spec3 Spec4 Spec5 Spec6 sets.
Section vocabulary.
Context {E : Type}.
Implicit Types set : sorted E.

(** What the scan after the binary search has established when it stops
    at [idx], having started at [lb]. *)
Definition scanned set (e : E) (lb idx : Z) (found : bool) : Prop :=
  0 ≤ lb ∧ lb ≤ idx ∧ idx ≤ len (elems set)
  ∧ (∀ h x, lb ≤ h < idx → elems set !! Z.to_nat h = Some x →
       cmp set e x = 0 ∧ eq set x e = false)
  ∧ (if found
     then ∃ x, elems set !! Z.to_nat idx = Some x
               ∧ cmp set e x = 0 ∧ eq set x e = true
     else idx = len (elems set)
          ∨ ∃ x, elems set !! Z.to_nat idx = Some x ∧ cmp set e x ≠ 0).

End vocabulary.
End SetScan.

Module SeqSpec.
Section vocabulary.
Context {E : Type}.

(** The caller's contract on the functions a set is built with. *)
Definition Laws (cmp : E → E → Z) (eq : E → E → bool) : Prop :=
  Spec4.Comparator cmp ∧ Spec4.Identity cmp eq.

(** The sorted sequence a set owns: non-decreasing by order key, no two
    elements of equal identity. *)
Definition sorted_seq (cmp : E → E → Z) (eq : E → E → bool) (l : list E) : Prop :=
  Spec4.ascending cmp l ∧ Spec4.distinct eq l.

(** Membership by identity. *)
Definition has (eq : E → E → bool) (l : list E) (e : E) : Prop :=
  ∃ x, x ∈ l ∧ eq x e = true.

(** The outcome of a search for [e] in a sorted sequence: the element
    with the identity of [e], or the place where [e] belongs. *)
Definition located (cmp : E → E → Z) (eq : E → E → bool) (l : list E) (e : E)
    (idx : Z) (found : bool) : Prop :=
  if found
  then ∃ p x r, l = p ++ x :: r ∧ Go.len p = idx ∧ eq x e = true
  else ∃ p r, l = p ++ r ∧ Go.len p = idx
       ∧ (∀ x, x ∈ p → cmp x e ≤ 0)
       ∧ (∀ x, x ∈ r → cmp e x < 0)
       ∧ (∀ x, x ∈ l → eq x e = false).

End vocabulary.
End SeqSpec.

Module SetSpec.
Import sets.
Section vocabulary.
Context {E : Type}.

Definition lawful (set : sorted E) : Prop := SeqSpec.Laws (cmp set) (eq set).

Definition sorted_sequence (set : sorted E) : Prop :=
  SeqSpec.sorted_seq (cmp set) (eq set) (elems set).

Definition member (set : sorted E) (e : E) : Prop :=
  SeqSpec.has (eq set) (elems set) e.

End vocabulary.
End SetSpec.

Module SortedFuncs.
Import Go slicesx Spec Spec2 Spec3 Spec4 Spec5 Spec6 SeqSpec SetSpec sets SetScan.
Section vocabulary.
Context {E : Type}.
Implicit Types set : sorted E.

(** The results of the methods that build a set keep its functions. *)
Definition same_funcs set set' : Prop := cmp set' = cmp set ∧ eq set' = eq set.

End vocabulary.
End SortedFuncs.

Module FuncScan.
Import Go slicesx Spec Spec2 Spec3 Spec4 Spec5 Spec6 SeqSpec sets2.
Section vocabulary.
Context {E : Type}.
Implicit Types s : funcSorted E.

(** What the scan after the binary search has established when it stops
    at [idx], having started at [lb]. *)
Definition scanned s (e : E) (lb idx : Z) (found : bool) : Prop :=
  0 ≤ lb ∧ lb ≤ idx ∧ idx ≤ len (list_ s)
  ∧ (∀ h x, lb ≤ h < idx → list_ s !! Z.to_nat h = Some x →
       cmp s e x = 0 ∧ eq s e x = false)
  ∧ (if found
     then ∃ x, list_ s !! Z.to_nat idx = Some x ∧ eq s e x = true
     else idx = len (list_ s)
          ∨ ∃ x, list_ s !! Z.to_nat idx = Some x
                 ∧ (cmp s x e ≠ 0 ∨ cmp s e x ≠ 0)).

End vocabulary.
End FuncScan.

Module FuncSortedFuncs.
Import Go slicesx Spec Spec2 Spec3 Spec4 Spec5 Spec6 SeqSpec sets2 FuncScan.
Section vocabulary.
Context {E : Type}.
Implicit Types s : funcSorted E.

Definition same_funcs s s' : Prop := cmp s' = cmp s ∧ eq s' = eq s.

End vocabulary.
End FuncSortedFuncs.

Module FuncSetSpec.
Import sets2.
Section vocabulary.
Context {E : Type}.

Definition lawful (s : funcSorted E) : Prop := SeqSpec.Laws (cmp s) (eq s).

Definition sorted_sequence (s : funcSorted E) : Prop :=
  SeqSpec.sorted_seq (cmp s) (eq s) (list_ s).

Definition member (s : funcSorted E) (e : E) : Prop :=
  SeqSpec.has (eq s) (list_ s) e.

End vocabulary.
End FuncSetSpec.

(** Sequences of public operations on a comparator set of [sorted.go].
    An operation that returns a set ([Intersection], [Union], [Difference],
    [SymmetricDifference], [Clone]) hands over to the set it returns; the
    queries ([Contains], [ContainsAll], [ContainsSet], [Len], [Elems],
    [Range]) leave the set as it is and are not listed. *)
Module SortedOps.
Import Go sets.

Inductive op (E : Type) : Type :=
| DoInsert (e : E)
| DoInsertAll (l : list E)
| DoInsertSet (other : Set_ E)
| DoRemove (e : E)
| DoRemoveAll (l : list E)
| DoRemoveSet (other : Set_ E)
| DoIntersection (other : Set_ E)
| DoUnion (other : Set_ E)
| DoDifference (other : Set_ E)
| DoSymmetricDifference (other : Set_ E)
| DoClone.
Arguments DoInsert {E} e.
Arguments DoInsertAll {E} l.
Arguments DoInsertSet {E} other.
Arguments DoRemove {E} e.
Arguments DoRemoveAll {E} l.
Arguments DoRemoveSet {E} other.
Arguments DoIntersection {E} other.
Arguments DoUnion {E} other.
Arguments DoDifference {E} other.
Arguments DoSymmetricDifference {E} other.
Arguments DoClone {E}.

Section run.
Context {E : Type}.
Variable zero : E.

Definition apply (set : sorted E) (o : op E) : run (sorted E) :=
  match o with
  | DoInsert e => Insert set e
  | DoInsertAll l => InsertAll zero set l
  | DoInsertSet other => InsertSet zero set other
  | DoRemove e => Remove zero set e
  | DoRemoveAll l => RemoveAll zero set l
  | DoRemoveSet other => RemoveSet zero set other
  | DoIntersection other => Intersection set other
  | DoUnion other => Union zero set other
  | DoDifference other => Difference set other
  | DoSymmetricDifference other => SymmetricDifference zero set other
  | DoClone => Ok (Clone set)
  end.

Definition apply_all (set : sorted E) (ops : list (op E)) : run (sorted E) :=
  for_range ops apply set.

End run.
End SortedOps.

(** Sequences of public operations on a comparator set of the second
    package, mutable ([varFuncSorted], [varFuncOrdered]) or immutable
    ([constFuncSorted], [constFuncOrdered]). *)
Module FuncSortedOps.
Import Go sets2.

Inductive op (E : Type) : Type :=
| DoInsert (e : E)
| DoInsertAll (l : list E)
| DoInsertSet (other : View_ E)
| DoRemove (e : E)
| DoRemoveAll (l : list E)
| DoRemoveSet (other : View_ E)
| DoIntersection (other : View_ E)
| DoUnion (other : View_ E)
| DoDifference (other : View_ E)
| DoSymmetricDifference (other : View_ E)
| DoClone.
Arguments DoInsert {E} e.
Arguments DoInsertAll {E} l.
Arguments DoInsertSet {E} other.
Arguments DoRemove {E} e.
Arguments DoRemoveAll {E} l.
Arguments DoRemoveSet {E} other.
Arguments DoIntersection {E} other.
Arguments DoUnion {E} other.
Arguments DoDifference {E} other.
Arguments DoSymmetricDifference {E} other.
Arguments DoClone {E}.

Section run.
Context {E : Type}.
Variable zero : E.

Definition apply (s : funcSorted E) (o : op E) : run (funcSorted E) :=
  match o with
  | DoInsert e => Insert s e
  | DoInsertAll l => InsertAll zero s l
  | DoInsertSet other => InsertSet zero s other
  | DoRemove e => Remove zero s e
  | DoRemoveAll l => RemoveAll zero s l
  | DoRemoveSet other => RemoveSet zero s other
  | DoIntersection other => Ok (intersection s other)
  | DoUnion other => union zero s other
  | DoDifference other => Ok (difference s other)
  | DoSymmetricDifference other => symmetricDifference zero s other
  | DoClone => Ok (clone s)
  end.

Definition apply_all (s : funcSorted E) (ops : list (op E)) : run (funcSorted E) :=
  for_range ops apply s.

End run.
End FuncSortedOps.

Module SortedKept.
Import Go slicesx Spec Spec2 Spec3 Spec4 Spec5 Spec6 SeqSpec sets SetSpec SortedFuncs SortedOps.
Section vocabulary.
Context {E : Type}.
Implicit Types set : sorted E.

(** What an operation hands on: the functions of the set and its sorted
    sequence. *)
Definition kept set set' : Prop :=
  cmp set' = cmp set ∧ eq set' = eq set ∧ sorted_sequence set'.

End vocabulary.
End SortedKept.

Module FuncSortedKept.
Import Go slicesx Spec Spec2 Spec3 Spec4 Spec5 Spec6 SeqSpec sets2 FuncSetSpec FuncSortedFuncs FuncSortedOps.
Section vocabulary.
Context {E : Type}.
Implicit Types s : funcSorted E.

Definition kept s s' : Prop :=
  cmp s' = cmp s ∧ eq s' = eq s ∧ sorted_sequence s'.

End vocabulary.
End FuncSortedKept.

(** The natural order: what the two-pointer passes over two lists of
    integers compute, and the sequences they are meant for. *)
Module Natural.

(** Strictly ascending: sorted, with unique values. *)
Definition strictly_sorted (l : list Z) : Prop := StronglySorted Z.lt l.

(** The merge of B into A: the smaller head goes first, of two equal heads
    the one of B. *)
Fixpoint merge_uniq (a : list Z) : list Z → list Z :=
  fix into (b : list Z) : list Z :=
    match a, b with
    | [], _ => b
    | _, [] => a
    | x :: a', y :: b' =>
        if bool_decide (x < y) then x :: merge_uniq a' b
        else if bool_decide (x > y) then y :: into b'
        else y :: merge_uniq a' b'
    end.

(** The difference A - B: a head of A goes through when it is the smaller
    head, and is dropped when the heads are equal. *)
Fixpoint diff_uniq (a : list Z) : list Z → list Z :=
  fix from (b : list Z) : list Z :=
    match a, b with
    | [], _ => []
    | _, [] => a
    | x :: a', y :: b' =>
        if bool_decide (x < y) then x :: diff_uniq a' b
        else if bool_decide (x > y) then from b'
        else diff_uniq a' b'
    end.

End Natural.

Module NaturalMergeLoop.
Import Go slicesx Spec Spec2 Spec3 Spec4 Spec5 Spec6 SeqSpec Natural InsertIntoLoop.
Section loop.

Definition merge_uniq_state : Type := list Z * Z * Z * list (insert Z).

(** The loop of [MergeSortedUniq] has produced the merge of what it has
    consumed; the array itself is as it was, for an element is only ever
    overwritten by an equal one. *)
Definition merge_uniq_inv (a b : list Z) (s : merge_uniq_state) : Prop :=
  ∃ p ra q rb inserts,
    s = (a, len p, len q, inserts) ∧ a = p ++ ra ∧ b = q ++ rb
    ∧ positions_ok 0 (len p) inserts
    ∧ merge_uniq a b = weave p 0 inserts ++ merge_uniq ra rb.

End loop.
End NaturalMergeLoop.

Module NaturalDeleteLoop.
Import Go slicesx Spec Spec2 Spec3 Spec4 Spec5 Spec6 SeqSpec Natural DeleteFromLoop.
Section loop.

(** The loop of [DeleteSortedUniq] has scheduled the deletions that turn
    what it has consumed of A into its difference. *)
Definition diff_uniq_inv (a b : list Z) (s : Z * Z * list Z) : Prop :=
  ∃ p ra q rb deletes,
    s = (len p, len q, deletes) ∧ a = p ++ ra ∧ b = q ++ rb
    ∧ deletes_ok 0 (len p) deletes
    ∧ diff_uniq a b = cut p 0 deletes ++ diff_uniq ra rb.

End loop.
End NaturalDeleteLoop.

Module NaturalSpec.

(** The identity of the natural order: [==]. *)
Definition same (a b : Z) : bool := bool_decide (a = b).

End NaturalSpec.

Module NaturalSorted.
Import Go slicesx Spec Spec2 Spec3 Spec4 Spec5 Spec6 SeqSpec Natural NaturalSpec.
Section vocabulary.

(** Non-decreasing lists of integers. *)
Definition non_decreasing (l : list Z) : Prop := StronglySorted Z.le l.

End vocabulary.
End NaturalSorted.

Module NaturalBound.
Import Go slicesx Spec Spec2 Spec3 Spec4 Spec5 Spec6 SeqSpec Natural NaturalSpec NaturalSorted.
Section vocabulary.

(** The bounds a lower-bound search has established. *)
Definition lower_bound (l : list Z) (e : Z) (i j : Z) : Prop :=
  (∀ h x, 0 ≤ h < i → l !! Z.to_nat h = Some x → x < e)
  ∧ (∀ h x, j ≤ h → l !! Z.to_nat h = Some x → e ≤ x).

End vocabulary.
End NaturalBound.

Module WalkLoop.
Import Go slicesx Spec Spec2 Spec3 Spec4 Spec5 Spec6 SeqSpec Natural NaturalSpec NaturalSorted NaturalBound ordered.
Section loop.
Variables a b : list Z.

Definition walk_state : Type := Z * Z * list Z.

(** Where the walk stands: what it has consumed of both lists. *)
Definition walk_at (s : walk_state) (p ra q rb : list Z) : Prop :=
  s.1.1 = len p ∧ s.1.2 = len q ∧ a = p ++ ra ∧ b = q ++ rb.

(** On strictly ascending lists the walk collects a strictly ascending
    list that lies below what is left of both. *)
Definition walk_below (s : walk_state) : Prop :=
  strictly_sorted s.2
  ∧ ∀ p ra q rb, walk_at s p ra q rb →
      ∀ x y, x ∈ s.2 → y ∈ ra ++ rb → x < y.

End loop.
End WalkLoop.

(** Sequences of public operations on a natural-order set of [sorted.go]. *)
Module OrderedOps.
Import Go ordered.

Inductive op : Type :=
| DoInsert (e : Z)
| DoInsertAll (l : list Z)
| DoInsertSet (other : Set_)
| DoRemove (e : Z)
| DoRemoveAll (l : list Z)
| DoRemoveSet (other : Set_)
| DoIntersection (other : Set_)
| DoUnion (other : Set_)
| DoDifference (other : Set_)
| DoSymmetricDifference (other : Set_)
| DoClone.

Definition apply (set : ordered) (o : op) : run ordered :=
  match o with
  | DoInsert e => Insert set e
  | DoInsertAll l => InsertAll set l
  | DoInsertSet other => InsertSet set other
  | DoRemove e => Remove set e
  | DoRemoveAll l => RemoveAll set l
  | DoRemoveSet other => RemoveSet set other
  | DoIntersection other => Intersection set other
  | DoUnion other => Union set other
  | DoDifference other => Difference set other
  | DoSymmetricDifference other => SymmetricDifference set other
  | DoClone => Ok (Clone set)
  end.

Definition apply_all (set : ordered) (ops : list op) : run ordered :=
  for_range ops apply set.

(** The other operand is a set itself: the list of another natural-order
    set is strictly ascending, and the elements any other set returns are
    pairwise different. *)
Definition proper (other : Set_) : Prop :=
  match kind other with
  | IsReceiver => True
  | IsOrdered => Natural.strictly_sorted (set_Elems other)
  | IsOther => NoDup (set_Elems other)
  end.

Definition proper_op (o : op) : Prop :=
  match o with
  | DoInsertSet other | DoRemoveSet other | DoIntersection other
  | DoUnion other | DoDifference other | DoSymmetricDifference other =>
      proper other
  | _ => True
  end.

End OrderedOps.

(** Sequences of public operations on a natural-order set of the second
    package, mutable ([varSorted], [varOrdered]) or immutable
    ([constSorted], [constOrdered]). *)
Module Ordered2Ops.
Import Go.
Import sets2 (view_kind, IsReceiver, IsOrdered, IsFuncSorted, IsTable, IsExternal,
              View_, kind, view_Contains, view_Elems, view_Range).
Import ordered2.

Inductive op : Type :=
| DoInsert (e : Z)
| DoInsertAll (l : list Z)
| DoInsertSet (other : View_ Z)
| DoRemove (e : Z)
| DoRemoveAll (l : list Z)
| DoRemoveSet (other : View_ Z)
| DoIntersection (other : View_ Z)
| DoUnion (other : View_ Z)
| DoDifference (other : View_ Z)
| DoSymmetricDifference (other : View_ Z)
| DoClone.

Definition apply (s : ordered) (o : op) : run ordered :=
  match o with
  | DoInsert e => Insert s e
  | DoInsertAll l => InsertAll s l
  | DoInsertSet other => InsertSet s other
  | DoRemove e => Remove s e
  | DoRemoveAll l => RemoveAll s l
  | DoRemoveSet other => RemoveSet s other
  | DoIntersection other => intersection s other
  | DoUnion other => union s other
  | DoDifference other => difference s other
  | DoSymmetricDifference other => symmetricDifference s other
  | DoClone => Ok (clone s)
  end.

Definition apply_all (s : ordered) (ops : list op) : run ordered :=
  for_range ops apply s.

(** The other operand is a set itself: the list of another natural-order
    set is strictly ascending. *)
Definition proper (other : View_ Z) : Prop :=
  match kind other with
  | IsOrdered => Natural.strictly_sorted (view_Elems other)
  | _ => True
  end.

(** A comparator set handed to [InsertSet] is merged in the order of its
    own comparator; the operation is considered where that order is the
    natural one. *)
Definition in_natural_order (other : View_ Z) : Prop :=
  match kind other with
  | IsFuncSorted => StronglySorted Z.le (view_Elems other)
  | _ => True
  end.

Definition proper_op (o : op) : Prop :=
  match o with
  | DoInsertSet other => proper other ∧ in_natural_order other
  | DoRemoveSet other | DoIntersection other
  | DoUnion other | DoDifference other | DoSymmetricDifference other =>
      proper other
  | _ => True
  end.

End Ordered2Ops.

(** ** Slices as references: who owns which backing array

    Up to here a slice is the list of its elements.  What [Elems] promises
    is about sharing, so here a slice is a reference into a store of
    backing arrays, and a set holds such a reference. *)
Module Heap.
Import Go.

(** An address is the index of a backing array in the store. *)
Abbreviation addr := nat (only parsing).

(** The store: the backing arrays by address, each as long as its
    capacity. *)
Abbreviation arrays E := (list (list E)) (only parsing).

(** The slice header: the backing array and the length; every slice a set
    holds or hands out starts at the beginning of its array. *)
Record slice : Type := Slice { base : addr; slen : Z }.

Section store.
Context {E : Type}.
Implicit Types h : arrays E.

Definition array h (a : addr) : list E := default [] (h !! a).

Definition cap h (s : slice) : Z := len (array h (base s)).

(** The elements of a slice. *)
Definition contents h (s : slice) : list E :=
  take (Z.to_nat (slen s)) (array h (base s)).

Definition valid h (s : slice) : Prop :=
  (base s < length h)%nat ∧ 0 ≤ slen s ≤ cap h s.

(** A new backing array. *)
Definition alloc h (l : list E) : arrays E * addr := (h ++ [l], length h).

(** [slices.Clone(s)]: the elements are copied into a new array. *)
Definition Clone h (s : slice) : arrays E * slice :=
  let '(h', a) := alloc h (contents h s) in (h', Slice a (slen s)).

(** What the holder of a slice can write: any element of its backing
    array within the capacity ([s[i] = v], and [append], [copy], [clear]
    or a sort on [s] or on a reslice of it). *)
Definition write h (s : slice) (i : Z) (v : E) : run (arrays E) :=
  if bool_decide (0 ≤ i < cap h s)
  then Ok (alter (λ a, <[Z.to_nat i := v]> a) (base s) h)
  else Panic.

Definition writes h (s : slice) (ws : list (Z * E)) : run (arrays E) :=
  for_range ws (λ h '(i, v), write h s i v) h.

(** Where a method of a set leaves the elements it has computed: the
    methods write through the slice of the receiver only, so the elements
    end up in the backing array of the receiver when its capacity
    suffices, and in a new array when [append] or [slices.Grow] had to
    reallocate.  What lies behind the new length is whatever the method
    left there; it is beyond every slice handed out. *)
Definition commit h (s : slice) (l : list E) : arrays E * slice :=
  if bool_decide (len l ≤ cap h s)
  then (<[base s := l ++ drop (length l) (array h (base s))]> h,
        Slice (base s) (len l))
  else let '(h', a) := alloc h l in (h', Slice a (len l)).

End store.
End Heap.

(** The comparator set of [sorted.go] over the store. *)
Module SortedHeap.
Import Go Heap.

(** [type sorted[E any] struct { elems []E; cmp ...; eq ... }], the field
    [elems] being a slice header. *)
Record sorted (E : Type) : Type := MkSorted {
  elems : slice;
  cmp : E → E → Z;
  eq : E → E → bool;
}.
Arguments MkSorted {E} _ _ _.
Arguments elems {E} _.
Arguments cmp {E} _.
Arguments eq {E} _.

(** The mutating methods. *)
Inductive mutation (E : Type) : Type :=
| DoInsert (e : E)
| DoInsertAll (l : list E)
| DoInsertSet (other : sets.Set_ E)
| DoRemove (e : E)
| DoRemoveAll (l : list E)
| DoRemoveSet (other : sets.Set_ E).
Arguments DoInsert {E} e.
Arguments DoInsertAll {E} l.
Arguments DoInsertSet {E} other.
Arguments DoRemove {E} e.
Arguments DoRemoveAll {E} l.
Arguments DoRemoveSet {E} other.

Section methods.
Context {E : Type}.
Variable zero : E.
Implicit Types h : arrays E.

(** The set as the list of its elements. *)
Definition read h (set : sorted E) : sets.sorted E :=
  sets.MkSorted (contents h (elems set)) (cmp set) (eq set).

(** [Elems]: [slices.Clone(set.elems)]. *)
Definition Elems h (set : sorted E) : arrays E * slice := Clone h (elems set).

Definition Contains h (set : sorted E) (e : E) : run bool :=
  sets.Contains (read h set) e.

Definition Len (set : sorted E) : Z := slen (elems set).

Definition method (m : mutation E) (s : sets.sorted E) : run (sets.sorted E) :=
  match m with
  | DoInsert e => sets.Insert s e
  | DoInsertAll l => sets.InsertAll zero s l
  | DoInsertSet other => sets.InsertSet zero s other
  | DoRemove e => sets.Remove zero s e
  | DoRemoveAll l => sets.RemoveAll zero s l
  | DoRemoveSet other => sets.RemoveSet zero s other
  end.

Definition mutate (st : arrays E * sorted E) (m : mutation E)
  : run (arrays E * sorted E) :=
  let '(h, set) := st in
  s' ← method m (read h set);
  let '(h', sl) := commit h (elems set) (sets.elems s') in
  Ok (h', MkSorted sl (sets.cmp s') (sets.eq s')).

Definition mutate_all (st : arrays E * sorted E) (ms : list (mutation E))
  : run (arrays E * sorted E) :=
  for_range ms mutate st.

End methods.
End SortedHeap.

(** The comparator set of the second package over the store. *)
Module FuncSortedHeap.
Import Go Heap.

(** [type funcSorted[E any] struct { list []E; cmp ...; eq ... }] *)
Record funcSorted (E : Type) : Type := MkFuncSorted {
  list_ : slice;
  cmp : E → E → Z;
  eq : E → E → bool;
}.
Arguments MkFuncSorted {E} _ _ _.
Arguments list_ {E} _.
Arguments cmp {E} _.
Arguments eq {E} _.

Inductive mutation (E : Type) : Type :=
| DoInsert (e : E)
| DoInsertAll (l : list E)
| DoInsertSet (other : sets2.View_ E)
| DoRemove (e : E)
| DoRemoveAll (l : list E)
| DoRemoveSet (other : sets2.View_ E).
Arguments DoInsert {E} e.
Arguments DoInsertAll {E} l.
Arguments DoInsertSet {E} other.
Arguments DoRemove {E} e.
Arguments DoRemoveAll {E} l.
Arguments DoRemoveSet {E} other.

Section methods.
Context {E : Type}.
Variable zero : E.
Implicit Types h : arrays E.

Definition read h (s : funcSorted E) : sets2.funcSorted E :=
  sets2.MkFuncSorted (contents h (list_ s)) (cmp s) (eq s).

(** [Elems]: [slices.Clone(s.list)]. *)
Definition Elems h (s : funcSorted E) : arrays E * slice := Clone h (list_ s).

Definition Contains h (s : funcSorted E) (e : E) : run bool :=
  sets2.Contains (read h s) e.

Definition Len (s : funcSorted E) : Z := slen (list_ s).

Definition method (m : mutation E) (s : sets2.funcSorted E)
  : run (sets2.funcSorted E) :=
  match m with
  | DoInsert e => sets2.Insert s e
  | DoInsertAll l => sets2.InsertAll zero s l
  | DoInsertSet other => sets2.InsertSet zero s other
  | DoRemove e => sets2.Remove zero s e
  | DoRemoveAll l => sets2.RemoveAll zero s l
  | DoRemoveSet other => sets2.RemoveSet zero s other
  end.

Definition mutate (st : arrays E * funcSorted E) (m : mutation E)
  : run (arrays E * funcSorted E) :=
  let '(h, s) := st in
  s' ← method m (read h s);
  let '(h', sl) := commit h (list_ s) (sets2.list_ s') in
  Ok (h', MkFuncSorted sl (sets2.cmp s') (sets2.eq s')).

Definition mutate_all (st : arrays E * funcSorted E) (ms : list (mutation E))
  : run (arrays E * funcSorted E) :=
  for_range ms mutate st.

End methods.
End FuncSortedHeap.
(** The natural-order set of [sorted.go] over the store. *)
Module OrderedHeap.
Import Go Heap.

(** [type ordered[E cmp.Ordered] struct { elems []E }] *)
Record ordered : Type := MkOrdered { elems : slice }.

Inductive mutation : Type :=
| DoInsert (e : Z)
| DoInsertAll (l : list Z)
| DoInsertSet (other : ordered.Set_)
| DoRemove (e : Z)
| DoRemoveAll (l : list Z)
| DoRemoveSet (other : ordered.Set_).

Section methods.
Implicit Types h : arrays Z.

Definition read h (set : ordered) : ordered.ordered :=
  ordered.MkOrdered (contents h (elems set)).

(** [Elems]: [slices.Clone(set.elems)]. *)
Definition Elems h (set : ordered) : arrays Z * slice := Clone h (elems set).

Definition Contains h (set : ordered) (e : Z) : run bool :=
  ordered.Contains (read h set) e.

Definition method (m : mutation) (s : ordered.ordered) : run ordered.ordered :=
  match m with
  | DoInsert e => ordered.Insert s e
  | DoInsertAll l => ordered.InsertAll s l
  | DoInsertSet other => ordered.InsertSet s other
  | DoRemove e => ordered.Remove s e
  | DoRemoveAll l => ordered.RemoveAll s l
  | DoRemoveSet other => ordered.RemoveSet s other
  end.

Definition mutate (st : arrays Z * ordered) (m : mutation)
  : run (arrays Z * ordered) :=
  let '(h, set) := st in
  s' ← method m (read h set);
  let '(h', sl) := commit h (elems set) (ordered.elems s') in
  Ok (h', MkOrdered sl).

Definition mutate_all (st : arrays Z * ordered) (ms : list mutation)
  : run (arrays Z * ordered) :=
  for_range ms mutate st.

End methods.
End OrderedHeap.

(** The natural-order set of the second package over the store. *)
Module Ordered2Heap.
Import Go Heap.

(** [type ordered[E cmp.Ordered] struct { list []E }] *)
Record ordered : Type := MkOrdered { list_ : slice }.

Inductive mutation : Type :=
| DoInsert (e : Z)
| DoInsertAll (l : list Z)
| DoInsertSet (other : sets2.View_ Z)
| DoRemove (e : Z)
| DoRemoveAll (l : list Z)
| DoRemoveSet (other : sets2.View_ Z).

Section methods.
Implicit Types h : arrays Z.

Definition read h (s : ordered) : ordered2.ordered :=
  ordered2.MkOrdered (contents h (list_ s)).

(** [Elems]: [slices.Clone(s.list)]. *)
Definition Elems h (s : ordered) : arrays Z * slice := Clone h (list_ s).

Definition Contains h (s : ordered) (e : Z) : run bool :=
  ordered2.Contains (read h s) e.

Definition method (m : mutation) (s : ordered2.ordered) : run ordered2.ordered :=
  match m with
  | DoInsert e => ordered2.Insert s e
  | DoInsertAll l => ordered2.InsertAll s l
  | DoInsertSet other => ordered2.InsertSet s other
  | DoRemove e => ordered2.Remove s e
  | DoRemoveAll l => ordered2.RemoveAll s l
  | DoRemoveSet other => ordered2.RemoveSet s other
  end.

Definition mutate (st : arrays Z * ordered) (m : mutation)
  : run (arrays Z * ordered) :=
  let '(h, s) := st in
  s' ← method m (read h s);
  let '(h', sl) := commit h (list_ s) (ordered2.list_ s') in
  Ok (h', MkOrdered sl).

Definition mutate_all (st : arrays Z * ordered) (ms : list mutation)
  : run (arrays Z * ordered) :=
  for_range ms mutate st.

End methods.
End Ordered2Heap.

Module SortedApart.
Import Go slicesx Heap SortedHeap.
Section vocabulary.
Context {E : Type}.
Implicit Types h : list (list E).
Implicit Types set : sorted E.

(** The slice [r] is apart from the set: it lives in another array. *)
Definition apart h set (r : slice) : Prop :=
  valid h (elems set) ∧ (base r < length h)%nat ∧ base r ≠ base (elems set).

End vocabulary.
End SortedApart.

Module FuncSortedApart.
Import Go slicesx Heap FuncSortedHeap.
Section vocabulary.
Context {E : Type}.
Implicit Types h : list (list E).
Implicit Types set : funcSorted E.

(** The slice [r] is apart from the set: it lives in another array. *)
Definition apart h set (r : slice) : Prop :=
  valid h (list_ set) ∧ (base r < length h)%nat ∧ base r ≠ base (list_ set).

End vocabulary.
End FuncSortedApart.

Module OrderedApart.
Import Go slicesx Heap OrderedHeap.
Section vocabulary.
Implicit Types h : list (list Z).
Implicit Types set : ordered.

(** The slice [r] is apart from the set: it lives in another array. *)
Definition apart h set (r : slice) : Prop :=
  valid h (elems set) ∧ (base r < length h)%nat ∧ base r ≠ base (elems set).

End vocabulary.
End OrderedApart.

Module Ordered2Apart.
Import Go slicesx Heap Ordered2Heap.
Section vocabulary.
Implicit Types h : list (list Z).
Implicit Types set : ordered.

(** The slice [r] is apart from the set: it lives in another array. *)
Definition apart h set (r : slice) : Prop :=
  valid h (list_ set) ∧ (base r < length h)%nat ∧ base r ≠ base (list_ set).

End vocabulary.
End Ordered2Apart.

Module SearchSpec.
Section vocabulary.
Context {E : Type}.

(** A search in two phases: a binary search by order key finds the bound
    [lb] before which every key is below that of [e]; a scan from [lb]
    passes over the elements of the key of [e] that have another
    identity, and stops at [idx]: at the element with the identity of
    [e], or where the run of that key ends. *)
Definition two_phase (cmp : E → E → Z) (eq : E → E → bool) (l : list E) (e : E)
    (idx : Z) (found : bool) : Prop :=
  ∃ lb,
    0 ≤ lb ∧ lb ≤ idx ∧ idx ≤ Go.len l
    ∧ (∀ h x, 0 ≤ h < lb → l !! Z.to_nat h = Some x → cmp x e < 0)
    ∧ (∀ h x, lb ≤ h → l !! Z.to_nat h = Some x → 0 ≤ cmp x e)
    ∧ (∀ h x, lb ≤ h < idx → l !! Z.to_nat h = Some x →
         cmp x e = 0 ∧ eq x e = false)
    ∧ (if found
       then ∃ x, l !! Z.to_nat idx = Some x ∧ cmp x e = 0 ∧ eq x e = true
       else idx = Go.len l ∨ ∃ x, l !! Z.to_nat idx = Some x ∧ cmp x e ≠ 0).

End vocabulary.
End SearchSpec.

(** Order and identity functions of the scenarios. *)
Module Examples.
Import Go.

(** Strings ordered by length and identified by their exact value. *)
Definition by_length (a b : String.string) : Z :=
  Z.of_nat (String.length a) - Z.of_nat (String.length b).

Definition exact (a b : String.string) : bool := String.eqb a b.

(** Integers tagged with where they come from, ordered and identified by
    the integer alone. *)
Definition by_key (a b : Z * Z) : Z := Compare a.1 b.1.

Definition same_key (a b : Z * Z) : bool := bool_decide (a.1 = b.1).

(** Integers in descending order. *)
Definition descending (a b : Z) : Z := Compare b a.

(** The lists of the merge scenario, tagged 0 for A and 1 for B. *)
Definition tagged_A : list (Z * Z) := [(1, 0); (2, 0); (3, 0); (4, 0); (5, 0)].
Definition tagged_B : list (Z * Z) := [(2, 1); (6, 1); (8, 1)].

End Examples.

(** The other operand of an operation of the comparator set of
    [sorted.go], seen under the identity of the receiver. *)
Module Operand.
Import Go sets SeqSpec.
Section vocabulary.
Context {E : Type}.

(** The identities the operand holds: those of the elements its [Range]
    visits. *)
Definition holds (eq : E → E → bool) (other : Set_ E) (e : E) : Prop :=
  has eq (set_Range other) e.

(** The operand is a set under the identity [eq]: its [Contains] answers
    by that identity, and its [Elems] lists what its [Range] visits. *)
Definition coherent (eq : E → E → bool) (other : Set_ E) : Prop :=
  (∀ e, set_Contains other e = true ↔ holds eq other e)
  ∧ (∀ e, has eq (set_Elems other) e ↔ holds eq other e).

(** The receiver handed to itself. *)
Definition itself (set : sorted E) (other : Set_ E) : Prop :=
  is_receiver other = true
  ∧ set_Elems other = elems set ∧ set_Range other = elems set.

(** Another set that holds the elements of [l] and answers [Contains] by
    the identity [eq]. *)
Definition of_list (eq : E → E → bool) (l : list E) : Set_ E :=
  MkSet false (λ e, ContainsFunc l (λ x, eq x e)) l l.

End vocabulary.
End Operand.

(** The other operand of an operation of the comparator set of the second
    package, seen under the identity of the receiver. *)
Module Operand2.
Import Go sets2 Spec4 SeqSpec.
Section vocabulary.
Context {E : Type}.

(** The identities the operand holds: those of the elements its [Range]
    visits. *)
Definition holds (eq : E → E → bool) (other : View_ E) (e : E) : Prop :=
  has eq (view_Range other) e.

(** The operand is a set under the identity [eq]: its [Contains] answers
    by that identity, and its [Elems] lists what its [Range] visits. *)
Definition coherent (eq : E → E → bool) (other : View_ E) : Prop :=
  (∀ e, view_Contains other e = true ↔ holds eq other e)
  ∧ (∀ e, has eq (view_Elems other) e ↔ holds eq other e).

(** The receiver handed to itself. *)
Definition itself (s : funcSorted E) (other : View_ E) : Prop :=
  kind other = IsReceiver
  ∧ view_Elems other = list_ s ∧ view_Range other = list_ s.

(** Another set: its [Range] visits each identity once, its [Len] is the
    number of the elements visited, and a comparator set hands over the
    list it ranges over. *)
Definition proper (eq : E → E → bool) (other : View_ E) : Prop :=
  kind other ≠ IsReceiver
  ∧ distinct eq (view_Range other)
  ∧ len (view_Elems other) = len (view_Range other)
  ∧ (kind other = IsFuncSorted → view_Elems other = view_Range other).

(** A set of the given kind that holds the elements of [l] and answers
    [Contains] by the identity [eq]. *)
Definition of_list (k : view_kind) (eq : E → E → bool) (l : list E) : View_ E :=
  MkView k (λ e, ContainsFunc l (λ x, eq x e)) l l.

End vocabulary.
End Operand2.

(** [Clone] over the store: the elements are copied into a new backing
    array and the functions are handed on. *)
Module CloneHeap.
Import Go Heap.

(** [Clone] of the comparator set of [sorted.go] *)
Definition Clone {E} (h : list (list E)) (set : SortedHeap.sorted E)
  : list (list E) * SortedHeap.sorted E :=
  let '(h', sl) := Heap.Clone h (SortedHeap.elems set) in
  (h', SortedHeap.MkSorted sl (SortedHeap.cmp set) (SortedHeap.eq set)).

(** [clone] of the comparator set of the second package, which [Clone],
    [MutableCopy] and [ImmutableCopy] wrap *)
Definition clone {E} (h : list (list E)) (s : FuncSortedHeap.funcSorted E)
  : list (list E) * FuncSortedHeap.funcSorted E :=
  let '(h', sl) := Heap.Clone h (FuncSortedHeap.list_ s) in
  (h', FuncSortedHeap.MkFuncSorted sl (FuncSortedHeap.cmp s) (FuncSortedHeap.eq s)).

(** [Clone] of the natural-order set of [sorted.go] *)
Definition ordered_Clone (h : list (list Z)) (set : OrderedHeap.ordered)
  : list (list Z) * OrderedHeap.ordered :=
  let '(h', sl) := Heap.Clone h (OrderedHeap.elems set) in
  (h', OrderedHeap.MkOrdered sl).

(** [clone] of the natural-order set of the second package *)
Definition ordered_clone (h : list (list Z)) (s : Ordered2Heap.ordered)
  : list (list Z) * Ordered2Heap.ordered :=
  let '(h', sl) := Heap.Clone h (Ordered2Heap.list_ s) in
  (h', Ordered2Heap.MkOrdered sl).

End CloneHeap.

(** The loop of [ContainsSet] of a natural-order set against another
    natural-order set: both lists are walked in step. *)
Module LockStep.
Import Go Natural.

Definition in_step (a b : list Z) : run bool :=
  let an := len a in
  let bn := len b in
  r ← while_ret (length a + length b)
    (λ '(ai, bi), Ok (bool_decide (ai < an) && bool_decide (bi < bn)))
    (λ '(ai, bi),
       av ← index a ai;
       bv ← index b bi;
       if bool_decide (av < bv) then Ok (Next (ai + 1, bi))
       else if bool_decide (av = bv) then Ok (Next (ai + 1, bi + 1))
       else Ok (Return false))
    (0, 0);
  match r with
  | Return ok => Ok ok
  | Next (_, bi) => Ok (bool_decide (bi = bn))
  end.

(** What the loop has consumed of both lists: everything consumed of [b]
    was found in [a], and what is left of [b] lies above what was
    consumed of [a]. *)
Definition in_step_inv (a b : list Z) (s : Z * Z) : Prop :=
  ∃ p ra q rb,
    s = (len p, len q) ∧ a = p ++ ra ∧ b = q ++ rb
    ∧ (∀ x, x ∈ q → x ∈ p)
    ∧ (∀ x y, x ∈ p → y ∈ rb → x < y).

End LockStep.

(** The other operand of an operation of the natural-order set of
    [sorted.go]. *)
Module NaturalOperand.
Import Go Natural ordered.

(** The elements the operand holds, as the receiver reads them: the list
    of an [*ordered[E]], and what the [Range] of any other set visits. *)
Definition members (set : ordered) (other : Set_) : list Z :=
  match kind other with
  | IsReceiver => elems set
  | IsOrdered => set_Elems other
  | IsOther => set_Range other
  end.

(** The operand is a set: another natural-order set is strictly
    ascending; any other set answers [Contains] for the elements its
    [Range] visits, and its [Elems] lists them without repetition. *)
Definition coherent (other : Set_) : Prop :=
  match kind other with
  | IsReceiver => True
  | IsOrdered => strictly_sorted (set_Elems other)
  | IsOther =>
      (∀ e, set_Contains other e = true ↔ e ∈ set_Range other)
      ∧ (∀ e, e ∈ set_Elems other ↔ e ∈ set_Range other)
      ∧ NoDup (set_Elems other)
  end.

(** The same set handed over as any other [Set], so that the operations
    take their general path. *)
Definition generic (set : ordered) (other : Set_) : Set_ :=
  MkSet IsOther (λ e, bool_decide (e ∈ members set other))
        (members set other) (members set other).

End NaturalOperand.

(** The other operand of an operation of the natural-order set of the
    second package. *)
Module NaturalOperand2.
Import Go Natural ordered2.
Import sets2 (view_kind, IsReceiver, IsOrdered, IsFuncSorted, IsTable, IsExternal,
              View_, MkView, kind, view_Contains, view_Elems, view_Range).

(** The elements the operand holds, as the receiver reads them. *)
Definition members (s : ordered) (other : View_ Z) : list Z :=
  match kind other with
  | IsReceiver => list_ s
  | IsOrdered => view_Elems other
  | _ => view_Range other
  end.

(** The operand is a set: another natural-order set is strictly
    ascending; any other set answers [Contains] for the elements its
    [Range] visits, and its [Elems] lists them without repetition. *)
Definition coherent (other : View_ Z) : Prop :=
  match kind other with
  | IsReceiver => True
  | IsOrdered => strictly_sorted (view_Elems other)
  | _ =>
      (∀ e, view_Contains other e = true ↔ e ∈ view_Range other)
      ∧ (∀ e, e ∈ view_Elems other ↔ e ∈ view_Range other)
      ∧ NoDup (view_Elems other)
  end.

(** The same set handed over as a set of another implementation, so that
    the operations take their general path. *)
Definition generic (s : ordered) (other : View_ Z) : View_ Z :=
  MkView IsExternal (λ e, bool_decide (e ∈ members s other))
         (members s other) (members s other).

End NaturalOperand2.

(** What the walk of two strictly ascending lists has collected. *)
Module WalkMembers.
Import Go Natural WalkLoop.
Section loop.
Variables a b : list Z.
Variables keep_lt keep_gt keep_eq : bool.

(** With [p] and [q] consumed of [a] and [b]: each consumed part lies
    below what is left of the other list, and the result holds the
    elements of [p] alone, of [q] alone and of both that the three cases
    keep. *)
Definition walk_members (s : walk_state) : Prop :=
  ∀ p ra q rb, walk_at a b s p ra q rb →
    (∀ x y, x ∈ p → y ∈ rb → x < y)
    ∧ (∀ x y, x ∈ q → y ∈ ra → x < y)
    ∧ (∀ x, x ∈ s.2 ↔
         (keep_lt = true ∧ x ∈ p ∧ x ∉ q)
         ∨ (keep_gt = true ∧ x ∈ q ∧ x ∉ p)
         ∨ (keep_eq = true ∧ x ∈ p ∧ x ∈ q)).

End loop.
End WalkMembers.

(** What the theorems about the hash-backed sets speak of. *)
Module TableSpec.
Import Go.
Section vocabulary.
Context `{Countable E}.

(** The orders in which the runtime may range over a map: every key
    once. *)
Definition ranges (m : gset E) (keys : list E) : Prop := keys ≡ₚ elements m.

(** The elements an operand of a table of [set.go] holds. *)
Definition members (other : table.Set_ E) : gset E :=
  list_to_set (table.visits other).

(** The operand is a set: a table is ranged over in one of the orders of
    its map, and any other set answers [Contains] for the elements it is
    ranged over. *)
Definition proper (set : table.table E) (other : table.Set_ E) : Prop :=
  match other with
  | table.Receiver keys => ranges set keys
  | table.Table m keys => ranges m keys
  | table.Sorted elems contains => ∀ e, contains e = true ↔ e ∈ elems
  | table.Other contains range => ∀ e, contains e = true ↔ e ∈ range
  end.

(** The elements an operand of a table of the second package holds. *)
Definition members2 (other : table2.View_ E) : gset E :=
  list_to_set (table2.visits other).

(** The operand is a set; its [Len] is the number of its elements. *)
Definition proper2 (s : table2.table E) (other : table2.View_ E) : Prop :=
  match other with
  | table2.Receiver keys => ranges (table2.tbl s) keys
  | table2.Table m keys => ranges m keys
  | table2.List data contains =>
      (∀ e, contains e = true ↔ e ∈ data) ∧ NoDup data
  | table2.Other contains range n =>
      (∀ e, contains e = true ↔ e ∈ range) ∧ NoDup range ∧ n = len range
  end.

End vocabulary.
End TableSpec.

(** The hash-backed sets and the natural-order sets as operands of each
    other. *)
Module Interplay.
Import Go.

(** A hash-backed set of [set.go] as the operand of a natural-order set:
    it answers by its map, and its [Elems] and its [Range] go through the
    keys, each in an order of its own. *)
Definition table_operand (m : table.table Z) (elems range : list Z)
  : ordered.Set_ :=
  ordered.MkSet ordered.IsOther (table.Contains m) (table.Elems m elems) range.

(** The same in the second package. *)
Definition table_view (t : table2.table Z) (elems range : list Z)
  : sets2.View_ Z :=
  sets2.MkView sets2.IsTable (table2.Contains t) (table2.Elems t elems) range.

(** The answer of a call that returns. *)
Definition answers (r : run bool) : bool :=
  match r with
  | Ok b => b
  | _ => false
  end.

(** A natural-order set as the operand of a hash-backed set: in [set.go]
    it is any other [Set], in the second package a [listView]. *)
Definition ordered_operand (set : ordered.ordered) : table.Set_ Z :=
  table.Other (λ e, answers (ordered.Contains set e)) (ordered.elems set).

Definition ordered_view (s : ordered2.ordered) : table2.View_ Z :=
  table2.List (ordered2.list_ s) (λ e, answers (ordered2.Contains s e)).

End Interplay.

(** * Proofs *)

(** ** The primitives on arrays written as concatenations *)

Module GoFacts.
Import Go.

Section prims.
Context {A : Type}.
Implicit Types a p q r src : list A.

Lemma len_app p q : len (p ++ q) = len p + len q.
Proof. unfold len. rewrite length_app. lia. Qed.

Lemma len_cons (x : A) p : len (x :: p) = 1 + len p.
Proof. unfold len. simpl. lia. Qed.

Lemma len_snoc p (x : A) : len (p ++ [x]) = len p + 1.
Proof. unfold len. rewrite length_app. simpl. lia. Qed.

Lemma len_nil : len (@nil A) = 0.
Proof. reflexivity. Qed.

Lemma len_nonneg p : 0 ≤ len p.
Proof. unfold len. lia. Qed.

Lemma to_nat_len p : Z.to_nat (len p) = length p.
Proof. unfold len. lia. Qed.

Lemma index_Ok a i x :
  0 ≤ i → a !! Z.to_nat i = Some x → index a i = Ok x.
Proof.
  intros Hi Hx. unfold index.
  apply lookup_lt_Some in Hx as Hlt.
  rewrite bool_decide_true by (unfold len; lia).
  by rewrite Hx.
Qed.

Lemma index_in_range a i :
  0 ≤ i < len a → ∃ x, index a i = Ok x ∧ a !! Z.to_nat i = Some x.
Proof.
  intros Hi. destruct (lookup_lt_is_Some_2 a (Z.to_nat i)) as [x Hx].
  { unfold len in Hi. lia. }
  exists x. split; [apply index_Ok; [lia | done] | done].
Qed.

Lemma index_mid p x r : index (p ++ x :: r) (len p) = Ok x.
Proof.
  apply index_Ok; [apply len_nonneg|].
  rewrite to_nat_len. by rewrite list_lookup_middle.
Qed.

Lemma store_in_range a i v :
  0 ≤ i < len a → store a i v = Ok (<[Z.to_nat i := v]> a).
Proof. intros Hi. unfold store. by rewrite bool_decide_true. Qed.

Lemma store_mid p x r v : store (p ++ x :: r) (len p) v = Ok (p ++ v :: r).
Proof.
  rewrite store_in_range.
  - rewrite to_nat_len. f_equal.
    rewrite insert_app_r_alt by lia. by rewrite Nat.sub_diag.
  - rewrite len_app, len_cons. pose proof (len_nonneg p). pose proof (len_nonneg r). lia.
Qed.

Lemma view_mid p q r : view (p ++ q ++ r) (len p) (len q) = q.
Proof.
  unfold view. rewrite !to_nat_len, drop_app_length. apply take_app_length.
Qed.

Lemma view_all a : view a 0 (len a) = a.
Proof. unfold view. rewrite to_nat_len. simpl. apply firstn_all. Qed.

Lemma length_view a lo n :
  0 ≤ lo → 0 ≤ n → lo + n ≤ len a → len (view a lo n) = n.
Proof.
  intros. unfold view, len in *. rewrite length_take, length_drop. lia.
Qed.

Lemma slice_in_range a lo hi :
  0 ≤ lo → lo ≤ hi → hi ≤ len a → slice a lo hi = Ok (view a lo (hi - lo)).
Proof. intros. unfold slice. by rewrite bool_decide_true. Qed.

Lemma slice_mid p q r : slice (p ++ q ++ r) (len p) (len p + len q) = Ok q.
Proof.
  rewrite slice_in_range.
  - replace (len p + len q - len p) with (len q) by lia. by rewrite view_mid.
  - apply len_nonneg.
  - pose proof (len_nonneg q). lia.
  - rewrite !len_app. pose proof (len_nonneg r). lia.
Qed.

Lemma slice_suffix p q : slice (p ++ q) (len p) (len (p ++ q)) = Ok q.
Proof.
  rewrite len_app. rewrite <-(app_nil_r q) at 1. rewrite slice_mid. done.
Qed.

Lemma slice_prefix p q : slice (p ++ q) 0 (len p) = Ok p.
Proof.
  pose proof (slice_mid [] p q) as H. simpl in H. rewrite len_nil in H.
  by rewrite Z.add_0_l in H.
Qed.

Lemma list_inserts_mid p q r src :
  length src = length q →
  list_inserts (length p) src (p ++ q ++ r) = p ++ src ++ r.
Proof.
  intros Hlen. rewrite <-(Nat.add_0_r (length p)).
  rewrite list_inserts_app_r. f_equal. by apply list_inserts_0_r.
Qed.

(** [copy] of as many elements as the window holds. *)
Lemma copy_mid p q r src :
  len src = len q →
  copy (p ++ q ++ r) (len p) (len p + len q) src = Ok (p ++ src ++ r, len q).
Proof.
  intros Hlen. unfold copy.
  rewrite bool_decide_true.
  2:{ rewrite !len_app. pose proof (len_nonneg p). pose proof (len_nonneg q).
      pose proof (len_nonneg r). lia. }
  simpl. replace (len p + len q - len p) with (len q) by lia.
  replace (Z.min (len q) (len src)) with (len q) by lia.
  rewrite !to_nat_len. rewrite take_ge by (unfold len in *; lia).
  rewrite list_inserts_mid by (unfold len in *; lia). done.
Qed.

(** [copy(a[lo:], src)] when [src] is no longer than the window: the rest
    of the window is left as it is. *)
Lemma copy_short p q r src :
  len src = len q →
  copy (p ++ q ++ r) (len p) (len (p ++ q ++ r)) src = Ok (p ++ src ++ r, len q).
Proof.
  intros Hlen. unfold copy.
  rewrite bool_decide_true.
  2:{ rewrite !len_app. pose proof (len_nonneg p). pose proof (len_nonneg q).
      pose proof (len_nonneg r). lia. }
  simpl. rewrite !len_app.
  replace (Z.min _ _) with (len src).
  2:{ pose proof (len_nonneg r). lia. }
  rewrite !to_nat_len. rewrite take_ge by lia.
  rewrite list_inserts_mid by (unfold len in *; lia). by rewrite Hlen.
Qed.

Lemma clear_suffix (zero : A) p q :
  clear zero (p ++ q) (len p) = Ok (p ++ replicate (length q) zero).
Proof.
  unfold clear. rewrite bool_decide_true.
  2:{ rewrite len_app. pose proof (len_nonneg p). pose proof (len_nonneg q). lia. }
  rewrite to_nat_len, take_app_length, len_app.
  do 3 f_equal. unfold len. lia.
Qed.

Lemma grow_to_extend (zero : A) a n :
  0 ≤ n → grow_to zero a (len a + n) = Ok (a ++ replicate (Z.to_nat n) zero).
Proof.
  intros Hn. unfold grow_to. pose proof (len_nonneg a).
  rewrite bool_decide_true by lia.
  rewrite take_ge by (unfold len; lia).
  do 3 f_equal. lia.
Qed.

(** Splitting an array at a position. *)
Lemma split_at a (i : Z) :
  0 ≤ i ≤ len a →
  a = take (Z.to_nat i) a ++ drop (Z.to_nat i) a ∧ len (take (Z.to_nat i) a) = i.
Proof.
  intros Hi. split; [by rewrite take_drop|].
  unfold len in *. rewrite length_take. lia.
Qed.

Lemma split_middle (w : list A) (m : Z) :
  0 ≤ m < len w → ∃ j1 y w2, w = j1 ++ y :: w2 ∧ len j1 = m.
Proof.
  intros Hm. destruct (lookup_lt_is_Some_2 w (Z.to_nat m)) as [y Hy].
  { unfold len in Hm. lia. }
  exists (take (Z.to_nat m) w), y, (drop (S (Z.to_nat m)) w). split.
  - by rewrite take_drop_middle.
  - unfold len in *. rewrite length_take. lia.
Qed.

End prims.

(** ** Loop rules *)

Lemma while_inv {S} (Inv : S → Prop) (m : S → nat) fuel cond body (s : S) :
  Inv s → (m s ≤ fuel)%nat →
  (∀ s, Inv s → cond s = true →
        ∃ s', body s = Ok s' ∧ Inv s' ∧ (m s' < m s)%nat) →
  ∃ s', while fuel cond body s = Ok s' ∧ Inv s' ∧ cond s' = false.
Proof.
  intros HI Hm Hstep. revert s HI Hm.
  induction fuel as [|fuel IH]; intros s HI Hm; simpl.
  - destruct (cond s) eqn:Hc.
    + destruct (Hstep s HI Hc) as (s' & _ & _ & Hlt). lia.
    + eauto.
  - destruct (cond s) eqn:Hc; [|eauto].
    destruct (Hstep s HI Hc) as (s' & Hb & HI' & Hlt).
    rewrite Hb. simpl. apply IH; [done | lia].
Qed.

Lemma for_range_inv {S B} (Inv : list B → S → Prop) (l : list B) body (s : S) :
  Inv [] s →
  (∀ done x rest s, l = done ++ x :: rest → Inv done s →
        ∃ s', body s x = Ok s' ∧ Inv (done ++ [x]) s') →
  ∃ s', for_range l body s = Ok s' ∧ Inv l s'.
Proof.
  intros H0 Hstep.
  cut (∀ rest done s, l = done ++ rest → Inv done s →
         ∃ s', for_range rest body s = Ok s' ∧ Inv l s').
  { intros H. by apply (H l [] s). }
  induction rest as [|x rest IH]; intros done s1 Hl HI; simpl.
  - rewrite app_nil_r in Hl. subst. eauto.
  - destruct (Hstep done x rest s1 Hl HI) as (s' & Hb & HI').
    rewrite Hb. simpl. apply (IH (done ++ [x])); [|done].
    by rewrite <-app_assoc.
Qed.

Lemma for_range_app {S B} (l1 l2 : list B) body (s : S) :
  for_range (l1 ++ l2) body s = (s' ← for_range l1 body s; for_range l2 body s').
Proof.
  revert s. induction l1 as [|x l1 IH]; intros s; simpl.
  - done.
  - destruct (body s x); simpl; [apply IH | done | done].
Qed.

End GoFacts.

Import Go slicesx GoFacts.

Import Spec.

Module InsertFacts.
Import InsertIntoLoop.
Section facts.
Context {E : Type}.
Variable zero : E.
Implicit Types a junk rest : list E.
Implicit Types inserts : list (insert E).

Lemma positions_ok_le lo hi inserts : positions_ok lo hi inserts → lo ≤ hi.
Proof.
  revert lo. induction inserts as [|ins inserts IH]; simpl; intros lo; [done|].
  intros [H1 H2]. apply IH in H2. lia.
Qed.

Lemma positions_ok_snoc lo hi inserts x (e : E) :
  positions_ok lo hi (inserts ++ [Insert x e]) ↔
  positions_ok lo x inserts ∧ x ≤ hi.
Proof.
  revert lo. induction inserts as [|ins inserts IH]; simpl; intros lo.
  - tauto.
  - rewrite IH. tauto.
Qed.

Lemma positions_ok_weaken lo hi hi' inserts :
  positions_ok lo hi inserts → hi ≤ hi' → positions_ok lo hi' inserts.
Proof.
  revert lo. induction inserts as [|ins inserts IH]; simpl; intros lo.
  - lia.
  - intros [H1 H2] Hle. split; [done|]. by apply IH.
Qed.

Lemma length_weave a pos inserts :
  length (weave a pos inserts) = (length a + length inserts)%nat.
Proof.
  revert a pos. induction inserts as [|ins inserts IH]; intros a pos; simpl.
  - lia.
  - rewrite length_app. simpl. rewrite IH, length_take, length_drop. lia.
Qed.

(** Elements of the array past the last scheduled position are untouched. *)
Lemma weave_app a1 a2 pos inserts :
  positions_ok pos (pos + len a1) inserts →
  weave (a1 ++ a2) pos inserts = weave a1 pos inserts ++ a2.
Proof.
  revert a1 pos. induction inserts as [|ins inserts IH]; intros a1 pos; simpl.
  - done.
  - intros [H1 H2]. apply positions_ok_le in H2 as H3.
    rewrite take_app_le, drop_app_le by (unfold len in *; lia).
    rewrite <-app_assoc. simpl. do 2 f_equal.
    apply IH. eapply positions_ok_weaken; [done|].
    unfold len in *. rewrite length_drop. lia.
Qed.

(** An insertion scheduled last, at the end of the array. *)
Lemma weave_snoc a pos inserts x (e : E) :
  positions_ok pos x inserts → x = pos + len a →
  weave a pos (inserts ++ [Insert x e]) = weave a pos inserts ++ [e].
Proof.
  revert a pos. induction inserts as [|ins inserts IH]; intros a pos; simpl.
  - intros Hle ->. replace (pos + len a - pos) with (len a) by lia.
    rewrite to_nat_len, firstn_all, drop_all. done.
  - intros [H1 H2] ->. apply positions_ok_le in H2 as H3.
    rewrite <-app_assoc. simpl. do 2 f_equal.
    apply IH; [done|]. unfold len in *. rewrite length_drop. lia.
Qed.

(** One round of the loop of [insertInto], seen from the last insertion. *)
Lemma weave_last a pos inserts x (e : E) :
  positions_ok pos x inserts → x ≤ pos + len a →
  weave a pos (inserts ++ [Insert x e]) =
  weave (take (Z.to_nat (x - pos)) a) pos inserts ++ e :: drop (Z.to_nat (x - pos)) a.
Proof.
  intros Hok Hx. apply positions_ok_le in Hok as Hle.
  rewrite <-(take_drop (Z.to_nat (x - pos)) a) at 1.
  rewrite weave_app.
  2:{ apply positions_ok_snoc. split; [done|].
      unfold len in *. rewrite length_take. lia. }
  rewrite weave_snoc; [by rewrite <-app_assoc | done |].
  unfold len in *. rewrite length_take. lia.
Qed.

Local Abbreviation insert_body := (InsertIntoLoop.insert_body (E:=E)).

Lemma insert_step a1 a2 junk rest j1 y w2 (e : E) i k :
  a2 ++ junk = j1 ++ y :: w2 → len w2 = len a2 →
  i = len a1 + len a2 → k = len a1 + len a2 + len junk →
  insert_body (a1 ++ a2 ++ junk ++ rest, i, k) (Insert (len a1) e)
  = Ok (a1 ++ j1 ++ e :: a2 ++ rest, len a1, len a1 + len j1).
Proof.
  intros Hw Hw2 -> ->. unfold InsertIntoLoop.insert_body. simpl.
  assert (len a2 + len junk = len j1 + 1 + len w2) as Hlens.
  { rewrite <-!len_app, Hw, len_app, len_cons. lia. }
  replace (len a1 + (len a1 + len a2 - len a1)) with (len a1 + len a2) by lia.
  rewrite slice_mid. simpl.
  replace (a1 ++ a2 ++ junk ++ rest) with ((a1 ++ j1 ++ [y]) ++ w2 ++ rest).
  2:{ rewrite (app_assoc a2), Hw. by rewrite <-!app_assoc. }
  replace (len a1 + len a2 + len junk - (len a1 + len a2 - len a1))
    with (len (a1 ++ j1 ++ [y])).
  2:{ rewrite !len_app, len_cons, len_nil. lia. }
  replace (len a1 + len a2 + len junk) with (len (a1 ++ j1 ++ [y]) + len w2).
  2:{ rewrite !len_app, len_cons, len_nil. lia. }
  rewrite copy_mid by lia. simpl.
  replace ((a1 ++ j1 ++ [y]) ++ a2 ++ rest) with ((a1 ++ j1) ++ y :: a2 ++ rest).
  2:{ by rewrite <-!app_assoc. }
  replace (len (a1 ++ j1 ++ [y]) + len w2 - (len a1 + len a2 - len a1 + 1))
    with (len (a1 ++ j1)).
  2:{ rewrite !len_app, len_cons, len_nil. lia. }
  rewrite store_mid. simpl. rewrite len_app. by rewrite <-app_assoc.
Qed.

Lemma insert_loop inserts : ∀ a junk rest,
  positions_ok 0 (len a) inserts →
  len junk = len inserts →
  ∃ i k,
    for_range (reverse inserts) insert_body
      (a ++ junk ++ rest, len a, len a + len inserts)
    = Ok (weave a 0 inserts ++ rest, i, k).
Proof.
  induction inserts as [|[x e] inserts IH] using rev_ind; intros a junk rest Hok Hjunk.
  - simpl. destruct junk; [|by rewrite len_cons, len_nil in Hjunk; pose proof (len_nonneg junk); lia].
    simpl. eauto.
  - rewrite reverse_snoc.
    apply positions_ok_snoc in Hok as [Hok Hx].
    apply positions_ok_le in Hok as H0x.
    rewrite len_snoc in Hjunk |- *.
    pose proof (len_nonneg inserts) as Hm.
    destruct (split_at a x) as [Ha Hlen1]; [lia|].
    remember (take (Z.to_nat x) a) as a1 eqn:Ea1.
    remember (drop (Z.to_nat x) a) as a2 eqn:Ea2.
    assert (len a = len a1 + len a2) as Hlena by (rewrite Ha; apply len_app).
    destruct (split_middle (a2 ++ junk) (len inserts)) as (j1 & y & w2 & Hw & Hj1).
    { rewrite len_app. pose proof (len_nonneg a2). lia. }
    assert (len w2 = len a2) as Hw2.
    { assert (len (a2 ++ junk) = len (j1 ++ y :: w2)) as HH by (by rewrite Hw).
      rewrite !len_app, len_cons in HH. lia. }
    cbn [for_range].
    pose proof (insert_step a1 a2 junk rest j1 y w2 e (len a) (len a + (len inserts + 1))
                  Hw Hw2 Hlena) as Hstep.
    rewrite Hlen1, (app_assoc a1 a2), <-Ha in Hstep. rewrite Hstep by lia. simpl.
    destruct (IH a1 j1 (e :: a2 ++ rest)) as (i' & k' & Hloop).
    { by rewrite Hlen1. }
    { done. }
    rewrite Hlen1 in Hloop. rewrite Hj1, Hloop.
    exists i', k'. do 2 f_equal.
    rewrite weave_last by (done || lia).
    rewrite Z.sub_0_r, <-Ea1, <-Ea2. by rewrite <-app_assoc.
Qed.

Lemma insertInto_correct a tail inserts :
  positions_ok 0 (len a) inserts →
  insertInto zero a tail inserts = Ok (weave a 0 inserts ++ tail).
Proof.
  intros Hok. unfold insertInto.
  pose proof (len_nonneg inserts). pose proof (len_nonneg tail).
  rewrite grow_to_extend by lia. simpl.
  set (junk := replicate _ zero).
  assert (len junk = len inserts + len tail) as Hjunk.
  { unfold junk, len. rewrite length_replicate. unfold len. lia. }
  destruct (split_at junk (len inserts)) as [Hj Hlen1]; [lia|].
  set (j1 := take (Z.to_nat (len inserts)) junk) in *.
  set (j2 := drop (Z.to_nat (len inserts)) junk) in *.
  assert (len j2 = len tail) as Hlen2.
  { rewrite Hj in Hjunk. rewrite len_app in Hjunk. lia. }
  rewrite Hj.
  replace (len a + (len inserts + len tail) - len tail) with (len (a ++ j1)).
  2:{ rewrite len_app. lia. }
  rewrite app_assoc. rewrite <-(app_nil_r j2).
  rewrite copy_short by lia. simpl. rewrite app_nil_r.
  destruct (insert_loop inserts a j1 tail Hok Hlen1) as (i & k & Hloop).
  rewrite <-app_assoc. rewrite len_app, Hlen1.
  fold insert_body. rewrite Hloop. done.
Qed.

End facts.
End InsertFacts.

Import Go slicesx GoFacts.

Import Spec Spec2.

Module DeleteFacts.
Import DeleteFromLoop.
Section facts.
Context {E : Type}.
Variable zero : E.
Implicit Types a K G T : list E.
Implicit Types deletes : list Z.

Lemma deletes_ok_le lo hi deletes : deletes_ok lo hi deletes → lo ≤ hi.
Proof.
  revert lo. induction deletes as [|d ds IH]; simpl; intros lo; [done|].
  intros [H1 H2]. apply IH in H2. lia.
Qed.

Lemma deletes_ok_length lo hi deletes :
  deletes_ok lo hi deletes → len deletes ≤ hi - lo.
Proof.
  revert lo. induction deletes as [|d ds IH]; simpl; intros lo.
  - rewrite len_nil. lia.
  - intros [H1 H2]. apply IH in H2. rewrite len_cons. lia.
Qed.

Lemma deletes_ok_snoc lo hi deletes d :
  deletes_ok lo hi (deletes ++ [d]) ↔ deletes_ok lo d deletes ∧ d + 1 ≤ hi.
Proof.
  revert lo. induction deletes as [|d' ds IH]; simpl; intros lo.
  - tauto.
  - rewrite IH. tauto.
Qed.

Lemma deletes_ok_weaken lo hi hi' deletes :
  deletes_ok lo hi deletes → hi ≤ hi' → deletes_ok lo hi' deletes.
Proof.
  revert lo. induction deletes as [|d ds IH]; simpl; intros lo.
  - lia.
  - intros [H1 H2] Hle. split; [done|]. by apply IH.
Qed.

Lemma len_cut a pos deletes :
  deletes_ok pos (pos + len a) deletes →
  len (cut a pos deletes) = len a - len deletes.
Proof.
  revert a pos. induction deletes as [|d ds IH]; intros a pos; simpl.
  - rewrite len_nil. lia.
  - intros [H1 H2]. apply deletes_ok_le in H2 as H3.
    rewrite len_app, len_cons. rewrite IH.
    + unfold len in *. rewrite length_take, length_drop. lia.
    + replace (d + 1 + len (drop (Z.to_nat (d - pos + 1)) a)) with (pos + len a); [done|].
      unfold len in *. rewrite length_drop. lia.
Qed.

Lemma cut_app a1 a2 pos deletes :
  deletes_ok pos (pos + len a1) deletes →
  cut (a1 ++ a2) pos deletes = cut a1 pos deletes ++ a2.
Proof.
  revert a1 pos. induction deletes as [|d ds IH]; intros a1 pos; simpl.
  - done.
  - intros [H1 H2]. apply deletes_ok_le in H2 as H3.
    rewrite take_app_le, drop_app_le by (unfold len in *; lia).
    rewrite <-app_assoc. f_equal.
    apply IH. eapply deletes_ok_weaken; [done|].
    unfold len in *. rewrite length_drop. lia.
Qed.

Lemma cut_snoc a pos deletes d (x : E) :
  deletes_ok pos d deletes → d = pos + len a →
  cut (a ++ [x]) pos (deletes ++ [d]) = cut a pos deletes.
Proof.
  revert a pos. induction deletes as [|d' ds IH]; intros a pos; simpl.
  - intros Hle ->. replace (pos + len a - pos) with (len a) by lia.
    rewrite to_nat_len, take_app_length.
    rewrite drop_ge; [by rewrite app_nil_r|].
    rewrite length_app. simpl. unfold len. lia.
  - intros [H1 H2] ->. apply deletes_ok_le in H2 as H3.
    rewrite take_app_le, drop_app_le by (unfold len in *; lia).
    f_equal. apply IH; [done|]. unfold len in *. rewrite length_drop. lia.
Qed.

Local Abbreviation delete_body := (DeleteFromLoop.delete_body (E:=E)).

(** Sliding [S] left over the gap [G]. *)
Lemma copy_slide K G S R :
  ∃ G', len G' = len G ∧
    copy (K ++ G ++ S ++ R) (len K) (len (K ++ G ++ S ++ R)) S
    = Ok (K ++ S ++ G' ++ R, len S).
Proof.
  exists (drop (length S) (G ++ S)). split.
  - unfold len. rewrite length_drop, length_app. lia.
  - replace (K ++ G ++ S ++ R)
      with (K ++ take (length S) (G ++ S) ++ drop (length S) (G ++ S) ++ R).
    2:{ rewrite (app_assoc (take _ _)), take_drop. by rewrite <-app_assoc. }
    rewrite copy_short; [|unfold len; rewrite length_take, length_app; lia].
    do 2 f_equal. unfold len. rewrite length_take, length_app. lia.
Qed.

Lemma delete_step K G S (t : E) T' d src :
  src = len K + len G → d = src + len S →
  ∃ G1, len G1 = len G + 1 ∧
    delete_body (K ++ G ++ S ++ t :: T', len K, src) d
    = Ok ((K ++ S) ++ G1 ++ T', len (K ++ S), d + 1).
Proof.
  intros Hsrc Hd. unfold DeleteFromLoop.delete_body.
  assert (slice (K ++ G ++ S ++ t :: T') src d = Ok S) as ->.
  { rewrite app_assoc.
    replace src with (len (K ++ G)) by (rewrite len_app; lia).
    replace d with (len (K ++ G) + len S) by (rewrite len_app; lia).
    apply slice_mid. }
  cbn [mbind run_bind].
  destruct (copy_slide K G S (t :: T')) as (G1 & HG1 & Hcopy).
  rewrite Hcopy. cbn [mbind run_bind].
  exists (G1 ++ [t]). split.
  - rewrite len_snoc. lia.
  - rewrite len_app, <-!app_assoc. done.
Qed.

Lemma delete_loop deletes : ∀ K G T src,
  deletes_ok src (src + len T) deletes →
  src = len K + len G →
  ∃ kept G' T' src',
    for_range deletes delete_body (K ++ G ++ T, len K, src)
    = Ok (K ++ kept ++ G' ++ T', len K + len kept, src')
    ∧ kept ++ T' = cut T src deletes
    ∧ len G' = len G + len deletes
    ∧ src' = len K + len kept + len G'.
Proof.
  induction deletes as [|d ds IH]; intros K G T src Hok Hsrc.
  - simpl. exists [], G, T, src. simpl. change (len (@nil E)) with 0. change (len (@nil Z)) with 0.
    split; [by rewrite Z.add_0_r|]. split; [done|]. split; lia.
  - destruct Hok as [H1 H2]. apply deletes_ok_le in H2 as H3.
    cbn [for_range].
    destruct (split_middle T (d - src)) as (S & t & T' & HT & HS); [lia|].
    assert (len T = len S + 1 + len T') as HlenT.
    { rewrite HT. rewrite len_app, len_cons. lia. }
    destruct (delete_step K G S t T' d src) as (G1 & HG1 & Hstep); [done|lia|].
    subst T. rewrite Hstep. cbn [mbind run_bind].
    destruct (IH (K ++ S) G1 T' (d + 1)) as (kept & G' & T'' & src' & Hloop & Hcut & HG' & Hsrc').
    { replace (d + 1 + len T') with (src + len (S ++ t :: T')) by lia. done. }
    { rewrite !len_app. lia. }
    exists (S ++ kept), G', T'', src'.
    rewrite Hloop. split; [|split; [|split]].
    + rewrite <-!app_assoc, !len_app. do 3 f_equal. lia.
    + simpl. rewrite <-app_assoc, Hcut.
      rewrite <-HS, !to_nat_len.
      rewrite take_app_length. f_equal.
      replace (Z.to_nat (len S + 1)) with (length (S ++ [t])).
      2:{ rewrite length_app. simpl. unfold len. lia. }
      change (S ++ t :: T') with (S ++ [t] ++ T').
      rewrite app_assoc, drop_app_length. done.
    + rewrite HG', len_cons. lia.
    + rewrite Hsrc', !len_app. lia.
Qed.

Lemma deleteFrom_correct a deletes :
  deletes_ok 0 (len a) deletes →
  deleteFrom zero a deletes = Ok (cut a 0 deletes).
Proof.
  intros Hok. unfold deleteFrom.
  destruct deletes as [|d ds]; [done|].
  rewrite bool_decide_false by (rewrite len_cons; pose proof (len_nonneg ds); lia).
  change (index (d :: ds) 0) with (Ok d).
  cbn [mbind run_bind]. change (drop 1 (d :: ds)) with ds.
  destruct Hok as [H1 H2]. apply deletes_ok_le in H2 as H3.
  apply deletes_ok_length in H2 as H4.
  destruct (split_middle a d) as (K & t & T & Ha & HK); [lia|].
  subst d.
  assert (len a = len K + 1 + len T) as Hlena.
  { rewrite Ha. rewrite len_app, len_cons. lia. }
  destruct (delete_loop ds K [t] T (len K + 1)) as (kept & G' & T' & src' & Hloop & Hcut & HG' & Hsrc').
  { replace (len K + 1 + len T) with (len a) by lia. done. }
  { rewrite len_cons, len_nil. lia. }
  fold delete_body.
  assert (len (kept ++ T') = len T - len ds) as Hlenk.
  { rewrite Hcut. apply len_cut.
    replace (len K + 1 + len T) with (len a) by lia. done. }
  rewrite len_app in Hlenk. rewrite len_cons, len_nil in HG'.
  rewrite len_cons, Hlena. clear Hlena H2 H3 H4.
  subst a.
  change (K ++ t :: T) with (K ++ [t] ++ T). rewrite Hloop.
  cbn [mbind run_bind].
  assert (slice (K ++ kept ++ G' ++ T') src' (len (K ++ kept ++ G' ++ T')) = Ok T') as ->.
  { rewrite !app_assoc. rewrite Hsrc'.
    replace (len K + len kept + len G') with (len ((K ++ kept) ++ G')) by (rewrite !len_app; lia).
    apply slice_suffix. }
  cbn [mbind run_bind].
  destruct (copy_slide (K ++ kept) G' T' []) as (G1 & HG1 & Hcopy).
  rewrite !app_nil_r, <-!app_assoc in Hcopy.
  rewrite len_app in Hcopy.
  rewrite Hcopy. cbn [mbind run_bind].
  replace (len K + 1 + len T - (1 + len ds)) with (len (K ++ kept ++ T')).
  2:{ rewrite !len_app. lia. }
  rewrite !app_assoc. rewrite <-(app_assoc K kept T').
  rewrite clear_suffix. cbn [mbind run_bind].
  rewrite slice_prefix. f_equal.
  simpl. rewrite Z.sub_0_r. rewrite !to_nat_len.
  replace (Z.to_nat (len K + 1)) with (length (K ++ [t])).
  2:{ rewrite length_app. simpl. unfold len. lia. }
  rewrite drop_app_length, <-app_assoc, take_app_length.
  by rewrite Hcut.
Qed.

End facts.
End DeleteFacts.

Import Go slicesx GoFacts.
Import Spec Spec2.

Import Spec3.

Module RunFacts.
Section facts.
Context {E : Type}.
Variable cmp : E → E → Z.
Implicit Types l : list E.

Lemma runEq_count_bounds v0 rest n :
  n ≤ runEq_count cmp v0 rest n ≤ n + len rest.
Proof.
  revert n. induction rest as [|v rest IH]; intros n; simpl.
  - rewrite len_nil. lia.
  - rewrite len_cons. case_bool_decide.
    + pose proof (len_nonneg rest). lia.
    + specialize (IH (n + 1)). lia.
Qed.

(** The run is a non-empty prefix of a non-empty list. *)
Lemma runEq_prefix l :
  ∃ rest, l = runEq l cmp ++ rest ∧ (l ≠ [] → runEq l cmp ≠ []).
Proof.
  unfold runEq. case_bool_decide as Hlen.
  - exists []. by rewrite app_nil_r.
  - destruct l as [|v0 rest]; [by exists []|].
    pose proof (runEq_count_bounds v0 rest 1) as Hb.
    unfold view. simpl drop.
    exists (drop (Z.to_nat (runEq_count cmp v0 rest 1)) (v0 :: rest)).
    split; [by rewrite take_drop|].
    intros _ Hnil. apply (f_equal length) in Hnil.
    rewrite length_take in Hnil. simpl in Hnil. lia.
Qed.

Lemma runEq_nil : runEq [] cmp = [].
Proof. done. Qed.

End facts.
End RunFacts.
Import RunFacts.

Module MergeFacts.
Import InsertFacts InsertIntoLoop.
Import MergeLoop.
Section facts.
Context {E : Type}.
Variable zero : E.
Variable cmp : E → E → Z.
Variable eq : E → E → bool.
Implicit Types a b p w r : list E.
Implicit Types inserts : list (insert E).

Lemma reconcile_length at_ st be :
  length (reconcile eq at_ st be).1 = length st.1.
Proof.
  unfold reconcile. destruct (IndexFunc _ _); simpl; [apply length_insert | done].
Qed.

Lemma merge_run_length at_ br : ∀ w inserts,
  length (merge_run eq at_ w br inserts).1 = length w.
Proof.
  unfold merge_run. induction br as [|be br IH]; intros w inserts; simpl; [done|].
  destruct (reconcile eq at_ (w, inserts) be) as [w' ins'] eqn:Hr.
  rewrite IH. pose proof (reconcile_length at_ (w, inserts) be) as H.
  by rewrite Hr in H.
Qed.

Lemma IndexFunc_lt {A} (s : list A) f i :
  IndexFunc s f = Some i → (i < length s)%nat.
Proof.
  revert i. induction s as [|x s IH]; intros i; simpl; [done|].
  destruct (f x).
  - intros [= <-]. lia.
  - destruct (IndexFunc s f) as [j|]; simpl; [|done].
    intros [= <-]. specialize (IH j eq_refl). lia.
Qed.

(** The scheduled insertions of a run all sit at [at_], after the
    insertions already scheduled. *)
Lemma merge_run_positions at_ br : ∀ w inserts lo,
  positions_ok lo at_ inserts →
  positions_ok lo at_ (merge_run eq at_ w br inserts).2.
Proof.
  unfold merge_run. induction br as [|be br IH]; intros w inserts lo Hok; simpl; [done|].
  unfold reconcile at 2. simpl.
  destruct (IndexFunc w _); apply IH; simpl; [done|].
  apply positions_ok_snoc. split; [done | lia].
Qed.

(** The inner loop of [MergeSorted] on the window [w] of [p ++ w ++ r]. *)
Lemma merge_inner at_ br : ∀ p w r inserts,
  for_range br
    (λ '(a, inserts) be,
       match IndexFunc (view a (len p) (len w)) (λ ae, eq be ae) with
       | Some i => a ← store a (len p + Z.of_nat i) be; Ok (a, inserts)
       | None => Ok (a, inserts ++ [Insert at_ be])
       end)
    (p ++ w ++ r, inserts)
  = Ok (p ++ (merge_run eq at_ w br inserts).1 ++ r,
        (merge_run eq at_ w br inserts).2).
Proof.
  induction br as [|be br IH]; intros p w r inserts; [done|].
  cbn [for_range]. rewrite view_mid.
  unfold merge_run. simpl foldl. unfold reconcile at 2 4. simpl.
  destruct (IndexFunc w _) as [i|] eqn:Hi; cbn [mbind run_bind].
  - apply IndexFunc_lt in Hi as Hlt.
    rewrite store_in_range.
    2:{ rewrite !len_app. pose proof (len_nonneg p). pose proof (len_nonneg r).
        unfold len at 4. lia. }
    cbn [mbind run_bind].
    replace (Z.to_nat (len p + Z.of_nat i)) with (length p + i)%nat by (unfold len; lia).
    rewrite insert_app_r, insert_app_l by done.
    specialize (IH p (<[i:=be]> w) r inserts).
    assert (len (<[i:=be]> w) = len w) as Hl by (unfold len; by rewrite length_insert).
    rewrite Hl in IH. apply IH.
  - apply IH.
Qed.

Local Abbreviation merge_state := (MergeLoop.merge_state (E:=E)).
Local Abbreviation merge_cond := (MergeLoop.merge_cond (E:=E)).
Local Abbreviation merge_body := (MergeLoop.merge_body (E:=E) cmp eq).

Lemma MergeSorted_unfold a b :
  MergeSorted zero a b cmp eq =
  ('(a', _, bi, inserts) ← while (length a + length b)
      (merge_cond (len a) (len b)) (merge_body b) (a, 0, 0, []);
   tail ← slice b bi (len b);
   insertInto zero a' tail inserts).
Proof. reflexivity. Qed.

Local Abbreviation merge_step := (MergeLoop.merge_step (E:=E) cmp eq).

Lemma merge_body_step b a ai bi inserts :
  0 ≤ ai < len a → 0 ≤ bi < len b →
  ∃ s', merge_body b (a, ai, bi, inserts) = Ok s'
        ∧ merge_step b (a, ai, bi, inserts) s'.
Proof.
  intros Hai Hbi.
  destruct (split_middle a ai Hai) as (p & av & ra & -> & <-).
  destruct (split_middle b bi Hbi) as (q & bv & rb & -> & <-).
  unfold MergeLoop.merge_body. rewrite !index_mid. cbn [mbind run_bind].
  case_bool_decide as Hlt.
  { eexists. split; [done|]. by eapply merge_step_lt. }
  case_bool_decide as Hgt.
  { eexists. split; [done|]. by eapply merge_step_gt. }
  rewrite !slice_suffix. cbn [mbind run_bind].
  destruct (runEq_prefix cmp (av :: ra)) as (ra' & Hra & Hne1).
  destruct (runEq_prefix cmp (bv :: rb)) as (rb' & Hrb & Hne2).
  eexists. split.
  - replace (p ++ av :: ra) with (p ++ runEq (av :: ra) cmp ++ ra') by (by rewrite <-Hra).
    rewrite (merge_inner (len p + len (runEq (av :: ra) cmp))
               (runEq (bv :: rb) cmp) p (runEq (av :: ra) cmp) ra' inserts).
    cbn [mbind run_bind]. reflexivity.
  - eapply merge_step_eq; try done; [lia | by apply Hne1 | by apply Hne2].
Qed.

Local Abbreviation merge_shape := (MergeLoop.merge_shape (E:=E)).
Local Abbreviation merge_measure := (MergeLoop.merge_measure (E:=E)).

Lemma len_pos_of_ne (l : list E) : l ≠ [] → 0 < len l.
Proof. destruct l; [done|]. rewrite len_cons. pose proof (len_nonneg l). lia. Qed.

Lemma merge_step_shape a0 b s s' :
  merge_shape a0 b s → merge_step b s s' →
  merge_shape a0 b s' ∧ (merge_measure a0 b s' < merge_measure a0 b s)%nat.
Proof.
  intros Hs Hstep. destruct Hstep as
    [p av ra q bv rb inserts Hb Hc
    |p av ra q bv rb inserts Hb Hc
    |p av ra ar ra' q bv rb br rb' inserts Hb Hc Har Hra Hbr Hrb Hne1 Hne2];
    unfold MergeLoop.merge_shape, MergeLoop.merge_measure in *;
    destruct Hs as (Hlen & Hai & Hbi & Hpos);
    rewrite len_app, len_cons in Hlen;
    assert (len b = len q + 1 + len rb) as Hlenb
      by (rewrite Hb, len_app, len_cons; lia);
    pose proof (len_nonneg ra); pose proof (len_nonneg rb);
    pose proof (len_nonneg p); pose proof (len_nonneg q).
  - rewrite len_app, len_cons.
    repeat split; try lia. eapply positions_ok_weaken; [done | lia].
  - rewrite len_app, len_cons.
    repeat split; try lia. apply positions_ok_snoc. split; [done | lia].
  - apply len_pos_of_ne in Hne1, Hne2.
    assert (1 + len ra = len ar + len ra') as Hl1.
    { rewrite <-(len_cons av ra), Hra, len_app. done. }
    assert (1 + len rb = len br + len rb') as Hl2.
    { rewrite <-(len_cons bv rb), Hrb, len_app. done. }
    pose proof (len_nonneg ra'). pose proof (len_nonneg rb').
    rewrite !len_app.
    assert (len (merge_run eq (len p + len ar) ar br inserts).1 = len ar) as ->.
    { unfold len. by rewrite merge_run_length. }
    repeat split; try lia.
    apply merge_run_positions. eapply positions_ok_weaken; [done | lia].
Qed.

(** The loop of [MergeSorted] runs to completion, within its budget, and
    leaves bounds under which [insertInto] succeeds. *)
Lemma merge_loop_total (Inv : merge_state → Prop) a b :
  Inv (a, 0, 0, []) →
  (∀ s s', merge_shape a b s → Inv s → merge_step b s s' → Inv s') →
  ∃ a' ai bi inserts,
    while (length a + length b) (merge_cond (len a) (len b)) (merge_body b)
      (a, 0, 0, []) = Ok (a', ai, bi, inserts)
    ∧ merge_shape a b (a', ai, bi, inserts)
    ∧ Inv (a', ai, bi, inserts)
    ∧ (ai = len a ∨ bi = len b).
Proof.
  intros H0 Hpres.
  destruct (while_inv (λ s, merge_shape a b s ∧ Inv s) (merge_measure a b)
              (length a + length b) (merge_cond (len a) (len b)) (merge_body b)
              (a, 0, 0, [])) as ([[[a' ai] bi] inserts] & Hw & [Hs HI] & Hc).
  - split; [|done]. unfold MergeLoop.merge_shape. simpl.
    pose proof (len_nonneg a). pose proof (len_nonneg b). lia.
  - unfold MergeLoop.merge_measure, len. lia.
  - intros [[[a1 ai] bi] inserts] [Hs HI] Hc.
    unfold MergeLoop.merge_cond in Hc. apply andb_true_iff in Hc as [Hc1 Hc2].
    apply bool_decide_eq_true in Hc1, Hc2.
    destruct Hs as (Hlen & Hai & Hbi & Hpos).
    destruct (merge_body_step b a1 ai bi inserts) as (s' & Hb & Hstep); [lia..|].
    exists s'. split; [done|].
    assert (merge_shape a b (a1, ai, bi, inserts)) as Hs by done.
    destruct (merge_step_shape a b _ _ Hs Hstep) as [Hs' Hm].
    split; [|exact Hm]. split; [done|]. exact (Hpres _ _ Hs HI Hstep).
  - exists a', ai, bi, inserts. split; [done|]. split; [done|]. split; [done|].
    unfold MergeLoop.merge_cond in Hc. apply andb_false_iff in Hc.
    destruct Hs as (Hlen & Hai & Hbi & Hpos).
    destruct Hc as [Hc|Hc]; apply bool_decide_eq_false in Hc; lia.
Qed.

Lemma MergeSorted_run (Inv : merge_state → Prop) a b :
  Inv (a, 0, 0, []) →
  (∀ s s', merge_shape a b s → Inv s → merge_step b s s' → Inv s') →
  ∃ a' ai bi inserts,
    MergeSorted zero a b cmp eq
    = Ok (weave a' 0 inserts ++ drop (Z.to_nat bi) b)
    ∧ merge_shape a b (a', ai, bi, inserts)
    ∧ Inv (a', ai, bi, inserts)
    ∧ (ai = len a ∨ bi = len b).
Proof.
  intros H0 Hpres.
  destruct (merge_loop_total Inv a b H0 Hpres)
    as (a' & ai & bi & inserts & Hw & Hs & HI & Hend).
  exists a', ai, bi, inserts. split; [|done].
  rewrite MergeSorted_unfold, Hw. cbn [mbind run_bind].
  destruct Hs as (Hlen & Hai & Hbi & Hpos).
  rewrite slice_in_range by lia. cbn [mbind run_bind].
  rewrite insertInto_correct.
  - do 2 f_equal. unfold view. apply take_ge.
    rewrite length_drop. unfold len. lia.
  - eapply positions_ok_weaken; [done | lia].
Qed.

End facts.
End MergeFacts.

Import Go slicesx GoFacts.
Import Spec Spec2 Spec3.

Import Spec4.

Module OrderFacts.
Section facts.
Context {E : Type}.
Variable cmp : E → E → Z.
Variable eq : E → E → bool.
Hypothesis Hcmp : Comparator cmp.
Hypothesis Heq : Identity cmp eq.
Implicit Types l : list E.

Lemma cmp_refl a : cmp a a = 0.
Proof.
  pose proof (cmp_antisym cmp Hcmp a a). lia.
Qed.

Lemma cmp_flip_le a b : cmp a b ≤ 0 ↔ 0 ≤ cmp b a.
Proof.
  pose proof (cmp_antisym cmp Hcmp a b). pose proof (cmp_antisym cmp Hcmp b a). lia.
Qed.

Lemma cmp_zero_sym a b : cmp a b = 0 ↔ cmp b a = 0.
Proof.
  pose proof (cmp_antisym cmp Hcmp a b). pose proof (cmp_antisym cmp Hcmp b a). lia.
Qed.

Lemma cmp_lt_le_trans a b c : cmp a b < 0 → cmp b c ≤ 0 → cmp a c < 0.
Proof.
  intros H1 H2. destruct (Z_lt_ge_dec (cmp a c) 0) as [|H3]; [done|].
  assert (cmp c a ≤ 0) as H4 by (apply cmp_flip_le; lia).
  pose proof (cmp_trans cmp Hcmp b c a H2 H4) as H5.
  apply cmp_flip_le in H5. lia.
Qed.

Lemma cmp_le_lt_trans a b c : cmp a b ≤ 0 → cmp b c < 0 → cmp a c < 0.
Proof.
  intros H1 H2. destruct (Z_lt_ge_dec (cmp a c) 0) as [|H3]; [done|].
  assert (cmp c a ≤ 0) as H4 by (apply cmp_flip_le; lia).
  pose proof (cmp_trans cmp Hcmp c a b H4 H1) as H5.
  apply cmp_flip_le in H5. lia.
Qed.

Lemma cmp_zero_trans a b c : cmp a b = 0 → cmp b c = 0 → cmp a c = 0.
Proof.
  intros H1 H2.
  assert (cmp a c ≤ 0) by (apply (cmp_trans cmp Hcmp a b c); lia).
  apply cmp_zero_sym in H1, H2.
  assert (cmp c a ≤ 0) as H3 by (apply (cmp_trans cmp Hcmp c b a); lia).
  apply cmp_flip_le in H3. lia.
Qed.

Lemma cmp_lt_eq_false a b : cmp a b < 0 → eq a b = false.
Proof.
  intros H. destruct (eq a b) eqn:Hab; [|done].
  apply (id_cmp cmp eq Heq) in Hab. lia.
Qed.

Lemma cmp_gt_eq_false a b : cmp a b > 0 → eq a b = false.
Proof.
  intros H. destruct (eq a b) eqn:Hab; [|done].
  apply (id_cmp cmp eq Heq) in Hab. lia.
Qed.

Lemma eq_false_sym a b : eq a b = false → eq b a = false.
Proof. by rewrite (id_sym cmp eq Heq). Qed.

(** Replacing an identity's value keeps the other elements distinct from it. *)
Lemma eq_false_replace a b c : eq a b = true → eq b c = false → eq a c = false.
Proof.
  intros Hab Hbc. destruct (eq a c) eqn:Hac; [|done].
  rewrite (id_sym cmp eq Heq) in Hab.
  by rewrite (id_trans cmp eq Heq b a c Hab Hac) in Hbc.
Qed.

Lemma ascending_app l1 l2 :
  ascending cmp (l1 ++ l2) ↔
  ascending cmp l1 ∧ ascending cmp l2 ∧ ∀ x y, x ∈ l1 → y ∈ l2 → cmp x y ≤ 0.
Proof. unfold ascending. rewrite StronglySorted_app. tauto. Qed.

Lemma distinct_app l1 l2 :
  distinct eq (l1 ++ l2) ↔
  distinct eq l1 ∧ distinct eq l2 ∧ ∀ x y, x ∈ l1 → y ∈ l2 → eq x y = false.
Proof. unfold distinct. rewrite StronglySorted_app. tauto. Qed.

Lemma ascending_cons x l :
  ascending cmp (x :: l) ↔ ascending cmp l ∧ ∀ y, y ∈ l → cmp x y ≤ 0.
Proof.
  split.
  - intros H. apply StronglySorted_inv in H as [H1 H2].
    split; [done|]. by apply Forall_forall.
  - intros [H1 H2]. constructor; [done|]. by apply Forall_forall.
Qed.

Lemma distinct_cons x l :
  distinct eq (x :: l) ↔ distinct eq l ∧ ∀ y, y ∈ l → eq x y = false.
Proof.
  split.
  - intros H. apply StronglySorted_inv in H as [H1 H2].
    split; [done|]. by apply Forall_forall.
  - intros [H1 H2]. constructor; [done|]. by apply Forall_forall.
Qed.

Lemma ascending_nil : ascending cmp [].
Proof. constructor. Qed.

Lemma distinct_nil : distinct eq [].
Proof. constructor. Qed.

Lemma ascending_singleton x : ascending cmp [x].
Proof. apply ascending_cons. split; [constructor|]. intros y Hy. inversion Hy. Qed.

Lemma distinct_singleton x : distinct eq [x].
Proof. apply distinct_cons. split; [constructor|]. intros y Hy. inversion Hy. Qed.

(** In a distinct list, elements of equal identity are the same element. *)
Lemma distinct_eq_same l x y :
  distinct eq l → x ∈ l → y ∈ l → eq x y = true → x = y.
Proof.
  intros Hd. induction l as [|z l IH]; intros Hx Hy Hxy; [by inversion Hx|].
  apply distinct_cons in Hd as [Hd Hz].
  apply elem_of_cons in Hx as [->|Hx]; apply elem_of_cons in Hy as [->|Hy]; try done.
  - rewrite (Hz y Hy) in Hxy. done.
  - rewrite (id_sym cmp eq Heq), (Hz x Hx) in Hxy. done.
  - by apply IH.
Qed.

Lemma distinct_replace l1 l2 old new :
  eq new old = true → distinct eq (l1 ++ old :: l2) → distinct eq (l1 ++ new :: l2).
Proof.
  intros Hno Hd. apply distinct_app in Hd as (H1 & H2 & H3).
  apply distinct_cons in H2 as [H2 H4].
  apply distinct_app. split; [done|]. split.
  - apply distinct_cons. split; [done|].
    intros y Hy. eapply eq_false_replace; [done|]. by apply H4.
  - intros x y Hx Hy. apply elem_of_cons in Hy as [->|Hy].
    + apply eq_false_sym. eapply eq_false_replace; [done|].
      apply eq_false_sym. apply H3; [done|]. by left.
    + apply H3; [done|]. by right.
Qed.

End facts.
End OrderFacts.

Import Go slicesx GoFacts.
Import Spec Spec2 Spec3 Spec4.
Import RunFacts OrderFacts InsertFacts InsertIntoLoop MergeFacts MergeLoop.

Module SearchFacts.
Section facts.
Context {A : Type}.

Lemma IndexFunc_Some (s : list A) f i :
  IndexFunc s f = Some i →
  ∃ s1 x s2, s = s1 ++ x :: s2 ∧ length s1 = i ∧ f x = true
             ∧ ∀ y, y ∈ s1 → f y = false.
Proof.
  revert i. induction s as [|x s IH]; intros i; simpl; [done|].
  destruct (f x) eqn:Hfx.
  - intros [= <-]. exists [], x, s. repeat split; try done.
    intros y Hy. inversion Hy.
  - destruct (IndexFunc s f) as [j|]; simpl; [|done].
    intros [= <-]. destruct (IH j eq_refl) as (s1 & y & s2 & -> & <- & Hy & Hs1).
    exists (x :: s1), y, s2. repeat split; try done.
    intros z Hz. apply elem_of_cons in Hz as [->|Hz]; [done | by apply Hs1].
Qed.

Lemma IndexFunc_None (s : list A) f :
  IndexFunc s f = None → ∀ y, y ∈ s → f y = false.
Proof.
  induction s as [|x s IH]; simpl; intros H y Hy; [by inversion Hy|].
  destruct (f x) eqn:Hfx; [done|].
  destruct (IndexFunc s f) as [j|] eqn:Hj; [done|].
  apply elem_of_cons in Hy as [->|Hy]; [done | by apply IH].
Qed.

Lemma IndexFunc_None_iff (s : list A) f :
  IndexFunc s f = None ↔ ∀ y, y ∈ s → f y = false.
Proof.
  split; [apply IndexFunc_None|].
  induction s as [|x s IH]; simpl; intros H; [done|].
  rewrite (H x) by (by left). rewrite IH; [done|].
  intros y Hy. apply H. by right.
Qed.

Lemma ContainsFunc_true (s : list A) f :
  ContainsFunc s f = true ↔ ∃ y, y ∈ s ∧ f y = true.
Proof.
  unfold ContainsFunc. rewrite bool_decide_eq_true. split.
  - intros [i Hi]. apply IndexFunc_Some in Hi as (s1 & x & s2 & -> & _ & Hx & _).
    exists x. split; [|done]. apply elem_of_app. right. by left.
  - intros (y & Hy & Hfy). destruct (IndexFunc s f) eqn:Hi; [by eexists|].
    by rewrite (IndexFunc_None _ _ Hi y Hy) in Hfy.
Qed.

Lemma ContainsFunc_false (s : list A) f :
  ContainsFunc s f = false ↔ ∀ y, y ∈ s → f y = false.
Proof.
  rewrite <-IndexFunc_None_iff. unfold ContainsFunc.
  rewrite bool_decide_eq_false. split.
  - intros H. destruct (IndexFunc s f); [|done]. destruct H. by eexists.
  - intros -> [? ?]. done.
Qed.

End facts.
End SearchFacts.
Import SearchFacts.

Module RunOrder.
Section facts.
Context {E : Type}.
Variable cmp : E → E → Z.
Implicit Types l rest : list E.

Lemma runEq_count_spec v0 rest n :
  ∃ k : nat, runEq_count cmp v0 rest n = n + Z.of_nat k
    ∧ (k ≤ length rest)%nat
    ∧ (∀ y, y ∈ take k rest → cmp v0 y = 0)
    ∧ (∀ y, rest !! k = Some y → cmp v0 y ≠ 0).
Proof.
  revert n. induction rest as [|v rest IH]; intros n; simpl.
  - exists 0%nat. repeat split; try done; try lia.
    intros y Hy. inversion Hy.
  - case_bool_decide as Hv.
    + exists 0%nat. repeat split; try lia.
      * intros y Hy. inversion Hy.
      * intros y [= <-]. done.
    + destruct (IH (n + 1)) as (k & Hk & Hle & H1 & H2).
      exists (S k). repeat split; try lia.
      * intros y Hy. simpl in Hy. apply elem_of_cons in Hy as [->|Hy]; [lia | by apply H1].
      * intros y Hy. simpl in Hy. by apply H2.
Qed.

(** The run of a non-empty list: its head and the elements that follow
    it with the same order key as the head. *)
Lemma runEq_cons v0 rest :
  ∃ k : nat, runEq (v0 :: rest) cmp = v0 :: take k rest
    ∧ (∀ y, y ∈ take k rest → cmp v0 y = 0)
    ∧ (∀ y, rest !! k = Some y → cmp v0 y ≠ 0).
Proof.
  unfold runEq. case_bool_decide as Hlen.
  - destruct rest as [|v rest].
    + exists 0%nat. repeat split; try done. intros y Hy. inversion Hy.
    + rewrite !len_cons in Hlen. pose proof (len_nonneg rest). lia.
  - destruct (runEq_count_spec v0 rest 1) as (k & Hk & Hle & H1 & H2).
    exists k. split; [|done].
    unfold view. simpl drop. rewrite Hk.
    replace (Z.to_nat (1 + Z.of_nat k)) with (S k) by lia. done.
Qed.

Hypothesis Hcmp : Comparator cmp.

(** In an ascending list the run of the head is followed by strictly
    greater order keys only. *)
Lemma run_split v0 rest ar rest' :
  ascending cmp (v0 :: rest) →
  ar = runEq (v0 :: rest) cmp → v0 :: rest = ar ++ rest' →
  (∀ x, x ∈ ar → cmp v0 x = 0) ∧ (∀ y, y ∈ rest' → cmp v0 y < 0)
  ∧ v0 ∈ ar.
Proof.
  intros Hasc -> Hsplit.
  destruct (runEq_cons v0 rest) as (k & Hrun & H1 & H2).
  rewrite Hrun in Hsplit |- *.
  assert (rest' = drop k rest) as ->.
  { simpl in Hsplit. injection Hsplit as Hs.
    rewrite <-(take_drop k rest) in Hs at 1. by apply app_inv_head in Hs. }
  split; [|split].
  - intros x Hx. apply elem_of_cons in Hx as [->|Hx]; [by apply cmp_refl | by apply H1].
  - intros y Hy.
    apply ascending_cons in Hasc as [Hasc Hv0].
    destruct (drop k rest) as [|z rest2] eqn:Hdrop; [by inversion Hy|].
    assert (rest !! k = Some z) as Hz.
    { rewrite <-(Nat.add_0_r k), <-lookup_drop, Hdrop. done. }
    assert (cmp v0 z < 0) as Hlt.
    { specialize (H2 z Hz). assert (cmp v0 z ≤ 0); [|lia].
      apply Hv0. eapply list_elem_of_lookup_2. done. }
    apply elem_of_cons in Hy as [->|Hy]; [done|].
    rewrite <-(take_drop k rest), Hdrop in Hasc.
    apply ascending_app in Hasc as (_ & Hasc & _).
    apply ascending_cons in Hasc as [_ Hz2].
    eapply cmp_lt_le_trans; [done | done | by apply Hz2].
  - by left.
Qed.

End facts.
End RunOrder.

Import Go slicesx GoFacts.
Import Spec Spec2 Spec3 Spec4.
Import RunFacts OrderFacts InsertFacts InsertIntoLoop MergeFacts MergeLoop SearchFacts RunOrder.

Module MergeCorrect.
Import MergeRun.
Section facts.
Context {E : Type}.
Variable zero : E.
Variable cmp : E → E → Z.
Variable eq : E → E → bool.
Hypothesis Hcmp : Comparator cmp.
Hypothesis Heq : Identity cmp eq.
Implicit Types a b p q w r : list E.
Implicit Types inserts : list (insert E).

(** *** Reconciling two runs *)

Local Abbreviation run_inv := (MergeRun.run_inv (E:=E) eq).

Lemma reconcile_inv ar at_ inserts done be w extra :
  (∀ y, y ∈ done → eq y be = false) →
  run_inv ar done w extra →
  ∃ w' extra',
    reconcile eq at_ (w, inserts ++ (Insert at_ <$> extra)) be
    = (w', inserts ++ (Insert at_ <$> extra'))
    ∧ run_inv ar (done ++ [be]) w' extra'.
Proof.
  intros Hbe (Hd & Hsound & Hb & Ha & Hex).
  unfold reconcile. simpl.
  destruct (IndexFunc w _) as [i|] eqn:Hi.
  - apply IndexFunc_Some in Hi as (w1 & ae & w2 & -> & <- & Hae & _).
    exists (w1 ++ be :: w2), extra. split.
    { f_equal. rewrite insert_app_r_alt by lia. by rewrite Nat.sub_diag. }
    rewrite <-app_assoc in Hd. simpl in Hd.
    assert (∀ y, y ∈ done → y ≠ ae) as Hne.
    { intros y Hy ->. specialize (Hbe _ Hy).
      rewrite (id_sym cmp eq Heq) in Hbe. congruence. }
    split; [|split; [|split; [|split]]].
    + rewrite <-app_assoc. simpl. eapply distinct_replace; done.
    + intros x Hx. rewrite <-app_assoc in Hx. simpl in Hx.
      rewrite !elem_of_app, elem_of_cons, elem_of_app in Hx.
      rewrite elem_of_app, list_elem_of_singleton.
      destruct Hx as [Hx|[->|[Hx|Hx]]]; [|by right; right| |].
      * destruct (Hsound x) as [?|?]; [|by left|by right; left].
        rewrite !elem_of_app. by left; left.
      * destruct (Hsound x) as [?|?]; [|by left|by right; left].
        rewrite !elem_of_app, elem_of_cons. by left; right; right.
      * destruct (Hsound x) as [?|?]; [|by left|by right; left].
        rewrite !elem_of_app. by right.
    + intros y Hy. apply elem_of_app in Hy as [Hy|Hy].
      * pose proof (Hb y Hy) as Hin. specialize (Hne y Hy).
        rewrite !elem_of_app, elem_of_cons in Hin.
        rewrite !elem_of_app, elem_of_cons. tauto.
      * apply list_elem_of_singleton in Hy as ->.
        rewrite !elem_of_app, elem_of_cons. by left; right; left.
    + intros x Hx Hno.
      assert (x ∈ w1 ++ ae :: w2) as Hin.
      { apply Ha; [done|]. intros y Hy. apply Hno. apply elem_of_app. by left. }
      assert (x ≠ ae) as Hxae.
      { intros ->. rewrite (id_sym cmp eq Heq) in Hae.
        rewrite Hno in Hae; [done|]. apply elem_of_app. right. by left. }
      rewrite !elem_of_app, elem_of_cons in Hin.
      rewrite !elem_of_app, elem_of_cons. tauto.
    + intros x Hx. apply elem_of_app. left. by apply Hex.
  - pose proof (IndexFunc_None _ _ Hi) as Hnone. simpl in Hnone.
    exists w, (extra ++ [be]). split.
    { f_equal. by rewrite fmap_app, app_assoc. }
    split; [|split; [|split; [|split]]].
    + rewrite app_assoc. apply distinct_app. split; [done|].
      split; [apply distinct_singleton|].
      intros x y Hx Hy. apply list_elem_of_singleton in Hy as ->.
      apply elem_of_app in Hx as [Hx|Hx].
      * apply (eq_false_sym cmp eq Heq). by apply Hnone.
      * apply Hbe. by apply Hex.
    + intros x Hx. rewrite app_assoc in Hx.
      apply elem_of_app in Hx as [Hx|Hx].
      * destruct (Hsound x Hx) as [?|?]; [by left|right]. apply elem_of_app. by left.
      * right. apply elem_of_app. by right.
    + intros y Hy. rewrite app_assoc. apply elem_of_app in Hy as [Hy|Hy].
      * apply elem_of_app. left. by apply Hb.
      * apply elem_of_app. by right.
    + intros x Hx Hno. apply Ha; [done|].
      intros y Hy. apply Hno. apply elem_of_app. by left.
    + intros x Hx. apply elem_of_app in Hx as [Hx|Hx].
      * apply elem_of_app. left. by apply Hex.
      * apply elem_of_app. by right.
Qed.

Lemma merge_run_inv ar at_ inserts br : ∀ done w extra,
  distinct eq (done ++ br) →
  run_inv ar done w extra →
  ∃ w' extra',
    merge_run eq at_ w br (inserts ++ (Insert at_ <$> extra))
    = (w', inserts ++ (Insert at_ <$> extra'))
    ∧ run_inv ar (done ++ br) w' extra'.
Proof.
  induction br as [|be br IH]; intros done w extra Hd Hinv.
  - exists w, extra. rewrite app_nil_r. done.
  - assert (∀ y, y ∈ done → eq y be = false) as Hbe.
    { intros y Hy. apply distinct_app in Hd as (_ & _ & Hd).
      apply Hd; [done | by left]. }
    destruct (reconcile_inv ar at_ inserts done be w extra Hbe Hinv)
      as (w1 & extra1 & Hrec & Hinv1).
    destruct (IH (done ++ [be]) w1 extra1) as (w' & extra' & Hrun & Hinv').
    { by rewrite <-app_assoc. }
    { done. }
    exists w', extra'. rewrite <-app_assoc in Hinv'. split; [|done].
    unfold merge_run in *. simpl. by rewrite Hrec.
Qed.

(** The two runs reconciled: the window and the scheduled elements hold
    every element of the run of B and the unmatched elements of the run
    of A, without two elements of equal identity. *)
Lemma merge_run_spec ar br at_ inserts :
  distinct eq ar → distinct eq br →
  ∃ w' extra,
    merge_run eq at_ ar br inserts = (w', inserts ++ (Insert at_ <$> extra))
    ∧ length w' = length ar
    ∧ distinct eq (w' ++ extra)
    ∧ (∀ x, x ∈ w' ++ extra → x ∈ ar ∨ x ∈ br)
    ∧ (∀ y, y ∈ br → y ∈ w' ++ extra)
    ∧ (∀ x, x ∈ ar → (∀ y, y ∈ br → eq x y = false) → x ∈ w' ++ extra).
Proof.
  intros Ha Hb.
  destruct (merge_run_inv ar at_ inserts br [] ar []) as (w' & extra & Hrun & Hinv).
  { done. }
  { unfold MergeRun.run_inv. rewrite app_nil_r. repeat split; try done.
    - intros x Hx. by left.
    - intros y Hy. inversion Hy. }
  simpl in Hrun. rewrite app_nil_r in Hrun.
  exists w', extra. destruct Hinv as (H1 & H2 & H3 & H4 & H5).
  split; [done|]. split.
  { pose proof (merge_run_length eq at_ br ar inserts) as Hl. by rewrite Hrun in Hl. }
  repeat split; try done.
  intros x Hx Hno. apply elem_of_app. left. by apply H4.
Qed.

End facts.
End MergeCorrect.

Import Go slicesx GoFacts.
Import Spec Spec2 Spec3 Spec4.
Import RunFacts OrderFacts InsertFacts InsertIntoLoop MergeFacts MergeLoop SearchFacts RunOrder MergeCorrect MergeRun.

Module MergeUnion.
Import MergeInvariant.
Section facts.
Context {E : Type}.
Variable zero : E.
Variable cmp : E → E → Z.
Variable eq : E → E → bool.
Hypothesis Hcmp : Comparator cmp.
Hypothesis Heq : Identity cmp eq.
Implicit Types a b p q w r : list E.
Implicit Types inserts : list (insert E).

Lemma positions_ok_trailing lo x inserts (extra : list E) :
  positions_ok lo x inserts →
  positions_ok lo x (inserts ++ (Insert x <$> extra)).
Proof.
  intros Hok. induction extra as [|e extra IH] using rev_ind.
  - by rewrite app_nil_r.
  - rewrite fmap_app, app_assoc. simpl. apply positions_ok_snoc. split; [done | lia].
Qed.

(** Insertions scheduled at the end of a window come after it, in order. *)
Lemma weave_run p w inserts (extra : list E) :
  positions_ok 0 (len p) inserts →
  weave (p ++ w) 0 (inserts ++ (Insert (len (p ++ w)) <$> extra))
  = weave p 0 inserts ++ w ++ extra.
Proof.
  intros Hok. induction extra as [|e extra IH] using rev_ind.
  - simpl. rewrite !app_nil_r. by apply weave_app.
  - rewrite fmap_app, app_assoc. simpl.
    rewrite weave_snoc; [|apply positions_ok_trailing|lia].
    + rewrite IH. by rewrite <-!app_assoc.
    + eapply positions_ok_weaken; [done|]. rewrite len_app.
      pose proof (len_nonneg w). lia.
Qed.

Lemma ascending_same_key (l : list E) :
  (∀ x y, x ∈ l → y ∈ l → cmp x y = 0) → ascending cmp l.
Proof.
  induction l as [|z l IH]; intros H; [constructor|].
  apply ascending_cons. split.
  - apply IH. intros x y Hx Hy. apply H; by right.
  - intros y Hy. rewrite H; [lia | by left | by right].
Qed.

(** *** The invariant of the merge loop *)

Variables a0 b : list E.
Hypothesis Ha_asc : ascending cmp a0.
Hypothesis Ha_dis : distinct eq a0.
Hypothesis Hb_asc : ascending cmp b.
Hypothesis Hb_dis : distinct eq b.

Local Abbreviation merged := (MergeInvariant.merged (E:=E) cmp eq a0 b).

Lemma merged_extend R p0 q an bn N ra' rb' :
  merged R p0 q (an ++ ra') (bn ++ rb') →
  ascending cmp N → distinct eq N →
  (∀ x, x ∈ N → x ∈ an ∨ x ∈ bn) →
  (∀ y, y ∈ bn → y ∈ N) →
  (∀ x, x ∈ an → (∀ y, y ∈ bn → eq x y = false) → x ∈ N) →
  (∀ x y, x ∈ bn → y ∈ ra' → cmp x y < 0) →
  (∀ x y, x ∈ an → y ∈ rb' → cmp x y < 0) →
  merged (R ++ N) (p0 ++ an) (q ++ bn) ra' rb'.
Proof.
  intros (Ea & Eb & HR1 & HR2 & Hs & Hbp & Hau & H4 & H5) HN1 HN2 HNs HNb HNa Hf Hg.
  pose proof Ha_asc as Ha1. pose proof Ha_dis as Ha2.
  pose proof Hb_asc as Hb1. pose proof Hb_dis as Hb2.
  rewrite Ea in Ha1, Ha2. rewrite Eb in Hb1, Hb2.
  apply ascending_app in Ha1 as (_ & Ha1r & Ha1). apply distinct_app in Ha2 as (_ & _ & Ha2).
  apply ascending_app in Hb1 as (_ & Hb1r & Hb1). apply distinct_app in Hb2 as (_ & _ & Hb2).
  assert (∀ x y, x ∈ R → y ∈ N → cmp x y ≤ 0 ∧ eq x y = false) as Hcross.
  { intros x y Hx Hy.
    destruct (Hs x Hx) as [Hx0|Hx0]; destruct (HNs y Hy) as [Hy0|Hy0].
    - split; [apply Ha1 | apply Ha2]; try done; apply elem_of_app; by left.
    - assert (cmp x y < 0) by (apply H5; [done|]; apply elem_of_app; by left).
      split; [lia | by apply (cmp_lt_eq_false cmp eq Heq)].
    - assert (cmp x y < 0) by (apply H4; [done|]; apply elem_of_app; by left).
      split; [lia | by apply (cmp_lt_eq_false cmp eq Heq)].
    - split; [apply Hb1 | apply Hb2]; try done; apply elem_of_app; by left. }
  unfold MergeInvariant.merged. rewrite <-!app_assoc.
  split; [done|]. split; [done|]. split; [|split; [|split; [|split; [|split; [|split]]]]].
  - apply ascending_app. split; [done|]. split; [done|].
    intros x y Hx Hy. by apply Hcross.
  - apply distinct_app. split; [done|]. split; [done|].
    intros x y Hx Hy. by apply Hcross.
  - intros x Hx. rewrite !elem_of_app. apply elem_of_app in Hx as [Hx|Hx].
    + destruct (Hs x Hx); tauto.
    + destruct (HNs x Hx); tauto.
  - intros y Hy. rewrite elem_of_app. apply elem_of_app in Hy as [Hy|Hy]; auto.
  - intros x Hx Hno. rewrite elem_of_app. apply elem_of_app in Hx as [Hx|Hx].
    + left. apply Hau; [done|]. intros y Hy. apply Hno. apply elem_of_app. by left.
    + right. apply HNa; [done|]. intros y Hy. apply Hno. apply elem_of_app. by right.
  - intros x y Hx Hy. apply elem_of_app in Hx as [Hx|Hx].
    + apply H4; [done|]. apply elem_of_app. by right.
    + by apply Hf.
  - intros x y Hx Hy. apply elem_of_app in Hx as [Hx|Hx].
    + apply H5; [done|]. apply elem_of_app. by right.
    + by apply Hg.
Qed.

Local Abbreviation merge_inv := (MergeInvariant.merge_inv (E:=E) cmp eq a0 b).

Lemma merge_inv_init : merge_inv (a0, 0, 0, []).
Proof.
  exists [], [], [], a0, b, []. split; [done|]. split; [done|].
  unfold MergeInvariant.merged. simpl.
  split_and!; [done | done | constructor | constructor | | | | |].
  - intros x Hx. inversion Hx.
  - intros y Hy. inversion Hy.
  - intros x Hx. inversion Hx.
  - intros x y Hx. inversion Hx.
  - intros x y Hx. inversion Hx.
Qed.

Lemma app_eq_len_inv {A} (l1 l2 k1 k2 : list A) :
  l1 ++ l2 = k1 ++ k2 → len l1 = len k1 → l1 = k1 ∧ l2 = k2.
Proof. intros H Hl. apply app_inj_1; [|done]. unfold len in Hl. lia. Qed.

Lemma merge_inv_step s s' :
  merge_shape a0 b s → merge_inv s → merge_step cmp eq b s s' → merge_inv s'.
Proof.
  intros Hshape (p & p0 & q & ra_ & rb_ & ins & -> & Hlp & Hm) Hstep.
  destruct Hshape as (_ & _ & _ & Hpos).
  inversion Hstep as
    [p' av ra q' bv rb ins' Hb Hc Hs1 Hs2
    |p' av ra q' bv rb ins' Hb Hc Hs1 Hs2
    |p' av ra ar ra' q' bv rb br rb' ins' Hb Hc Har Hra Hbr Hrb Hne1 Hne2 Hs1 Hs2];
    clear Hstep; subst ins';
    destruct Hm as (Ea & Eb & Hm);
    (assert (p' = p ∧ av :: ra = ra_) as [-> <-]
       by (apply app_eq_len_inv; [congruence | congruence]));
    (assert (q' = q ∧ bv :: rb = rb_) as [-> <-]
       by (apply app_eq_len_inv; [congruence | congruence]));
    clear Hs1 Hb;
    pose proof Ha_asc as Ha1; rewrite Ea in Ha1;
    apply ascending_app in Ha1 as (_ & Ha1 & _);
    pose proof Hb_asc as Hb1; rewrite Eb in Hb1;
    apply ascending_app in Hb1 as (_ & Hb1 & _);
    pose proof Ha_dis as Ha2; rewrite Ea in Ha2;
    apply distinct_app in Ha2 as (_ & Ha2 & _);
    pose proof Hb_dis as Hb2; rewrite Eb in Hb2;
    apply distinct_app in Hb2 as (_ & Hb2 & _).
  - (* a[ai] < b[bi] *)
    exists (p ++ [av]), (p0 ++ [av]), q, ra, (bv :: rb), ins.
    split; [by rewrite <-app_assoc, len_snoc|]. split; [by rewrite !len_snoc, Hlp|].
    rewrite weave_app by done. rewrite <-(app_nil_r q).
    apply (merged_extend _ p0 q [av] [] [av] ra (bv :: rb)).
    + done.
    + apply ascending_singleton.
    + apply distinct_singleton.
    + intros x Hx. by left.
    + intros y Hy. inversion Hy.
    + intros x Hx _. done.
    + intros x y Hx. inversion Hx.
    + intros x y Hx Hy. apply list_elem_of_singleton in Hx as ->.
      apply ascending_cons in Hb1 as [_ Hb1].
      apply elem_of_cons in Hy as [->|Hy]; [done|].
      eapply (cmp_lt_le_trans cmp Hcmp); [done | by apply Hb1].
  - (* a[ai] > b[bi] *)
    exists p, p0, (q ++ [bv]), (av :: ra), rb, (ins ++ [Insert (len p) bv]).
    split; [by rewrite len_snoc|]. split; [done|].
    rewrite weave_snoc by (done || lia). rewrite <-(app_nil_r p0).
    apply (merged_extend _ p0 q [] [bv] [bv] (av :: ra) rb).
    + done.
    + apply ascending_singleton.
    + apply distinct_singleton.
    + intros x Hx. by right.
    + intros y Hy. done.
    + intros x Hx. inversion Hx.
    + intros x y Hx Hy. apply list_elem_of_singleton in Hx as ->.
      assert (cmp bv av < 0) by (apply (cmp_antisym cmp Hcmp); lia).
      apply ascending_cons in Ha1 as [_ Ha1].
      apply elem_of_cons in Hy as [->|Hy]; [done|].
      eapply (cmp_lt_le_trans cmp Hcmp); [done | by apply Ha1].
    + intros x y Hx. inversion Hx.
  - (* equal order keys: the two runs *)
    destruct (run_split cmp Hcmp av ra ar ra' Ha1 Har Hra) as (Hka & Hka' & _).
    destruct (run_split cmp Hcmp bv rb br rb' Hb1 Hbr Hrb) as (Hkb & Hkb' & _).
    rewrite Hra in Ea, Ha2, Hm. rewrite Hrb in Eb, Hb2, Hm.
    apply distinct_app in Ha2 as (Ha2 & _ & _).
    apply distinct_app in Hb2 as (Hb2 & _ & _).
    destruct (merge_run_spec cmp eq Heq ar br (len p + len ar) ins Ha2 Hb2)
      as (w' & extra & Hrun & Hlen & Hd & Hsound & Hbp & Hau).
    rewrite Hrun. simpl.
    assert (len w' = len ar) as Hlw by (unfold len; by rewrite Hlen).
    exists (p ++ w'), (p0 ++ ar), (q ++ br), ra', rb', (ins ++ (Insert (len p + len ar) <$> extra)).
    split; [by rewrite <-app_assoc, !len_app, Hlw|].
    split; [by rewrite !len_app, Hlp, Hlw|].
    replace (len p + len ar) with (len (p ++ w')) by (rewrite len_app; lia).
    rewrite weave_run by done.
    assert (∀ x, x ∈ ar ∨ x ∈ br → cmp av x = 0) as Hkey.
    { intros x [Hx|Hx]; [by apply Hka|].
      eapply (cmp_zero_trans cmp Hcmp); [done | by apply Hkb]. }
    apply (merged_extend _ p0 q ar br (w' ++ extra) ra' rb'); try done.
    + apply ascending_same_key. intros x y Hx Hy.
      apply Hsound, Hkey in Hx. apply Hsound, Hkey in Hy.
      apply (cmp_zero_sym cmp Hcmp) in Hx.
      by apply (cmp_zero_trans cmp Hcmp x av y).
    + intros x y Hx Hy.
      assert (cmp av x = 0) as Hx0 by (apply Hkey; by right).
      apply (cmp_zero_sym cmp Hcmp) in Hx0.
      eapply (cmp_le_lt_trans cmp Hcmp); [|by apply Hka']. lia.
    + intros x y Hx Hy.
      assert (cmp av x = 0) as Hx0 by (apply Hkey; by left).
      apply (cmp_zero_sym cmp Hcmp) in Hx0.
      assert (cmp x bv = 0) by (by apply (cmp_zero_trans cmp Hcmp x av bv)).
      eapply (cmp_le_lt_trans cmp Hcmp); [|by apply Hkb']. lia.
Qed.

(** *** [MergeSorted] computes the union *)

Lemma MergeSorted_union :
  ∃ r, MergeSorted zero a0 b cmp eq = Ok r
    ∧ ascending cmp r ∧ distinct eq r
    ∧ (∀ x, x ∈ r ↔ x ∈ b ∨ (x ∈ a0 ∧ ∀ y, y ∈ b → eq x y = false)).
Proof.
  destruct (MergeSorted_run zero cmp eq merge_inv a0 b merge_inv_init merge_inv_step)
    as (a' & ai & bi & inserts & Hrun & Hshape & Hinv & Hend).
  destruct Hinv as (p & p0 & q & ra & rb & ins & [= -> -> -> ->] & Hlp & Hm).
  destruct Hshape as (Hla & _ & _ & Hpos).
  rewrite weave_app in Hrun by done.
  assert (drop (Z.to_nat (len q)) b = rb) as Hdrop.
  { destruct Hm as (_ & -> & _). by rewrite to_nat_len, drop_app_length. }
  rewrite Hdrop, <-app_assoc in Hrun.
  assert (ra = [] ∨ rb = []) as Hnil.
  { destruct Hm as (Ea & Eb & _). destruct Hend as [Hend|Hend].
    - left. rewrite Ea, len_app in Hend. destruct ra; [done|].
      rewrite len_cons in Hend. pose proof (len_nonneg ra). lia.
    - right. rewrite Eb, len_app in Hend. destruct rb; [done|].
      rewrite len_cons in Hend. pose proof (len_nonneg rb). lia. }
  assert (merged (weave p 0 ins ++ ra ++ rb) (p0 ++ ra) (q ++ rb) [] []) as Hfin.
  { pose proof Hm as (Ea & Eb & _).
    pose proof Ha_asc as Ha1. rewrite Ea in Ha1.
    apply ascending_app in Ha1 as (_ & Ha1 & _).
    pose proof Hb_asc as Hb1. rewrite Eb in Hb1.
    apply ascending_app in Hb1 as (_ & Hb1 & _).
    pose proof Ha_dis as Ha2. rewrite Ea in Ha2.
    apply distinct_app in Ha2 as (_ & Ha2 & _).
    pose proof Hb_dis as Hb2. rewrite Eb in Hb2.
    apply distinct_app in Hb2 as (_ & Hb2 & _).
    apply merged_extend; try done.
    - by rewrite !app_nil_r.
    - destruct Hnil as [->| ->]; [done | by rewrite app_nil_r].
    - destruct Hnil as [->| ->]; [done | by rewrite app_nil_r].
    - intros x Hx. by apply elem_of_app.
    - intros y Hy. apply elem_of_app. by right.
    - intros x Hx _. apply elem_of_app. by left.
    - intros x y _ Hy. inversion Hy.
    - intros x y _ Hy. inversion Hy. }
  destruct Hfin as (Ea & Eb & Hr1 & Hr2 & Hs & Hbp & Hau & _ & _).
  rewrite !app_nil_r in Ea, Eb. rewrite <-Ea, <-Eb in *.
  eexists. split; [exact Hrun|]. split; [done|]. split; [done|].
  intros x. split.
  - intros Hx. destruct (Hs x Hx) as [Hxa|Hxb]; [|by left].
    destruct (ContainsFunc b (λ y, eq x y)) eqn:Hc.
    + apply ContainsFunc_true in Hc as (y & Hy & Hxy).
      left. rewrite (distinct_eq_same cmp eq Heq _ x y Hr2 Hx (Hbp y Hy) Hxy). done.
    + right. split; [done|]. by apply ContainsFunc_false.
  - intros [Hx|[Hx Hno]]; [by apply Hbp | by apply Hau].
Qed.

End facts.
End MergeUnion.

Import Go slicesx GoFacts.
Import Spec Spec2 Spec3 Spec4.
Import RunFacts OrderFacts DeleteFacts DeleteFromLoop SearchFacts RunOrder.

Module DeleteLoop.
Import DeleteSortedLoop.
Section facts.
Context {E : Type}.
Variable zero : E.
Variable cmp : E → E → Z.
Variable eq : E → E → bool.
Implicit Types a b p q w r : list E.
Implicit Types deletes : list Z.

Local Abbreviation delete_loop_body := (DeleteSortedLoop.delete_loop_body (E:=E) cmp eq).

Lemma DeleteSorted_unfold a b :
  DeleteSorted zero a b cmp eq =
  ('(_, _, deletes) ← while (length a + length b)
      (delete_cond (len a) (len b)) (delete_loop_body a b) (0, 0, []);
   deleteFrom zero a deletes).
Proof. reflexivity. Qed.

Lemma enumerate_snoc {A} (l : list A) x :
  enumerate (l ++ [x]) = enumerate l ++ [(len l, x)].
Proof.
  unfold enumerate. rewrite imap_app. simpl. by rewrite Nat.add_0_r.
Qed.

Lemma delete_run_snoc ai ar x br deletes :
  delete_run eq ai (ar ++ [x]) br deletes =
  if ContainsFunc br (λ be, eq x be)
  then delete_run eq ai ar br deletes ++ [ai + len ar]
  else delete_run eq ai ar br deletes.
Proof.
  unfold delete_run. rewrite enumerate_snoc, foldl_app. done.
Qed.

Lemma delete_run_ok ai ar br deletes :
  deletes_ok 0 ai deletes →
  deletes_ok 0 (ai + len ar) (delete_run eq ai ar br deletes).
Proof.
  intros Hok. induction ar as [|x ar IH] using rev_ind.
  - unfold delete_run. simpl. by rewrite Z.add_0_r.
  - rewrite delete_run_snoc, len_snoc. destruct (ContainsFunc br _).
    + apply deletes_ok_snoc. split; [done | lia].
    + eapply deletes_ok_weaken; [done | lia].
Qed.

(** The deletions scheduled in a run remove the elements of the window
    whose identity occurs in the run of B. *)
Lemma cut_run p ar br deletes :
  deletes_ok 0 (len p) deletes →
  cut (p ++ ar) 0 (delete_run eq (len p) ar br deletes)
  = cut p 0 deletes
    ++ filter (λ ae, ContainsFunc br (λ be, eq ae be) = false) ar.
Proof.
  intros Hok. induction ar as [|x ar IH] using rev_ind.
  - simpl. by rewrite !app_nil_r.
  - rewrite delete_run_snoc, filter_app, app_assoc.
    pose proof (delete_run_ok (len p) ar br deletes Hok) as Hok'.
    rewrite filter_cons, filter_nil.
    destruct (ContainsFunc br _) eqn:Hc.
    + rewrite decide_False by done. rewrite app_nil_r.
      rewrite cut_snoc; [done | done | by rewrite len_app].
    + rewrite decide_True by done.
      rewrite cut_app by (by rewrite Z.add_0_l, len_app).
      by rewrite IH, <-app_assoc.
Qed.

Local Abbreviation delete_step := (DeleteSortedLoop.delete_step (E:=E) cmp eq).

Lemma delete_body_step a b ai bi deletes :
  0 ≤ ai < len a → 0 ≤ bi < len b →
  ∃ s', delete_loop_body a b (ai, bi, deletes) = Ok s'
        ∧ delete_step a b (ai, bi, deletes) s'.
Proof.
  intros Hai Hbi.
  destruct (split_middle a ai Hai) as (p & av & ra & Ha & <-).
  destruct (split_middle b bi Hbi) as (q & bv & rb & Hb & <-).
  unfold DeleteSortedLoop.delete_loop_body. rewrite Ha, Hb, !index_mid. cbn [mbind run_bind].
  case_bool_decide as Hlt.
  { eexists. split; [done|]. by eapply delete_step_lt. }
  case_bool_decide as Hgt.
  { eexists. split; [done|]. by eapply delete_step_gt. }
  rewrite !slice_suffix. cbn [mbind run_bind].
  destruct (runEq_prefix cmp (av :: ra)) as (ra' & Hra & Hne1).
  destruct (runEq_prefix cmp (bv :: rb)) as (rb' & Hrb & Hne2).
  eexists. split; [reflexivity|].
  eapply delete_step_eq; try done; [lia | by apply Hne1 | by apply Hne2].
Qed.

Local Abbreviation delete_shape := (DeleteSortedLoop.delete_shape (E:=E)).
Local Abbreviation delete_measure := (DeleteSortedLoop.delete_measure (E:=E)).

Lemma delete_step_shape a b s s' :
  delete_shape a b s → delete_step a b s s' →
  delete_shape a b s' ∧ (delete_measure a b s' < delete_measure a b s)%nat.
Proof.
  intros Hs Hstep. destruct Hstep as
    [p av ra q bv rb deletes Ha Hb Hc
    |p av ra q bv rb deletes Ha Hb Hc
    |p av ra ar ra' q bv rb br rb' deletes Ha Hb Hc Har Hra Hbr Hrb Hne1 Hne2];
    unfold DeleteSortedLoop.delete_shape, DeleteSortedLoop.delete_measure in *;
    destruct Hs as (Hai & Hbi & Hpos);
    assert (len a = len p + 1 + len ra) as Hlena
      by (rewrite Ha, len_app, len_cons; lia);
    assert (len b = len q + 1 + len rb) as Hlenb
      by (rewrite Hb, len_app, len_cons; lia);
    pose proof (len_nonneg ra); pose proof (len_nonneg rb);
    pose proof (len_nonneg p); pose proof (len_nonneg q).
  - repeat split; try lia. eapply deletes_ok_weaken; [done | lia].
  - repeat split; try lia. done.
  - apply MergeFacts.len_pos_of_ne in Hne1, Hne2.
    assert (1 + len ra = len ar + len ra') as Hl1.
    { rewrite <-(len_cons av ra), Hra, len_app. done. }
    assert (1 + len rb = len br + len rb') as Hl2.
    { rewrite <-(len_cons bv rb), Hrb, len_app. done. }
    pose proof (len_nonneg ra'). pose proof (len_nonneg rb').
    repeat split; try lia. by apply delete_run_ok.
Qed.

(** [DeleteSorted] runs to completion whatever [cmp] and [eq] are. *)
Lemma DeleteSorted_run (Inv : delete_state → Prop) a b :
  Inv (0, 0, []) →
  (∀ s s', delete_shape a b s → Inv s → delete_step a b s s' → Inv s') →
  ∃ ai bi deletes,
    DeleteSorted zero a b cmp eq = Ok (cut a 0 deletes)
    ∧ delete_shape a b (ai, bi, deletes)
    ∧ Inv (ai, bi, deletes)
    ∧ (ai = len a ∨ bi = len b).
Proof.
  intros H0 Hpres.
  destruct (while_inv (λ s, delete_shape a b s ∧ Inv s) (delete_measure a b)
              (length a + length b) (delete_cond (len a) (len b))
              (delete_loop_body a b) (0, 0, []))
    as ([[ai bi] deletes] & Hw & [Hs HI] & Hc).
  - split; [|done]. unfold DeleteSortedLoop.delete_shape. simpl.
    pose proof (len_nonneg a). pose proof (len_nonneg b). lia.
  - unfold DeleteSortedLoop.delete_measure, len. lia.
  - intros [[ai bi] deletes] [Hs HI] Hc.
    unfold delete_cond in Hc. apply andb_true_iff in Hc as [Hc1 Hc2].
    apply bool_decide_eq_true in Hc1, Hc2.
    pose proof Hs as (Hai & Hbi & Hpos).
    destruct (delete_body_step a b ai bi deletes) as (s' & Hb & Hstep); [lia..|].
    exists s'. split; [done|].
    destruct (delete_step_shape a b _ _ Hs Hstep) as [Hs' Hm].
    split; [|exact Hm]. split; [done|]. exact (Hpres _ _ Hs HI Hstep).
  - exists ai, bi, deletes.
    rewrite DeleteSorted_unfold, Hw. cbn [mbind run_bind].
    pose proof Hs as (Hai & Hbi & Hpos).
    split.
    { apply deleteFrom_correct. eapply deletes_ok_weaken; [done | lia]. }
    split; [done|]. split; [done|].
    unfold delete_cond in Hc. apply andb_false_iff in Hc.
    destruct Hc as [Hc|Hc]; apply bool_decide_eq_false in Hc; lia.
Qed.

End facts.
End DeleteLoop.

Import Go slicesx GoFacts.
Import Spec Spec2 Spec3 Spec4.
Import RunFacts OrderFacts DeleteFacts DeleteFromLoop SearchFacts RunOrder DeleteLoop DeleteSortedLoop.

Module DeleteCorrect.
Import DeleteInvariant.
Section facts.
Context {E : Type}.
Variable zero : E.
Variable cmp : E → E → Z.
Variable eq : E → E → bool.
Hypothesis Hcmp : Comparator cmp.
Hypothesis Heq : Identity cmp eq.
Variables a b : list E.
Hypothesis Ha_asc : ascending cmp a.
Hypothesis Hb_asc : ascending cmp b.
Implicit Types p q r : list E.

Local Abbreviation stays := (DeleteInvariant.stays (E:=E) eq b).
Local Abbreviation delete_inv := (DeleteInvariant.delete_inv (E:=E) cmp eq a b).

Lemma delete_inv_init : delete_inv (0, 0, []).
Proof.
  exists [], [], a, b, []. split_and!; try done.
  - intros x y Hx. inversion Hx.
  - intros x y Hx. inversion Hx.
Qed.

Lemma list_filter_ext_in (P Q : E → Prop) `{∀ x, Decision (P x)} `{∀ x, Decision (Q x)}
    (l : list E) :
  (∀ x, x ∈ l → P x ↔ Q x) → filter P l = filter Q l.
Proof.
  induction l as [|x l IH]; intros Hext; [done|].
  rewrite !filter_cons. rewrite IH by (intros y Hy; apply Hext; by right).
  destruct (decide (P x)) as [HP|HP]; destruct (decide (Q x)) as [HQ|HQ]; try done.
  - apply Hext in HP; [done | by left].
  - apply Hext in HQ; [done | by left].
Qed.

Lemma filter_all_stay (l : list E) :
  (∀ x, x ∈ l → stays x) → filter stays l = l.
Proof.
  induction l as [|x l IH]; intros H; [done|].
  rewrite filter_cons, decide_True by (apply H; by left).
  f_equal. apply IH. intros y Hy. apply H. by right.
Qed.

Lemma stays_by_key x q rb :
  b = q ++ rb →
  (∀ y, y ∈ q → cmp y x < 0) → (∀ y, y ∈ rb → cmp x y < 0) → stays x.
Proof.
  intros Eb Hq Hrb. apply ContainsFunc_false. intros y Hy.
  rewrite Eb in Hy. apply elem_of_app in Hy as [Hy|Hy].
  - apply (eq_false_sym cmp eq Heq). apply (cmp_lt_eq_false cmp eq Heq). by apply Hq.
  - apply (cmp_lt_eq_false cmp eq Heq). by apply Hrb.
Qed.

Lemma delete_inv_step s s' :
  delete_shape a b s → delete_inv s → delete_step cmp eq a b s s' → delete_inv s'.
Proof.
  intros Hshape (p & q & ra_ & rb_ & dels & -> & Ea & Eb & Hcut & H4 & H5) Hstep.
  destruct Hshape as (_ & _ & Hpos).
  inversion Hstep as
    [p' av ra q' bv rb dels' Ha Hb Hc Hs1 Hs2
    |p' av ra q' bv rb dels' Ha Hb Hc Hs1 Hs2
    |p' av ra ar ra' q' bv rb br rb' dels' Ha Hb Hc Har Hra Hbr Hrb Hne1 Hne2 Hs1 Hs2];
    clear Hstep; subst dels';
    (assert (p' = p ∧ av :: ra = ra_) as [-> <-]
       by (apply MergeUnion.app_eq_len_inv; [congruence | congruence]));
    (assert (q' = q ∧ bv :: rb = rb_) as [-> <-]
       by (apply MergeUnion.app_eq_len_inv; [congruence | congruence]));
    clear Hs1 Ha Hb;
    pose proof Ha_asc as Ha1; rewrite Ea in Ha1;
    apply ascending_app in Ha1 as (_ & Ha1 & _);
    pose proof Hb_asc as Hb1; rewrite Eb in Hb1;
    apply ascending_app in Hb1 as (_ & Hb1 & _).
  - (* a[ai] < b[bi]: the element stays *)
    assert (∀ y, y ∈ bv :: rb → cmp av y < 0) as Hav.
    { intros y Hy. apply ascending_cons in Hb1 as [_ Hb1].
      apply elem_of_cons in Hy as [->|Hy]; [done|].
      eapply (cmp_lt_le_trans cmp Hcmp); [done | by apply Hb1]. }
    exists (p ++ [av]), q, ra, (bv :: rb), dels.
    split; [by rewrite len_snoc|]. split; [by rewrite <-app_assoc|]. split; [done|].
    split_and!.
    + rewrite cut_app by done. rewrite filter_app, Hcut. f_equal.
      rewrite filter_cons, decide_True; [done|].
      eapply stays_by_key; [done| |done].
      intros y Hy. apply H4; [done | by left].
    + intros x y Hx Hy. apply H4; [done | by right].
    + intros x y Hx Hy. apply elem_of_app in Hx as [Hx|Hx]; [by apply H5|].
      apply list_elem_of_singleton in Hx as ->. by apply Hav.
  - (* a[ai] > b[bi] *)
    exists p, (q ++ [bv]), (av :: ra), rb, dels.
    split; [by rewrite len_snoc|]. split; [done|]. split; [by rewrite <-app_assoc|].
    split_and!; [done| |].
    + intros x y Hx Hy. apply elem_of_app in Hx as [Hx|Hx]; [by apply H4|].
      apply list_elem_of_singleton in Hx as ->.
      assert (cmp bv av < 0) by (apply (cmp_antisym cmp Hcmp); lia).
      apply ascending_cons in Ha1 as [_ Ha1].
      apply elem_of_cons in Hy as [->|Hy]; [done|].
      eapply (cmp_lt_le_trans cmp Hcmp); [done | by apply Ha1].
    + intros x y Hx Hy. apply H5; [done | by right].
  - (* equal order keys: the two runs *)
    destruct (run_split cmp Hcmp av ra ar ra' Ha1 Har Hra) as (Hka & Hka' & _).
    destruct (run_split cmp Hcmp bv rb br rb' Hb1 Hbr Hrb) as (Hkb & Hkb' & _).
    rewrite Hra in Ea, H4. rewrite Hrb in Eb, H5.
    exists (p ++ ar), (q ++ br), ra', rb', (delete_run eq (len p) ar br dels).
    split; [by rewrite !len_app|].
    split; [by rewrite <-app_assoc|]. split; [by rewrite <-app_assoc|].
    assert (∀ x y, x ∈ ar → y ∈ rb' → cmp x y < 0) as Har_rb.
    { intros x y Hx Hy. specialize (Hka x Hx). apply (cmp_zero_sym cmp Hcmp) in Hka.
      assert (cmp x bv = 0) by (by apply (cmp_zero_trans cmp Hcmp x av bv)).
      eapply (cmp_le_lt_trans cmp Hcmp); [|by apply Hkb']. lia. }
    assert (∀ x y, x ∈ br → y ∈ ra' → cmp x y < 0) as Hbr_ra.
    { intros x y Hx Hy. specialize (Hkb x Hx). apply (cmp_zero_sym cmp Hcmp) in Hkb.
      apply (cmp_zero_sym cmp Hcmp) in Hc.
      assert (cmp x av = 0) by (by apply (cmp_zero_trans cmp Hcmp x bv av)).
      eapply (cmp_le_lt_trans cmp Hcmp); [|by apply Hka']. lia. }
    split_and!.
    + rewrite cut_run by done. rewrite filter_app, Hcut. f_equal.
      apply list_filter_ext_in. intros x Hx.
      unfold DeleteInvariant.stays. rewrite !ContainsFunc_false. split.
      * intros Hno y Hy. rewrite Eb in Hy.
        rewrite !elem_of_app in Hy. destruct Hy as [Hy|[Hy|Hy]].
        -- apply (eq_false_sym cmp eq Heq). apply (cmp_lt_eq_false cmp eq Heq).
           apply H4; [done|]. apply elem_of_app. by left.
        -- by apply Hno.
        -- apply (cmp_lt_eq_false cmp eq Heq). by apply Har_rb.
      * intros Hno y Hy. apply Hno. rewrite Eb, !elem_of_app. by right; left.
    + intros x y Hx Hy. apply elem_of_app in Hx as [Hx|Hx].
      * apply H4; [done|]. apply elem_of_app. by right.
      * by apply Hbr_ra.
    + intros x y Hx Hy. apply elem_of_app in Hx as [Hx|Hx].
      * apply H5; [done|]. apply elem_of_app. by right.
      * by apply Har_rb.
Qed.

(** [DeleteSorted] removes the elements of A whose identity occurs in B. *)
Lemma DeleteSorted_filter :
  DeleteSorted zero a b cmp eq = Ok (filter stays a).
Proof.
  destruct (DeleteSorted_run zero cmp eq delete_inv a b delete_inv_init delete_inv_step)
    as (ai & bi & deletes & Hrun & Hshape & Hinv & Hend).
  rewrite Hrun. f_equal.
  destruct Hinv as (p & q & ra & rb & dels & [= -> -> ->] & Ea & Eb & Hcut & H4 & H5).
  destruct Hshape as (_ & _ & Hpos).
  rewrite Ea at 1 2. rewrite cut_app by done. rewrite filter_app, Hcut. f_equal.
  symmetry. apply filter_all_stay. intros x Hx.
  destruct Hend as [Hend|Hend].
  - rewrite Ea, len_app in Hend. destruct ra; [by inversion Hx|].
    rewrite len_cons in Hend. pose proof (len_nonneg ra). lia.
  - assert (rb = []) as ->.
    { rewrite Eb, len_app in Hend. destruct rb; [done|].
      rewrite len_cons in Hend. pose proof (len_nonneg rb). lia. }
    eapply stays_by_key; [done| |].
    + intros y Hy. by apply H4.
    + intros y Hy. inversion Hy.
Qed.

End facts.
End DeleteCorrect.

Import Go slicesx GoFacts.
Import Spec Spec2 Spec3 Spec4.
Import SearchFacts DeleteFacts DeleteFromLoop.

Import Spec5.

Module UniqFacts.
Import UniqLoop.
Section facts.
Context {E : Type}.
Variable zero : E.
Variable cmp : E → E → Z.
Variable eq : E → E → bool.
Implicit Types l acc stale rest P G W R cur : list E.

Lemma dedup_step_length acc x :
  (length acc ≤ length (dedup_step eq acc x) ≤ S (length acc))%nat.
Proof.
  unfold dedup_step. destruct (IndexFunc acc _).
  - rewrite length_insert. lia.
  - rewrite length_app. simpl. lia.
Qed.

Lemma foldl_dedup_length rest : ∀ acc,
  (length acc ≤ length (foldl (dedup_step eq) acc rest)
   ≤ length acc + length rest)%nat.
Proof.
  induction rest as [|x rest IH]; intros acc; simpl; [lia|].
  specialize (IH (dedup_step eq acc x)).
  pose proof (dedup_step_length acc x). lia.
Qed.

Lemma dedup_length l : (length (dedup eq l) ≤ length l)%nat.
Proof. unfold dedup. pose proof (foldl_dedup_length l []). simpl in *. lia. Qed.

Lemma dedup_snoc l x : dedup eq (l ++ [x]) = dedup_step eq (dedup eq l) x.
Proof. unfold dedup. by rewrite foldl_app. Qed.

Local Abbreviation uniq_body := (UniqLoop.uniq_body (E:=E) eq).

Lemma uniq_body_step acc stale x rest :
  ∃ stale', len (dedup_step eq acc x ++ stale') = len (acc ++ stale) + 1 ∧
    uniq_body (acc ++ stale ++ x :: rest, len acc) (len (acc ++ stale))
    = Ok (dedup_step eq acc x ++ stale' ++ rest, len (dedup_step eq acc x)).
Proof.
  unfold UniqLoop.uniq_body.
  assert (index (acc ++ stale ++ x :: rest) (len (acc ++ stale)) = Ok x) as ->.
  { rewrite app_assoc. apply index_mid. }
  cbn [mbind run_bind]. rewrite slice_prefix. cbn [mbind run_bind].
  unfold dedup_step.
  destruct (IndexFunc acc _) as [idx|] eqn:Hidx.
  - apply MergeFacts.IndexFunc_lt in Hidx as Hlt.
    rewrite store_in_range.
    2:{ rewrite len_app. pose proof (len_nonneg (stale ++ x :: rest)).
        unfold len at 1. lia. }
    cbn [mbind run_bind]. rewrite Nat2Z.id, insert_app_l by done.
    exists (stale ++ [x]).
    assert (len (<[idx:=x]> acc) = len acc) as Hl
      by (unfold len; by rewrite length_insert).
    rewrite Hl. split.
    + rewrite !len_app, Hl, len_cons, len_nil. lia.
    + by rewrite <-app_assoc.
  - destruct stale as [|s stale].
    + simpl. rewrite store_mid. cbn [mbind run_bind]. exists [].
      rewrite !app_nil_r, len_snoc. split; [done|]. by rewrite <-app_assoc.
    + simpl. rewrite store_mid. cbn [mbind run_bind]. exists (stale ++ [x]).
      split.
      * rewrite !len_app, !len_cons, len_nil. lia.
      * rewrite len_snoc, <-!app_assoc. done.
Qed.

Lemma uniq_loop rest : ∀ acc stale j,
  j = len (acc ++ stale) →
  ∃ stale',
    for_range (seqZ j (len rest)) uniq_body (acc ++ stale ++ rest, len acc)
    = Ok (foldl (dedup_step eq) acc rest ++ stale',
          len (foldl (dedup_step eq) acc rest))
    ∧ len (foldl (dedup_step eq) acc rest ++ stale') = len (acc ++ stale ++ rest).
Proof.
  induction rest as [|x rest IH]; intros acc stale j Hj.
  - exists stale. simpl. by rewrite app_nil_r.
  - rewrite len_cons. pose proof (len_nonneg rest).
    rewrite seqZ_cons by lia. cbn [for_range].
    replace (Z.pred (1 + len rest)) with (len rest) by lia.
    destruct (uniq_body_step acc stale x rest) as (stale1 & Hl1 & Hstep).
    rewrite Hj, Hstep. cbn [mbind run_bind].
    destruct (IH (dedup_step eq acc x) stale1 (Z.succ (len (acc ++ stale))))
      as (stale' & Hloop & Hlen).
    { lia. }
    exists stale'. simpl foldl. rewrite Hloop. split; [done|].
    rewrite Hlen. rewrite !len_app, len_cons in *. lia.
Qed.

(** [uniqEqSlow] leaves the kept elements at the front of the array and
    zero values behind them. *)
Lemma uniqEqSlow_spec l :
  uniqEqSlow zero l eq =
  Ok (dedup eq l ++ replicate (length l - length (dedup eq l)) zero,
      len (dedup eq l)).
Proof.
  unfold uniqEqSlow. case_bool_decide as Hn.
  - destruct l as [|x [|y l]].
    + done.
    + done.
    + rewrite !len_cons in Hn. pose proof (len_nonneg l). lia.
  - destruct l as [|x rest]; [rewrite len_nil in Hn; lia|].
    rewrite len_cons. replace (1 + len rest - 1) with (len rest) by lia.
    destruct (uniq_loop rest [x] [] 1) as (stale' & Hloop & Hlen); [done|].
    simpl app in Hloop. change (len [x]) with 1 in Hloop.
    fold uniq_body. rewrite Hloop. cbn [mbind run_bind].
    change (foldl (dedup_step eq) [x] rest) with (dedup eq (x :: rest)) in *.
    rewrite clear_suffix. cbn [mbind run_bind]. do 3 f_equal.
    rewrite len_app in Hlen. simpl in Hlen. rewrite len_cons in Hlen.
    unfold len in Hlen. change (length (x :: rest)) with (S (length rest)).
    f_equal. lia.
Qed.

Lemma uniq_run_spec P G W R :
  ∃ G', len G' = len G + len W - len (dedup eq W) ∧
    uniq_run zero (P ++ G ++ W ++ R) (len (P ++ G)) (len (P ++ G ++ W)) (len P) eq
    = Ok ((P ++ dedup eq W) ++ G' ++ R, len (P ++ dedup eq W)).
Proof.
  unfold uniq_run.
  assert (slice (P ++ G ++ W ++ R) (len (P ++ G)) (len (P ++ G ++ W)) = Ok W) as ->.
  { replace (P ++ G ++ W ++ R) with ((P ++ G) ++ W ++ R) by (by rewrite <-app_assoc).
    replace (len (P ++ G ++ W)) with (len (P ++ G) + len W) by (rewrite !len_app; lia).
    apply slice_mid. }
  cbn [mbind run_bind]. rewrite uniqEqSlow_spec. cbn [mbind run_bind].
  pose proof (dedup_length W) as Hle.
  set (zs := replicate (length W - length (dedup eq W)) zero).
  assert (len (dedup eq W ++ zs) = len W) as Hlw.
  { unfold zs, len. rewrite length_app, length_replicate. lia. }
  assert (copy (P ++ G ++ W ++ R) (len (P ++ G)) (len (P ++ G ++ W)) (dedup eq W ++ zs)
          = Ok ((P ++ G) ++ (dedup eq W ++ zs) ++ R, len W)) as ->.
  { replace (P ++ G ++ W ++ R) with ((P ++ G) ++ W ++ R) by (by rewrite <-app_assoc).
    replace (len (P ++ G ++ W)) with (len (P ++ G) + len W) by (rewrite !len_app; lia).
    by apply copy_mid. }
  cbn [mbind run_bind].
  assert (slice ((P ++ G) ++ (dedup eq W ++ zs) ++ R) (len (P ++ G))
            (len (P ++ G) + len (dedup eq W)) = Ok (dedup eq W)) as ->.
  { rewrite <-(app_assoc (dedup eq W)). apply slice_mid. }
  cbn [mbind run_bind].
  destruct (copy_slide P G (dedup eq W) (zs ++ R)) as (G1 & HG1 & Hcopy).
  rewrite <-!app_assoc. rewrite Hcopy. cbn [mbind run_bind].
  exists (G1 ++ zs). split.
  - rewrite len_app, HG1. unfold zs, len. rewrite length_replicate. lia.
  - by rewrite <-!app_assoc, len_app.
Qed.

Local Abbreviation uniq_sorted_body := (UniqLoop.uniq_sorted_body (E:=E) zero cmp eq).

Lemma uniq_sorted_body_same P G cur next rest prev :
  cmp next prev = 0 →
  uniq_sorted_body (P ++ G ++ cur ++ next :: rest, len (P ++ G), len P, prev)
    (len (P ++ G ++ cur))
  = Ok (P ++ G ++ (cur ++ [next]) ++ rest, len (P ++ G), len P, prev).
Proof.
  intros Hc. unfold UniqLoop.uniq_sorted_body.
  assert (index (P ++ G ++ cur ++ next :: rest) (len (P ++ G ++ cur)) = Ok next) as ->.
  { rewrite (app_assoc G), (app_assoc P). apply index_mid. }
  cbn [mbind run_bind]. rewrite bool_decide_true by done.
  by rewrite <-(app_assoc cur).
Qed.

Lemma uniq_sorted_body_new P G cur next rest prev :
  cmp next prev ≠ 0 →
  ∃ G', len G' = len G + len cur - len (dedup eq cur) ∧
    uniq_sorted_body (P ++ G ++ cur ++ next :: rest, len (P ++ G), len P, prev)
      (len (P ++ G ++ cur))
    = Ok ((P ++ dedup eq cur) ++ G' ++ [next] ++ rest,
          len (P ++ G ++ cur), len (P ++ dedup eq cur), next).
Proof.
  intros Hc. unfold UniqLoop.uniq_sorted_body.
  assert (index (P ++ G ++ cur ++ next :: rest) (len (P ++ G ++ cur)) = Ok next) as ->.
  { rewrite (app_assoc G), (app_assoc P). apply index_mid. }
  cbn [mbind run_bind]. rewrite bool_decide_false by done.
  destruct (uniq_run_spec P G cur (next :: rest)) as (G1 & HG1 & Hrun).
  rewrite Hrun. cbn [mbind run_bind]. exists G1. done.
Qed.

Lemma uniq_sorted_loop rest : ∀ P G cur prev i,
  i = len (P ++ G ++ cur) →
  ∃ P' G' cur' prev',
    for_range (seqZ i (len rest)) uniq_sorted_body
      (P ++ G ++ cur ++ rest, len (P ++ G), len P, prev)
    = Ok (P' ++ G' ++ cur', len (P' ++ G'), len P', prev')
    ∧ P' ++ dedup eq cur' = P ++ concat (dedup eq <$> runs_from cmp prev cur rest)
    ∧ len (P' ++ G' ++ cur') = len (P ++ G ++ cur ++ rest).
Proof.
  induction rest as [|next rest IH]; intros P G cur prev i Hi.
  - exists P, G, cur, prev. simpl. rewrite !app_nil_r. done.
  - rewrite len_cons. pose proof (len_nonneg rest).
    rewrite seqZ_cons by lia. cbn [for_range].
    replace (Z.pred (1 + len rest)) with (len rest) by lia.
    simpl runs_from. rewrite Hi.
    case_bool_decide as Hc.
    + rewrite uniq_sorted_body_same by done. cbn [mbind run_bind].
      destruct (IH P G (cur ++ [next]) prev (Z.succ (len (P ++ G ++ cur))))
        as (P' & G' & cur' & prev' & Hloop & Hres & Hlen).
      { rewrite !len_app, len_cons, len_nil in *. lia. }
      exists P', G', cur', prev'. rewrite Hloop. split; [done|]. split; [done|].
      rewrite Hlen, <-app_assoc. done.
    + destruct (uniq_sorted_body_new P G cur next rest prev Hc) as (G1 & HG1 & Hstep).
      rewrite Hstep. cbn [mbind run_bind].
      pose proof (dedup_length cur) as Hle.
      assert (len ((P ++ dedup eq cur) ++ G1) = len (P ++ G ++ cur)) as Hsrc.
      { rewrite !len_app in *. lia. }
      destruct (IH (P ++ dedup eq cur) G1 [next] next (Z.succ (len (P ++ G ++ cur))))
        as (P' & G' & cur' & prev' & Hloop & Hres & Hlen).
      { rewrite !len_app, len_cons, len_nil in *. lia. }
      rewrite Hsrc in Hloop.
      exists P', G', cur', prev'. rewrite Hloop. split; [done|]. split.
      * rewrite Hres. simpl. by rewrite <-app_assoc.
      * rewrite Hlen. rewrite !len_app, !len_cons, len_nil in *. lia.
Qed.

(** [UniqSortedFuncs] concatenates what [uniqEqSlow] keeps of each run. *)
Lemma UniqSortedFuncs_spec l :
  UniqSortedFuncs zero l cmp eq = Ok (concat (dedup eq <$> runs cmp l)).
Proof.
  unfold UniqSortedFuncs. case_bool_decide as Hn.
  - destruct l; [done|]. rewrite len_cons in Hn. pose proof (len_nonneg l). lia.
  - destruct l as [|x rest]; [done|].
    change (index (x :: rest) 0) with (Ok x). cbn [mbind run_bind].
    rewrite len_cons. replace (1 + len rest - 1) with (len rest) by lia.
    destruct (uniq_sorted_loop rest [] [] [x] x 1) as (P' & G' & cur' & prev' & Hloop & Hres & Hlen).
    { done. }
    simpl app in Hloop. change (len []) with 0 in Hloop.
    fold uniq_sorted_body.
    rewrite Hloop. cbn [mbind run_bind].
    destruct (uniq_run_spec P' G' cur' []) as (G1 & HG1 & Hrun).
    rewrite !app_nil_r in Hrun. rewrite Hrun. cbn [mbind run_bind].
    rewrite clear_suffix. cbn [mbind run_bind]. rewrite slice_prefix.
    f_equal. simpl in Hres. done.
Qed.

End facts.
End UniqFacts.

Import Go slicesx GoFacts.
Import Spec Spec2 Spec3 Spec4 Spec5.
Import SearchFacts OrderFacts.

Module SortFacts.
Import SortOrder.
Section facts.
Context {E : Type}.
Variable cmp : E → E → Z.
Hypothesis Hcmp : Comparator cmp.
Implicit Types l r : list E.

Local Abbreviation descending := (SortOrder.descending (E:=E) cmp).

Lemma sort_insert_perm x r : sort_insert cmp x r ≡ₚ x :: r.
Proof.
  induction r as [|y r IH]; simpl; [done|].
  case_bool_decide; [|done].
  rewrite IH. apply Permutation_swap.
Qed.

Lemma sort_insert_descending x r :
  descending r → descending (sort_insert cmp x r).
Proof.
  unfold SortOrder.descending. induction r as [|y r IH]; simpl; intros Hr.
  - repeat constructor.
  - apply StronglySorted_inv in Hr as [Hr Hy].
    case_bool_decide as Hxy.
    + constructor; [by apply IH|].
      rewrite sort_insert_perm. constructor; [lia | done].
    + constructor; [by constructor|].
      assert (cmp y x ≤ 0) as Hyx.
      { apply cmp_flip_le; [done|]. lia. }
      constructor; [done|].
      eapply Forall_impl; [done|]. intros z Hz. simpl in Hz.
      by apply (cmp_trans cmp Hcmp z y x).
Qed.

(** Elements of one order key keep their relative order. *)
Lemma sort_insert_stable k x r :
  filter (λ y, cmp k y = 0) (sort_insert cmp x r)
  = filter (λ y, cmp k y = 0) (x :: r).
Proof.
  induction r as [|y r IH]; simpl; [done|].
  case_bool_decide as Hxy; [|done].
  rewrite !filter_cons in *. rewrite IH.
  destruct (decide (cmp k y = 0)) as [Hy|Hy];
    destruct (decide (cmp k x = 0)) as [Hx|Hx]; try done.
  apply (cmp_zero_sym cmp Hcmp) in Hx.
  pose proof (cmp_zero_trans cmp Hcmp x k y Hx Hy). lia.
Qed.

Lemma sort_foldl_perm l : ∀ acc,
  foldl (λ acc x, sort_insert cmp x acc) acc l ≡ₚ reverse l ++ acc.
Proof.
  induction l as [|x l IH]; intros acc; simpl; [done|].
  rewrite IH, sort_insert_perm, reverse_cons, <-app_assoc. done.
Qed.

Lemma sort_foldl_descending l : ∀ acc,
  descending acc → descending (foldl (λ acc x, sort_insert cmp x acc) acc l).
Proof.
  induction l as [|x l IH]; intros acc Hacc; simpl; [done|].
  apply IH. by apply sort_insert_descending.
Qed.

Lemma sort_foldl_stable k l : ∀ acc,
  filter (λ y, cmp k y = 0) (foldl (λ acc x, sort_insert cmp x acc) acc l)
  = filter (λ y, cmp k y = 0) (reverse l ++ acc).
Proof.
  induction l as [|x l IH]; intros acc; simpl; [done|].
  rewrite IH, reverse_cons, <-app_assoc, !filter_app. f_equal.
  rewrite sort_insert_stable. by rewrite <-filter_app.
Qed.

Lemma SortStableFunc_perm l : SortStableFunc cmp l ≡ₚ l.
Proof.
  unfold SortStableFunc. rewrite reverse_Permutation, sort_foldl_perm.
  by rewrite app_nil_r, reverse_Permutation.
Qed.

Lemma SortStableFunc_ascending l : ascending cmp (SortStableFunc cmp l).
Proof.
  unfold SortStableFunc, ascending.
  pose proof (sort_foldl_descending l [] ltac:(constructor)) as H.
  revert H. generalize (foldl (λ acc x, sort_insert cmp x acc) [] l).
  unfold SortOrder.descending. intros r Hr. induction Hr as [|x r Hr IH Hx].
  - constructor.
  - rewrite reverse_cons. apply StronglySorted_app. split_and!.
    + intros y z Hy Hz. apply list_elem_of_singleton in Hz as ->.
      rewrite Forall_forall in Hx. apply Hx. by apply elem_of_reverse.
    + done.
    + repeat constructor.
Qed.

Lemma SortStableFunc_stable k l :
  filter (λ y, cmp k y = 0) (SortStableFunc cmp l)
  = filter (λ y, cmp k y = 0) l.
Proof.
  unfold SortStableFunc. rewrite filter_reverse, sort_foldl_stable.
  by rewrite app_nil_r, <-filter_reverse, reverse_involutive.
Qed.

End facts.
End SortFacts.

Import Go slicesx GoFacts.
Import Spec Spec2 Spec3 Spec4 Spec5.
Import SearchFacts OrderFacts UniqFacts UniqLoop.

Import Spec6.

Module DedupFacts.
Section facts.
Context {E : Type}.
Variable cmp : E → E → Z.
Variable eq : E → E → bool.
Hypothesis Heq : Identity cmp eq.
Implicit Types l F seen : list E.

Lemma eq_congr a b x : eq a b = true → eq x a = eq x b.
Proof.
  intros Hab. destruct (eq x b) eqn:Hxb.
  - rewrite (id_sym cmp eq Heq) in Hab. by apply (id_trans cmp eq Heq x b a).
  - destruct (eq x a) eqn:Hxa; [|done].
    by rewrite (id_trans cmp eq Heq x a b Hxa Hab) in Hxb.
Qed.

Lemma first_seen_snoc l : ∀ seen x,
  first_seen eq seen (l ++ [x])
  = first_seen eq seen l
    ++ (if ContainsFunc (seen ++ l) (λ y, eq x y) then [] else [x]).
Proof.
  induction l as [|z l IH]; intros seen x; simpl.
  - rewrite app_nil_r. by destruct (ContainsFunc seen _).
  - rewrite IH, <-app_assoc. simpl. by destruct (ContainsFunc seen _).
Qed.

Lemma last_value_snoc l x y :
  last_value eq (l ++ [x]) y = if eq y x then x else last_value eq l y.
Proof.
  unfold last_value. rewrite filter_app, filter_cons, filter_nil.
  destruct (eq y x) eqn:Hyx.
  - rewrite decide_True by done. by rewrite last_snoc.
  - rewrite decide_False by congruence. by rewrite app_nil_r.
Qed.

Lemma last_value_in l x : x ∈ l → last_value eq l x ∈ l.
Proof.
  intros Hx. unfold last_value.
  destruct (last (filter _ l)) as [v|] eqn:Hl; simpl; [|done].
  apply last_Some_elem_of in Hl. apply list_elem_of_filter in Hl. tauto.
Qed.

Lemma last_value_eq l x : eq x (last_value eq l x) = true.
Proof.
  unfold last_value.
  destruct (last (filter _ l)) as [v|] eqn:Hl; simpl.
  - apply last_Some_elem_of in Hl. apply list_elem_of_filter in Hl. tauto.
  - apply (id_refl cmp eq Heq).
Qed.

(** The first occurrences: one per identity of the list. *)
Lemma first_seen_facts l :
  distinct eq (first_seen eq [] l)
  ∧ (∀ f, f ∈ first_seen eq [] l → f ∈ l)
  ∧ (∀ y, y ∈ l → ∃ f, f ∈ first_seen eq [] l ∧ eq y f = true).
Proof.
  induction l as [|x l (IH1 & IH2 & IH3)] using rev_ind.
  - simpl. split_and!; [constructor| |]; intros ? H; inversion H.
  - rewrite first_seen_snoc. simpl app.
    destruct (ContainsFunc l _) eqn:Hc.
    + rewrite app_nil_r. split_and!; [done| |].
      * intros f Hf. apply elem_of_app. left. by apply IH2.
      * intros y Hy. apply elem_of_app in Hy as [Hy|Hy]; [by apply IH3|].
        apply list_elem_of_singleton in Hy as ->.
        apply ContainsFunc_true in Hc as (z & Hz & Hxz).
        destruct (IH3 z Hz) as (f & Hf & Hzf). exists f. split; [done|].
        by apply (id_trans cmp eq Heq x z f).
    + pose proof (proj1 (ContainsFunc_false _ _) Hc) as Hno. simpl in Hno.
      split_and!.
      * apply distinct_app. split; [done|]. split; [apply distinct_singleton|].
        intros f y Hf Hy. apply list_elem_of_singleton in Hy as ->.
        apply (eq_false_sym cmp eq Heq). apply Hno. by apply IH2.
      * intros f Hf. apply elem_of_app in Hf as [Hf|Hf].
        -- apply elem_of_app. left. by apply IH2.
        -- apply elem_of_app. by right.
      * intros y Hy. apply elem_of_app in Hy as [Hy|Hy].
        -- destruct (IH3 y Hy) as (f & Hf & Hyf). exists f.
           split; [|done]. apply elem_of_app. by left.
        -- apply list_elem_of_singleton in Hy as ->. exists x.
           split; [|apply (id_refl cmp eq Heq)]. apply elem_of_app. right. by left.
Qed.

Lemma IndexFunc_fmap_ext {A B} (g : A → B) (P : B → bool) (Q : A → bool) (F : list A) :
  (∀ y, y ∈ F → P (g y) = Q y) → IndexFunc (g <$> F) P = IndexFunc F Q.
Proof.
  induction F as [|f F IH]; intros H; [done|].
  rewrite fmap_cons. cbn [IndexFunc].
  rewrite (H f) by (by left). destruct (Q f); [done|].
  rewrite IH; [done|]. intros y Hy. apply H. by right.
Qed.

Lemma fmap_ext_in' {A B} (g h : A → B) (F : list A) :
  (∀ y, y ∈ F → g y = h y) → g <$> F = h <$> F.
Proof.
  induction F as [|f F IH]; intros H; [done|].
  rewrite !fmap_cons.
  rewrite (H f) by (by left). f_equal. apply IH. intros y Hy. apply H. by right.
Qed.

(** [uniqEqSlow] keeps the last value of each identity at the place of its
    first occurrence. *)
Lemma dedup_keep_last l : dedup eq l = keep_last eq l.
Proof.
  induction l as [|x l IH] using rev_ind; [done|].
  rewrite dedup_snoc, IH. unfold keep_last.
  destruct (first_seen_facts l) as (HF1 & HF2 & HF3).
  rewrite first_seen_snoc. simpl app. rewrite fmap_app.
  unfold dedup_step.
  rewrite (IndexFunc_fmap_ext (last_value eq l) _ (λ f, eq x f)).
  2:{ intros y Hy. symmetry. apply eq_congr. apply last_value_eq. }
  destruct (IndexFunc (first_seen eq [] l) _) as [idx|] eqn:Hidx.
  - apply IndexFunc_Some in Hidx as (F1 & f & F2 & HF & <- & Hxf & HF1no).
    rewrite HF in *.
    assert (ContainsFunc l (λ y, eq x y) = true) as ->.
    { apply ContainsFunc_true. exists f. split; [|done].
      apply HF2. apply elem_of_app. right. by left. }
    simpl. rewrite app_nil_r, !fmap_app, !fmap_cons.
    rewrite insert_app_r_alt by (by rewrite length_fmap).
    rewrite length_fmap, Nat.sub_diag. simpl.
    apply distinct_app in HF1 as (_ & HF1 & _).
    apply distinct_cons in HF1 as [_ HF2no].
    f_equal; [|f_equal].
    + apply fmap_ext_in'. intros y Hy. rewrite last_value_snoc.
      rewrite (id_sym cmp eq Heq), HF1no; done.
    + rewrite last_value_snoc. rewrite (id_sym cmp eq Heq), Hxf. done.
    + apply fmap_ext_in'. intros y Hy. rewrite last_value_snoc.
      rewrite (eq_congr x f y), (id_sym cmp eq Heq), HF2no; try done.
  - pose proof (IndexFunc_None _ _ Hidx) as Hno. simpl in Hno.
    assert (ContainsFunc l (λ y, eq x y) = false) as ->.
    { apply ContainsFunc_false. intros y Hy.
      destruct (HF3 y Hy) as (f & Hf & Hyf).
      rewrite (eq_congr y f x Hyf). by apply Hno. }
    simpl. f_equal.
    + apply fmap_ext_in'. intros y Hy. rewrite last_value_snoc.
      rewrite (id_sym cmp eq Heq), Hno; done.
    + rewrite last_value_snoc, (id_refl cmp eq Heq). done.
Qed.

(** What is kept of a list: one element per identity, all from the list. *)
Lemma dedup_facts l :
  distinct eq (dedup eq l)
  ∧ (∀ x, x ∈ dedup eq l → x ∈ l)
  ∧ (∀ y, y ∈ l → ∃ x, x ∈ dedup eq l ∧ eq y x = true).
Proof.
  rewrite dedup_keep_last. unfold keep_last.
  destruct (first_seen_facts l) as (HF1 & HF2 & HF3).
  split_and!.
  - revert HF1. generalize (first_seen eq [] l). intros F HF.
    induction F as [|f F IH]; [constructor|].
    apply distinct_cons in HF as [HF Hf]. rewrite fmap_cons.
    apply distinct_cons. split; [by apply IH|].
    intros y Hy. apply list_elem_of_fmap in Hy as (g & -> & Hg).
    rewrite <-(eq_congr g (last_value eq l g)) by apply last_value_eq.
    rewrite (id_sym cmp eq Heq).
    rewrite <-(eq_congr f (last_value eq l f)) by apply last_value_eq.
    rewrite (id_sym cmp eq Heq). by apply Hf.
  - intros x Hx. apply list_elem_of_fmap in Hx as (f & -> & Hf).
    apply last_value_in. by apply HF2.
  - intros y Hy. destruct (HF3 y Hy) as (f & Hf & Hyf).
    exists (last_value eq l f). split.
    + apply list_elem_of_fmap. by exists f.
    + rewrite <-(eq_congr f (last_value eq l f)) by apply last_value_eq. done.
Qed.

End facts.
End DedupFacts.

Import Go slicesx GoFacts.
Import Spec Spec2 Spec3 Spec4 Spec5 Spec6.
Import SearchFacts OrderFacts UniqFacts UniqLoop SortFacts SortOrder DedupFacts.

Module RunsFacts.
Import RunsOrder.
Section facts.
Context {E : Type}.
Variable zero : E.
Variable cmp : E → E → Z.
Variable eq : E → E → bool.
Hypothesis Hcmp : Comparator cmp.
Hypothesis Heq : Identity cmp eq.
Implicit Types l cur r : list E.
Implicit Types rs : list (list E).

Lemma elem_of_concat (x : E) rs : x ∈ concat rs ↔ ∃ r, x ∈ r ∧ r ∈ rs.
Proof.
  induction rs as [|r rs IH]; simpl.
  - split; [intros H; inversion H | intros (r & _ & H); inversion H].
  - rewrite elem_of_app, IH. split.
    + intros [H|(r' & H1 & H2)]; [exists r; split; [done | by left]|].
      exists r'. split; [done | by right].
    + intros (r' & H1 & H2). apply elem_of_cons in H2 as [->|H2]; [by left|].
      right. by exists r'.
Qed.

Lemma maximal_runs_head x l :
  ∃ run rest, maximal_runs cmp (x :: l) = (x :: run) :: rest.
Proof.
  simpl. destruct (maximal_runs cmp l) as [|[|y run] rest]; [by eexists _, _..|].
  case_bool_decide; by eexists _, _.
Qed.

Lemma maximal_runs_same_key cur :
  cur ≠ [] → (∀ x y, x ∈ cur → y ∈ cur → cmp x y = 0) →
  maximal_runs cmp cur = [cur].
Proof.
  induction cur as [|c cur IH]; intros Hne Hkey; [done|].
  destruct cur as [|c2 cur]; [done|].
  change (maximal_runs cmp (c :: c2 :: cur))
    with (match maximal_runs cmp (c2 :: cur) with
          | (y :: run) :: rest =>
              if bool_decide (cmp c y = 0) then (c :: y :: run) :: rest
              else [c] :: (y :: run) :: rest
          | _ => [[c]]
          end).
  rewrite IH; [|done|].
  - rewrite bool_decide_true; [done|]. apply Hkey; [by left | by right; left].
  - intros x y Hx Hy. apply Hkey; by right.
Qed.

Lemma maximal_runs_cut cur next l :
  cur ≠ [] → (∀ x, x ∈ cur → cmp x next ≠ 0) →
  (∀ x y, x ∈ cur → y ∈ cur → cmp x y = 0) →
  maximal_runs cmp (cur ++ next :: l) = cur :: maximal_runs cmp (next :: l).
Proof.
  induction cur as [|c cur IH]; intros Hne Hnext Hkey; [done|].
  destruct (maximal_runs_head next l) as (run & rest & Hhead).
  destruct cur as [|c2 cur].
  - simpl app.
    change (maximal_runs cmp (c :: next :: l))
      with (match maximal_runs cmp (next :: l) with
            | (y :: run) :: rest =>
                if bool_decide (cmp c y = 0) then (c :: y :: run) :: rest
                else [c] :: (y :: run) :: rest
            | _ => [[c]]
            end).
    rewrite Hhead. rewrite bool_decide_false; [done|]. apply Hnext. by left.
  - change (maximal_runs cmp ((c :: c2 :: cur) ++ next :: l))
      with (match maximal_runs cmp ((c2 :: cur) ++ next :: l) with
            | (y :: run) :: rest =>
                if bool_decide (cmp c y = 0) then (c :: y :: run) :: rest
                else [c] :: (y :: run) :: rest
            | _ => [[c]]
            end).
    rewrite IH; [|done| |].
    + rewrite bool_decide_true; [done|]. apply Hkey; [by left | by right; left].
    + intros x Hx. apply Hnext. by right.
    + intros x y Hx Hy. apply Hkey; by right.
Qed.

(** The runs the code cuts, by comparison with the head of the run, are
    the maximal runs of neighbours of equal order key. *)
Lemma runs_from_maximal l : ∀ prev cur,
  cur ≠ [] → (∀ x, x ∈ cur → cmp x prev = 0) →
  runs_from cmp prev cur l = maximal_runs cmp (cur ++ l).
Proof.
  induction l as [|next l IH]; intros prev cur Hne Hkey.
  - simpl. rewrite app_nil_r. symmetry. apply maximal_runs_same_key; [done|].
    intros x y Hx Hy. apply Hkey in Hx, Hy.
    apply (cmp_zero_sym cmp Hcmp) in Hy. by apply (cmp_zero_trans cmp Hcmp x prev y).
  - simpl. case_bool_decide as Hc.
    + rewrite IH.
      * by rewrite <-app_assoc.
      * by destruct cur.
      * intros x Hx. apply elem_of_app in Hx as [Hx|Hx]; [by apply Hkey|].
        by apply list_elem_of_singleton in Hx as ->.
    + rewrite (IH next [next]); [|done|].
      * symmetry. apply maximal_runs_cut; [done| |].
        -- intros x Hx Hxn. apply Hc. apply Hkey in Hx.
           apply (cmp_zero_sym cmp Hcmp) in Hxn.
           by apply (cmp_zero_trans cmp Hcmp next x prev).
        -- intros x y Hx Hy. apply Hkey in Hx, Hy.
           apply (cmp_zero_sym cmp Hcmp) in Hy.
           by apply (cmp_zero_trans cmp Hcmp x prev y).
      * intros x Hx. apply list_elem_of_singleton in Hx as ->.
        by apply cmp_refl.
Qed.

Lemma runs_maximal l : runs cmp l = maximal_runs cmp l.
Proof.
  destruct l as [|x l]; [done|]. unfold runs.
  rewrite runs_from_maximal; [done | done |].
  intros y Hy. apply list_elem_of_singleton in Hy as ->. by apply cmp_refl.
Qed.

Local Abbreviation same_key := (RunsOrder.same_key (E:=E) cmp).
Local Abbreviation run_before := (RunsOrder.run_before (E:=E) cmp).

Lemma maximal_runs_facts l :
  ascending cmp l →
  concat (maximal_runs cmp l) = l
  ∧ Forall same_key (maximal_runs cmp l)
  ∧ StronglySorted run_before (maximal_runs cmp l).
Proof.
  induction l as [|x l IH]; intros Hasc.
  - simpl. split_and!; constructor.
  - apply ascending_cons in Hasc as [Hasc Hx].
    destruct (IH Hasc) as (Hcat & Hkeys & Hsep). simpl.
    destruct (maximal_runs cmp l) as [|[|y run] rest] eqn:Hruns.
    + simpl in Hcat. subst l. split_and!; [done| |].
      * constructor; [|constructor]. split; [done|].
        intros a c Ha Hc. apply list_elem_of_singleton in Ha as ->.
        apply list_elem_of_singleton in Hc as ->. by apply cmp_refl.
      * repeat constructor.
    + apply Forall_cons in Hkeys as [[Hne _] _]. done.
    + apply Forall_cons in Hkeys as [[_ Hkey] Hkeys].
      apply StronglySorted_inv in Hsep as [Hsep Hrun].
      simpl in Hcat.
      case_bool_decide as Hxy.
      * split_and!.
        -- simpl. by rewrite Hcat.
        -- constructor; [|done]. split; [done|].
           assert (∀ a, a ∈ x :: y :: run → cmp a y = 0) as Hy.
           { intros a Ha. apply elem_of_cons in Ha as [->|Ha]; [done|].
             apply Hkey; [done | by left]. }
           intros a c Ha Hc. apply Hy in Ha, Hc.
           apply (cmp_zero_sym cmp Hcmp) in Hc.
           by apply (cmp_zero_trans cmp Hcmp a y c).
        -- constructor; [done|].
           eapply Forall_impl; [exact Hrun|]. intros r Hr a c Ha Hc.
           apply elem_of_cons in Ha as [->|Ha]; [|by apply Hr].
           eapply (cmp_le_lt_trans cmp Hcmp); [|apply (Hr y c); [by left | done]].
           lia.
      * assert (cmp x y < 0) as Hlt.
        { assert (cmp x y ≤ 0); [|lia]. apply Hx. rewrite <-Hcat. by left. }
        split_and!.
        -- simpl. by rewrite Hcat.
        -- constructor; [|by constructor]. split; [done|].
           intros a c Ha Hc. apply list_elem_of_singleton in Ha as ->.
           apply list_elem_of_singleton in Hc as ->. by apply cmp_refl.
        -- constructor; [by constructor|].
           constructor.
           ++ intros a c Ha Hc. apply list_elem_of_singleton in Ha as ->.
              eapply (cmp_lt_le_trans cmp Hcmp); [done|].
              rewrite (Hkey y c); [lia | by left | done].
           ++ eapply Forall_impl; [exact Hrun|]. intros r Hr a c Ha Hc.
              apply list_elem_of_singleton in Ha as ->.
              eapply (cmp_lt_le_trans cmp Hcmp); [done|].
              assert (cmp y c < 0) by (apply Hr; [by left | done]). lia.
Qed.

(** Keeping part of every run keeps the order and, across runs, the
    distinctness. *)
Lemma concat_runs_kept (f : list E → list E) rs :
  Forall same_key rs → StronglySorted run_before rs →
  (∀ r, r ∈ rs → distinct eq (f r) ∧ ∀ x, x ∈ f r → x ∈ r) →
  ascending cmp (concat (f <$> rs)) ∧ distinct eq (concat (f <$> rs))
  ∧ ∀ x, x ∈ concat (f <$> rs) → ∃ r, r ∈ rs ∧ x ∈ f r.
Proof.
  induction rs as [|r rs IH]; intros Hkeys Hsep Hf.
  - simpl. split_and!; [constructor | constructor |]. intros x Hx. inversion Hx.
  - apply Forall_cons in Hkeys as [[_ Hkey] Hkeys].
    apply StronglySorted_inv in Hsep as [Hsep Hr].
    destruct IH as (IH1 & IH2 & IH3); [done | done | |].
    { intros r' Hr'. apply Hf. by right. }
    destruct (Hf r) as [Hd Hsub]; [by left|].
    rewrite fmap_cons. simpl concat.
    assert (∀ x y, x ∈ f r → y ∈ concat (f <$> rs) → cmp x y < 0) as Hcross.
    { intros x y Hx Hy. destruct (IH3 y Hy) as (r' & Hr' & Hy').
      rewrite Forall_forall in Hr. apply (Hr r' Hr'); [by apply Hsub|].
      destruct (Hf r') as [_ Hsub']; [by right|]. by apply Hsub'. }
    split_and!.
    + apply ascending_app. split_and!; [|done|].
      * apply MergeUnion.ascending_same_key. intros x y Hx Hy. apply Hkey; by apply Hsub.
      * intros x y Hx Hy. specialize (Hcross x y Hx Hy). lia.
    + apply distinct_app. split_and!; [done | done |].
      intros x y Hx Hy. apply (cmp_lt_eq_false cmp eq Heq). by apply Hcross.
    + intros x Hx. apply elem_of_app in Hx as [Hx|Hx].
      * exists r. split; [by left | done].
      * destruct (IH3 x Hx) as (r' & Hr' & Hx'). exists r'. split; [by right | done].
Qed.

(** *** [StableSortUniqFuncs] *)

Lemma StableSortUniqFuncs_total l (cmp' : E → E → Z) (eq' : E → E → bool) :
  StableSortUniqFuncs zero l cmp' eq'
  = Ok (concat (dedup eq' <$> runs cmp' (SortStableFunc cmp' l))).
Proof. unfold StableSortUniqFuncs, StableSortFunc. apply UniqSortedFuncs_spec. Qed.

Lemma StableSortUniqFuncs_spec l :
  StableSortUniqFuncs zero l cmp eq = Ok (StableSortDedup_spec cmp eq l).
Proof.
  rewrite StableSortUniqFuncs_total. unfold StableSortDedup_spec.
  rewrite runs_maximal. do 2 f_equal.
  apply fmap_ext_in'. intros r _. by apply (dedup_keep_last cmp).
Qed.

(** The result is a sorted sequence without two elements of one identity,
    made of elements of the list, with every identity of the list. *)
Lemma StableSortDedup_facts l :
  ascending cmp (StableSortDedup_spec cmp eq l)
  ∧ distinct eq (StableSortDedup_spec cmp eq l)
  ∧ (∀ x, x ∈ StableSortDedup_spec cmp eq l → x ∈ l)
  ∧ (∀ y, y ∈ l → ∃ x, x ∈ StableSortDedup_spec cmp eq l ∧ eq y x = true).
Proof.
  unfold StableSortDedup_spec.
  pose proof (SortStableFunc_ascending cmp Hcmp l) as Hasc.
  pose proof (SortStableFunc_perm cmp l) as Hperm.
  destruct (maximal_runs_facts _ Hasc) as (Hcat & Hkeys & Hsep).
  set (rs := maximal_runs cmp (SortStableFunc cmp l)) in *.
  assert (∀ r, r ∈ rs → distinct eq (keep_last eq r) ∧ ∀ x, x ∈ keep_last eq r → x ∈ r) as Hf.
  { intros r _. rewrite <-(dedup_keep_last cmp eq Heq).
    destruct (dedup_facts cmp eq Heq r) as (H1 & H2 & _). done. }
  destruct (concat_runs_kept (keep_last eq) rs Hkeys Hsep Hf) as (H1 & H2 & H3).
  split_and!; [done | done | |].
  - intros x Hx. destruct (H3 x Hx) as (r & Hr & Hxr).
    rewrite <-Hperm, <-Hcat. apply elem_of_concat. exists r. split; [|done].
    by apply Hf.
  - intros y Hy. rewrite <-Hperm, <-Hcat in Hy.
    apply elem_of_concat in Hy as (r & Hyr & Hr).
    destruct (dedup_facts cmp eq Heq r) as (_ & _ & Hrep).
    destruct (Hrep y Hyr) as (x & Hx & Hyx).
    exists x. split; [|done].
    apply elem_of_concat. exists (keep_last eq r). split.
    + by rewrite <-(dedup_keep_last cmp eq Heq).
    + apply list_elem_of_fmap. by exists r.
Qed.

End facts.
End RunsFacts.

Import Go slicesx GoFacts.
Import Spec Spec2 Spec3 Spec4 Spec5 Spec6.
Import SearchFacts OrderFacts.

Module LoopFacts.

Lemma while_ret_inv {S R} (Inv : S → Prop) (Post : R → Prop) (m : S → nat)
    fuel cond body (s : S) :
  Inv s → (m s ≤ fuel)%nat →
  (∀ s, Inv s → ∃ c, cond s = Ok c ∧
        (c = true → (0 < m s)%nat ∧ ∃ r, body s = Ok r ∧
           match r with
           | Next s' => Inv s' ∧ (m s' < m s)%nat
           | Return r => Post r
           end)) →
  ∃ r, while_ret fuel cond body s = Ok r ∧
       match r with
       | Next s' => Inv s' ∧ cond s' = Ok false
       | Return r => Post r
       end.
Proof.
  intros HI Hm Hstep. revert s HI Hm.
  induction fuel as [|fuel IH]; intros s HI Hm; simpl;
    destruct (Hstep s HI) as (c & Hc & Hbody); rewrite Hc; simpl;
    destruct c.
  - destruct Hbody as [Hpos _]; [done|]. lia.
  - exists (Next s). split; [done|]. done.
  - destruct Hbody as (Hpos & r & Hb & Hr); [done|]. rewrite Hb. simpl.
    destruct r as [s'|r].
    + destruct Hr as [HI' Hlt]. apply IH; [done | lia].
    + exists (Return r). done.
  - exists (Next s). done.
Qed.

Lemma for_range_ret_inv {S R B} (Inv : list B → S → Prop) (Post : R → Prop)
    (l : list B) body (s : S) :
  Inv [] s →
  (∀ done x rest s, l = done ++ x :: rest → Inv done s →
      ∃ r, body s x = Ok r ∧
        match r with
        | Next s' => Inv (done ++ [x]) s'
        | Return r => Post r
        end) →
  ∃ r, for_range_ret l body s = Ok r ∧
       match r with
       | Next s' => Inv l s'
       | Return r => Post r
       end.
Proof.
  intros H0 Hstep.
  cut (∀ rest done s, l = done ++ rest → Inv done s →
         ∃ r, for_range_ret rest body s = Ok r ∧
              match r with
              | Next s' => Inv l s'
              | Return r => Post r
              end).
  { intros H. by apply (H l [] s). }
  induction rest as [|x rest IH]; intros done s1 Hl HI; simpl.
  - rewrite app_nil_r in Hl. subst. exists (Next s1). done.
  - destruct (Hstep done x rest s1 Hl HI) as (r & Hb & Hr).
    rewrite Hb. simpl. destruct r as [s'|r].
    + apply (IH (done ++ [x])); [|done]. by rewrite <-app_assoc.
    + exists (Return r). done.
Qed.

(** [sort.Search] under an invariant on the bracket [i, j]. *)
Lemma Search_inv (I : Z → Z → Prop) n f :
  0 ≤ n → I 0 n →
  (∀ i j h, I i j → 0 ≤ i → i ≤ h → h < j → j ≤ n →
      ∃ b, f h = Ok b ∧ (b = false → I (h + 1) j) ∧ (b = true → I i h)) →
  ∃ i, Search n f = Ok i ∧ 0 ≤ i ≤ n ∧ I i i.
Proof.
  intros Hn H0 Hstep. unfold Search.
  match goal with |- context [while ?fu ?c ?b ?s] =>
    destruct (while_inv (λ '(i, j), 0 ≤ i ∧ i ≤ j ∧ j ≤ n ∧ I i j)
                (λ '(i, j), Z.to_nat (j - i)) fu c b s)
      as ([i j] & Hw & (Hi & Hij & Hj & HI) & Hc)
  end.
  - split_and!; try done; lia.
  - lia.
  - intros [i j] (Hi & Hij & Hj & HI) Hc. apply bool_decide_eq_true in Hc.
    assert (i ≤ (i + j) / 2 < j) as Hh.
    { split; [apply Z.div_le_lower_bound | apply Z.div_lt_upper_bound]; lia. }
    destruct (Hstep i j ((i + j) / 2) HI) as (b & Hb & Hf & Ht); try lia.
    simpl. rewrite Hb. simpl. destruct b; simpl.
    + eexists. split; [done|]. split; [|lia]. split_and!; try lia. by apply Ht.
    + eexists. split; [done|]. split; [|lia]. split_and!; try lia. by apply Hf.
  - rewrite Hw. simpl. exists i. apply bool_decide_eq_false in Hc.
    assert (i = j) as -> by lia. split; [done|]. split; [lia | done].
Qed.

End LoopFacts.

Import Go slicesx GoFacts.
Import Spec Spec2 Spec3 Spec4 Spec5 Spec6.
Import SearchFacts OrderFacts LoopFacts.

Module ShiftFacts.
Section facts.
Context {A : Type}.
Implicit Types p q r : list A.

(** [copy] into a window shorter than the source. *)
Lemma copy_trunc p q src more :
  len src = len q →
  copy (p ++ q) (len p) (len (p ++ q)) (src ++ more) = Ok (p ++ src, len q).
Proof.
  intros Hlen. unfold copy.
  pose proof (len_nonneg p). pose proof (len_nonneg q). pose proof (len_nonneg more).
  rewrite bool_decide_true by (rewrite !len_app; lia).
  simpl. rewrite !len_app.
  replace (Z.min _ _) with (len src) by lia.
  rewrite !to_nat_len, take_app_length.
  rewrite <-(app_nil_r q) at 1. rewrite list_inserts_mid by (unfold len in *; lia).
  by rewrite app_nil_r, Hlen.
Qed.

(** Opening a slot at [idx]: grow by one, slide the tail right, write. *)
Lemma open_slot p r (e : A) :
  let l := (p ++ r) ++ [e] in
  (moved ← slice l (len p) (len l);
   '(l, _) ← copy l (len p + 1) (len l) moved;
   store l (len p) e)
  = Ok (p ++ e :: r).
Proof.
  simpl. rewrite <-app_assoc. rewrite slice_suffix. cbn [mbind run_bind].
  destruct r as [|x r].
  - simpl. unfold copy. pose proof (len_nonneg p).
    rewrite bool_decide_true by (rewrite len_snoc; lia).
    rewrite len_snoc.
    replace (Z.min (len p + 1 - (len p + 1)) (len [e])) with 0
      by (unfold len; simpl; lia).
    cbn [mbind run_bind]. simpl. apply store_mid.
  - replace (p ++ (x :: r) ++ [e]) with ((p ++ [x]) ++ (r ++ [e]))
      by (by rewrite <-app_assoc).
    replace (len p + 1) with (len (p ++ [x])) by (by rewrite len_snoc).
    rewrite (copy_trunc (p ++ [x]) (r ++ [e]) (x :: r) [e]).
    2:{ rewrite len_snoc, len_cons. lia. }
    cbn [mbind run_bind]. rewrite <-app_assoc. simpl.
    apply store_mid.
Qed.

(** Closing the slot at [idx]: slide the tail left, clear the last
    element, shrink. *)
Lemma close_slot (zero : A) p (x : A) r :
  let l := p ++ x :: r in
  (moved ← slice l (len p + 1) (len l);
   '(l', _) ← copy l (len p) (len l) moved;
   l' ← store l' (len l - 1) zero;
   slice l' 0 (len l - 1))
  = Ok (p ++ r).
Proof.
  simpl.
  replace (p ++ x :: r) with ((p ++ [x]) ++ r) at 1 by (by rewrite <-app_assoc).
  replace (len p + 1) with (len (p ++ [x])) by (by rewrite len_snoc).
  replace (len (p ++ x :: r)) with (len ((p ++ [x]) ++ r)) at 1
    by (by rewrite <-app_assoc).
  rewrite slice_suffix. cbn [mbind run_bind].
  destruct (DeleteFacts.copy_slide p [x] r []) as (G & HG & Hcopy).
  rewrite !app_nil_r in Hcopy. simpl in Hcopy. rewrite Hcopy.
  cbn [mbind run_bind].
  assert (∃ g, G = [g]) as [g ->].
  { unfold len in HG. simpl in HG. destruct G as [|g [|? ?]]; simpl in HG; try lia.
    by exists g. }
  replace (len (p ++ x :: r) - 1) with (len (p ++ r)).
  2:{ rewrite !len_app, len_cons. lia. }
  rewrite app_assoc. rewrite store_mid. cbn [mbind run_bind].
  apply slice_prefix.
Qed.

End facts.
End ShiftFacts.

Import Go slicesx GoFacts.
Import Spec Spec2 Spec3 Spec4 Spec5 Spec6.
Import SearchFacts OrderFacts LoopFacts ShiftFacts.

Module SetSearch.
Import sets.
Import SetScan.
Section facts.
Context {E : Type}.
Implicit Types set : sorted E.

Local Abbreviation scanned := (SetScan.scanned (E:=E)).

Lemma search_run (I : Z → Z → Prop) set e :
  I 0 (len (elems set)) →
  (∀ i j h x, I i j → 0 ≤ i → i ≤ h → h < j → j ≤ len (elems set) →
      elems set !! Z.to_nat h = Some x →
      (¬ cmp set e x ≤ 0 → I (h + 1) j) ∧ (cmp set e x ≤ 0 → I i h)) →
  ∃ lb idx found,
    search set e = Ok (idx, found) ∧ I lb lb ∧ scanned set e lb idx found.
Proof.
  intros H0 Hstep. unfold search.
  pose proof (len_nonneg (elems set)) as Hn.
  destruct (Search_inv I (len (elems set))
              (λ i, x ← index (elems set) i; Ok (bool_decide (cmp set e x ≤ 0))))
    as (lb & Hsearch & Hlb & HI); [done | done | |].
  { intros i j h HIij Hi Hih Hhj Hj.
    destruct (index_in_range (elems set) h) as (x & Hx & Hlook); [lia|].
    rewrite Hx. simpl. eexists. split; [done|].
    destruct (Hstep i j h x HIij Hi Hih Hhj Hj Hlook) as [Hf Ht].
    split; intros Hb.
    - apply bool_decide_eq_false in Hb. by apply Hf.
    - apply bool_decide_eq_true in Hb. by apply Ht. }
  rewrite Hsearch. cbn [mbind run_bind].
  match goal with |- context [while_ret ?fu ?c ?b ?s] =>
    destruct (while_ret_inv
                (λ idx, lb ≤ idx ∧ idx ≤ len (elems set)
                        ∧ ∀ h x, lb ≤ h < idx → elems set !! Z.to_nat h = Some x →
                                 cmp set e x = 0 ∧ eq set x e = false)
                (λ r : Z * bool, scanned set e lb r.1 r.2 ∧ r.2 = true)
                (λ idx, Z.to_nat (len (elems set) - idx)) fu c b s)
      as (r & Hw & Hr)
  end.
  - split_and!; try lia.
  - unfold len. lia.
  - intros idx (Hlo & Hhi & Hscan).
    case_bool_decide as Hlt.
    + destruct (index_in_range (elems set) idx) as (x & Hx & Hlook); [lia|].
      rewrite Hx. simpl. eexists. split; [done|].
      intros Hc. apply bool_decide_eq_true in Hc. split; [lia|].
      destruct (eq set x e) eqn:Hxe.
      * eexists. split; [done|]. simpl. split; [|done].
        unfold SetScan.scanned. split_and!; try lia; [done|]. by exists x.
      * eexists. split; [done|]. split; [|lia]. split_and!; try lia.
        intros h y Hh Hy. destruct (decide (h = idx)) as [->|Hne].
        -- rewrite Hlook in Hy. injection Hy as <-. done.
        -- apply (Hscan h y); [lia | done].
    + eexists. split; [done|]. done.
  - rewrite Hw. cbn [mbind run_bind]. destruct r as [idx|[idx found]].
    + destruct Hr as [(Hlo & Hhi & Hscan) Hc].
      exists lb, idx, false. split; [done|]. split; [done|].
      unfold SetScan.scanned. split_and!; try lia; [done|].
      case_bool_decide as Hlt; [|left; lia].
      destruct (index_in_range (elems set) idx) as (x & Hx & Hlook); [lia|].
      rewrite Hx in Hc. simpl in Hc. injection Hc as Hc.
      apply bool_decide_eq_false in Hc. right. by exists x.
    + destruct Hr as [Hr Hf]. simpl in Hf. subst found.
      exists lb, idx, true. done.
Qed.

(** [search] runs to completion whatever [cmp] and [eq] are. *)
Lemma search_total set e :
  ∃ idx found, search set e = Ok (idx, found)
    ∧ 0 ≤ idx ≤ len (elems set)
    ∧ (found = true → ∃ x, elems set !! Z.to_nat idx = Some x ∧ eq set x e = true).
Proof.
  destruct (search_run (λ _ _, True) set e) as (lb & idx & found & Hs & _ & Hscan);
    [done | done |].
  exists idx, found. split; [done|].
  destruct Hscan as (H1 & H2 & H3 & _ & H5). split; [lia|].
  intros ->. destruct H5 as (x & Hx & _ & Hxe). by exists x.
Qed.

End facts.
End SetSearch.

Import Go slicesx GoFacts.
Import Spec Spec2 Spec3 Spec4 Spec5 Spec6.
Import SearchFacts OrderFacts LoopFacts ShiftFacts SetSearch SetScan.

Module LookupOrder.
Section facts.
Context {E : Type}.
Variable cmp : E → E → Z.
Hypothesis Hcmp : Comparator cmp.

Lemma ascending_lookup (l : list E) (i j : nat) x y :
  ascending cmp l → (i ≤ j)%nat → l !! i = Some x → l !! j = Some y →
  cmp x y ≤ 0.
Proof.
  intros Hasc Hij Hx Hy.
  destruct (decide (i = j)) as [->|Hne].
  - rewrite Hx in Hy. injection Hy as ->. rewrite (cmp_refl cmp Hcmp). lia.
  - rewrite <-(take_drop_middle l i x Hx) in Hasc, Hy.
    apply ascending_app in Hasc as (_ & Hasc & _).
    apply ascending_cons in Hasc as [_ Hasc].
    apply Hasc. rewrite lookup_app_r in Hy by (rewrite length_take; lia).
    apply lookup_lt_Some in Hx as Hlt. rewrite length_take in Hy.
    replace (j - i `min` length l)%nat with (S (j - i - 1)) in Hy by lia.
    simpl in Hy. by eapply list_elem_of_lookup_2.
Qed.

End facts.
End LookupOrder.

Import SeqSpec SetSpec.

Module SetSearchSpec.
Import sets LookupOrder.
Section facts.
Context {E : Type}.
Implicit Types set : sorted E.

Lemma search_spec set e :
  lawful set → ascending (cmp set) (elems set) →
  ∃ idx found, search set e = Ok (idx, found)
    ∧ located (cmp set) (eq set) (elems set) e idx found.
Proof.
  intros [Hcmp Heq] Hasc.
  set (I := λ i j : Z,
    (∀ h x, 0 ≤ h < i → elems set !! Z.to_nat h = Some x → cmp set e x > 0)
    ∧ (∀ h x, j ≤ h → elems set !! Z.to_nat h = Some x → cmp set e x ≤ 0)).
  destruct (search_run I set e) as (lb & idx & found & Hs & [Hlo Hhi] & Hscan).
  { split.
    - intros h x Hh. lia.
    - intros h x Hh Hx. apply lookup_lt_Some in Hx. unfold len in Hh. lia. }
  { intros i j h x [HIlo HIhi] Hi Hih Hhj Hj Hx. split.
    - intros Hgt. split; [|done].
      intros h' y Hh' Hy.
      assert (cmp set y x ≤ 0) as Hyx.
      { eapply (ascending_lookup (cmp set) Hcmp); [done| |done..]. lia. }
      assert (cmp set x e < 0) by (apply (cmp_antisym _ Hcmp); lia).
      apply (cmp_antisym _ Hcmp). by apply (cmp_le_lt_trans _ Hcmp y x e).
    - intros Hle. split; [done|].
      intros h' y Hh' Hy.
      assert (cmp set x y ≤ 0) as Hxy.
      { eapply (ascending_lookup (cmp set) Hcmp); [done| |done..]. lia. }
      by apply (cmp_trans _ Hcmp e x y). }
  exists idx, found. split; [done|].
  destruct Hscan as (H0lb & Hlbidx & Hidxn & Hrun & Hend).
  unfold located. destruct found.
  - destruct Hend as (x & Hx & _ & Hxe).
    exists (take (Z.to_nat idx) (elems set)), x, (drop (S (Z.to_nat idx)) (elems set)).
    split; [by rewrite take_drop_middle|]. split; [|done].
    unfold len in *. rewrite length_take. lia.
  - assert (∀ h x, idx ≤ h → elems set !! Z.to_nat h = Some x → cmp set e x < 0) as Hafter.
    { intros h x Hh Hx. destruct Hend as [->|(y & Hy & Hne)].
      - apply lookup_lt_Some in Hx. unfold len in Hh. lia.
      - assert (cmp set e y < 0).
        { assert (cmp set e y ≤ 0); [|lia]. apply (Hhi idx y); [lia | done]. }
        apply (cmp_lt_le_trans _ Hcmp e y x); [done|].
        eapply (ascending_lookup (cmp set) Hcmp); [done| |done..]. lia. }
    assert (∀ h x, 0 ≤ h < idx → elems set !! Z.to_nat h = Some x →
              cmp set x e ≤ 0 ∧ eq set x e = false) as Hbefore.
    { intros h x Hh Hx. destruct (Z_lt_ge_dec h lb) as [Hlt|Hge].
      - assert (cmp set x e < 0).
        { apply (cmp_antisym _ Hcmp). apply (Hlo h x); [lia | done]. }
        split; [lia|]. by apply (cmp_lt_eq_false _ _ Heq).
      - destruct (Hrun h x) as [Hc Hxe]; [lia | done |].
        apply (cmp_zero_sym _ Hcmp) in Hc. split; [lia | done]. }
    exists (take (Z.to_nat idx) (elems set)), (drop (Z.to_nat idx) (elems set)).
    split; [by rewrite take_drop|]. split.
    { unfold len in *. rewrite length_take. lia. }
    split_and!.
    + intros x Hx. apply list_elem_of_lookup in Hx as (h & Hx).
      apply lookup_take_Some in Hx as [Hx Hlt].
      apply (Hbefore (Z.of_nat h)); [lia | by rewrite Nat2Z.id].
    + intros x Hx. apply list_elem_of_lookup in Hx as (h & Hx).
      rewrite lookup_drop in Hx.
      apply (Hafter (Z.of_nat (Z.to_nat idx + h))); [lia | by rewrite Nat2Z.id].
    + intros x Hx. apply list_elem_of_lookup in Hx as (h & Hx).
      destruct (Z_lt_ge_dec (Z.of_nat h) idx) as [Hlt|Hge].
      * apply (Hbefore (Z.of_nat h)); [lia | by rewrite Nat2Z.id].
      * apply (eq_false_sym _ _ Heq). apply (cmp_lt_eq_false _ _ Heq).
        apply (Hafter (Z.of_nat h)); [lia | by rewrite Nat2Z.id].
Qed.

End facts.
End SetSearchSpec.

Import Go slicesx GoFacts.
Import Spec Spec2 Spec3 Spec4 Spec5 Spec6.
Import SearchFacts OrderFacts LoopFacts ShiftFacts SeqSpec.

Module SeqFacts.

Lemma StronglySorted_filter {A} (R : A → A → Prop) (P : A → Prop)
    `{∀ x, Decision (P x)} (l : list A) :
  StronglySorted R l → StronglySorted R (filter P l).
Proof.
  induction 1 as [|x l Hl IH Hx]; [constructor|].
  rewrite filter_cons. destruct (decide (P x)); [|done].
  constructor; [done|]. apply Forall_forall. intros y Hy.
  apply list_elem_of_filter in Hy as [_ Hy].
  rewrite Forall_forall in Hx. by apply Hx.
Qed.

Section facts.
Context {E : Type}.
Variable cmp : E → E → Z.
Variable eq : E → E → bool.
Hypothesis HL : Laws cmp eq.
Implicit Types l p r : list E.

Lemma sorted_seq_nil : sorted_seq cmp eq [].
Proof. split; constructor. Qed.

(** An element of the sequence is replaced by one of the same identity. *)
Lemma sorted_seq_replace p x r e :
  eq x e = true → sorted_seq cmp eq (p ++ x :: r) → sorted_seq cmp eq (p ++ e :: r).
Proof.
  destruct HL as [Hcmp Heq]. intros Hxe [Hasc Hd].
  pose proof (id_cmp cmp eq Heq x e Hxe) as Hc.
  assert (cmp e x = 0) as Hc' by by apply (cmp_zero_sym cmp Hcmp).
  split.
  - apply ascending_app in Hasc as (H1 & H2 & H3).
    apply ascending_cons in H2 as [H2 H4].
    apply ascending_app. split; [done|]. split.
    + apply ascending_cons. split; [done|]. intros y Hy.
      apply (cmp_trans cmp Hcmp e x y); [lia | by apply H4].
    + intros a b Ha Hb. apply elem_of_cons in Hb as [->|Hb].
      * apply (cmp_trans cmp Hcmp a x e); [|lia]. apply H3; [done | by left].
      * apply H3; [done | by right].
  - apply (distinct_replace cmp eq Heq p r x e); [|done].
    by rewrite (id_sym cmp eq Heq).
Qed.

(** A new identity enters at the place where it belongs. *)
Lemma sorted_seq_open p r e :
  sorted_seq cmp eq (p ++ r) →
  (∀ x, x ∈ p → cmp x e ≤ 0) → (∀ x, x ∈ r → cmp e x ≤ 0) →
  (∀ x, x ∈ p ++ r → eq x e = false) →
  sorted_seq cmp eq (p ++ e :: r).
Proof.
  destruct HL as [Hcmp Heq]. intros [Hasc Hd] Hp Hr Hne. split.
  - apply ascending_app in Hasc as (H1 & H2 & H3).
    apply ascending_app. split; [done|]. split.
    + apply ascending_cons. by split.
    + intros a b Ha Hb. apply elem_of_cons in Hb as [->|Hb]; [by apply Hp | by apply H3].
  - apply distinct_app in Hd as (H1 & H2 & H3).
    apply distinct_app. split; [done|]. split.
    + apply distinct_cons. split; [done|]. intros y Hy.
      apply (eq_false_sym cmp eq Heq). apply Hne. apply elem_of_app. by right.
    + intros a b Ha Hb. apply elem_of_cons in Hb as [->|Hb]; [|by apply H3].
      apply Hne. apply elem_of_app. by left.
Qed.

Lemma sorted_seq_close p x r :
  sorted_seq cmp eq (p ++ x :: r) → sorted_seq cmp eq (p ++ r).
Proof.
  intros [Hasc Hd]. split.
  - apply ascending_app in Hasc as (H1 & H2 & H3).
    apply ascending_cons in H2 as [H2 _].
    apply ascending_app. split; [done|]. split; [done|].
    intros a b Ha Hb. apply H3; [done | by right].
  - apply distinct_app in Hd as (H1 & H2 & H3).
    apply distinct_cons in H2 as [H2 _].
    apply distinct_app. split; [done|]. split; [done|].
    intros a b Ha Hb. apply H3; [done | by right].
Qed.

Lemma sorted_seq_filter (P : E → Prop) `{∀ x, Decision (P x)} l :
  sorted_seq cmp eq l → sorted_seq cmp eq (filter P l).
Proof.
  intros [Hasc Hd]. split.
  - unfold ascending in *. by apply StronglySorted_filter.
  - unfold distinct in *. by apply StronglySorted_filter.
Qed.

(** Membership by identity is membership of an element of that identity. *)
Lemma has_elem l e : e ∈ l → has eq l e.
Proof. destruct HL as [_ Heq]. intros He. exists e. by rewrite (id_refl cmp eq Heq). Qed.

Lemma has_congr l e e' : eq e e' = true → has eq l e → has eq l e'.
Proof.
  destruct HL as [_ Heq]. intros Hee (x & Hx & Hxe). exists x. split; [done|].
  by apply (id_trans cmp eq Heq x e e').
Qed.

Lemma has_replace p x r e y :
  eq x e = true → (has eq (p ++ e :: r) y ↔ has eq (p ++ x :: r) y).
Proof.
  destruct HL as [_ Heq]. intros Hxe.
  assert (eq e x = true) as Hex by by rewrite (id_sym cmp eq Heq).
  split; intros (z & Hz & Hzy).
  - apply elem_of_app in Hz as [Hz|Hz].
    { exists z. split; [|done]. apply elem_of_app. by left. }
    apply elem_of_cons in Hz as [->|Hz].
    + exists x. split; [apply elem_of_app; right; by left|].
      by apply (id_trans cmp eq Heq x e y).
    + exists z. split; [|done]. apply elem_of_app. right. by right.
  - apply elem_of_app in Hz as [Hz|Hz].
    { exists z. split; [|done]. apply elem_of_app. by left. }
    apply elem_of_cons in Hz as [->|Hz].
    + exists e. split; [apply elem_of_app; right; by left|].
      by apply (id_trans cmp eq Heq e x y).
    + exists z. split; [|done]. apply elem_of_app. right. by right.
Qed.

Lemma has_open p r e y :
  has eq (p ++ e :: r) y ↔ has eq (p ++ r) y ∨ eq e y = true.
Proof.
  split.
  - intros (z & Hz & Hzy). apply elem_of_app in Hz as [Hz|Hz].
    { left. exists z. split; [|done]. apply elem_of_app. by left. }
    apply elem_of_cons in Hz as [->|Hz]; [by right|].
    left. exists z. split; [|done]. apply elem_of_app. by right.
  - intros [(z & Hz & Hzy)|Hey].
    + exists z. split; [|done]. apply elem_of_app in Hz as [Hz|Hz];
        apply elem_of_app; [by left | right; by right].
    + exists e. split; [|done]. apply elem_of_app. right. by left.
Qed.

Lemma has_close p x r y :
  distinct eq (p ++ x :: r) →
  (has eq (p ++ r) y ↔ has eq (p ++ x :: r) y ∧ eq x y = false).
Proof.
  destruct HL as [_ Heq]. intros Hd.
  assert (∀ z, z ∈ p ++ r → eq z x = false) as Hz.
  { intros z Hz. apply distinct_app in Hd as (H1 & H2 & H3).
    apply distinct_cons in H2 as [H2 H4].
    apply elem_of_app in Hz as [Hz|Hz].
    - apply H3; [done | by left].
    - apply (eq_false_sym cmp eq Heq). by apply H4. }
  split.
  - intros (z & Hin & Hzy). split.
    + exists z. split; [|done]. apply elem_of_app in Hin as [Hin|Hin];
        apply elem_of_app; [by left | right; by right].
    + destruct (eq x y) eqn:Hxy; [|done].
      assert (eq z x = true); [|by rewrite Hz in *].
      apply (id_trans cmp eq Heq z y x); [done|]. by rewrite (id_sym cmp eq Heq).
  - intros [(z & Hin & Hzy) Hxy]. exists z. split; [|done].
    apply elem_of_app in Hin as [Hin|Hin]; [apply elem_of_app; by left|].
    apply elem_of_cons in Hin as [->|Hin]; [by rewrite Hxy in Hzy|].
    apply elem_of_app. by right.
Qed.

(** What [located] says in terms of membership. *)
Lemma located_has l e idx found :
  located cmp eq l e idx found → (found = true ↔ has eq l e).
Proof.
  unfold located. destruct found.
  - intros (p & x & r & -> & _ & Hxe). split; [|done]. intros _.
    exists x. split; [|done]. apply elem_of_app. right. by left.
  - intros (p & r & -> & _ & _ & _ & Hne). split; [done|].
    intros (x & Hx & Hxe). by rewrite (Hne x Hx) in Hxe.
Qed.

End facts.
End SeqFacts.

Import Go slicesx GoFacts.
Import Spec Spec2 Spec3 Spec4 Spec5 Spec6.
Import SearchFacts OrderFacts LoopFacts ShiftFacts SeqSpec SeqFacts.

(** The batched operations on a sorted sequence. *)
Module BatchFacts.
Section total.
Context {E : Type}.
Variable zero : E.
Variable cmp : E → E → Z.
Variable eq : E → E → bool.




End total.

Section lawful.
Context {E : Type}.
Variable zero : E.
Variable cmp : E → E → Z.
Variable eq : E → E → bool.
Hypothesis HL : Laws cmp eq.

Lemma StableSortUniqFuncs_seq (l : list E) :
  ∃ s, StableSortUniqFuncs zero l cmp eq = Ok s
    ∧ sorted_seq cmp eq s
    ∧ (∀ x, x ∈ s → x ∈ l)
    ∧ (∀ y, has eq s y ↔ has eq l y).
Proof.
  destruct HL as [Hcmp Heq].
  exists (StableSortDedup_spec cmp eq l).
  split; [by apply RunsFacts.StableSortUniqFuncs_spec|].
  destruct (RunsFacts.StableSortDedup_facts cmp eq Hcmp Heq l) as (H1 & H2 & H3 & H4).
  split; [done|]. split; [done|].
  intros y. split.
  - intros (x & Hx & Hxy). exists x. split; [by apply H3 | done].
  - intros (x & Hx & Hxy). destruct (H4 x Hx) as (x' & Hx' & Hxx').
    exists x'. split; [done|].
    apply (id_trans cmp eq Heq x' x y); [|done]. by rewrite (id_sym cmp eq Heq).
Qed.

(** [insertAll]: sort and deduplicate the batch, then merge it in. *)
Lemma insert_batch_seq (a l : list E) :
  sorted_seq cmp eq a →
  ∃ r, (s ← StableSortUniqFuncs zero l cmp eq; MergeSorted zero a s cmp eq) = Ok r
    ∧ sorted_seq cmp eq r
    ∧ (∀ x, x ∈ r → x ∈ a ∨ x ∈ l)
    ∧ (∀ y, has eq r y ↔ has eq a y ∨ has eq l y).
Proof.
  destruct HL as [Hcmp Heq]. intros [Ha Hd].
  destruct (StableSortUniqFuncs_seq l) as (s & Hs & [Hs1 Hs2] & Hs3 & Hs4).
  rewrite Hs. cbn [mbind run_bind].
  destruct (MergeUnion.MergeSorted_union zero cmp eq Hcmp Heq a s Ha Hd Hs1 Hs2)
    as (r & Hr & Hr1 & Hr2 & Hr3).
  exists r. split; [done|]. split; [done|]. split.
  - intros x Hx. apply Hr3 in Hx as [Hx|[Hx _]]; [right; by apply Hs3 | by left].
  - intros y. split.
    + intros (x & Hx & Hxy). apply Hr3 in Hx as [Hx|[Hx _]].
      * right. apply Hs4. by exists x.
      * left. by exists x.
    + intros [(x & Hx & Hxy)|Hy].
      * destruct (ContainsFunc s (λ z, eq x z)) eqn:Hc.
        -- apply ContainsFunc_true in Hc as (z & Hz & Hxz).
           exists z. split; [apply Hr3; by left|].
           apply (id_trans cmp eq Heq z x y); [|done]. by rewrite (id_sym cmp eq Heq).
        -- exists x. split; [|done]. apply Hr3. right. split; [done|].
           intros z Hz. by apply (proj1 (ContainsFunc_false s (λ z, eq x z)) Hc).
      * apply Hs4 in Hy as (x & Hx & Hxy). exists x. split; [|done].
        apply Hr3. by left.
Qed.

(** [removeAll]: sort the batch, then delete it. *)
Lemma remove_batch_seq (a l : list E) :
  sorted_seq cmp eq a →
  ∃ r, DeleteSorted zero a (StableSortFunc l cmp) cmp eq = Ok r
    ∧ sorted_seq cmp eq r
    ∧ (∀ x, x ∈ r → x ∈ a)
    ∧ (∀ y, has eq r y ↔ has eq a y ∧ ¬ has eq l y).
Proof.
  destruct HL as [Hcmp Heq]. intros [Ha Hd].
  pose proof (SortFacts.SortStableFunc_ascending cmp Hcmp l) as Hb.
  pose proof (SortFacts.SortStableFunc_perm cmp l) as Hperm.
  rewrite (DeleteCorrect.DeleteSorted_filter zero cmp eq Hcmp Heq a
             (StableSortFunc l cmp) Ha Hb).
  eexists. split; [done|]. split; [by apply sorted_seq_filter|]. split.
  - intros x Hx. by apply list_elem_of_filter in Hx as [_ Hx].
  - assert (∀ x, DeleteInvariant.stays eq (StableSortFunc l cmp) x ↔
                 ∀ z, z ∈ l → eq x z = false) as Hstays.
    { intros x. unfold DeleteInvariant.stays. split.
      - intros Hc z Hz. apply (proj1 (ContainsFunc_false _ (λ be, eq x be)) Hc).
        unfold StableSortFunc. by rewrite Hperm.
      - intros Hz. destruct (ContainsFunc _ _) eqn:Hc; [|done].
        apply ContainsFunc_true in Hc as (z & Hin & Hxz).
        unfold StableSortFunc in Hin. rewrite Hperm in Hin.
        by rewrite (Hz z Hin) in Hxz. }
    intros y. split.
    + intros (x & Hx & Hxy). apply list_elem_of_filter in Hx as [Hst Hx].
      split; [by exists x|]. intros (z & Hz & Hzy).
      pose proof (proj1 (Hstays x) Hst z Hz) as Hxz.
      assert (eq x z = true); [|congruence].
      apply (id_trans cmp eq Heq x y z); [done|]. by rewrite (id_sym cmp eq Heq).
    + intros [(x & Hx & Hxy) Hn]. exists x. split; [|done].
      apply list_elem_of_filter. split; [|done]. apply Hstays.
      intros z Hz. destruct (eq x z) eqn:Hxz; [|done].
      exfalso. apply Hn. exists z. split; [done|].
      apply (id_trans cmp eq Heq z x y); [|done]. by rewrite (id_sym cmp eq Heq).
Qed.

End lawful.
End BatchFacts.

Import Go slicesx GoFacts.
Import Spec Spec2 Spec3 Spec4 Spec5 Spec6.
Import SearchFacts OrderFacts LoopFacts ShiftFacts SeqSpec SeqFacts SetSpec BatchFacts.

(** The shifts of [Insert] and [Remove] at a position of any list. *)
Module ShiftAt.
Section facts.
Context {A : Type}.
Implicit Types l : list A.



End facts.
End ShiftAt.

(** The comparator set of [sorted.go]: every method runs to completion. *)
Module SortedTotal.
Import sets SetSearch SetScan.
Import SortedFuncs.
Section facts.
Context {E : Type}.
Variable zero : E.
Implicit Types set : sorted E.

Local Abbreviation same_funcs := (SortedFuncs.same_funcs (E:=E)).

Lemma Contains_total set e : ∃ b, Contains set e = Ok b.
Proof.
  unfold Contains. destruct (search_total set e) as (idx & found & -> & _).
  by eexists.
Qed.











Lemma Intersection_total set other :
  ∃ set', Intersection set other = Ok set' ∧ same_funcs set set'.
Proof. by eexists. Qed.


Lemma Difference_total set other :
  ∃ set', Difference set other = Ok set' ∧ same_funcs set set'.
Proof. by eexists. Qed.

(** The elements of the other set that the receiver does not contain. *)
Lemma missing_total set (l acc : list E) :
  ∃ r, for_range l
         (λ elems_ e, c ← Contains set e;
                      if negb c then Ok (elems_ ++ [e]) else Ok elems_) acc = Ok r.
Proof.
  revert acc. induction l as [|x l IH]; intros acc; [by eexists|].
  cbn [for_range]. destruct (Contains_total set x) as (b & ->).
  cbn [mbind run_bind]. destruct b; cbn [negb mbind run_bind]; apply IH.
Qed.


End facts.
End SortedTotal.

Import Go slicesx GoFacts.
Import Spec Spec2 Spec3 Spec4 Spec5 Spec6.
Import SearchFacts OrderFacts LoopFacts ShiftFacts SeqSpec SeqFacts SetSpec BatchFacts.

(** The comparator set of [sorted.go] under the caller's contract. *)
Module SortedLaws.
Import sets SetSearch SetScan SetSearchSpec.
Section facts.
Context {E : Type}.
Variable zero : E.
Variable set : sorted E.
Hypothesis HL : lawful set.
Hypothesis Hseq : sorted_sequence set.

Lemma Contains_spec e :
  ∃ b, Contains set e = Ok b ∧ (b = true ↔ member set e).
Proof.
  unfold Contains.
  destruct (search_spec set e HL (proj1 Hseq)) as (idx & found & -> & Hloc).
  exists found. split; [done|]. by eapply located_has.
Qed.

(** [Insert]: the element of the identity of [e], if there is one, is
    replaced where it stands; otherwise [e] enters at its place. *)
Lemma Insert_outcome e :
  ∃ p old r,
    elems set = p ++ old ++ r
    ∧ Insert set e = Ok (MkSorted (p ++ e :: r) (cmp set) (eq set))
    ∧ (old = [] ∧ ¬ member set e ∨ ∃ x, old = [x] ∧ eq set x e = true)
    ∧ sorted_seq (cmp set) (eq set) (p ++ e :: r).
Proof.
  unfold Insert.
  destruct (search_spec set e HL (proj1 Hseq)) as (idx & found & -> & Hloc).
  cbn [mbind run_bind]. pose proof (located_has _ _ _ _ _ _ Hloc) as Hhas.
  unfold located in Hloc. destruct found.
  - destruct Hloc as (p & x & r & Hl & <- & Hxe).
    exists p, [x], r. rewrite Hl. rewrite store_mid. cbn [mbind run_bind].
    split; [done|]. split; [done|]. split; [right; by exists x|].
    apply (sorted_seq_replace _ _ HL p x r e Hxe).
    unfold sorted_sequence in Hseq. by rewrite Hl in Hseq.
  - destruct Hloc as (p & r & Hl & <- & Hp & Hr & Hne).
    exists p, [], r. rewrite Hl. cbn zeta.
    pose proof (open_slot p r e) as Hopen. cbn zeta in Hopen.
    destruct (slice _ _ _) as [moved| |]; try done. cbn [mbind run_bind] in *.
    destruct (copy _ _ _ _) as [[l' c]| |]; try done. cbn [mbind run_bind] in *.
    rewrite Hopen. cbn [mbind run_bind].
    split; [done|]. split; [done|]. split.
    { left. split; [done|]. intros Hm. apply Hhas in Hm. done. }
    apply (sorted_seq_open _ _ HL).
    + unfold sorted_sequence in Hseq. by rewrite Hl in Hseq.
    + done.
    + intros x Hx. specialize (Hr x Hx). lia.
    + by rewrite <-Hl.
Qed.

Lemma Remove_outcome e :
  ∃ p old r,
    elems set = p ++ old ++ r
    ∧ Remove zero set e = Ok (MkSorted (p ++ r) (cmp set) (eq set))
    ∧ (old = [] ∧ ¬ member set e ∨ ∃ x, old = [x] ∧ eq set x e = true)
    ∧ sorted_seq (cmp set) (eq set) (p ++ r).
Proof.
  unfold Remove.
  destruct (search_spec set e HL (proj1 Hseq)) as (idx & found & -> & Hloc).
  cbn [mbind run_bind]. pose proof (located_has _ _ _ _ _ _ Hloc) as Hhas.
  unfold located in Hloc. destruct found; cbn [negb].
  - destruct Hloc as (p & x & r & Hl & <- & Hxe).
    exists p, [x], r. rewrite Hl. cbn zeta.
    pose proof (close_slot zero p x r) as Hclose. cbn zeta in Hclose.
    destruct (slice _ _ _) as [moved| |]; try done. cbn [mbind run_bind] in *.
    destruct (copy _ _ _ _) as [[l' c]| |]; try done. cbn [mbind run_bind] in *.
    destruct (store _ _ _) as [l''| |]; try done. cbn [mbind run_bind] in *.
    rewrite Hclose. cbn [mbind run_bind].
    split; [done|]. split; [done|]. split; [right; by exists x|].
    apply (sorted_seq_close _ _ p x r).
    unfold sorted_sequence in Hseq. by rewrite Hl in Hseq.
  - destruct Hloc as (p & r & Hl & <- & Hp & Hr & Hne).
    exists p, [], r. split; [done|]. split.
    { destruct set as [l c q]. simpl in *. by rewrite Hl. }
    split.
    { left. split; [done|]. intros Hm. apply Hhas in Hm. done. }
    unfold sorted_sequence in Hseq. by rewrite Hl in Hseq.
Qed.

End facts.

Section consequences.
Context {E : Type}.
Variable zero : E.
Implicit Types set : sorted E.

(** A set with the functions of a lawful set is lawful. *)
Lemma lawful_same set l : lawful set → lawful (MkSorted l (cmp set) (eq set)).
Proof. done. Qed.

Lemma Insert_spec set e :
  lawful set → sorted_sequence set →
  ∃ set', Insert set e = Ok set'
    ∧ cmp set' = cmp set ∧ eq set' = eq set
    ∧ sorted_sequence set'
    ∧ e ∈ elems set'
    ∧ (∀ y, member set' y ↔ member set y ∨ eq set e y = true).
Proof.
  intros HL Hseq.
  destruct (Insert_outcome set HL Hseq e) as (p & old & r & Hl & Hins & Hold & Hs).
  eexists. split; [done|]. split; [done|]. split; [done|]. split; [done|].
  split. { simpl. apply elem_of_app. right. by left. }
  intros y. unfold member. simpl. rewrite Hl.
  destruct Hold as [[-> Hn]|(x & -> & Hxe)].
  - apply has_open.
  - simpl. rewrite (has_replace _ _ HL p x r e y Hxe).
    split; [by left|]. intros [H|Hey]; [done|].
    exists x. split; [apply elem_of_app; right; by left|].
    destruct HL as [_ Heq]. by apply (id_trans _ _ Heq x e y).
Qed.

(** Inserting an element once more changes nothing. *)
Lemma Insert_twice set e set' :
  lawful set → sorted_sequence set →
  Insert set e = Ok set' → Insert set' e = Ok set'.
Proof.
  intros HL Hseq Hins.
  destruct (Insert_spec set e HL Hseq) as (s & Hs & Hc & Hq & Hseq' & He & Hm).
  rewrite Hins in Hs. injection Hs as <-.
  assert (lawful set') as HL' by (unfold lawful; by rewrite Hc, Hq).
  destruct (Insert_outcome set' HL' Hseq' e) as (p & old & r & Hl & Hins' & Hold & _).
  rewrite Hins'. f_equal.
  destruct Hold as [[-> Hn]|(x & -> & Hxe)].
  - exfalso. apply Hn. apply (has_elem (cmp set')); done.
  - assert (x = e) as ->.
    { destruct HL' as [_ Heq]. apply (distinct_eq_same _ _ Heq (elems set')).
      - apply Hseq'.
      - rewrite Hl. apply elem_of_app. right. by left.
      - done.
      - done. }
    destruct set' as [l c q]. simpl in *. by rewrite Hl.
Qed.

(** When the identity of [e] is in the set, [Insert] puts [e] in the
    place of the element that has it. *)
Lemma Insert_replaces set e :
  lawful set → sorted_sequence set → member set e →
  ∃ p x r,
    elems set = p ++ x :: r ∧ eq set x e = true
    ∧ Insert set e = Ok (MkSorted (p ++ e :: r) (cmp set) (eq set)).
Proof.
  intros HL Hseq Hm.
  destruct (Insert_outcome set HL Hseq e) as (p & old & r & Hl & Hins & Hold & _).
  destruct Hold as [[-> Hn]|(x & -> & Hxe)]; [done|].
  by exists p, x, r.
Qed.

Lemma Remove_spec set e :
  lawful set → sorted_sequence set →
  ∃ set', Remove zero set e = Ok set'
    ∧ cmp set' = cmp set ∧ eq set' = eq set
    ∧ sorted_sequence set'
    ∧ (∀ y, member set' y ↔ member set y ∧ eq set e y = false).
Proof.
  intros HL Hseq.
  destruct (Remove_outcome zero set HL Hseq e) as (p & old & r & Hl & Hrem & Hold & Hs).
  eexists. split; [done|]. split; [done|]. split; [done|]. split; [done|].
  intros y. unfold member. simpl. rewrite Hl.
  destruct HL as [Hcmp Heq].
  destruct Hold as [[-> Hn]|(x & -> & Hxe)].
  - simpl. split; [|tauto]. intros Hy. split; [done|].
    destruct (eq set e y) eqn:Hey; [|done]. exfalso. apply Hn.
    unfold member. rewrite Hl. simpl.
    apply (has_congr (cmp set) (eq set) (conj Hcmp Heq) _ y e); [|done].
    by rewrite (id_sym _ _ Heq).
  - simpl. rewrite (has_close (cmp set) (eq set) (conj Hcmp Heq) p x r y).
    2:{ destruct Hseq as [_ Hd]. by rewrite Hl in Hd. }
    assert (eq set x y = eq set e y) as ->; [|done].
    destruct (eq set e y) eqn:Hey.
    + by apply (id_trans _ _ Heq x e y).
    + destruct (eq set x y) eqn:Hxy; [|done].
      assert (eq set e y = true); [|congruence].
      apply (id_trans _ _ Heq e x y); [|done]. by rewrite (id_sym _ _ Heq).
Qed.

Lemma insertAll_spec set l :
  lawful set → sorted_sequence set →
  ∃ set', insertAll zero set l = Ok set'
    ∧ cmp set' = cmp set ∧ eq set' = eq set
    ∧ sorted_sequence set'
    ∧ (∀ x, x ∈ elems set' → x ∈ elems set ∨ x ∈ l)
    ∧ (∀ y, member set' y ↔ member set y ∨ has (eq set) l y).
Proof.
  intros HL Hseq. unfold insertAll, stableSortUniqCmpEq, mergeSortedLists.
  destruct (insert_batch_seq zero (cmp set) (eq set) HL (elems set) l Hseq)
    as (r & Hr & Hs & Hin & Hm).
  destruct (StableSortUniqFuncs _ _ _ _) as [s| |]; try done.
  cbn [mbind run_bind] in *. rewrite Hr. by eexists.
Qed.

Lemma removeAll_spec set l :
  lawful set → sorted_sequence set →
  ∃ set', removeAll zero set l = Ok set'
    ∧ cmp set' = cmp set ∧ eq set' = eq set
    ∧ sorted_sequence set'
    ∧ (∀ x, x ∈ elems set' → x ∈ elems set)
    ∧ (∀ y, member set' y ↔ member set y ∧ ¬ has (eq set) l y).
Proof.
  intros HL Hseq. unfold removeAll, diffSortedLists, stableSortCmp.
  destruct (remove_batch_seq zero (cmp set) (eq set) HL (elems set) l Hseq)
    as (r & -> & Hs & Hin & Hm).
  by eexists.
Qed.

Lemma NewSortedCmpEqFunc_spec (cmp : E → E → Z) (eq : E → E → bool) l :
  Laws cmp eq →
  ∃ set, NewSortedCmpEqFunc zero cmp eq l = Ok set
    ∧ sets.cmp set = cmp ∧ sets.eq set = eq
    ∧ sorted_sequence set
    ∧ (∀ x, x ∈ elems set → x ∈ l)
    ∧ (∀ y, member set y ↔ has eq l y).
Proof.
  intros HL. unfold NewSortedCmpEqFunc, stableSortUniqCmpEq.
  destruct (StableSortUniqFuncs_seq zero cmp eq HL l) as (s & -> & Hs & Hin & Hm).
  by eexists.
Qed.

End consequences.
End SortedLaws.

Import Go slicesx GoFacts.
Import Spec Spec2 Spec3 Spec4 Spec5 Spec6.
Import SearchFacts OrderFacts LoopFacts ShiftFacts SeqSpec SeqFacts BatchFacts.

(** [slices.BinarySearchFunc] and ranging with an index. *)
Module BinarySearchFacts.
Section facts.
Context {A T : Type}.

Lemma BinarySearchFunc_inv (I : Z → Z → Prop) (x : list A) (target : T)
    (cmp : A → T → Z) :
  I 0 (len x) →
  (∀ i j h xh, I i j → 0 ≤ i → i ≤ h → h < j → j ≤ len x →
      x !! Z.to_nat h = Some xh →
      (cmp xh target < 0 → I (h + 1) j) ∧ (¬ cmp xh target < 0 → I i h)) →
  ∃ i ok, BinarySearchFunc x target cmp = Ok (i, ok)
    ∧ 0 ≤ i ≤ len x ∧ I i i
    ∧ (if ok then ∃ xi, x !! Z.to_nat i = Some xi ∧ cmp xi target = 0
       else i = len x ∨ ∃ xi, x !! Z.to_nat i = Some xi ∧ cmp xi target ≠ 0).
Proof.
  intros H0 Hstep. unfold BinarySearchFunc. cbn zeta.
  pose proof (len_nonneg x) as Hn.
  match goal with |- context [while ?fu ?c ?b ?s] =>
    destruct (while_inv (λ '(i, j), 0 ≤ i ∧ i ≤ j ∧ j ≤ len x ∧ I i j)
                (λ '(i, j), Z.to_nat (j - i)) fu c b s)
      as ([i j] & Hw & (Hi & Hij & Hj & HI) & Hc)
  end.
  - split_and!; try done; lia.
  - lia.
  - intros [i j] (Hi & Hij & Hj & HI) Hc. apply bool_decide_eq_true in Hc.
    assert (i ≤ (i + j) / 2 < j) as Hh.
    { split; [apply Z.div_le_lower_bound | apply Z.div_lt_upper_bound]; lia. }
    destruct (index_in_range x ((i + j) / 2)) as (xh & Hx & Hlook); [lia|].
    destruct (Hstep i j ((i + j) / 2) xh HI) as [Hlt Hge]; try lia; [done|].
    simpl. rewrite Hx. simpl. case_bool_decide as Hb.
    + eexists. split; [done|]. split; [|lia]. split_and!; try lia. by apply Hlt.
    + eexists. split; [done|]. split; [|lia]. split_and!; try lia. by apply Hge.
  - rewrite Hw. cbn [mbind run_bind]. apply bool_decide_eq_false in Hc.
    assert (i = j) as -> by lia.
    case_bool_decide as Hlt.
    + destruct (index_in_range x j) as (xi & Hx & Hlook); [lia|].
      rewrite Hx. cbn [mbind run_bind]. eexists _, _. split; [done|].
      split; [lia|]. split; [done|].
      case_bool_decide as Hz; [by exists xi | right; by exists xi].
    + eexists _, _. split; [done|]. split; [lia|]. split; [done|]. left. lia.
Qed.

Lemma enumerate_lookup (l : list A) (k : nat) :
  enumerate l !! k = (λ x, (Z.of_nat k, x)) <$> l !! k.
Proof. unfold enumerate. by rewrite list_lookup_imap. Qed.

Lemma enumerate_split (l : list A) done j v rest :
  enumerate l = done ++ (j, v) :: rest →
  j = len done ∧ l !! length done = Some v.
Proof.
  intros Hl.
  assert (enumerate l !! length done = Some (j, v)) as Hk.
  { rewrite Hl. rewrite lookup_app_r by lia. by rewrite Nat.sub_diag. }
  rewrite enumerate_lookup in Hk.
  destruct (l !! length done) as [x|]; [|done].
  simpl in Hk. injection Hk as <- <-. done.
Qed.

End facts.
End BinarySearchFacts.

(** The search of the comparator set of the second package. *)
Module FuncSearch.
Import sets2 BinarySearchFacts.
Import FuncScan.
Section facts.
Context {E : Type}.
Implicit Types s : funcSorted E.

Local Abbreviation scanned := (FuncScan.scanned (E:=E)).

Lemma func_search_run (I : Z → Z → Prop) s e :
  I 0 (len (list_ s)) →
  (∀ i j h x, I i j → 0 ≤ i → i ≤ h → h < j → j ≤ len (list_ s) →
      list_ s !! Z.to_nat h = Some x →
      (cmp s x e < 0 → I (h + 1) j) ∧ (¬ cmp s x e < 0 → I i h)) →
  ∃ lb idx found,
    search s e = Ok (idx, found) ∧ I lb lb ∧ scanned s e lb idx found.
Proof.
  intros H0 Hstep. unfold search.
  pose proof (len_nonneg (list_ s)) as Hn.
  destruct (BinarySearchFunc_inv I (list_ s) e (cmp s) H0 Hstep)
    as (lb & ok & -> & Hlb & HI & Hok).
  cbn [mbind run_bind]. destruct ok; cbn [negb].
  2:{ exists lb, lb, false. split; [done|]. split; [done|].
      unfold FuncScan.scanned. split_and!; try lia.
      destruct Hok as [->|(x & Hx & Hne)]; [by left|].
      right. exists x. split; [done|]. by left. }
  rewrite slice_in_range by lia. cbn [mbind run_bind].
  set (rest := view (list_ s) lb (len (list_ s) - lb)).
  assert (∀ k v, rest !! k = Some v →
            list_ s !! Z.to_nat (lb + Z.of_nat k) = Some v
            ∧ lb + Z.of_nat k < len (list_ s)) as Hrest.
  { intros k v Hk. unfold rest, view in Hk.
    apply lookup_take_Some in Hk as [Hk _]. rewrite lookup_drop in Hk.
    replace (Z.to_nat (lb + Z.of_nat k)) with (Z.to_nat lb + k)%nat by lia.
    split; [done|]. apply lookup_lt_Some in Hk. unfold len. lia. }
  assert (length rest = Z.to_nat (len (list_ s) - lb)) as Hlen.
  { pose proof (length_view (list_ s) lb (len (list_ s) - lb)) as Hv.
    unfold rest, len in *. lia. }
  match goal with |- context [for_range_ret ?l ?b ?st] =>
    destruct (for_range_ret_inv (S:=unit) (R:=Z * bool)
                (λ done _,
                   ∀ h x, lb ≤ h < lb + len done →
                          list_ s !! Z.to_nat h = Some x →
                          cmp s e x = 0 ∧ eq s e x = false)
                (λ r, scanned s e lb r.1 r.2) l b st)
      as (r & -> & Hr)
  end.
  - intros h x Hh. unfold len in Hh. simpl in Hh. lia.
  - intros done [j v] rest' [] Hsplit Hinv.
    apply enumerate_split in Hsplit as [-> Hv].
    destruct (Hrest _ _ Hv) as [Hlook Hlt]. fold (len done) in Hlook, Hlt.
    pose proof (len_nonneg done) as Hd.
    case_bool_decide as Hc.
    + eexists. split; [done|]. unfold FuncScan.scanned. simpl. split_and!; try lia.
      * done.
      * right. exists v. split; [done|]. by right.
    + destruct (eq s e v) eqn:Hev.
      * eexists. split; [done|]. unfold FuncScan.scanned. simpl. split_and!; try lia.
        -- done.
        -- by exists v.
      * eexists. split; [done|]. intros h x Hh Hx.
        rewrite len_snoc in Hh.
        destruct (decide (h = lb + len done)) as [->|Hne].
        -- rewrite Hlook in Hx. injection Hx as <-. split; [|done].
           destruct (decide (cmp s e v = 0)); [done|]. by destruct Hc.
        -- apply (Hinv h x); [lia | done].
  - cbn [mbind run_bind]. destruct r as [[]|[idx found]].
    + exists lb, (len (list_ s)), false. split; [done|]. split; [done|].
      unfold FuncScan.scanned. split_and!; try lia; [].
      intros h x Hh. apply Hr. unfold len, enumerate in *.
      rewrite length_imap, Hlen. lia.
    + exists lb, idx, found. done.
Qed.

(** [search] runs to completion whatever [cmp] and [eq] are. *)
Lemma func_search_total s e :
  ∃ idx found, search s e = Ok (idx, found)
    ∧ 0 ≤ idx ≤ len (list_ s)
    ∧ (found = true → ∃ x, list_ s !! Z.to_nat idx = Some x ∧ eq s e x = true).
Proof.
  destruct (func_search_run (λ _ _, True) s e) as (lb & idx & found & Hs & _ & Hscan);
    [done | done |].
  exists idx, found. split; [done|].
  destruct Hscan as (H1 & H2 & H3 & _ & H5). split; [lia|].
  intros ->. done.
Qed.

End facts.
End FuncSearch.

Import Go slicesx GoFacts.
Import Spec Spec2 Spec3 Spec4 Spec5 Spec6.
Import SearchFacts OrderFacts LoopFacts ShiftFacts SeqSpec SeqFacts BatchFacts.

Module FuncSearchSpec.
Import sets2 FuncSearch FuncScan LookupOrder.
Section facts.
Context {E : Type}.
Variable cmp : E → E → Z.
Variable eq : E → E → bool.
Hypothesis HL : Laws cmp eq.

(** A lower bound by order key followed by a scan of the run of that key
    locates the identity of [e] in a sorted sequence. *)
Lemma located_of_scan (l : list E) e lb idx found :
  ascending cmp l →
  0 ≤ lb → lb ≤ idx → idx ≤ len l →
  (∀ h x, 0 ≤ h < lb → l !! Z.to_nat h = Some x → cmp x e < 0) →
  (∀ h x, lb ≤ h → l !! Z.to_nat h = Some x → 0 ≤ cmp x e) →
  (∀ h x, lb ≤ h < idx → l !! Z.to_nat h = Some x → cmp x e = 0 ∧ eq x e = false) →
  (if found : bool
   then ∃ x, l !! Z.to_nat idx = Some x ∧ eq x e = true
   else idx = len l ∨ ∃ x, l !! Z.to_nat idx = Some x ∧ cmp x e ≠ 0) →
  located cmp eq l e idx found.
Proof.
  destruct HL as [Hcmp Heq]. intros Hasc H0 Hlb Hidx Hlo Hhi Hrun Hend.
  unfold located. destruct found.
  - destruct Hend as (x & Hx & Hxe).
    exists (take (Z.to_nat idx) l), x, (drop (S (Z.to_nat idx)) l).
    split; [by rewrite take_drop_middle|]. split; [|done].
    unfold len in *. rewrite length_take. lia.
  - assert (∀ h x, idx ≤ h → l !! Z.to_nat h = Some x → cmp e x < 0) as Hafter.
    { intros h x Hh Hx. destruct Hend as [->|(y & Hy & Hne)].
      - apply lookup_lt_Some in Hx. unfold len in Hh. lia.
      - assert (cmp e y < 0).
        { apply (cmp_antisym _ Hcmp).
          pose proof (Hhi idx y Hlb Hy). lia. }
        apply (cmp_lt_le_trans _ Hcmp e y x); [done|].
        eapply (ascending_lookup cmp Hcmp); [done| |done..]. lia. }
    assert (∀ h x, 0 ≤ h < idx → l !! Z.to_nat h = Some x →
              cmp x e ≤ 0 ∧ eq x e = false) as Hbefore.
    { intros h x Hh Hx. destruct (Z_lt_ge_dec h lb) as [Hlt|Hge].
      - assert (cmp x e < 0) by (apply (Hlo h x); [lia | done]).
        split; [lia|]. by apply (cmp_lt_eq_false _ _ Heq).
      - destruct (Hrun h x) as [Hc Hxe]; [lia | done |]. split; [lia | done]. }
    exists (take (Z.to_nat idx) l), (drop (Z.to_nat idx) l).
    split; [by rewrite take_drop|]. split.
    { unfold len in *. rewrite length_take. lia. }
    split_and!.
    + intros x Hx. apply list_elem_of_lookup in Hx as (h & Hx).
      apply lookup_take_Some in Hx as [Hx Hlt].
      apply (Hbefore (Z.of_nat h)); [lia | by rewrite Nat2Z.id].
    + intros x Hx. apply list_elem_of_lookup in Hx as (h & Hx).
      rewrite lookup_drop in Hx.
      apply (Hafter (Z.of_nat (Z.to_nat idx + h))); [lia | by rewrite Nat2Z.id].
    + intros x Hx. apply list_elem_of_lookup in Hx as (h & Hx).
      destruct (Z_lt_ge_dec (Z.of_nat h) idx) as [Hlt|Hge].
      * apply (Hbefore (Z.of_nat h)); [lia | by rewrite Nat2Z.id].
      * apply (eq_false_sym _ _ Heq). apply (cmp_lt_eq_false _ _ Heq).
        apply (Hafter (Z.of_nat h)); [lia | by rewrite Nat2Z.id].
Qed.

End facts.

Section search.
Context {E : Type}.
Implicit Types s : funcSorted E.

Lemma func_search_spec s e :
  Laws (cmp s) (eq s) → ascending (cmp s) (list_ s) →
  ∃ idx found, search s e = Ok (idx, found)
    ∧ located (cmp s) (eq s) (list_ s) e idx found.
Proof.
  intros HL Hasc. pose proof HL as [Hcmp Heq].
  set (I := λ i j : Z,
    (∀ h x, 0 ≤ h < i → list_ s !! Z.to_nat h = Some x → cmp s x e < 0)
    ∧ (∀ h x, j ≤ h → list_ s !! Z.to_nat h = Some x → 0 ≤ cmp s x e)).
  destruct (func_search_run I s e) as (lb & idx & found & Hs & [Hlo Hhi] & Hscan).
  { split.
    - intros h x Hh. lia.
    - intros h x Hh Hx. apply lookup_lt_Some in Hx. unfold len in Hh. lia. }
  { intros i j h x [HIlo HIhi] Hi Hih Hhj Hj Hx. split.
    - intros Hlt. split; [|done].
      intros h' y Hh' Hy.
      assert (cmp s y x ≤ 0) as Hyx.
      { eapply (ascending_lookup (cmp s) Hcmp); [done| |done..]. lia. }
      by apply (cmp_le_lt_trans _ Hcmp y x e).
    - intros Hge. split; [done|].
      intros h' y Hh' Hy.
      assert (cmp s x y ≤ 0) as Hxy.
      { eapply (ascending_lookup (cmp s) Hcmp); [done| |done..]. lia. }
      apply (cmp_flip_le _ Hcmp). apply (cmp_trans _ Hcmp e x y); [|done].
      apply (cmp_flip_le _ Hcmp). lia. }
  exists idx, found. split; [done|].
  destruct Hscan as (H0lb & Hlbidx & Hidxn & Hrun & Hend).
  apply (located_of_scan (cmp s) (eq s) HL (list_ s) e lb idx found); try done.
  - intros h x Hh Hx. destruct (Hrun h x Hh Hx) as [Hc Hex]. split.
    + by apply (cmp_zero_sym _ Hcmp).
    + by rewrite (id_sym _ _ Heq).
  - destruct found.
    + destruct Hend as (x & Hx & Hex). exists x. split; [done|].
      by rewrite (id_sym _ _ Heq).
    + destruct Hend as [->|(x & Hx & Hne)]; [by left|]. right.
      exists x. split; [done|]. destruct Hne as [Hne|Hne]; [done|].
      intros Hz. apply Hne. by apply (cmp_zero_sym _ Hcmp).
Qed.

End search.
End FuncSearchSpec.

Import Go slicesx GoFacts.
Import Spec Spec2 Spec3 Spec4 Spec5 Spec6.
Import SearchFacts OrderFacts LoopFacts ShiftFacts SeqSpec SeqFacts BatchFacts.

(** The left shift of [remove], which clears the vacated slot with the
    builtin [clear]. *)
Module ClearShift.
Section facts.
Context {A : Type}.
Implicit Types l p r : list A.

Lemma close_slot_clear (zero : A) p (x : A) r :
  let l := p ++ x :: r in
  (moved ← slice l (len p + 1) (len l);
   '(l', _) ← copy l (len p) (len l) moved;
   l' ← clear zero l' (len l - 1);
   slice l' 0 (len l - 1))
  = Ok (p ++ r).
Proof.
  simpl.
  replace (p ++ x :: r) with ((p ++ [x]) ++ r) at 1 by (by rewrite <-app_assoc).
  replace (len p + 1) with (len (p ++ [x])) by (by rewrite len_snoc).
  replace (len (p ++ x :: r)) with (len ((p ++ [x]) ++ r)) at 1
    by (by rewrite <-app_assoc).
  rewrite slice_suffix. cbn [mbind run_bind].
  destruct (DeleteFacts.copy_slide p [x] r []) as (G & HG & Hcopy).
  rewrite !app_nil_r in Hcopy. simpl in Hcopy. rewrite Hcopy.
  cbn [mbind run_bind].
  replace (len (p ++ x :: r) - 1) with (len (p ++ r)).
  2:{ rewrite !len_app, len_cons. lia. }
  rewrite app_assoc. rewrite clear_suffix. cbn [mbind run_bind].
  apply slice_prefix.
Qed.


(** [clear(s.list); s.list = s.list[:0]] *)
Lemma clear_all (zero : A) l :
  (l' ← clear zero l 0; slice l' 0 0) = Ok [].
Proof.
  unfold clear. rewrite bool_decide_true by (pose proof (len_nonneg l); lia).
  cbn [mbind run_bind]. unfold slice. rewrite bool_decide_true.
  2:{ split; [lia|]. split; [lia|]. apply len_nonneg. }
  done.
Qed.

End facts.
End ClearShift.

(** The comparator set of the second package: every method runs to
    completion. *)
Module FuncSortedTotal.
Import sets2 FuncSearch FuncScan ClearShift.
Import FuncSortedFuncs.
Section facts.
Context {E : Type}.
Variable zero : E.
Implicit Types s : funcSorted E.

Local Abbreviation same_funcs := (FuncSortedFuncs.same_funcs (E:=E)).


Lemma func_Contains_total s e : ∃ b, Contains s e = Ok b.
Proof.
  unfold Contains. destruct (func_search_total s e) as (idx & found & -> & _).
  by eexists.
Qed.










Lemma func_missing_total s (l acc : list E) :
  ∃ r, for_range l
         (λ elems e, c ← Contains s e;
                     if negb c then Ok (elems ++ [e]) else Ok elems) acc = Ok r.
Proof.
  revert acc. induction l as [|x l IH]; intros acc; [by eexists|].
  cbn [for_range]. destruct (func_Contains_total s x) as (b & ->).
  cbn [mbind run_bind]. destruct b; cbn [negb mbind run_bind]; apply IH.
Qed.


End facts.
End FuncSortedTotal.

Import Go slicesx GoFacts.
Import Spec Spec2 Spec3 Spec4 Spec5 Spec6.
Import SearchFacts OrderFacts LoopFacts ShiftFacts SeqSpec SeqFacts BatchFacts.

Import FuncSetSpec.

(** The comparator set of the second package under the caller's contract. *)
Module FuncSortedLaws.
Import sets2 FuncSearch FuncScan FuncSearchSpec ClearShift.
Section facts.
Context {E : Type}.
Variable zero : E.
Variable set : funcSorted E.
Hypothesis HL : lawful set.
Hypothesis Hseq : sorted_sequence set.

Lemma func_contains_spec e :
  ∃ b, Contains set e = Ok b ∧ (b = true ↔ member set e).
Proof.
  unfold Contains.
  destruct (func_search_spec set e HL (proj1 Hseq)) as (idx & found & -> & Hloc).
  exists found. split; [done|]. by eapply located_has.
Qed.

(** [insert]: the element of the identity of [e], if there is one, is
    replaced where it stands; otherwise [e] enters at its place. *)
Lemma func_insert_outcome e :
  ∃ p old r,
    list_ set = p ++ old ++ r
    ∧ insert set e = Ok (MkFuncSorted (p ++ e :: r) (cmp set) (eq set))
    ∧ (old = [] ∧ ¬ member set e ∨ ∃ x, old = [x] ∧ eq set x e = true)
    ∧ sorted_seq (cmp set) (eq set) (p ++ e :: r).
Proof.
  unfold insert.
  destruct (func_search_spec set e HL (proj1 Hseq)) as (idx & found & -> & Hloc).
  cbn [mbind run_bind]. pose proof (located_has _ _ _ _ _ _ Hloc) as Hhas.
  unfold located in Hloc. destruct found.
  - destruct Hloc as (p & x & r & Hl & <- & Hxe).
    exists p, [x], r. rewrite Hl. rewrite store_mid. cbn [mbind run_bind].
    split; [done|]. split; [done|]. split; [right; by exists x|].
    apply (sorted_seq_replace _ _ HL p x r e Hxe).
    unfold sorted_sequence in Hseq. by rewrite Hl in Hseq.
  - destruct Hloc as (p & r & Hl & <- & Hp & Hr & Hne).
    exists p, [], r. rewrite Hl. cbn zeta.
    pose proof (open_slot p r e) as Hopen. cbn zeta in Hopen.
    destruct (slice _ _ _) as [moved| |]; try done. cbn [mbind run_bind] in *.
    destruct (copy _ _ _ _) as [[l' c]| |]; try done. cbn [mbind run_bind] in *.
    rewrite Hopen. cbn [mbind run_bind].
    split; [done|]. split; [done|]. split.
    { left. split; [done|]. intros Hm. apply Hhas in Hm. done. }
    apply (sorted_seq_open _ _ HL).
    + unfold sorted_sequence in Hseq. by rewrite Hl in Hseq.
    + done.
    + intros x Hx. specialize (Hr x Hx). lia.
    + by rewrite <-Hl.
Qed.

Lemma func_remove_outcome e :
  ∃ p old r,
    list_ set = p ++ old ++ r
    ∧ remove zero set e = Ok (MkFuncSorted (p ++ r) (cmp set) (eq set))
    ∧ (old = [] ∧ ¬ member set e ∨ ∃ x, old = [x] ∧ eq set x e = true)
    ∧ sorted_seq (cmp set) (eq set) (p ++ r).
Proof.
  unfold remove.
  destruct (func_search_spec set e HL (proj1 Hseq)) as (idx & found & -> & Hloc).
  cbn [mbind run_bind]. pose proof (located_has _ _ _ _ _ _ Hloc) as Hhas.
  unfold located in Hloc. destruct found; cbn [negb].
  - destruct Hloc as (p & x & r & Hl & <- & Hxe).
    exists p, [x], r. rewrite Hl. cbn zeta.
    pose proof (close_slot_clear zero p x r) as Hclose. cbn zeta in Hclose.
    destruct (slice _ _ _) as [moved| |]; try done. cbn [mbind run_bind] in *.
    destruct (copy _ _ _ _) as [[l' c]| |]; try done. cbn [mbind run_bind] in *.
    destruct (clear _ _ _) as [l''| |]; try done. cbn [mbind run_bind] in *.
    rewrite Hclose. cbn [mbind run_bind].
    split; [done|]. split; [done|]. split; [right; by exists x|].
    apply (sorted_seq_close _ _ p x r).
    unfold sorted_sequence in Hseq. by rewrite Hl in Hseq.
  - destruct Hloc as (p & r & Hl & <- & Hp & Hr & Hne).
    exists p, [], r. split; [done|]. split.
    { destruct set as [l c q]. simpl in *. by rewrite Hl. }
    split.
    { left. split; [done|]. intros Hm. apply Hhas in Hm. done. }
    unfold sorted_sequence in Hseq. by rewrite Hl in Hseq.
Qed.

End facts.

Section consequences.
Context {E : Type}.
Variable zero : E.
Implicit Types set : funcSorted E.

(** A set with the functions of a lawful set is lawful. *)
Lemma func_lawful_same set l : lawful set → lawful (MkFuncSorted l (cmp set) (eq set)).
Proof. done. Qed.

Lemma func_insert_spec set e :
  lawful set → sorted_sequence set →
  ∃ set', insert set e = Ok set'
    ∧ cmp set' = cmp set ∧ eq set' = eq set
    ∧ sorted_sequence set'
    ∧ e ∈ list_ set'
    ∧ (∀ y, member set' y ↔ member set y ∨ eq set e y = true).
Proof.
  intros HL Hseq.
  destruct (func_insert_outcome set HL Hseq e) as (p & old & r & Hl & Hins & Hold & Hs).
  eexists. split; [done|]. split; [done|]. split; [done|]. split; [done|].
  split. { simpl. apply elem_of_app. right. by left. }
  intros y. unfold member. simpl. rewrite Hl.
  destruct Hold as [[-> Hn]|(x & -> & Hxe)].
  - apply has_open.
  - simpl. rewrite (has_replace _ _ HL p x r e y Hxe).
    split; [by left|]. intros [H|Hey]; [done|].
    exists x. split; [apply elem_of_app; right; by left|].
    destruct HL as [_ Heq]. by apply (id_trans _ _ Heq x e y).
Qed.

(** Inserting an element once more changes nothing. *)
Lemma func_insert_twice set e set' :
  lawful set → sorted_sequence set →
  insert set e = Ok set' → insert set' e = Ok set'.
Proof.
  intros HL Hseq Hins.
  destruct (func_insert_spec set e HL Hseq) as (s & Hs & Hc & Hq & Hseq' & He & Hm).
  rewrite Hins in Hs. injection Hs as <-.
  assert (lawful set') as HL' by (unfold lawful; by rewrite Hc, Hq).
  destruct (func_insert_outcome set' HL' Hseq' e) as (p & old & r & Hl & Hins' & Hold & _).
  rewrite Hins'. f_equal.
  destruct Hold as [[-> Hn]|(x & -> & Hxe)].
  - exfalso. apply Hn. apply (has_elem (cmp set')); done.
  - assert (x = e) as ->.
    { destruct HL' as [_ Heq]. apply (distinct_eq_same _ _ Heq (list_ set')).
      - apply Hseq'.
      - rewrite Hl. apply elem_of_app. right. by left.
      - done.
      - done. }
    destruct set' as [l c q]. simpl in *. by rewrite Hl.
Qed.

(** When the identity of [e] is in the set, [insert] puts [e] in the
    place of the element that has it. *)
Lemma func_insert_replaces set e :
  lawful set → sorted_sequence set → member set e →
  ∃ p x r,
    list_ set = p ++ x :: r ∧ eq set x e = true
    ∧ insert set e = Ok (MkFuncSorted (p ++ e :: r) (cmp set) (eq set)).
Proof.
  intros HL Hseq Hm.
  destruct (func_insert_outcome set HL Hseq e) as (p & old & r & Hl & Hins & Hold & _).
  destruct Hold as [[-> Hn]|(x & -> & Hxe)]; [done|].
  by exists p, x, r.
Qed.

Lemma func_remove_spec set e :
  lawful set → sorted_sequence set →
  ∃ set', remove zero set e = Ok set'
    ∧ cmp set' = cmp set ∧ eq set' = eq set
    ∧ sorted_sequence set'
    ∧ (∀ y, member set' y ↔ member set y ∧ eq set e y = false).
Proof.
  intros HL Hseq.
  destruct (func_remove_outcome zero set HL Hseq e) as (p & old & r & Hl & Hrem & Hold & Hs).
  eexists. split; [done|]. split; [done|]. split; [done|]. split; [done|].
  intros y. unfold member. simpl. rewrite Hl.
  destruct HL as [Hcmp Heq].
  destruct Hold as [[-> Hn]|(x & -> & Hxe)].
  - simpl. split; [|tauto]. intros Hy. split; [done|].
    destruct (eq set e y) eqn:Hey; [|done]. exfalso. apply Hn.
    unfold member. rewrite Hl. simpl.
    apply (has_congr (cmp set) (eq set) (conj Hcmp Heq) _ y e); [|done].
    by rewrite (id_sym _ _ Heq).
  - simpl. rewrite (has_close (cmp set) (eq set) (conj Hcmp Heq) p x r y).
    2:{ destruct Hseq as [_ Hd]. by rewrite Hl in Hd. }
    assert (eq set x y = eq set e y) as ->; [|done].
    destruct (eq set e y) eqn:Hey.
    + by apply (id_trans _ _ Heq x e y).
    + destruct (eq set x y) eqn:Hxy; [|done].
      assert (eq set e y = true); [|congruence].
      apply (id_trans _ _ Heq e x y); [|done]. by rewrite (id_sym _ _ Heq).
Qed.

Lemma func_insertAll_spec set l :
  lawful set → sorted_sequence set →
  ∃ set', insertAll zero set l = Ok set'
    ∧ cmp set' = cmp set ∧ eq set' = eq set
    ∧ sorted_sequence set'
    ∧ (∀ x, x ∈ list_ set' → x ∈ list_ set ∨ x ∈ l)
    ∧ (∀ y, member set' y ↔ member set y ∨ has (eq set) l y).
Proof.
  intros HL Hseq. unfold insertAll.
  destruct (insert_batch_seq zero (cmp set) (eq set) HL (list_ set) l Hseq)
    as (r & Hr & Hs & Hin & Hm).
  destruct (StableSortUniqFuncs _ _ _ _) as [s| |]; try done.
  cbn [mbind run_bind] in *. rewrite Hr. by eexists.
Qed.

Lemma func_removeAll_spec set l :
  lawful set → sorted_sequence set →
  ∃ set', removeAll zero set l = Ok set'
    ∧ cmp set' = cmp set ∧ eq set' = eq set
    ∧ sorted_sequence set'
    ∧ (∀ x, x ∈ list_ set' → x ∈ list_ set)
    ∧ (∀ y, member set' y ↔ member set y ∧ ¬ has (eq set) l y).
Proof.
  intros HL Hseq. unfold removeAll.
  destruct (remove_batch_seq zero (cmp set) (eq set) HL (list_ set) l Hseq)
    as (r & -> & Hs & Hin & Hm).
  by eexists.
Qed.

Lemma funcSort_spec (cmp : E → E → Z) (eq : E → E → bool) l :
  Laws cmp eq →
  ∃ set, funcSort zero l cmp eq = Ok set
    ∧ sets2.cmp set = cmp ∧ sets2.eq set = eq
    ∧ sorted_sequence set
    ∧ (∀ x, x ∈ list_ set → x ∈ l)
    ∧ (∀ y, member set y ↔ has eq l y).
Proof.
  intros HL. unfold funcSort.
  destruct (StableSortUniqFuncs_seq zero cmp eq HL l) as (s & -> & Hs & Hin & Hm).
  by eexists.
Qed.

End consequences.
End FuncSortedLaws.

Import Go slicesx GoFacts.
Import Spec Spec2 Spec3 Spec4 Spec5 Spec6.
Import SearchFacts OrderFacts LoopFacts ShiftFacts SeqSpec SeqFacts BatchFacts.

(** Every public operation of a comparator set keeps the sorted sequence. *)
Module SortedInvariant.
Import sets SetSpec SortedTotal SortedFuncs SortedLaws SortedOps.
Import SortedKept.
Section facts.
Context {E : Type}.
Variable zero : E.
Implicit Types set : sorted E.

Local Abbreviation kept := (SortedKept.kept (E:=E)).

Lemma kept_filter set (P : E → Prop) `{∀ x, Decision (P x)} :
  lawful set → sorted_sequence set →
  kept set (MkSorted (filter P (elems set)) (cmp set) (eq set)).
Proof.
  intros HL Hseq. split; [done|]. split; [done|].
  by apply (sorted_seq_filter (cmp set) (eq set)).
Qed.

Lemma insertAll_kept set l :
  lawful set → sorted_sequence set →
  ∃ set', insertAll zero set l = Ok set' ∧ kept set set'.
Proof.
  intros HL Hseq.
  destruct (insertAll_spec zero set l HL Hseq) as (set' & -> & Hc & Hq & Hs & _).
  by eexists.
Qed.

Lemma removeAll_kept set l :
  lawful set → sorted_sequence set →
  ∃ set', removeAll zero set l = Ok set' ∧ kept set set'.
Proof.
  intros HL Hseq.
  destruct (removeAll_spec zero set l HL Hseq) as (set' & -> & Hc & Hq & Hs & _).
  by eexists.
Qed.

Lemma apply_kept set o :
  lawful set → sorted_sequence set →
  ∃ set', apply zero set o = Ok set' ∧ kept set set'.
Proof.
  intros HL Hseq. destruct o as [e|l|other|e|l|other|other|other|other|other|]; simpl.
  - destruct (Insert_spec set e HL Hseq) as (set' & -> & Hc & Hq & Hs & _).
    by eexists.
  - by apply insertAll_kept.
  - unfold InsertSet. destruct (is_receiver other); [|by apply insertAll_kept].
    by eexists.
  - destruct (Remove_spec zero set e HL Hseq) as (set' & -> & Hc & Hq & Hs & _).
    by eexists.
  - by apply removeAll_kept.
  - by apply removeAll_kept.
  - eexists. split; [done|]. by apply kept_filter.
  - unfold Union. by apply (insertAll_kept (Clone set)).
  - eexists. split; [done|]. by apply kept_filter.
  - unfold SymmetricDifference.
    destruct (missing_total set (set_Range other) []) as (r & ->).
    cbn [mbind run_bind].
    match goal with |- context [insertAll zero ?s r] =>
      destruct (insertAll_kept s r) as (set' & -> & Hk) end.
    + done.
    + by apply (sorted_seq_filter (cmp set) (eq set)).
    + by eexists.
  - by eexists.
Qed.

Lemma apply_all_kept ops set :
  lawful set → sorted_sequence set →
  ∃ set', apply_all zero set ops = Ok set' ∧ kept set set'.
Proof.
  revert set. induction ops as [|o ops IH]; intros set HL Hseq.
  { by eexists. }
  unfold apply_all. cbn [for_range].
  destruct (apply_kept set o HL Hseq) as (set1 & -> & Hc & Hq & Hs).
  cbn [mbind run_bind].
  destruct (IH set1) as (set' & Hrun & Hc' & Hq' & Hs').
  { unfold lawful. by rewrite Hc, Hq. }
  { done. }
  exists set'. split; [done|]. unfold SortedKept.kept. by rewrite Hc', Hq'.
Qed.

End facts.
End SortedInvariant.

Module FuncSortedInvariant.
Import sets2 FuncSetSpec FuncSortedTotal FuncSortedFuncs FuncSortedLaws FuncSortedOps ClearShift.
Import FuncSortedKept.
Section facts.
Context {E : Type}.
Variable zero : E.
Implicit Types s : funcSorted E.

Local Abbreviation kept := (FuncSortedKept.kept (E:=E)).

Lemma func_kept_filter s (P : E → Prop) `{∀ x, Decision (P x)} :
  lawful s → sorted_sequence s →
  kept s (MkFuncSorted (filter P (list_ s)) (cmp s) (eq s)).
Proof.
  intros HL Hseq. split; [done|]. split; [done|].
  by apply (sorted_seq_filter (cmp s) (eq s)).
Qed.

Lemma func_insertAll_kept s l :
  lawful s → sorted_sequence s →
  ∃ s', insertAll zero s l = Ok s' ∧ kept s s'.
Proof.
  intros HL Hseq.
  destruct (func_insertAll_spec zero s l HL Hseq) as (s' & -> & Hc & Hq & Hs & _).
  by eexists.
Qed.

Lemma func_removeAll_kept s l :
  lawful s → sorted_sequence s →
  ∃ s', removeAll zero s l = Ok s' ∧ kept s s'.
Proof.
  intros HL Hseq.
  destruct (func_removeAll_spec zero s l HL Hseq) as (s' & -> & Hc & Hq & Hs & _).
  by eexists.
Qed.

Lemma func_apply_kept s o :
  lawful s → sorted_sequence s →
  ∃ s', apply zero s o = Ok s' ∧ kept s s'.
Proof.
  intros HL Hseq. destruct o as [e|l|other|e|l|other|other|other|other|other|]; simpl.
  - destruct (func_insert_spec s e HL Hseq) as (s' & Hi & Hc & Hq & Hs & _).
    unfold Insert. rewrite Hi. by eexists.
  - by apply func_insertAll_kept.
  - unfold InsertSet, insertSet.
    destruct (kind other); try (by apply func_insertAll_kept). by eexists.
  - destruct (func_remove_spec zero s e HL Hseq) as (s' & Hr & Hc & Hq & Hs & _).
    unfold Remove. rewrite Hr. by eexists.
  - by apply func_removeAll_kept.
  - unfold RemoveSet, removeSet.
    destruct (kind other); try (by apply func_removeAll_kept).
    pose proof (clear_all zero (list_ s)) as Hcl.
    destruct (clear _ _ _) as [l'| |]; try done. cbn [mbind run_bind] in *.
    rewrite Hcl. cbn [mbind run_bind]. eexists. split; [done|].
    split; [done|]. split; [done|]. apply sorted_seq_nil.
  - eexists. split; [done|]. by apply func_kept_filter.
  - unfold union. destruct (kind other); by apply (func_insertAll_kept (clone s)).
  - eexists. split; [done|]. by apply func_kept_filter.
  - unfold symmetricDifference.
    destruct (func_missing_total s (view_Range other) []) as (r & ->).
    cbn [mbind run_bind].
    match goal with |- context [insertAll zero ?s0 r] =>
      destruct (func_insertAll_kept s0 r) as (s' & -> & Hk) end.
    + done.
    + by apply (sorted_seq_filter (cmp s) (eq s)).
    + by eexists.
  - by eexists.
Qed.

Lemma func_apply_all_kept ops s :
  lawful s → sorted_sequence s →
  ∃ s', apply_all zero s ops = Ok s' ∧ kept s s'.
Proof.
  revert s. induction ops as [|o ops IH]; intros s HL Hseq.
  { by eexists. }
  unfold apply_all. cbn [for_range].
  destruct (func_apply_kept s o HL Hseq) as (s1 & -> & Hc & Hq & Hs).
  cbn [mbind run_bind].
  destruct (IH s1) as (s' & Hrun & Hc' & Hq' & Hs').
  { unfold lawful. by rewrite Hc, Hq. }
  { done. }
  exists s'. split; [done|]. unfold FuncSortedKept.kept. by rewrite Hc', Hq'.
Qed.

End facts.
End FuncSortedInvariant.

(** Every public operation runs to completion, whatever the functions of
    the set are. *)
Module SortedSafe.
Import sets SortedTotal SortedFuncs SortedOps.
Section facts.
Context {E : Type}.
Variable zero : E.
Implicit Types set : sorted E.




End facts.
End SortedSafe.

Module FuncSortedSafe.
Import sets2 FuncSortedTotal FuncSortedFuncs FuncSortedOps.
Section facts.
Context {E : Type}.
Variable zero : E.
Implicit Types s : funcSorted E.



End facts.
End FuncSortedSafe.

Import Go slicesx GoFacts.
Import Spec Spec2 Spec3 Spec4 Spec5 Spec6.
Import SearchFacts OrderFacts LoopFacts ShiftFacts SeqSpec SeqFacts BatchFacts.

Import Natural.

Module NaturalMerge.
Import InsertFacts InsertIntoLoop.
Import NaturalMergeLoop.
Section facts.

Lemma merge_uniq_nil_r a : merge_uniq a [] = a.
Proof. by destruct a. Qed.

Lemma merge_uniq_nil_l b : merge_uniq [] b = b.
Proof. by destruct b. Qed.

Lemma merge_uniq_cons x a y b :
  merge_uniq (x :: a) (y :: b) =
  if bool_decide (x < y) then x :: merge_uniq a (y :: b)
  else if bool_decide (x > y) then y :: merge_uniq (x :: a) b
  else y :: merge_uniq a b.
Proof. done. Qed.

Lemma MergeSortedUniq_spec a b : MergeSortedUniq a b = Ok (merge_uniq a b).
Proof.
  unfold MergeSortedUniq. cbn zeta.
  match goal with |- context [while ?fu ?c ?bd ?s] =>
    destruct (while_inv (merge_uniq_inv a b)
                (λ '(_, ai, bi, _), Z.to_nat (len a - ai + (len b - bi)))
                fu c bd s)
      as ([[[a' ai] bi] inserts] & Hw & Hinv & Hc)
  end.
  - exists [], a, [], b, []. split_and!; try done.
  - unfold len. lia.
  - intros [[[a' ai] bi] inserts] (p & ra & q & rb & ins & Hs & Ha & Hb & Hok & Hm) Hc.
    injection Hs as -> -> -> ->.
    apply andb_true_iff in Hc as [Hai Hbi].
    apply bool_decide_eq_true in Hai, Hbi.
    destruct ra as [|av ra].
    { rewrite app_nil_r in Ha. subst p. lia. }
    destruct rb as [|bv rb].
    { rewrite app_nil_r in Hb. subst q. lia. }
    assert (index a (len p) = Ok av) as -> by (rewrite Ha; apply index_mid).
    assert (index b (len q) = Ok bv) as -> by (rewrite Hb; apply index_mid).
    cbn [mbind run_bind].
    rewrite merge_uniq_cons in Hm.
    pose proof (len_nonneg ra). pose proof (len_nonneg rb).
    case_bool_decide as Hlt; [|case_bool_decide as Hgt].
    + eexists. split; [done|]. split.
      * exists (p ++ [av]), ra, q, (bv :: rb), ins.
        rewrite len_snoc. split_and!; try done.
        -- by rewrite <-app_assoc.
        -- apply (positions_ok_weaken _ (len p)); [done | lia].
        -- rewrite weave_app by done. by rewrite <-app_assoc.
      * rewrite Ha, Hb, !len_app, !len_cons. lia.
    + eexists. split; [done|]. split.
      * exists p, (av :: ra), (q ++ [bv]), rb, (ins ++ [Insert (len p) bv]).
        rewrite len_snoc. split_and!; try done.
        -- by rewrite <-app_assoc.
        -- apply positions_ok_snoc. split; [done | lia].
        -- rewrite weave_snoc by (done || lia). by rewrite <-app_assoc.
      * rewrite Ha, Hb, !len_app, !len_cons. lia.
    + assert (av = bv) as -> by lia.
      assert (store a (len p) bv = Ok a) as ->
        by (rewrite Ha; apply store_mid).
      cbn [mbind run_bind].
      eexists. split; [done|]. split.
      * exists (p ++ [bv]), ra, (q ++ [bv]), rb, ins.
        rewrite !len_snoc. split_and!; try done.
        -- by rewrite <-app_assoc.
        -- by rewrite <-app_assoc.
        -- apply (positions_ok_weaken _ (len p)); [done | lia].
        -- rewrite weave_app by done. by rewrite <-app_assoc.
      * rewrite Ha, Hb, !len_app, !len_cons. lia.
  - unfold merge_uniq_state in *. rewrite Hw. cbn [mbind run_bind].
    destruct Hinv as (p & ra & q & rb & ins & Hs & Ha & Hb & Hok & Hm).
    injection Hs as -> -> -> ->.
    assert (slice b (len q) (len b) = Ok rb) as ->
      by (rewrite Hb; apply slice_suffix).
    cbn [mbind run_bind].
    rewrite insertInto_correct.
    2:{ apply (positions_ok_weaken _ (len p)); [done|].
        rewrite Ha, len_app. pose proof (len_nonneg ra). lia. }
    f_equal. rewrite Hm. rewrite Ha at 1. rewrite weave_app by done.
    rewrite <-app_assoc. f_equal.
    apply andb_false_iff in Hc as [Hc|Hc]; apply bool_decide_eq_false in Hc.
    + assert (ra = []) as ->.
      { rewrite Ha, len_app in Hc. destruct ra; [done|]. rewrite len_cons in Hc.
        pose proof (len_nonneg ra). lia. }
      by rewrite merge_uniq_nil_l.
    + assert (rb = []) as ->.
      { rewrite Hb, len_app in Hc. destruct rb; [done|]. rewrite len_cons in Hc.
        pose proof (len_nonneg rb). lia. }
      by rewrite merge_uniq_nil_r, app_nil_r.
Qed.

End facts.
End NaturalMerge.

Module NaturalDelete.
Import DeleteFacts DeleteFromLoop.
Import NaturalDeleteLoop.
Section facts.

Lemma diff_uniq_nil_r a : diff_uniq a [] = a.
Proof. by destruct a. Qed.

Lemma diff_uniq_cons x a y b :
  diff_uniq (x :: a) (y :: b) =
  if bool_decide (x < y) then x :: diff_uniq a (y :: b)
  else if bool_decide (x > y) then diff_uniq (x :: a) b
  else diff_uniq a b.
Proof. done. Qed.

Lemma DeleteSortedUniq_spec a b : DeleteSortedUniq a b = Ok (diff_uniq a b).
Proof.
  unfold DeleteSortedUniq. cbn zeta.
  match goal with |- context [while ?fu ?c ?bd ?s] =>
    destruct (while_inv (diff_uniq_inv a b)
                (λ '(ai, bi, _), Z.to_nat (len a - ai + (len b - bi)))
                fu c bd s)
      as ([[ai bi] deletes] & Hw & Hinv & Hc)
  end.
  - exists [], a, [], b, []. split_and!; try done.
  - unfold len. lia.
  - intros [[ai bi] deletes] (p & ra & q & rb & ds & Hs & Ha & Hb & Hok & Hm) Hc.
    injection Hs as -> -> ->.
    apply andb_true_iff in Hc as [Hai Hbi].
    apply bool_decide_eq_true in Hai, Hbi.
    destruct ra as [|av ra].
    { rewrite app_nil_r in Ha. subst p. lia. }
    destruct rb as [|bv rb].
    { rewrite app_nil_r in Hb. subst q. lia. }
    assert (index a (len p) = Ok av) as -> by (rewrite Ha; apply index_mid).
    assert (index b (len q) = Ok bv) as -> by (rewrite Hb; apply index_mid).
    cbn [mbind run_bind].
    rewrite diff_uniq_cons in Hm.
    pose proof (len_nonneg ra). pose proof (len_nonneg rb).
    case_bool_decide as Hlt; [|case_bool_decide as Hgt].
    + eexists. split; [done|]. split.
      * exists (p ++ [av]), ra, q, (bv :: rb), ds.
        rewrite len_snoc. split_and!; try done.
        -- by rewrite <-app_assoc.
        -- apply (deletes_ok_weaken _ (len p)); [done | lia].
        -- rewrite cut_app by done. by rewrite <-app_assoc.
      * rewrite Ha, Hb, !len_app, !len_cons. lia.
    + eexists. split; [done|]. split.
      * exists p, (av :: ra), (q ++ [bv]), rb, ds.
        rewrite len_snoc. split_and!; try done.
        by rewrite <-app_assoc.
      * rewrite Ha, Hb, !len_app, !len_cons. lia.
    + eexists. split; [done|]. split.
      * exists (p ++ [av]), ra, (q ++ [bv]), rb, (ds ++ [len p]).
        rewrite !len_snoc. split_and!; try done.
        -- by rewrite <-app_assoc.
        -- by rewrite <-app_assoc.
        -- apply deletes_ok_snoc. split; [done | lia].
        -- rewrite cut_snoc by (done || lia). done.
      * rewrite Ha, Hb, !len_app, !len_cons. lia.
  - rewrite Hw. cbn [mbind run_bind].
    destruct Hinv as (p & ra & q & rb & ds & Hs & Ha & Hb & Hok & Hm).
    injection Hs as -> -> ->.
    rewrite deleteFrom_correct.
    2:{ apply (deletes_ok_weaken _ (len p)); [done|].
        rewrite Ha, len_app. pose proof (len_nonneg ra). lia. }
    f_equal. rewrite Hm. rewrite Ha at 1. rewrite cut_app by done.
    f_equal.
    apply andb_false_iff in Hc as [Hc|Hc]; apply bool_decide_eq_false in Hc.
    + assert (ra = []) as ->.
      { rewrite Ha, len_app in Hc. destruct ra; [done|]. rewrite len_cons in Hc.
        pose proof (len_nonneg ra). lia. }
      by destruct rb.
    + assert (rb = []) as ->.
      { rewrite Hb, len_app in Hc. destruct rb; [done|]. rewrite len_cons in Hc.
        pose proof (len_nonneg rb). lia. }
      by rewrite diff_uniq_nil_r.
Qed.

End facts.
End NaturalDelete.

(** The merge and the difference of strictly ascending lists. *)
Module NaturalOrder.
Import NaturalMerge NaturalMergeLoop NaturalDelete NaturalDeleteLoop.
Section facts.
Implicit Types a b : list Z.

Lemma strictly_sorted_cons x l :
  strictly_sorted (x :: l) ↔ strictly_sorted l ∧ ∀ y, y ∈ l → x < y.
Proof.
  unfold strictly_sorted. rewrite StronglySorted_cons, Forall_forall. tauto.
Qed.

Lemma strictly_sorted_nil : strictly_sorted [].
Proof. constructor. Qed.

Lemma merge_uniq_elem a : ∀ b x, x ∈ merge_uniq a b ↔ x ∈ a ∨ x ∈ b.
Proof.
  induction a as [|u a IHa]; intros b x.
  { rewrite merge_uniq_nil_l. split; [by right|]. intros [H|H]; [by inversion H | done]. }
  induction b as [|v b IHb].
  { rewrite merge_uniq_nil_r. split; [by left|]. intros [H|H]; [done | by inversion H]. }
  rewrite merge_uniq_cons.
  case_bool_decide as Hlt; [|case_bool_decide as Hgt].
  - rewrite !elem_of_cons, IHa, !elem_of_cons. tauto.
  - rewrite !elem_of_cons, IHb, !elem_of_cons. tauto.
  - assert (u = v) as -> by lia. rewrite !elem_of_cons, IHa. tauto.
Qed.

Lemma merge_uniq_sorted a : ∀ b,
  strictly_sorted a → strictly_sorted b → strictly_sorted (merge_uniq a b).
Proof.
  induction a as [|u a IHa]; intros b Ha Hb.
  { by rewrite merge_uniq_nil_l. }
  induction b as [|v b IHb].
  { by rewrite merge_uniq_nil_r. }
  rewrite merge_uniq_cons.
  apply strictly_sorted_cons in Ha as Ha'. destruct Ha' as [Ha1 Ha2].
  apply strictly_sorted_cons in Hb as Hb'. destruct Hb' as [Hb1 Hb2].
  case_bool_decide as Hlt; [|case_bool_decide as Hgt].
  - apply strictly_sorted_cons. split; [by apply IHa|].
    intros y Hy. apply merge_uniq_elem in Hy as [Hy|Hy]; [by apply Ha2|].
    apply elem_of_cons in Hy as [->|Hy]; [done|]. specialize (Hb2 y Hy). lia.
  - apply strictly_sorted_cons. split; [by apply IHb|].
    intros y Hy. apply merge_uniq_elem in Hy as [Hy|Hy]; [|by apply Hb2].
    apply elem_of_cons in Hy as [->|Hy]; [lia|]. specialize (Ha2 y Hy). lia.
  - assert (u = v) as -> by lia.
    apply strictly_sorted_cons. split; [by apply IHa|].
    intros y Hy. apply merge_uniq_elem in Hy as [Hy|Hy]; [by apply Ha2 | by apply Hb2].
Qed.

Lemma diff_uniq_elem a : ∀ b x,
  strictly_sorted a → strictly_sorted b →
  (x ∈ diff_uniq a b ↔ x ∈ a ∧ x ∉ b).
Proof.
  induction a as [|u a IHa]; intros b x Ha Hb.
  { destruct b; simpl; split; try (by intros H; inversion H);
      intros [H _]; inversion H. }
  induction b as [|v b IHb].
  { rewrite diff_uniq_nil_r. split; [|by intros [H _]].
    intros H. split; [done|]. intros H'. inversion H'. }
  rewrite diff_uniq_cons.
  apply strictly_sorted_cons in Ha as Ha'. destruct Ha' as [Ha1 Ha2].
  apply strictly_sorted_cons in Hb as Hb'. destruct Hb' as [Hb1 Hb2].
  case_bool_decide as Hlt; [|case_bool_decide as Hgt].
  - rewrite !elem_of_cons, (IHa (v :: b) x Ha1 Hb). unfold not.
    rewrite !elem_of_cons.
    assert (x = u → x = v → False) by lia.
    assert (x = u → x ∈ b → False) by (intros -> Hin; specialize (Hb2 _ Hin); lia).
    tauto.
  - rewrite (IHb Hb1). unfold not. rewrite !elem_of_cons.
    assert (x = u → x = v → False) by lia.
    assert (x ∈ a → x = v → False) by (intros Hin ->; specialize (Ha2 _ Hin); lia).
    tauto.
  - assert (u = v) as -> by lia.
    rewrite (IHa b x Ha1 Hb1). unfold not. rewrite !elem_of_cons.
    assert (x ∈ a → x = v → False) by (intros Hin ->; specialize (Ha2 _ Hin); lia).
    tauto.
Qed.

Lemma diff_uniq_sorted a : ∀ b, strictly_sorted a → strictly_sorted (diff_uniq a b).
Proof.
  induction a as [|u a IHa]; intros b Ha.
  { destruct b; constructor. }
  induction b as [|v b IHb].
  { by rewrite diff_uniq_nil_r. }
  rewrite diff_uniq_cons.
  apply strictly_sorted_cons in Ha as Ha'. destruct Ha' as [Ha1 Ha2].
  assert (∀ b' y, y ∈ diff_uniq a b' → y ∈ a) as Hsub.
  { clear -a. induction a as [|w a IH]; intros b' y.
    - destruct b'; simpl; intros H; inversion H.
    - induction b' as [|z b' IHb'].
      + by rewrite diff_uniq_nil_r.
      + rewrite diff_uniq_cons.
        case_bool_decide; [|case_bool_decide].
        * rewrite !elem_of_cons. intros [->|Hin]; [by left|]. right. by eapply IH.
        * done.
        * intros Hin. right. by eapply IH. }
  case_bool_decide as Hlt; [|case_bool_decide as Hgt].
  - apply strictly_sorted_cons. split; [by apply IHa|].
    intros y Hy. apply Ha2. by eapply Hsub.
  - done.
  - by apply IHa.
Qed.

End facts.
End NaturalOrder.

Import Go slicesx GoFacts.
Import Spec Spec2 Spec3 Spec4 Spec5 Spec6.
Import SearchFacts OrderFacts LoopFacts ShiftFacts SeqSpec SeqFacts BatchFacts.
Import Natural NaturalOrder.

Import NaturalSpec.

(** The natural order as an instance of the caller's contract. *)
Module NaturalLaws.
Import NaturalSorted.
Section facts.

Lemma Compare_lt a b : Compare a b < 0 ↔ a < b.
Proof. unfold Compare. repeat case_bool_decide; lia. Qed.

Lemma Compare_le a b : Compare a b ≤ 0 ↔ a ≤ b.
Proof. unfold Compare. repeat case_bool_decide; lia. Qed.

Lemma Compare_zero a b : Compare a b = 0 ↔ a = b.
Proof. unfold Compare. repeat case_bool_decide; lia. Qed.

Lemma Compare_gt a b : Compare a b > 0 ↔ a > b.
Proof. unfold Compare. repeat case_bool_decide; lia. Qed.

Lemma Comparator_Compare : Comparator Compare.
Proof.
  split.
  - intros a b. rewrite Compare_lt, Compare_gt. lia.
  - intros a b c. rewrite !Compare_le. lia.
Qed.

Lemma Identity_same : Identity Compare same.
Proof.
  unfold same. split.
  - intros a. by apply bool_decide_eq_true.
  - intros a b. apply bool_decide_ext. split; congruence.
  - intros a b c H1 H2. apply bool_decide_eq_true in H1, H2.
    apply bool_decide_eq_true. congruence.
  - intros a b H. apply bool_decide_eq_true in H. by apply Compare_zero.
Qed.

Lemma natural_laws : Laws Compare same.
Proof. split; [apply Comparator_Compare | apply Identity_same]. Qed.

Lemma same_true a b : same a b = true ↔ a = b.
Proof. unfold same. apply bool_decide_eq_true. Qed.

Lemma same_false a b : same a b = false ↔ a ≠ b.
Proof. unfold same. apply bool_decide_eq_false. Qed.

Lemma ascending_Compare l : ascending Compare l ↔ non_decreasing l.
Proof.
  unfold ascending, non_decreasing. induction l as [|x l IH].
  - split; constructor.
  - rewrite !StronglySorted_cons, IH, !Forall_forall.
    split; intros [H1 H2]; (split; [|done]); intros y Hy;
      apply Compare_le; by apply H1.
Qed.

Lemma strictly_sorted_seq l : strictly_sorted l ↔ sorted_seq Compare same l.
Proof.
  unfold sorted_seq, strictly_sorted, ascending, distinct.
  induction l as [|x l IH].
  - split; [split; constructor | constructor].
  - rewrite !StronglySorted_cons, IH, !Forall_forall. split.
    + intros [H1 [H2 H3]]. split; (split; [|done]); intros y Hy.
      * apply Compare_le. specialize (H1 y Hy). lia.
      * apply same_false. specialize (H1 y Hy). lia.
    + intros [[H1 H2] [H3 H4]]. split; [|done]. intros y Hy.
      specialize (H1 y Hy). apply (proj1 (Compare_le x y)) in H1.
      specialize (H3 y Hy). apply same_false in H3. lia.
Qed.

Lemma has_same l e : has same l e ↔ e ∈ l.
Proof.
  split.
  - intros (x & Hx & Hxe). apply same_true in Hxe. by subst.
  - intros He. exists e. split; [done|]. by apply same_true.
Qed.

Lemma Compact_cons (x y : Z) (l : list Z) :
  Compact (x :: y :: l) = if decide (y = x) then Compact (y :: l)
                          else x :: Compact (y :: l).
Proof. done. Qed.

Lemma Compact_elem (l : list Z) x : x ∈ Compact l ↔ x ∈ l.
Proof.
  induction l as [|u l IH]; [done|].
  destruct l as [|v l]; [done|].
  rewrite Compact_cons. destruct (decide (v = u)) as [->|Hne].
  - rewrite IH, !elem_of_cons. tauto.
  - rewrite elem_of_cons, IH, !elem_of_cons. tauto.
Qed.

Lemma Compact_sorted (l : list Z) : non_decreasing l → strictly_sorted (Compact l).
Proof.
  unfold non_decreasing. induction l as [|u l IH]; intros Hl; [constructor|].
  destruct l as [|v l]; [repeat constructor|].
  apply StronglySorted_cons in Hl as [Hu Hl]. rewrite Forall_forall in Hu.
  rewrite Compact_cons. destruct (decide (v = u)) as [->|Hne]; [by apply IH|].
  apply strictly_sorted_cons. split; [by apply IH|].
  intros y Hy. apply (proj1 (Compact_elem _ _)) in Hy.
  assert (u ≤ v) by (apply Hu; by left).
  apply elem_of_cons in Hy as [->|Hy]; [lia|].
  apply StronglySorted_cons in Hl as [Hv _]. rewrite Forall_forall in Hv.
  specialize (Hv y Hy). lia.
Qed.

Lemma Compact_strictly_sorted (l : list Z) : strictly_sorted l → Compact l = l.
Proof.
  induction l as [|u l IH]; intros Hl; [done|].
  destruct l as [|v l]; [done|].
  apply strictly_sorted_cons in Hl as [Hl Hu].
  rewrite Compact_cons. rewrite decide_False.
  - by rewrite IH.
  - assert (u < v) by (apply Hu; by left). lia.
Qed.

Lemma stableSort_sorted l : non_decreasing (SortStableFunc Compare l).
Proof.
  apply ascending_Compare. apply SortFacts.SortStableFunc_ascending.
  apply Comparator_Compare.
Qed.

(** Sorting and compacting any list gives a strictly ascending list of
    the same elements. *)
Lemma sort_compact l :
  strictly_sorted (Compact (SortStableFunc Compare l))
  ∧ ∀ x, x ∈ Compact (SortStableFunc Compare l) ↔ x ∈ l.
Proof.
  split; [apply Compact_sorted, stableSort_sorted|].
  intros x. rewrite Compact_elem.
  by rewrite (SortFacts.SortStableFunc_perm Compare l).
Qed.

End facts.
End NaturalLaws.

Import Go slicesx GoFacts.
Import Spec Spec2 Spec3 Spec4 Spec5 Spec6.
Import SearchFacts OrderFacts LoopFacts ShiftFacts SeqSpec SeqFacts BatchFacts.
Import Natural NaturalOrder NaturalSpec NaturalLaws NaturalSorted.

(** What a located identity says about the sequence around it. *)
Module LocatedFacts.
Section facts.
Context {E : Type}.
Variable cmp : E → E → Z.
Variable eq : E → E → bool.
Hypothesis HL : Laws cmp eq.

Lemma located_split (l : list E) e idx found :
  sorted_seq cmp eq l → located cmp eq l e idx found →
  ∃ p old r,
    l = p ++ old ++ r ∧ len p = idx
    ∧ (if found then ∃ x, old = [x] ∧ eq x e = true
       else old = [] ∧ ¬ has eq l e)
    ∧ sorted_seq cmp eq (p ++ e :: r)
    ∧ sorted_seq cmp eq (p ++ r).
Proof.
  intros Hseq Hloc. pose proof (located_has _ _ _ _ _ _ Hloc) as Hhas.
  unfold located in Hloc. destruct found.
  - destruct Hloc as (p & x & r & -> & <- & Hxe).
    exists p, [x], r. split; [done|]. split; [done|].
    split; [by exists x|]. split.
    + by apply (sorted_seq_replace _ _ HL p x r e Hxe).
    + by apply (sorted_seq_close _ _ p x r).
  - destruct Hloc as (p & r & -> & <- & Hp & Hr & Hne).
    exists p, [], r. split; [done|]. split; [done|]. split.
    { split; [done|]. intros Hm. apply Hhas in Hm. done. }
    split; [|done].
    apply (sorted_seq_open _ _ HL); try done.
    intros x Hx. specialize (Hr x Hx). lia.
Qed.

End facts.
End LocatedFacts.

(** The searches of the natural-order sets. *)
Module NaturalSearch.
Import LookupOrder FuncSearchSpec.
Import NaturalBound.
Section facts.

(** [slices.BinarySearch], with the invariant of the caller's choice. *)
Lemma BinarySearch_inv (I : Z → Z → Prop) (x : list Z) (target : Z) :
  I 0 (len x) →
  (∀ i j h xh, I i j → 0 ≤ i → i ≤ h → h < j → j ≤ len x →
      x !! Z.to_nat h = Some xh →
      (xh < target → I (h + 1) j) ∧ (¬ xh < target → I i h)) →
  ∃ i ok, BinarySearch x target = Ok (i, ok)
    ∧ 0 ≤ i ≤ len x ∧ I i i
    ∧ (if ok then x !! Z.to_nat i = Some target
       else i = len x ∨ ∃ xi, x !! Z.to_nat i = Some xi ∧ xi ≠ target).
Proof.
  intros H0 Hstep. unfold BinarySearch. cbn zeta.
  pose proof (len_nonneg x) as Hn.
  match goal with |- context [while ?fu ?c ?b ?s] =>
    destruct (while_inv (λ '(i, j), 0 ≤ i ∧ i ≤ j ∧ j ≤ len x ∧ I i j)
                (λ '(i, j), Z.to_nat (j - i)) fu c b s)
      as ([i j] & Hw & (Hi & Hij & Hj & HI) & Hc)
  end.
  - split_and!; try done; lia.
  - lia.
  - intros [i j] (Hi & Hij & Hj & HI) Hc. apply bool_decide_eq_true in Hc.
    assert (i ≤ (i + j) / 2 < j) as Hh.
    { split; [apply Z.div_le_lower_bound | apply Z.div_lt_upper_bound]; lia. }
    destruct (index_in_range x ((i + j) / 2)) as (xh & Hx & Hlook); [lia|].
    destruct (Hstep i j ((i + j) / 2) xh HI) as [Hlt Hge]; try lia; [done|].
    simpl. rewrite Hx. simpl. case_bool_decide as Hb.
    + eexists. split; [done|]. split; [|lia]. split_and!; try lia. by apply Hlt.
    + eexists. split; [done|]. split; [|lia]. split_and!; try lia. by apply Hge.
  - rewrite Hw. cbn [mbind run_bind]. apply bool_decide_eq_false in Hc.
    assert (i = j) as -> by lia.
    case_bool_decide as Hlt.
    + destruct (index_in_range x j) as (xi & Hx & Hlook); [lia|].
      rewrite Hx. cbn [mbind run_bind]. eexists _, _. split; [done|].
      split; [lia|]. split; [done|].
      case_bool_decide as Hz; [by subst | right; by exists xi].
    + eexists _, _. split; [done|]. split; [lia|]. split; [done|]. left. lia.
Qed.

Lemma BinarySearch_total (x : list Z) target :
  ∃ i ok, BinarySearch x target = Ok (i, ok)
    ∧ 0 ≤ i ≤ len x
    ∧ (ok = true → x !! Z.to_nat i = Some target).
Proof.
  destruct (BinarySearch_inv (λ _ _, True) x target) as (i & ok & H & Hi & _ & Hok);
    [done | done |].
  exists i, ok. split; [done|]. split; [done|]. by intros ->.
Qed.

Lemma lower_bound_init l e : lower_bound l e 0 (len l).
Proof.
  split.
  - intros h x Hh. lia.
  - intros h x Hh Hx. apply lookup_lt_Some in Hx. unfold len in Hh. lia.
Qed.

Lemma lower_bound_step l e i j h x :
  non_decreasing l → lower_bound l e i j →
  0 ≤ i → i ≤ h → h < j → l !! Z.to_nat h = Some x →
  (x < e → lower_bound l e (h + 1) j) ∧ (¬ x < e → lower_bound l e i h).
Proof.
  intros Hl [Hlo Hhi] Hi Hih Hhj Hx.
  apply ascending_Compare in Hl.
  split.
  - intros Hlt. split; [|done]. intros h' y Hh' Hy.
    assert (Compare y x ≤ 0) as Hyx.
    { eapply (ascending_lookup Compare Comparator_Compare); [done| |done..]. lia. }
    apply (proj1 (Compare_le _ _)) in Hyx. lia.
  - intros Hge. split; [done|]. intros h' y Hh' Hy.
    assert (Compare x y ≤ 0) as Hxy.
    { eapply (ascending_lookup Compare Comparator_Compare); [done| |done..]. lia. }
    apply (proj1 (Compare_le _ _)) in Hxy. lia.
Qed.

(** A lower bound locates [e] in a non-decreasing list. *)
Lemma lower_bound_located l e idx found :
  non_decreasing l → lower_bound l e idx idx → 0 ≤ idx ≤ len l →
  (if found : bool then l !! Z.to_nat idx = Some e
   else idx = len l ∨ ∃ x, l !! Z.to_nat idx = Some x ∧ x ≠ e) →
  located Compare same l e idx found.
Proof.
  intros Hl [Hlo Hhi] Hidx Hend.
  apply (located_of_scan Compare same natural_laws l e idx idx found); try lia.
  - by apply ascending_Compare.
  - intros h x Hh Hx. apply Compare_lt. by apply (Hlo h x).
  - intros h x Hh Hx. specialize (Hhi h x Hh Hx).
    assert (¬ Compare x e < 0); [|lia]. rewrite Compare_lt. lia.
  - destruct found.
    + exists e. split; [done|]. by apply same_true.
    + destruct Hend as [->|(x & Hx & Hne)]; [by left|]. right.
      exists x. split; [done|]. by rewrite Compare_zero.
Qed.

Lemma BinarySearch_spec l e :
  non_decreasing l →
  ∃ idx found, BinarySearch l e = Ok (idx, found)
    ∧ located Compare same l e idx found.
Proof.
  intros Hl.
  destruct (BinarySearch_inv (lower_bound l e) l e)
    as (idx & found & Hs & Hidx & HI & Hend).
  - apply lower_bound_init.
  - intros i j h x HI Hi Hih Hhj Hj Hx. by apply lower_bound_step.
  - exists idx, found. split; [done|]. by apply lower_bound_located.
Qed.

(** The search of the first package's natural-order set. *)
Lemma ordered_search_inv (I : Z → Z → Prop) (set : ordered.ordered) (e : Z) :
  let l := ordered.elems set in
  I 0 (len l) →
  (∀ i j h x, I i j → 0 ≤ i → i ≤ h → h < j → j ≤ len l →
      l !! Z.to_nat h = Some x →
      (x < e → I (h + 1) j) ∧ (¬ x < e → I i h)) →
  ∃ idx found, ordered.search set e = Ok (idx, found)
    ∧ 0 ≤ idx ≤ len l ∧ I idx idx
    ∧ (if found then l !! Z.to_nat idx = Some e
       else idx = len l ∨ ∃ x, l !! Z.to_nat idx = Some x ∧ x ≠ e).
Proof.
  intros l H0 Hstep. unfold ordered.search. fold l. cbn zeta.
  pose proof (len_nonneg l) as Hn.
  destruct (Search_inv I (len l)
              (λ i, x ← index l i; Ok (bool_decide (e ≤ x))))
    as (idx & -> & Hidx & HI); [done | done | |].
  { intros i j h HIij Hi Hih Hhj Hj.
    destruct (index_in_range l h) as (x & Hx & Hlook); [lia|].
    rewrite Hx. simpl. eexists. split; [done|].
    destruct (Hstep i j h x HIij Hi Hih Hhj Hj Hlook) as [Hf Ht].
    split; intros Hb.
    - apply bool_decide_eq_false in Hb. apply Hf. lia.
    - apply bool_decide_eq_true in Hb. apply Ht. lia. }
  cbn [mbind run_bind]. case_bool_decide as Hlt.
  - destruct (index_in_range l idx) as (x & Hx & Hlook); [lia|].
    rewrite Hx. cbn [mbind run_bind]. eexists _, _. split; [done|].
    split; [lia|]. split; [done|].
    case_bool_decide as Hz; [by subst | right; exists x; split; [done | congruence]].
  - eexists _, _. split; [done|]. split; [lia|]. split; [done|]. left. lia.
Qed.

Lemma ordered_search_total set e :
  ∃ idx found, ordered.search set e = Ok (idx, found)
    ∧ 0 ≤ idx ≤ len (ordered.elems set)
    ∧ (found = true → ordered.elems set !! Z.to_nat idx = Some e).
Proof.
  destruct (ordered_search_inv (λ _ _, True) set e) as (i & ok & H & Hi & _ & Hok);
    [done | done |].
  exists i, ok. split; [done|]. split; [done|]. by intros ->.
Qed.

Lemma ordered_search_spec set e :
  non_decreasing (ordered.elems set) →
  ∃ idx found, ordered.search set e = Ok (idx, found)
    ∧ located Compare same (ordered.elems set) e idx found.
Proof.
  intros Hl.
  destruct (ordered_search_inv (lower_bound (ordered.elems set) e) set e)
    as (idx & found & Hs & Hidx & HI & Hend).
  - apply lower_bound_init.
  - intros i j h x HI Hi Hih Hhj Hj Hx. by apply lower_bound_step.
  - exists idx, found. split; [done|]. by apply lower_bound_located.
Qed.

End facts.
End NaturalSearch.

Import Go slicesx GoFacts.
Import Spec Spec2 Spec3 Spec4 Spec5 Spec6.
Import SearchFacts OrderFacts LoopFacts ShiftFacts SeqSpec SeqFacts BatchFacts.
Import Natural NaturalOrder NaturalSpec NaturalLaws NaturalSorted NaturalSearch NaturalBound LocatedFacts.

(** The walk of two lists in step that the operations of set algebra of
    the natural-order sets share. *)
Module WalkFacts.
Import ordered.

Ltac elem_of_solver :=
  repeat match goal with
         | H : context [_ ∈ _ ++ _] |- _ => rewrite elem_of_app in H
         | H : context [_ ∈ _ :: _] |- _ => rewrite elem_of_cons in H
         end;
  repeat (rewrite elem_of_app || rewrite elem_of_cons); tauto.
Import WalkLoop.
Section facts.
Variables a b : list Z.
Variables keep_lt keep_gt keep_eq : bool.

Local Abbreviation walk_at := (WalkLoop.walk_at a b).

Lemma walk_inv (Inv : walk_state → Prop) :
  Inv (0, 0, []) →
  (∀ ai bi out p av ra q bv rb,
      walk_at (ai, bi, out) p (av :: ra) q (bv :: rb) → Inv (ai, bi, out) →
      (av < bv → Inv (ai + 1, bi, if keep_lt then out ++ [av] else out))
      ∧ (av > bv → Inv (ai, bi + 1, if keep_gt then out ++ [bv] else out))
      ∧ (av = bv → Inv (ai + 1, bi + 1, if keep_eq then out ++ [av] else out))) →
  ∃ ai bi out p ra q rb,
    walk a b keep_lt keep_gt keep_eq = Ok (ai, bi, out)
    ∧ walk_at (ai, bi, out) p ra q rb ∧ (ra = [] ∨ rb = [])
    ∧ Inv (ai, bi, out).
Proof.
  intros H0 Hstep. unfold walk. cbn zeta.
  match goal with |- context [while ?fu ?c ?bd ?st] =>
    destruct (while_inv (S:=Z * Z * list Z)
                (λ s, Inv s ∧ ∃ p ra q rb, walk_at s p ra q rb)
                (λ '(ai, bi, _), Z.to_nat (len a - ai + (len b - bi)))
                fu c bd st)
      as ([[ai bi] out] & Hw & [HI (p & ra & q & rb & Hat)] & Hc)
  end.
  - split; [done|]. by exists [], a, [], b.
  - unfold len. lia.
  - intros [[ai bi] out] [HI (p & ra & q & rb & Hat)] Hc.
    pose proof Hat as (Hai & Hbi & Ha & Hb). simpl in Hai, Hbi.
    apply andb_true_iff in Hc as [Hlta Hltb].
    apply bool_decide_eq_true in Hlta, Hltb.
    destruct ra as [|av ra].
    { rewrite app_nil_r in Ha. subst. lia. }
    destruct rb as [|bv rb].
    { rewrite app_nil_r in Hb. subst. lia. }
    destruct (Hstep ai bi out p av ra q bv rb Hat HI) as (Hlt & Hgt & Heq).
    assert (index a ai = Ok av) as -> by (rewrite Ha, Hai; apply index_mid).
    assert (index b bi = Ok bv) as -> by (rewrite Hb, Hbi; apply index_mid).
    cbn [mbind run_bind].
    pose proof (len_nonneg ra). pose proof (len_nonneg rb).
    assert (len a = ai + 1 + len ra) as Hla by (rewrite Ha, len_app, len_cons; lia).
    assert (len b = bi + 1 + len rb) as Hlb by (rewrite Hb, len_app, len_cons; lia).
    case_bool_decide as Hc1; [|case_bool_decide as Hc2].
    + eexists. split; [done|]. split; [|lia]. split; [by apply Hlt|].
      exists (p ++ [av]), ra, q, (bv :: rb). unfold WalkLoop.walk_at. simpl.
      rewrite len_snoc, <-app_assoc. split_and!; try done; lia.
    + eexists. split; [done|]. split; [|lia]. split; [by apply Hgt|].
      exists p, (av :: ra), (q ++ [bv]), rb. unfold WalkLoop.walk_at. simpl.
      rewrite len_snoc, <-app_assoc. split_and!; try done; lia.
    + eexists. split; [done|]. split; [|lia]. split; [apply Heq; lia|].
      exists (p ++ [av]), ra, (q ++ [bv]), rb. unfold WalkLoop.walk_at. simpl.
      rewrite !len_snoc, <-!app_assoc. split_and!; try done; lia.
  - exists ai, bi, out, p, ra, q, rb. split; [done|]. split; [done|].
    split; [|done].
    destruct Hat as (Hai & Hbi & Ha & Hb). simpl in Hai, Hbi.
    apply andb_false_iff in Hc as [Hc|Hc]; apply bool_decide_eq_false in Hc.
    + left. rewrite Ha, len_app in Hc. destruct ra; [done|].
      rewrite len_cons in Hc. pose proof (len_nonneg ra). lia.
    + right. rewrite Hb, len_app in Hc. destruct rb; [done|].
      rewrite len_cons in Hc. pose proof (len_nonneg rb). lia.
Qed.


Local Abbreviation walk_below := (WalkLoop.walk_below a b).

Lemma strictly_sorted_snoc l x :
  strictly_sorted l → (∀ y, y ∈ l → y < x) → strictly_sorted (l ++ [x]).
Proof.
  intros Hl Hx. unfold strictly_sorted. apply StronglySorted_app.
  split_and!; [|done | repeat constructor].
  intros y z Hy Hz. apply list_elem_of_singleton in Hz as ->. by apply Hx.
Qed.

Lemma strictly_sorted_app l1 l2 :
  strictly_sorted (l1 ++ l2) ↔
  strictly_sorted l1 ∧ strictly_sorted l2 ∧ ∀ x y, x ∈ l1 → y ∈ l2 → x < y.
Proof. unfold strictly_sorted. rewrite StronglySorted_app. tauto. Qed.

Lemma walk_at_unique s p ra q rb p' ra' q' rb' :
  walk_at s p ra q rb → walk_at s p' ra' q' rb' →
  ra' = ra ∧ rb' = rb.
Proof.
  intros (H1 & H2 & H3 & H4) (H1' & H2' & H3' & H4').
  assert (length p = length p') by (unfold len in *; lia).
  assert (length q = length q') by (unfold len in *; lia).
  rewrite H3 in H3'. rewrite H4 in H4'.
  apply app_inj_1 in H3' as [_ ->]; [|done].
  apply app_inj_1 in H4' as [_ ->]; [|done]. done.
Qed.

Lemma walk_sorted :
  strictly_sorted a → strictly_sorted b →
  ∃ ai bi out ra rb,
    walk a b keep_lt keep_gt keep_eq = Ok (ai, bi, out)
    ∧ slice a ai (len a) = Ok ra ∧ slice b bi (len b) = Ok rb
    ∧ (ra = [] ∨ rb = [])
    ∧ strictly_sorted out ∧ strictly_sorted ra ∧ strictly_sorted rb
    ∧ (∀ x y, x ∈ out → y ∈ ra ++ rb → x < y).
Proof.
  intros Ha Hb.
  destruct (walk_inv walk_below) as (ai & bi & out & p & ra & q & rb & Hw & Hat & Hend & Hs & Hbelow).
  - split; [constructor|]. intros p ra q rb _ x y Hx. inversion Hx.
  - intros ai bi out p av ra q bv rb Hat [Hs Hbelow].
    specialize (Hbelow _ _ _ _ Hat). simpl in Hbelow.
    pose proof Hat as (Hai & Hbi & Hea & Heb). simpl in Hai, Hbi.
    assert (∀ y, y ∈ ra → av < y) as Hav.
    { rewrite Hea in Ha. apply strictly_sorted_app in Ha as (_ & Ha & _).
      by apply strictly_sorted_cons in Ha as [_ Ha]. }
    assert (∀ y, y ∈ rb → bv < y) as Hbv.
    { rewrite Heb in Hb. apply strictly_sorted_app in Hb as (_ & Hb & _).
      by apply strictly_sorted_cons in Hb as [_ Hb]. }
    split_and!.
    + intros Hlt. split.
      * simpl. destruct keep_lt; [|done].
        apply strictly_sorted_snoc; [done|]. intros y Hy.
        apply Hbelow; [done|]. elem_of_solver.
      * intros p' ra' q' rb' Hat'. simpl.
        assert (walk_at (ai + 1, bi, if keep_lt then out ++ [av] else out)
                  (p ++ [av]) ra q (bv :: rb)) as Hat2.
        { unfold WalkLoop.walk_at. simpl. rewrite len_snoc, <-app_assoc.
          split_and!; try done; lia. }
        destruct (walk_at_unique _ _ _ _ _ _ _ _ _ Hat2 Hat') as [-> ->].
        intros x y Hx Hy. destruct keep_lt.
        -- apply elem_of_app in Hx as [Hx|Hx]; [apply Hbelow; [done|]; elem_of_solver|].
           apply list_elem_of_singleton in Hx as ->.
           apply elem_of_app in Hy as [Hy|Hy]; [by apply Hav|].
           apply elem_of_cons in Hy as [->|Hy]; [done|].
           specialize (Hbv y Hy). lia.
        -- apply Hbelow; [done|]. elem_of_solver.
    + intros Hgt. split.
      * simpl. destruct keep_gt; [|done].
        apply strictly_sorted_snoc; [done|]. intros y Hy.
        apply Hbelow; [done|]. elem_of_solver.
      * intros p' ra' q' rb' Hat'. simpl.
        assert (walk_at (ai, bi + 1, if keep_gt then out ++ [bv] else out)
                  p (av :: ra) (q ++ [bv]) rb) as Hat2.
        { unfold WalkLoop.walk_at. simpl. rewrite len_snoc, <-app_assoc.
          split_and!; try done; lia. }
        destruct (walk_at_unique _ _ _ _ _ _ _ _ _ Hat2 Hat') as [-> ->].
        intros x y Hx Hy. destruct keep_gt.
        -- apply elem_of_app in Hx as [Hx|Hx]; [apply Hbelow; [done|]; elem_of_solver|].
           apply list_elem_of_singleton in Hx as ->.
           apply elem_of_app in Hy as [Hy|Hy]; [|by apply Hbv].
           apply elem_of_cons in Hy as [->|Hy]; [lia|].
           specialize (Hav y Hy). lia.
        -- apply Hbelow; [done|]. elem_of_solver.
    + intros Heq. subst bv. split.
      * simpl. destruct keep_eq; [|done].
        apply strictly_sorted_snoc; [done|]. intros y Hy.
        apply Hbelow; [done|]. elem_of_solver.
      * intros p' ra' q' rb' Hat'. simpl.
        assert (walk_at (ai + 1, bi + 1, if keep_eq then out ++ [av] else out)
                  (p ++ [av]) ra (q ++ [av]) rb) as Hat2.
        { unfold WalkLoop.walk_at. simpl. rewrite !len_snoc, <-!app_assoc.
          split_and!; try done; lia. }
        destruct (walk_at_unique _ _ _ _ _ _ _ _ _ Hat2 Hat') as [-> ->].
        intros x y Hx Hy. destruct keep_eq.
        -- apply elem_of_app in Hx as [Hx|Hx]; [apply Hbelow; [done|]; elem_of_solver|].
           apply list_elem_of_singleton in Hx as ->.
           apply elem_of_app in Hy as [Hy|Hy]; [by apply Hav | by apply Hbv].
        -- apply Hbelow; [done|]. elem_of_solver.
  - pose proof Hat as (Hai & Hbi & Hea & Heb). simpl in Hai, Hbi, Hs.
    exists ai, bi, out, ra, rb. split; [done|].
    split. { rewrite Hea, Hai. apply slice_suffix. }
    split. { rewrite Heb, Hbi. apply slice_suffix. }
    split; [done|]. split; [done|].
    split. { rewrite Hea in Ha. by apply strictly_sorted_app in Ha as (_ & Ha & _). }
    split. { rewrite Heb in Hb. by apply strictly_sorted_app in Hb as (_ & Hb & _). }
    by apply (Hbelow p ra q rb).
Qed.

End facts.
End WalkFacts.

Import Go slicesx GoFacts.
Import Spec Spec2 Spec3 Spec4 Spec5 Spec6.
Import SearchFacts OrderFacts LoopFacts ShiftFacts SeqSpec SeqFacts BatchFacts.
Import Natural NaturalOrder NaturalSpec NaturalLaws NaturalSorted NaturalSearch NaturalBound LocatedFacts.
Import NaturalMerge NaturalMergeLoop NaturalDelete NaturalDeleteLoop WalkFacts WalkLoop.

(** The natural-order set of [sorted.go]. *)
Module OrderedFacts.
Import ordered.
Section facts.
Implicit Types set : ordered.

Lemma ordered_Contains_total set e : ∃ b, Contains set e = Ok b.
Proof.
  unfold Contains. destruct (ordered_search_total set e) as (idx & found & -> & _).
  by eexists.
Qed.





Lemma ordered_insertAll_eq set l :
  insertAll set l
  = Ok (MkOrdered (merge_uniq (elems set) (Compact (SortStableFunc Compare l)))).
Proof.
  unfold insertAll, mergeUniqSortedLists, uniq, stableSort.
  by rewrite MergeSortedUniq_spec.
Qed.

Lemma ordered_removeAll_eq set l :
  removeAll set l
  = Ok (MkOrdered (diff_uniq (elems set) (SortStableFunc Compare l))).
Proof.
  unfold removeAll, diffUniqSortedLists, stableSort.
  by rewrite DeleteSortedUniq_spec.
Qed.

(** [Insert] on a strictly ascending list. *)
Lemma ordered_Insert_outcome set e :
  strictly_sorted (elems set) →
  ∃ p old r,
    elems set = p ++ old ++ r
    ∧ Insert set e = Ok (MkOrdered (p ++ e :: r))
    ∧ (old = [] ∧ e ∉ elems set ∨ old = [e])
    ∧ strictly_sorted (p ++ e :: r).
Proof.
  intros Hs. apply strictly_sorted_seq in Hs as Hseq.
  assert (non_decreasing (elems set)) as Hnd by (apply ascending_Compare, Hseq).
  unfold Insert.
  destruct (ordered_search_spec set e Hnd) as (idx & found & -> & Hloc).
  cbn [mbind run_bind].
  destruct (located_split _ _ natural_laws _ _ _ _ Hseq Hloc)
    as (p & old & r & Hl & <- & Hold & Hput & _).
  exists p, old, r. split; [done|].
  apply strictly_sorted_seq in Hput. rewrite Hl. destruct found.
  - destruct Hold as (x & -> & Hxe). apply same_true in Hxe as ->.
    simpl. rewrite store_mid. cbn [mbind run_bind].
    split; [done|]. split; [by right | done].
  - destruct Hold as [-> Hn]. simpl. cbn zeta.
    pose proof (open_slot p r e) as Hopen. cbn zeta in Hopen.
    destruct (slice _ _ _) as [moved| |]; try done. cbn [mbind run_bind] in *.
    destruct (copy _ _ _ _) as [[l' c]| |]; try done. cbn [mbind run_bind] in *.
    rewrite Hopen. cbn [mbind run_bind].
    split; [done|]. split; [|done]. left. split; [done|].
    intros Hin. apply Hn. apply has_same. by rewrite Hl.
Qed.

Lemma ordered_Remove_outcome set e :
  strictly_sorted (elems set) →
  ∃ p old r,
    elems set = p ++ old ++ r
    ∧ Remove set e = Ok (MkOrdered (p ++ r))
    ∧ (old = [] ∧ e ∉ elems set ∨ old = [e])
    ∧ strictly_sorted (p ++ r).
Proof.
  intros Hs. apply strictly_sorted_seq in Hs as Hseq.
  assert (non_decreasing (elems set)) as Hnd by (apply ascending_Compare, Hseq).
  unfold Remove.
  destruct (ordered_search_spec set e Hnd) as (idx & found & -> & Hloc).
  cbn [mbind run_bind].
  destruct (located_split _ _ natural_laws _ _ _ _ Hseq Hloc)
    as (p & old & r & Hl & <- & Hold & _ & Hcut).
  exists p, old, r. split; [done|].
  apply strictly_sorted_seq in Hcut. destruct found; cbn [negb].
  - destruct Hold as (x & -> & Hxe). apply same_true in Hxe as ->.
    rewrite Hl. simpl. cbn zeta.
    pose proof (close_slot 0 p e r) as Hclose. cbn zeta in Hclose.
    destruct (slice _ _ _) as [moved| |]; try done. cbn [mbind run_bind] in *.
    destruct (copy _ _ _ _) as [[l' c]| |]; try done. cbn [mbind run_bind] in *.
    destruct (store _ _ _) as [l''| |]; try done. cbn [mbind run_bind] in *.
    rewrite Hclose. cbn [mbind run_bind].
    split; [done|]. split; [by right | done].
  - destruct Hold as [-> Hn]. simpl in Hl. split.
    { destruct set as [l]. simpl in *. by rewrite Hl. }
    split; [|done]. left. split; [done|].
    intros Hin. apply Hn. by apply has_same.
Qed.

(** Inserting an element once more changes nothing. *)
Lemma ordered_Insert_twice set e set' :
  strictly_sorted (elems set) →
  Insert set e = Ok set' → Insert set' e = Ok set'.
Proof.
  intros Hs Hins.
  destruct (ordered_Insert_outcome set e Hs) as (p & old & r & Hl & Hi & _ & Hs').
  rewrite Hins in Hi. injection Hi as ->.
  destruct (ordered_Insert_outcome (MkOrdered (p ++ e :: r)) e Hs')
    as (p' & old' & r' & Hl' & Hi' & Hold' & _).
  rewrite Hi'. simpl in Hl'. do 2 f_equal.
  destruct Hold' as [[Ho Hn]|Ho]; rewrite Ho in Hl'; [|by rewrite Hl'].
  exfalso. apply Hn. simpl. apply elem_of_app. right. by left.
Qed.

(** Inserting an element that is in the set leaves the list as it is. *)
Lemma ordered_Insert_present set e :
  strictly_sorted (elems set) → e ∈ elems set →
  Insert set e = Ok (MkOrdered (elems set)).
Proof.
  intros Hs He.
  destruct (ordered_Insert_outcome set e Hs) as (p & old & r & Hl & Hi & Hold & _).
  rewrite Hi. destruct Hold as [[_ Hn]|Ho]; [done|].
  rewrite Ho in Hl. by rewrite Hl.
Qed.

End facts.
End OrderedFacts.

Import Go slicesx GoFacts.
Import Spec Spec2 Spec3 Spec4 Spec5 Spec6.
Import SearchFacts OrderFacts LoopFacts ShiftFacts SeqSpec SeqFacts BatchFacts.
Import Natural NaturalOrder NaturalSpec NaturalLaws NaturalSorted NaturalSearch NaturalBound LocatedFacts.
Import NaturalMerge NaturalMergeLoop NaturalDelete NaturalDeleteLoop WalkFacts WalkLoop.

Module OrderedInvariant.
Import ordered OrderedOps OrderedFacts.
Section facts.
Implicit Types set : ordered.

Lemma non_decreasing_NoDup l : non_decreasing l → NoDup l → strictly_sorted l.
Proof.
  unfold non_decreasing, strictly_sorted.
  induction l as [|x l IH]; intros Hl Hd; [constructor|].
  apply StronglySorted_cons in Hl as [Hx Hl]. apply NoDup_cons in Hd as [Hn Hd].
  apply StronglySorted_cons. split; [|by apply IH].
  rewrite Forall_forall in *. intros y Hy. specialize (Hx y Hy).
  assert (x ≠ y) by (intros ->; done). lia.
Qed.

Lemma sorted_filter (P : Z → Prop) `{∀ x, Decision (P x)} l :
  strictly_sorted l → strictly_sorted (filter P l).
Proof. apply StronglySorted_filter. Qed.

Lemma insertAll_sorted set l :
  strictly_sorted (elems set) →
  ∃ set', insertAll set l = Ok set' ∧ strictly_sorted (elems set').
Proof.
  intros Hs. rewrite ordered_insertAll_eq. eexists. split; [done|]. simpl.
  apply merge_uniq_sorted; [done|]. apply sort_compact.
Qed.

Lemma removeAll_sorted set l :
  strictly_sorted (elems set) →
  ∃ set', removeAll set l = Ok set' ∧ strictly_sorted (elems set').
Proof.
  intros Hs. rewrite ordered_removeAll_eq. eexists. split; [done|]. simpl.
  by apply diff_uniq_sorted.
Qed.

Lemma ordered_elems_sorted set other b :
  strictly_sorted (elems set) → proper other →
  ordered_elems set other = Some b → strictly_sorted b.
Proof.
  unfold ordered_elems, proper. intros Hs Hp Hb.
  destruct (kind other); [| |done]; injection Hb as <-; done.
Qed.

(** What the operations against another natural-order set put together
    from a walk is strictly ascending. *)
Lemma walk_result a b k1 k2 k3 (with_a with_b : bool) :
  strictly_sorted a → strictly_sorted b →
  ∃ ai bi out ra rb,
    walk a b k1 k2 k3 = Ok (ai, bi, out)
    ∧ slice a ai (len a) = Ok ra ∧ slice b bi (len b) = Ok rb
    ∧ strictly_sorted ((out ++ if with_a then ra else [])
                            ++ if with_b then rb else []).
Proof.
  intros Ha Hb.
  destruct (walk_sorted a b k1 k2 k3 Ha Hb)
    as (ai & bi & out & ra & rb & Hw & Hra & Hrb & Hend & Hout & Hsa & Hsb & Hbelow).
  exists ai, bi, out, ra, rb. split; [done|]. split; [done|]. split; [done|].
  assert (strictly_sorted (out ++ ra)) as H1.
  { apply strictly_sorted_app. split; [done|]. split; [done|].
    intros x y Hx Hy. apply Hbelow; [done|]. apply elem_of_app. by left. }
  assert (strictly_sorted (out ++ rb)) as H2.
  { apply strictly_sorted_app. split; [done|]. split; [done|].
    intros x y Hx Hy. apply Hbelow; [done|]. apply elem_of_app. by right. }
  destruct with_a, with_b; rewrite ?app_nil_r; try done.
  destruct Hend as [->| ->]; by rewrite ?app_nil_r.
Qed.

Lemma apply_sorted set o :
  strictly_sorted (elems set) → proper_op o →
  ∃ set', apply set o = Ok set' ∧ strictly_sorted (elems set').
Proof.
  intros Hs Hp.
  destruct o as [e|l|other|e|l|other|other|other|other|other|]; simpl in *.
  - destruct (ordered_Insert_outcome set e Hs) as (p & old & r & _ & -> & _ & Hs').
    by eexists.
  - by apply insertAll_sorted.
  - unfold InsertSet. destruct (kind other); try (by apply insertAll_sorted).
    by eexists.
  - destruct (ordered_Remove_outcome set e Hs) as (p & old & r & _ & -> & _ & Hs').
    by eexists.
  - by apply removeAll_sorted.
  - unfold RemoveSet, diffUniqSortedLists.
    destruct (kind other); rewrite ?DeleteSortedUniq_spec; cbn [mbind run_bind].
    + eexists. split; [done|]. by apply diff_uniq_sorted.
    + eexists. split; [done|]. by apply diff_uniq_sorted.
    + by apply removeAll_sorted.
  - unfold Intersection. destruct (ordered_elems set other) as [b|] eqn:Hb.
    + pose proof (ordered_elems_sorted set other b Hs Hp Hb) as Hsb.
      destruct (walk_result (elems set) b false false true false false Hs Hsb)
        as (ai & bi & out & ra & rb & -> & _ & _ & Hr).
      cbn [mbind run_bind]. eexists. split; [done|]. simpl.
      by rewrite !app_nil_r in Hr.
    + eexists. split; [done|]. by apply sorted_filter.
  - unfold Union. destruct (ordered_elems set other) as [b|] eqn:Hb.
    + pose proof (ordered_elems_sorted set other b Hs Hp Hb) as Hsb.
      destruct (walk_result (elems set) b true true true true true Hs Hsb)
        as (ai & bi & out & ra & rb & -> & Hra & Hrb & Hr).
      cbn [mbind run_bind]. cbn zeta. rewrite Hra. cbn [mbind run_bind].
      rewrite Hrb. cbn [mbind run_bind]. by eexists.
    + unfold mergeUniqSortedLists, stableSort. rewrite MergeSortedUniq_spec.
      cbn [mbind run_bind]. eexists. split; [done|]. simpl.
      apply merge_uniq_sorted; [|done].
      apply non_decreasing_NoDup; [apply stableSort_sorted|].
      rewrite (SortFacts.SortStableFunc_perm Compare (set_Elems other)).
      unfold ordered_elems in Hb. unfold proper in Hp.
      by destruct (kind other).
  - unfold Difference. destruct (ordered_elems set other) as [b|] eqn:Hb.
    + pose proof (ordered_elems_sorted set other b Hs Hp Hb) as Hsb.
      destruct (walk_result (elems set) b true false false true false Hs Hsb)
        as (ai & bi & out & ra & rb & -> & Hra & Hrb & Hr).
      cbn [mbind run_bind]. cbn zeta. rewrite Hra. cbn [mbind run_bind].
      eexists. split; [done|]. simpl. by rewrite app_nil_r in Hr.
    + eexists. split; [done|]. by apply sorted_filter.
  - unfold SymmetricDifference. destruct (ordered_elems set other) as [b|] eqn:Hb.
    + pose proof (ordered_elems_sorted set other b Hs Hp Hb) as Hsb.
      destruct (walk_result (elems set) b true true false true true Hs Hsb)
        as (ai & bi & out & ra & rb & -> & Hra & Hrb & Hr).
      cbn [mbind run_bind]. cbn zeta. rewrite Hra. cbn [mbind run_bind].
      rewrite Hrb. cbn [mbind run_bind]. by eexists.
    + cbn zeta.
      assert (∀ l acc, ∃ r, for_range l
                (λ elems_ e, c ← Contains set e;
                             if negb c then Ok (elems_ ++ [e]) else Ok elems_) acc
                = Ok r) as Hmissing.
      { induction l as [|x l IH]; intros acc; [by eexists|].
        cbn [for_range]. destruct (ordered_Contains_total set x) as (c & ->).
        cbn [mbind run_bind]. destruct c; cbn [negb mbind run_bind]; apply IH. }
      destruct (Hmissing (set_Range other) []) as (r & ->).
      cbn [mbind run_bind]. apply insertAll_sorted. simpl. by apply sorted_filter.
  - by eexists.
Qed.

Lemma apply_all_sorted ops set :
  strictly_sorted (elems set) → Forall proper_op ops →
  ∃ set', apply_all set ops = Ok set' ∧ strictly_sorted (elems set').
Proof.
  revert set. induction ops as [|o ops IH]; intros set Hs Hp.
  { by eexists. }
  apply Forall_cons in Hp as [Ho Hp].
  unfold apply_all. cbn [for_range].
  destruct (apply_sorted set o Hs Ho) as (set1 & -> & Hs1).
  cbn [mbind run_bind]. by apply IH.
Qed.

Lemma NewSorted_sorted l : strictly_sorted (elems (NewSorted l)).
Proof. unfold NewSorted, uniq, stableSort. simpl. apply sort_compact. Qed.



End facts.
End OrderedInvariant.

Import Go slicesx GoFacts.
Import Spec Spec2 Spec3 Spec4 Spec5 Spec6.
Import SearchFacts OrderFacts LoopFacts ShiftFacts SeqSpec SeqFacts BatchFacts.
Import Natural NaturalOrder NaturalSpec NaturalLaws NaturalSorted NaturalSearch NaturalBound LocatedFacts.
Import NaturalMerge NaturalMergeLoop NaturalDelete NaturalDeleteLoop WalkFacts WalkLoop.

(** The natural-order set of the second package. *)
Module Ordered2Facts.
Import sets2 (view_kind, IsReceiver, IsOrdered, IsFuncSorted, IsTable, IsExternal,
              View_, kind, view_Contains, view_Elems, view_Range).
Import ordered2 Ordered2Ops ClearShift.
Section facts.
Implicit Types s : ordered.

Lemma ordered2_Contains_total s e : ∃ b, Contains s e = Ok b.
Proof.
  unfold Contains. destruct (BinarySearch_total (list_ s) e) as (idx & found & -> & _).
  by eexists.
Qed.

Lemma ordered2_Contains_spec s e :
  strictly_sorted (list_ s) →
  ∃ b, Contains s e = Ok b ∧ (b = true ↔ e ∈ list_ s).
Proof.
  intros Hs. apply strictly_sorted_seq in Hs as Hseq.
  assert (non_decreasing (list_ s)) as Hnd by (apply ascending_Compare, Hseq).
  unfold Contains.
  destruct (BinarySearch_spec (list_ s) e Hnd) as (idx & found & -> & Hloc).
  exists found. split; [done|].
  rewrite (located_has _ _ _ _ _ _ Hloc). apply has_same.
Qed.



(** [insert] on a strictly ascending list. *)
Lemma ordered2_insert_outcome s e :
  strictly_sorted (list_ s) →
  ∃ p old r,
    list_ s = p ++ old ++ r
    ∧ insert s e = Ok (MkOrdered (p ++ e :: r))
    ∧ (old = [] ∧ e ∉ list_ s ∨ old = [e])
    ∧ strictly_sorted (p ++ e :: r).
Proof.
  intros Hs. apply strictly_sorted_seq in Hs as Hseq.
  assert (non_decreasing (list_ s)) as Hnd by (apply ascending_Compare, Hseq).
  unfold insert. cbn zeta.
  destruct (BinarySearch_spec (list_ s) e Hnd) as (idx & found & -> & Hloc).
  cbn [mbind run_bind].
  destruct (located_split _ _ natural_laws _ _ _ _ Hseq Hloc)
    as (p & old & r & Hl & <- & Hold & Hput & _).
  exists p, old, r. split; [done|].
  apply strictly_sorted_seq in Hput. rewrite Hl. destruct found.
  - destruct Hold as (x & -> & Hxe). apply same_true in Hxe as ->.
    simpl. rewrite store_mid. cbn [mbind run_bind].
    split; [done|]. split; [by right | done].
  - destruct Hold as [-> Hn]. simpl. cbn zeta.
    pose proof (open_slot p r e) as Hopen. cbn zeta in Hopen.
    destruct (slice _ _ _) as [moved| |]; try done. cbn [mbind run_bind] in *.
    destruct (copy _ _ _ _) as [[l' c]| |]; try done. cbn [mbind run_bind] in *.
    rewrite Hopen. cbn [mbind run_bind].
    split; [done|]. split; [|done]. left. split; [done|].
    intros Hin. apply Hn. apply has_same. by rewrite Hl.
Qed.

Lemma ordered2_remove_outcome s e :
  strictly_sorted (list_ s) →
  ∃ p old r,
    list_ s = p ++ old ++ r
    ∧ remove s e = Ok (MkOrdered (p ++ r))
    ∧ (old = [] ∧ e ∉ list_ s ∨ old = [e])
    ∧ strictly_sorted (p ++ r).
Proof.
  intros Hs. apply strictly_sorted_seq in Hs as Hseq.
  assert (non_decreasing (list_ s)) as Hnd by (apply ascending_Compare, Hseq).
  unfold remove. cbn zeta.
  destruct (BinarySearch_spec (list_ s) e Hnd) as (idx & found & -> & Hloc).
  cbn [mbind run_bind].
  destruct (located_split _ _ natural_laws _ _ _ _ Hseq Hloc)
    as (p & old & r & Hl & <- & Hold & _ & Hcut).
  exists p, old, r. split; [done|].
  apply strictly_sorted_seq in Hcut. destruct found; cbn [negb].
  - destruct Hold as (x & -> & Hxe). apply same_true in Hxe as ->.
    rewrite Hl. simpl. cbn zeta.
    pose proof (close_slot_clear 0 p e r) as Hclose. cbn zeta in Hclose.
    destruct (slice _ _ _) as [moved| |]; try done. cbn [mbind run_bind] in *.
    destruct (copy _ _ _ _) as [[l' c]| |]; try done. cbn [mbind run_bind] in *.
    destruct (clear _ _ _) as [l''| |]; try done. cbn [mbind run_bind] in *.
    rewrite Hclose. cbn [mbind run_bind].
    split; [done|]. split; [by right | done].
  - destruct Hold as [-> Hn]. simpl in Hl. split.
    { destruct s as [l]. simpl in *. by rewrite Hl. }
    split; [|done]. left. split; [done|].
    intros Hin. apply Hn. by apply has_same.
Qed.

(** Inserting an element once more changes nothing. *)
Lemma ordered2_insert_twice s e s' :
  strictly_sorted (list_ s) →
  insert s e = Ok s' → insert s' e = Ok s'.
Proof.
  intros Hs Hins.
  destruct (ordered2_insert_outcome s e Hs) as (p & old & r & Hl & Hi & _ & Hs').
  rewrite Hins in Hi. injection Hi as ->.
  destruct (ordered2_insert_outcome (MkOrdered (p ++ e :: r)) e Hs')
    as (p' & old' & r' & Hl' & Hi' & Hold' & _).
  rewrite Hi'. simpl in Hl'. do 2 f_equal.
  destruct Hold' as [[Ho Hn]|Ho]; rewrite Ho in Hl'; [|by rewrite Hl'].
  exfalso. apply Hn. simpl. apply elem_of_app. right. by left.
Qed.

(** Inserting an element that is in the set leaves the list as it is. *)
Lemma ordered2_insert_present s e :
  strictly_sorted (list_ s) → e ∈ list_ s →
  insert s e = Ok (MkOrdered (list_ s)).
Proof.
  intros Hs He.
  destruct (ordered2_insert_outcome s e Hs) as (p & old & r & Hl & Hi & Hold & _).
  rewrite Hi. destruct Hold as [[_ Hn]|Ho]; [done|].
  rewrite Ho in Hl. by rewrite Hl.
Qed.

Lemma ordered2_insertAll_eq s l :
  insertAll s l
  = Ok (MkOrdered (merge_uniq (list_ s) (Compact (SortStableFunc Compare l)))).
Proof. unfold insertAll. by rewrite MergeSortedUniq_spec. Qed.

Lemma ordered2_removeAll_eq s l :
  removeAll s l
  = Ok (MkOrdered (diff_uniq (list_ s) (Compact (SortStableFunc Compare l)))).
Proof. unfold removeAll. by rewrite DeleteSortedUniq_spec. Qed.

Lemma ordered2_insertSet_eq s other :
  insertSet s other
  = Ok (MkOrdered (merge_uniq (list_ s)
          match kind other with
          | IsReceiver => list_ s
          | IsOrdered => view_Elems other
          | IsFuncSorted => Compact (view_Elems other)
          | _ => Compact (SortStableFunc Compare (view_Elems other))
          end)).
Proof.
  unfold insertSet.
  destruct (kind other); rewrite ?ordered2_insertAll_eq, ?MergeSortedUniq_spec; done.
Qed.

Lemma ordered2_removeSet_eq s other :
  removeSet s other
  = Ok (MkOrdered (diff_uniq (list_ s)
          match kind other with
          | IsReceiver => list_ s
          | IsOrdered => view_Elems other
          | IsFuncSorted => Compact (view_Elems other)
          | _ => Compact (SortStableFunc Compare (view_Elems other))
          end)).
Proof. unfold removeSet. cbn zeta. by rewrite DeleteSortedUniq_spec. Qed.

Lemma ordered_list_sorted s other b :
  strictly_sorted (list_ s) → proper other →
  ordered_list s other = Some b → strictly_sorted b.
Proof.
  unfold ordered_list, proper. intros Hs Hp Hb.
  destruct (kind other); try done; injection Hb as <-; done.
Qed.

Lemma ordered2_missing_total s (l acc : list Z) :
  ∃ r, for_range l
         (λ b e, c ← Contains s e;
                 if negb c then Ok (b ++ [e]) else Ok b) acc = Ok r.
Proof.
  revert acc. induction l as [|x l IH]; intros acc; [by eexists|].
  cbn [for_range]. destruct (ordered2_Contains_total s x) as (c & ->).
  cbn [mbind run_bind]. destruct c; cbn [negb mbind run_bind]; apply IH.
Qed.

Lemma ordered2_apply_sorted s o :
  strictly_sorted (list_ s) → proper_op o →
  ∃ s', apply s o = Ok s' ∧ strictly_sorted (list_ s').
Proof.
  intros Hs Hp.
  destruct o as [e|l|other|e|l|other|other|other|other|other|]; simpl in *.
  - destruct (ordered2_insert_outcome s e Hs) as (p & old & r & _ & Hi & _ & Hs').
    unfold Insert. rewrite Hi. by eexists.
  - unfold InsertAll. rewrite ordered2_insertAll_eq. eexists. split; [done|].
    simpl. apply merge_uniq_sorted; [done|]. apply sort_compact.
  - unfold InsertSet. rewrite ordered2_insertSet_eq. eexists. split; [done|].
    simpl. apply merge_uniq_sorted; [done|].
    destruct Hp as [Hp Hn]. unfold proper, in_natural_order in *.
    destruct (kind other); try done; try apply sort_compact.
    by apply Compact_sorted.
  - destruct (ordered2_remove_outcome s e Hs) as (p & old & r & _ & Hr & _ & Hs').
    unfold Remove. rewrite Hr. by eexists.
  - unfold RemoveAll. rewrite ordered2_removeAll_eq. eexists. split; [done|].
    simpl. by apply diff_uniq_sorted.
  - unfold RemoveSet. rewrite ordered2_removeSet_eq. eexists. split; [done|].
    simpl. by apply diff_uniq_sorted.
  - unfold intersection. destruct (ordered_list s other) as [b|] eqn:Hb.
    + pose proof (ordered_list_sorted s other b Hs Hp Hb) as Hsb.
      destruct (OrderedInvariant.walk_result (list_ s) b false false true false false
                  Hs Hsb) as (ai & bi & out & ra & rb & Hw & _ & _ & Hr).
      unfold walk. rewrite Hw.
      cbn [mbind run_bind]. eexists. split; [done|]. simpl.
      by rewrite !app_nil_r in Hr.
    + eexists. split; [done|]. by apply OrderedInvariant.sorted_filter.
  - unfold union. destruct (ordered_list s other) as [b|] eqn:Hb.
    + pose proof (ordered_list_sorted s other b Hs Hp Hb) as Hsb.
      destruct (OrderedInvariant.walk_result (list_ s) b true true true true true
                  Hs Hsb) as (ai & bi & out & ra & rb & Hw & Hra & Hrb & Hr).
      unfold walk. cbn zeta. rewrite Hw.
      cbn [mbind run_bind]. rewrite Hra. cbn [mbind run_bind].
      rewrite Hrb. cbn [mbind run_bind]. by eexists.
    + cbn zeta. rewrite MergeSortedUniq_spec.
      cbn [mbind run_bind]. eexists. split; [done|]. simpl.
      apply merge_uniq_sorted; [|done]. apply sort_compact.
  - unfold difference. destruct (ordered_list s other) as [b|] eqn:Hb.
    + pose proof (ordered_list_sorted s other b Hs Hp Hb) as Hsb.
      destruct (OrderedInvariant.walk_result (list_ s) b true false false true false
                  Hs Hsb) as (ai & bi & out & ra & rb & Hw & Hra & Hrb & Hr).
      unfold walk. cbn zeta. rewrite Hw.
      cbn [mbind run_bind]. rewrite Hra. cbn [mbind run_bind].
      eexists. split; [done|]. simpl. by rewrite app_nil_r in Hr.
    + eexists. split; [done|]. by apply OrderedInvariant.sorted_filter.
  - unfold symmetricDifference. destruct (ordered_list s other) as [b|] eqn:Hb.
    + pose proof (ordered_list_sorted s other b Hs Hp Hb) as Hsb.
      destruct (OrderedInvariant.walk_result (list_ s) b true true false true true
                  Hs Hsb) as (ai & bi & out & ra & rb & Hw & Hra & Hrb & Hr).
      unfold walk. cbn zeta. rewrite Hw.
      cbn [mbind run_bind]. rewrite Hra. cbn [mbind run_bind].
      rewrite Hrb. cbn [mbind run_bind]. by eexists.
    + cbn zeta.
      destruct (ordered2_missing_total s (view_Range other) []) as (r & ->).
      cbn [mbind run_bind]. rewrite MergeSortedUniq_spec.
      cbn [mbind run_bind]. eexists. split; [done|]. simpl.
      apply merge_uniq_sorted; [|apply sort_compact].
      by apply OrderedInvariant.sorted_filter.
  - by eexists.
Qed.

Lemma ordered2_apply_all_sorted ops s :
  strictly_sorted (list_ s) → Forall proper_op ops →
  ∃ s', apply_all s ops = Ok s' ∧ strictly_sorted (list_ s').
Proof.
  revert s. induction ops as [|o ops IH]; intros s Hs Hp.
  { by eexists. }
  apply Forall_cons in Hp as [Ho Hp].
  unfold apply_all. cbn [for_range].
  destruct (ordered2_apply_sorted s o Hs Ho) as (s1 & -> & Hs1).
  cbn [mbind run_bind]. by apply IH.
Qed.

Lemma order_sorted l : strictly_sorted (list_ (order l)).
Proof. unfold order. simpl. apply sort_compact. Qed.



End facts.
End Ordered2Facts.

Import Go slicesx GoFacts.

Module HeapFacts.
Import Heap.
Section facts.
Context {E : Type}.
Implicit Types h : list (list E).

Lemma contents_alloc h l s :
  (base s < length h)%nat → contents (alloc h l).1 s = contents h s.
Proof.
  intros Hs. unfold contents, array, alloc. simpl.
  by rewrite lookup_app_l.
Qed.

Lemma array_alloc_new h l : array (alloc h l).1 (alloc h l).2 = l.
Proof.
  unfold array, alloc. simpl. by rewrite list_lookup_middle.
Qed.

(** The clone holds the elements of the slice in an array of its own. *)
Lemma Clone_fresh h s :
  valid h s →
  let '(h', r) := Clone h s in
  contents h' r = contents h s
  ∧ base r = length h
  ∧ valid h' r
  ∧ length h' = S (length h)
  ∧ (∀ s', (base s' < length h)%nat → contents h' s' = contents h s')
  ∧ (∀ s', valid h s' → valid h' s').
Proof.
  intros [Hb Hl]. unfold Clone.
  pose proof (array_alloc_new h (contents h s)) as Hnew.
  pose proof (contents_alloc h (contents h s)) as Hold.
  unfold alloc in *. simpl in *.
  assert (length (contents h s) = Z.to_nat (slen s)) as Hlen.
  { unfold contents. rewrite length_take. unfold cap, len in Hl. lia. }
  split_and!.
  - unfold contents at 1. simpl. rewrite Hnew.
    rewrite take_ge; [done | lia].
  - done.
  - split; simpl.
    + rewrite length_app. simpl. lia.
    + unfold cap. simpl. rewrite Hnew. unfold len. lia.
  - rewrite length_app. simpl. lia.
  - done.
  - intros s' [Hb' Hl']. split.
    + rewrite length_app. simpl. lia.
    + unfold cap, array in *. by rewrite lookup_app_l.
Qed.

(** Writing through a slice leaves every other array as it is. *)
Lemma write_frame h r i v h' s :
  write h r i v = Ok h' → base s ≠ base r →
  contents h' s = contents h s ∧ length h' = length h
  ∧ cap h' s = cap h s.
Proof.
  unfold write. case_bool_decide; [|done]. intros [= <-] Hne.
  split_and!.
  - unfold contents, array. by rewrite list_lookup_alter_ne.
  - by rewrite length_alter.
  - unfold cap, array. by rewrite list_lookup_alter_ne.
Qed.

Lemma writes_frame ws : ∀ h r h' s,
  writes h r ws = Ok h' → base s ≠ base r →
  contents h' s = contents h s ∧ length h' = length h
  ∧ cap h' s = cap h s.
Proof.
  unfold writes. induction ws as [|[i v] ws IH]; intros h r h' s Hw Hne.
  { injection Hw as <-. done. }
  cbn [for_range] in Hw.
  destruct (write h r i v) as [h1| |] eqn:Hw1; try done.
  cbn [mbind run_bind] in Hw.
  destruct (write_frame h r i v h1 s Hw1 Hne) as (Hc1 & Hl1 & Hp1).
  destruct (IH h1 r h' s Hw Hne) as (Hc2 & Hl2 & Hp2).
  split_and!; congruence.
Qed.

(** What a method commits leaves every array but the receiver's as it is,
    and holds the elements committed. *)
Lemma commit_frame h s l r :
  valid h s → (base r < length h)%nat → base r ≠ base s →
  let '(h', s') := commit h s l in
  contents h' r = contents h r
  ∧ contents h' s' = l
  ∧ valid h' s'
  ∧ (length h ≤ length h')%nat
  ∧ base r ≠ base s'.
Proof.
  intros [Hb Hl] Hr Hne. unfold commit. case_bool_decide as Hfit.
  - split_and!.
    + unfold contents, array. by rewrite list_lookup_insert_ne.
    + unfold contents, array. simpl. rewrite list_lookup_insert_eq by done.
      simpl. rewrite to_nat_len. by rewrite take_app_length.
    + split; simpl; [by rewrite length_insert|].
      unfold cap, array. simpl. rewrite list_lookup_insert_eq by done. simpl.
      rewrite len_app. pose proof (len_nonneg l).
      pose proof (len_nonneg (drop (length l) (default [] (h !! base s)))). lia.
    + by rewrite length_insert.
    + done.
  - pose proof (array_alloc_new h l) as Hnew.
    unfold alloc in *. simpl in *. split_and!.
    + by apply (contents_alloc h l).
    + unfold contents. simpl. rewrite Hnew, to_nat_len. by rewrite firstn_all.
    + split; simpl.
      * rewrite length_app. simpl. lia.
      * unfold cap. simpl. rewrite Hnew. pose proof (len_nonneg l). lia.
    + rewrite length_app. lia.
    + simpl. lia.
Qed.

End facts.
End HeapFacts.

Import Go slicesx GoFacts.
Import Heap HeapFacts.

(** The slice [Elems] returns and the set do not share. *)
Module SortedOwnership.
Import SortedHeap.
Import SortedApart.
Section facts.
Context {E : Type}.
Variable zero : E.
Implicit Types h : list (list E).
Implicit Types set : sorted E.

Local Abbreviation apart := (SortedApart.apart (E:=E)).

Lemma Elems_apart h set :
  valid h (elems set) →
  let '(h1, r) := Elems h set in
  contents h1 r = sets.Elems (read h set)
  ∧ read h1 set = read h set
  ∧ apart h1 set r.
Proof.
  intros Hv. unfold Elems.
  pose proof (Clone_fresh h (elems set) Hv) as Hc.
  destruct (Clone h (elems set)) as [h1 r].
  destruct Hc as (Hr & Hb & Hvr & Hlen & Hold & Hval).
  pose proof Hv as [Hbs Hls].
  split_and!.
  - done.
  - unfold read. by rewrite Hold.
  - unfold SortedApart.apart. split_and!; [by apply Hval | lia | lia].
Qed.

Lemma writes_apart h set r ws h' :
  apart h set r → writes h r ws = Ok h' →
  read h' set = read h set ∧ apart h' set r.
Proof.
  intros (Hv & Hr & Hne) Hw.
  destruct (writes_frame ws h r h' (elems set) Hw) as (Hc & Hl & Hp); [done|].
  split; [unfold read; by rewrite Hc|].
  unfold SortedApart.apart. split_and!; [|lia|done].
  destruct Hv as [Hb Hcap]. split; [lia|]. by rewrite Hp.
Qed.

Lemma mutate_apart h set r m h' set' :
  apart h set r → mutate zero (h, set) m = Ok (h', set') →
  contents h' r = contents h r ∧ apart h' set' r.
Proof.
  intros (Hv & Hr & Hne) Hm. unfold mutate in Hm.
  destruct (method zero m (read h set)) as [s'| |]; try done.
  cbn [mbind run_bind] in Hm.
  pose proof (commit_frame h (elems set) (sets.elems s') r Hv Hr Hne) as Hc.
  destruct (commit h (elems set) (sets.elems s')) as [h1 sl].
  injection Hm as <- <-.
  destruct Hc as (Hc & _ & Hv' & Hlen & Hne').
  split; [done|]. unfold SortedApart.apart. simpl. split_and!; [done | lia | done].
Qed.

Lemma mutate_all_apart ms : ∀ h set r h' set',
  apart h set r → mutate_all zero (h, set) ms = Ok (h', set') →
  contents h' r = contents h r.
Proof.
  unfold mutate_all. induction ms as [|m ms IH]; intros h set r h' set' Ha Hm.
  { by injection Hm as <- <-. }
  cbn [for_range] in Hm.
  destruct (mutate zero (h, set) m) as [[h1 set1]| |] eqn:Hm1; try done.
  cbn [mbind run_bind] in Hm.
  destruct (mutate_apart h set r m h1 set1 Ha Hm1) as [Hc Ha1].
  rewrite <-Hc. by apply (IH h1 set1 r h' set').
Qed.

End facts.
End SortedOwnership.

(** The same for the comparator set of the second package. *)
Module FuncSortedOwnership.
Import FuncSortedHeap.
Import FuncSortedApart.
Section facts.
Context {E : Type}.
Variable zero : E.
Implicit Types h : list (list E).
Implicit Types set : funcSorted E.

Local Abbreviation apart := (FuncSortedApart.apart (E:=E)).

Lemma func_Elems_apart h set :
  valid h (list_ set) →
  let '(h1, r) := Elems h set in
  contents h1 r = sets2.Elems (read h set)
  ∧ read h1 set = read h set
  ∧ apart h1 set r.
Proof.
  intros Hv. unfold Elems.
  pose proof (Clone_fresh h (list_ set) Hv) as Hc.
  destruct (Clone h (list_ set)) as [h1 r].
  destruct Hc as (Hr & Hb & Hvr & Hlen & Hold & Hval).
  pose proof Hv as [Hbs Hls].
  split_and!.
  - done.
  - unfold read. by rewrite Hold.
  - unfold FuncSortedApart.apart. split_and!; [by apply Hval | lia | lia].
Qed.

Lemma func_writes_apart h set r ws h' :
  apart h set r → writes h r ws = Ok h' →
  read h' set = read h set ∧ apart h' set r.
Proof.
  intros (Hv & Hr & Hne) Hw.
  destruct (writes_frame ws h r h' (list_ set) Hw) as (Hc & Hl & Hp); [done|].
  split; [unfold read; by rewrite Hc|].
  unfold FuncSortedApart.apart. split_and!; [|lia|done].
  destruct Hv as [Hb Hcap]. split; [lia|]. by rewrite Hp.
Qed.

Lemma func_mutate_apart h set r m h' set' :
  apart h set r → mutate zero (h, set) m = Ok (h', set') →
  contents h' r = contents h r ∧ apart h' set' r.
Proof.
  intros (Hv & Hr & Hne) Hm. unfold mutate in Hm.
  destruct (method zero m (read h set)) as [s'| |]; try done.
  cbn [mbind run_bind] in Hm.
  pose proof (commit_frame h (list_ set) (sets2.list_ s') r Hv Hr Hne) as Hc.
  destruct (commit h (list_ set) (sets2.list_ s')) as [h1 sl].
  injection Hm as <- <-.
  destruct Hc as (Hc & _ & Hv' & Hlen & Hne').
  split; [done|]. unfold FuncSortedApart.apart. simpl. split_and!; [done | lia | done].
Qed.

Lemma func_mutate_all_apart ms : ∀ h set r h' set',
  apart h set r → mutate_all zero (h, set) ms = Ok (h', set') →
  contents h' r = contents h r.
Proof.
  unfold mutate_all. induction ms as [|m ms IH]; intros h set r h' set' Ha Hm.
  { by injection Hm as <- <-. }
  cbn [for_range] in Hm.
  destruct (mutate zero (h, set) m) as [[h1 set1]| |] eqn:Hm1; try done.
  cbn [mbind run_bind] in Hm.
  destruct (func_mutate_apart h set r m h1 set1 Ha Hm1) as [Hc Ha1].
  rewrite <-Hc. by apply (IH h1 set1 r h' set').
Qed.

End facts.
End FuncSortedOwnership.

(** The same for the natural-order set of [sorted.go]. *)
Module OrderedOwnership.
Import OrderedHeap.
Import OrderedApart.
Section facts.
Implicit Types h : list (list Z).
Implicit Types set : ordered.

Lemma ordered_Elems_apart h set :
  valid h (elems set) →
  let '(h1, r) := Elems h set in
  contents h1 r = ordered.Elems (read h set)
  ∧ read h1 set = read h set
  ∧ apart h1 set r.
Proof.
  intros Hv. unfold Elems.
  pose proof (Clone_fresh h (elems set) Hv) as Hc.
  destruct (Clone h (elems set)) as [h1 r].
  destruct Hc as (Hr & Hb & Hvr & Hlen & Hold & Hval).
  pose proof Hv as [Hbs Hls].
  split_and!.
  - done.
  - unfold read. by rewrite Hold.
  - unfold apart. split_and!; [by apply Hval | lia | lia].
Qed.

Lemma ordered_writes_apart h set r ws h' :
  apart h set r → writes h r ws = Ok h' →
  read h' set = read h set ∧ apart h' set r.
Proof.
  intros (Hv & Hr & Hne) Hw.
  destruct (writes_frame ws h r h' (elems set) Hw) as (Hc & Hl & Hp); [done|].
  split; [unfold read; by rewrite Hc|].
  unfold apart. split_and!; [|lia|done].
  destruct Hv as [Hb Hcap]. split; [lia|]. by rewrite Hp.
Qed.

Lemma ordered_mutate_apart h set r m h' set' :
  apart h set r → mutate (h, set) m = Ok (h', set') →
  contents h' r = contents h r ∧ apart h' set' r.
Proof.
  intros (Hv & Hr & Hne) Hm. unfold mutate in Hm.
  destruct (method m (read h set)) as [s'| |]; try done.
  cbn [mbind run_bind] in Hm.
  pose proof (commit_frame h (elems set) (ordered.elems s') r Hv Hr Hne) as Hc.
  destruct (commit h (elems set) (ordered.elems s')) as [h1 sl].
  injection Hm as <- <-.
  destruct Hc as (Hc & _ & Hv' & Hlen & Hne').
  split; [done|]. unfold apart. simpl. split_and!; [done | lia | done].
Qed.

Lemma ordered_mutate_all_apart ms : ∀ h set r h' set',
  apart h set r → mutate_all (h, set) ms = Ok (h', set') →
  contents h' r = contents h r.
Proof.
  unfold mutate_all. induction ms as [|m ms IH]; intros h set r h' set' Ha Hm.
  { by injection Hm as <- <-. }
  cbn [for_range] in Hm.
  destruct (mutate (h, set) m) as [[h1 set1]| |] eqn:Hm1; try done.
  cbn [mbind run_bind] in Hm.
  destruct (ordered_mutate_apart h set r m h1 set1 Ha Hm1) as [Hc Ha1].
  rewrite <-Hc. by apply (IH h1 set1 r h' set').
Qed.

End facts.
End OrderedOwnership.

(** The same for the natural-order set of the second package. *)
Module Ordered2Ownership.
Import Ordered2Heap.
Import Ordered2Apart.
Section facts.
Implicit Types h : list (list Z).
Implicit Types set : ordered.

Lemma ordered2_Elems_apart h set :
  valid h (list_ set) →
  let '(h1, r) := Elems h set in
  contents h1 r = ordered2.Elems (read h set)
  ∧ read h1 set = read h set
  ∧ apart h1 set r.
Proof.
  intros Hv. unfold Elems.
  pose proof (Clone_fresh h (list_ set) Hv) as Hc.
  destruct (Clone h (list_ set)) as [h1 r].
  destruct Hc as (Hr & Hb & Hvr & Hlen & Hold & Hval).
  pose proof Hv as [Hbs Hls].
  split_and!.
  - done.
  - unfold read. by rewrite Hold.
  - unfold apart. split_and!; [by apply Hval | lia | lia].
Qed.

Lemma ordered2_writes_apart h set r ws h' :
  apart h set r → writes h r ws = Ok h' →
  read h' set = read h set ∧ apart h' set r.
Proof.
  intros (Hv & Hr & Hne) Hw.
  destruct (writes_frame ws h r h' (list_ set) Hw) as (Hc & Hl & Hp); [done|].
  split; [unfold read; by rewrite Hc|].
  unfold apart. split_and!; [|lia|done].
  destruct Hv as [Hb Hcap]. split; [lia|]. by rewrite Hp.
Qed.

Lemma ordered2_mutate_apart h set r m h' set' :
  apart h set r → mutate (h, set) m = Ok (h', set') →
  contents h' r = contents h r ∧ apart h' set' r.
Proof.
  intros (Hv & Hr & Hne) Hm. unfold mutate in Hm.
  destruct (method m (read h set)) as [s'| |]; try done.
  cbn [mbind run_bind] in Hm.
  pose proof (commit_frame h (list_ set) (ordered2.list_ s') r Hv Hr Hne) as Hc.
  destruct (commit h (list_ set) (ordered2.list_ s')) as [h1 sl].
  injection Hm as <- <-.
  destruct Hc as (Hc & _ & Hv' & Hlen & Hne').
  split; [done|]. unfold apart. simpl. split_and!; [done | lia | done].
Qed.

Lemma ordered2_mutate_all_apart ms : ∀ h set r h' set',
  apart h set r → mutate_all (h, set) ms = Ok (h', set') →
  contents h' r = contents h r.
Proof.
  unfold mutate_all. induction ms as [|m ms IH]; intros h set r h' set' Ha Hm.
  { by injection Hm as <- <-. }
  cbn [for_range] in Hm.
  destruct (mutate (h, set) m) as [[h1 set1]| |] eqn:Hm1; try done.
  cbn [mbind run_bind] in Hm.
  destruct (ordered2_mutate_apart h set r m h1 set1 Ha Hm1) as [Hc Ha1].
  rewrite <-Hc. by apply (IH h1 set1 r h' set').
Qed.

End facts.
End Ordered2Ownership.

Import Go slicesx GoFacts.
Import Spec Spec2 Spec3 Spec4 Spec5 Spec6.
Import SearchFacts OrderFacts LoopFacts ShiftFacts SeqSpec SeqFacts BatchFacts.

Import SearchSpec.

Module TwoPhase.
Import LookupOrder FuncSearchSpec.
Section facts.
Context {E : Type}.

Lemma two_phase_located (cmp : E → E → Z) eq l e idx found :
  Laws cmp eq → ascending cmp l →
  two_phase cmp eq l e idx found → located cmp eq l e idx found.
Proof.
  intros HL Hasc (lb & H0 & Hlb & Hidx & Hlo & Hhi & Hrun & Hend).
  apply (located_of_scan cmp eq HL l e lb idx found); try done.
  destruct found; [|done].
  destruct Hend as (x & Hx & _ & Hxe). by exists x.
Qed.

(** The search of the comparator set of [sorted.go]. *)
Lemma search_two_phase (set : sets.sorted E) e :
  Laws (sets.cmp set) (sets.eq set) → ascending (sets.cmp set) (sets.elems set) →
  ∃ idx found, sets.search set e = Ok (idx, found)
    ∧ two_phase (sets.cmp set) (sets.eq set) (sets.elems set) e idx found.
Proof.
  intros [Hcmp Heq] Hasc.
  set (I := λ i j : Z,
    (∀ h x, 0 ≤ h < i → sets.elems set !! Z.to_nat h = Some x → sets.cmp set x e < 0)
    ∧ (∀ h x, j ≤ h → sets.elems set !! Z.to_nat h = Some x → 0 ≤ sets.cmp set x e)).
  destruct (SetSearch.search_run I set e) as (lb & idx & found & Hs & [Hlo Hhi] & Hscan).
  { split.
    - intros h x Hh. lia.
    - intros h x Hh Hx. apply lookup_lt_Some in Hx. unfold len in Hh. lia. }
  { intros i j h x [HIlo HIhi] Hi Hih Hhj Hj Hx. split.
    - intros Hgt. split; [|done].
      intros h' y Hh' Hy.
      assert (sets.cmp set y x ≤ 0) as Hyx.
      { eapply (ascending_lookup (sets.cmp set) Hcmp); [done| |done..]. lia. }
      assert (sets.cmp set x e < 0) by (apply (cmp_antisym _ Hcmp); lia).
      by apply (cmp_le_lt_trans _ Hcmp y x e).
    - intros Hle. split; [done|].
      intros h' y Hh' Hy.
      assert (sets.cmp set x y ≤ 0) as Hxy.
      { eapply (ascending_lookup (sets.cmp set) Hcmp); [done| |done..]. lia. }
      apply (cmp_flip_le _ Hcmp). by apply (cmp_trans _ Hcmp e x y). }
  exists idx, found. split; [done|].
  destruct Hscan as (H0lb & Hlbidx & Hidxn & Hrun & Hend).
  exists lb. split_and!; try done.
  - intros h x Hh Hx. destruct (Hrun h x Hh Hx) as [Hc Hxe].
    split; [|done]. by apply (cmp_zero_sym _ Hcmp).
  - destruct found.
    + destruct Hend as (x & Hx & Hc & Hxe). exists x. split; [done|].
      split; [|done]. by apply (cmp_zero_sym _ Hcmp).
    + destruct Hend as [->|(x & Hx & Hne)]; [by left|]. right.
      exists x. split; [done|]. intros Hz. apply Hne.
      by apply (cmp_zero_sym _ Hcmp).
Qed.

(** The search of the comparator set of the second package. *)
Lemma func_search_two_phase (s : sets2.funcSorted E) e :
  Laws (sets2.cmp s) (sets2.eq s) → ascending (sets2.cmp s) (sets2.list_ s) →
  ∃ idx found, sets2.search s e = Ok (idx, found)
    ∧ two_phase (sets2.cmp s) (sets2.eq s) (sets2.list_ s) e idx found.
Proof.
  intros [Hcmp Heq] Hasc.
  set (I := λ i j : Z,
    (∀ h x, 0 ≤ h < i → sets2.list_ s !! Z.to_nat h = Some x → sets2.cmp s x e < 0)
    ∧ (∀ h x, j ≤ h → sets2.list_ s !! Z.to_nat h = Some x → 0 ≤ sets2.cmp s x e)).
  destruct (FuncSearch.func_search_run I s e)
    as (lb & idx & found & Hs & [Hlo Hhi] & Hscan).
  { split.
    - intros h x Hh. lia.
    - intros h x Hh Hx. apply lookup_lt_Some in Hx. unfold len in Hh. lia. }
  { intros i j h x [HIlo HIhi] Hi Hih Hhj Hj Hx. split.
    - intros Hlt. split; [|done].
      intros h' y Hh' Hy.
      assert (sets2.cmp s y x ≤ 0) as Hyx.
      { eapply (ascending_lookup (sets2.cmp s) Hcmp); [done| |done..]. lia. }
      by apply (cmp_le_lt_trans _ Hcmp y x e).
    - intros Hge. split; [done|].
      intros h' y Hh' Hy.
      assert (sets2.cmp s x y ≤ 0) as Hxy.
      { eapply (ascending_lookup (sets2.cmp s) Hcmp); [done| |done..]. lia. }
      apply (cmp_flip_le _ Hcmp). apply (cmp_trans _ Hcmp e x y); [|done].
      apply (cmp_flip_le _ Hcmp). lia. }
  exists idx, found. split; [done|].
  destruct Hscan as (H0lb & Hlbidx & Hidxn & Hrun & Hend).
  exists lb. split_and!; try done.
  - intros h x Hh Hx. destruct (Hrun h x Hh Hx) as [Hc Hex]. split.
    + by apply (cmp_zero_sym _ Hcmp).
    + by rewrite (id_sym _ _ Heq).
  - destruct found.
    + destruct Hend as (x & Hx & Hex). exists x. split; [done|].
      assert (sets2.eq s x e = true) as Hxe by by rewrite (id_sym _ _ Heq).
      split; [|done]. by apply (id_cmp _ _ Heq).
    + destruct Hend as [->|(x & Hx & Hne)]; [by left|]. right.
      exists x. split; [done|]. destruct Hne as [Hne|Hne]; [done|].
      intros Hz. apply Hne. by apply (cmp_zero_sym _ Hcmp).
Qed.

End facts.
End TwoPhase.

Import Go slicesx GoFacts.
Import Spec Spec2 Spec3 Spec4 Spec5 Spec6.
Import SearchFacts OrderFacts LoopFacts ShiftFacts SeqSpec SeqFacts BatchFacts.
Import Natural NaturalOrder NaturalSpec NaturalLaws NaturalSorted.

Import Examples.

Module ExampleLaws.
Section facts.

Lemma by_length_laws : Laws by_length exact.
Proof.
  unfold by_length, exact. split; split.
  - intros a b. lia.
  - intros a b c. lia.
  - intros a. apply String.eqb_refl.
  - intros a b. apply String.eqb_sym.
  - intros a b c H1 H2. apply String.eqb_eq in H1, H2. apply String.eqb_eq. congruence.
  - intros a b H. apply String.eqb_eq in H. subst. lia.
Qed.

Lemma by_key_laws : Laws by_key same_key.
Proof.
  unfold by_key, same_key. split; split.
  - intros a b. rewrite Compare_lt, Compare_gt. lia.
  - intros a b c. rewrite !Compare_le. lia.
  - intros a. by apply bool_decide_eq_true.
  - intros a b. apply bool_decide_ext. split; congruence.
  - intros a b c H1 H2. apply bool_decide_eq_true in H1, H2.
    apply bool_decide_eq_true. congruence.
  - intros a b H. apply bool_decide_eq_true in H. by apply Compare_zero.
Qed.

Lemma descending_laws : Laws descending same.
Proof.
  unfold descending. split; split.
  - intros a b. rewrite Compare_lt, Compare_gt. lia.
  - intros a b c. rewrite !Compare_le. lia.
  - intros a. by apply same_true.
  - intros a b. unfold same. apply bool_decide_ext. split; congruence.
  - intros a b c H1 H2. apply same_true in H1, H2. apply same_true. congruence.
  - intros a b H. apply same_true in H. by apply Compare_zero.
Qed.

(** A comparison that identifies by itself meets the contract of the
    identity ([NewSortedCmpFunc], [NewSortedMutableFunc]). *)
Lemma cmp_identity_laws {E} (cmp : E → E → Z) :
  Comparator cmp → Laws cmp (λ a b, bool_decide (cmp a b = 0)).
Proof.
  intros Hcmp. split; [done|]. split.
  - intros a. apply bool_decide_eq_true. by apply cmp_refl.
  - intros a b. apply bool_decide_ext. apply (cmp_zero_sym _ Hcmp).
  - intros a b c H1 H2. apply bool_decide_eq_true in H1, H2.
    apply bool_decide_eq_true. by apply (cmp_zero_trans _ Hcmp a b c).
  - intros a b H. by apply bool_decide_eq_true in H.
Qed.

End facts.
End ExampleLaws.

Import Go slicesx GoFacts.
Import Spec Spec2 Spec3 Spec4 Spec5 Spec6.
Import SearchFacts OrderFacts LoopFacts ShiftFacts SeqSpec SeqFacts BatchFacts.
Import Natural NaturalOrder NaturalSpec NaturalLaws NaturalSorted NaturalMerge NaturalMergeLoop NaturalDelete NaturalDeleteLoop.

Module NaturalDifference.
Section facts.

Lemma filter_all {A} (P : A → Prop) `{∀ x, Decision (P x)} (l : list A) :
  (∀ x, x ∈ l → P x) → filter P l = l.
Proof.
  induction l as [|x l IH]; intros HP; [done|].
  rewrite filter_cons, decide_True by (apply HP; by left).
  f_equal. apply IH. intros y Hy. apply HP. by right.
Qed.

Lemma filter_ext_in {A} (P Q : A → Prop) `{∀ x, Decision (P x)}
    `{∀ x, Decision (Q x)} (l : list A) :
  (∀ x, x ∈ l → P x ↔ Q x) → filter P l = filter Q l.
Proof.
  induction l as [|x l IH]; intros Hext; [done|].
  rewrite !filter_cons. rewrite IH by (intros y Hy; apply Hext; by right).
  destruct (decide (P x)) as [HP|HP]; destruct (decide (Q x)) as [HQ|HQ]; try done.
  - apply Hext in HP; [done | by left].
  - apply Hext in HQ; [done | by left].
Qed.

(** On strictly ascending lists the difference is the filter. *)
Lemma diff_uniq_filter a : ∀ b,
  strictly_sorted a → strictly_sorted b →
  diff_uniq a b = filter (λ x, x ∉ b) a.
Proof.
  induction a as [|u a IHa]; intros b Ha Hb.
  { by destruct b. }
  induction b as [|v b IHb].
  { rewrite diff_uniq_nil_r. symmetry. apply filter_all.
    intros x _ Hx. inversion Hx. }
  rewrite diff_uniq_cons.
  apply strictly_sorted_cons in Ha as Ha'. destruct Ha' as [Ha1 Ha2].
  apply strictly_sorted_cons in Hb as Hb'. destruct Hb' as [Hb1 Hb2].
  case_bool_decide as Hlt; [|case_bool_decide as Hgt].
  - rewrite filter_cons, decide_True.
    + by rewrite IHa.
    + intros Hin. apply elem_of_cons in Hin as [->|Hin]; [lia|].
      specialize (Hb2 _ Hin). lia.
  - rewrite (IHb Hb1). apply filter_ext_in.
    intros x Hx. rewrite not_elem_of_cons.
    assert (x ≠ v); [|tauto].
    intros ->. apply elem_of_cons in Hx as [->|Hx]; [lia|].
    specialize (Ha2 _ Hx). lia.
  - assert (u = v) as -> by lia.
    rewrite filter_cons, decide_False.
    2:{ intros Hn. apply Hn. by left. }
    rewrite (IHa b Ha1 Hb1). apply filter_ext_in.
    intros x Hx. rewrite not_elem_of_cons.
    assert (x ≠ v); [|tauto].
    intros ->. specialize (Ha2 _ Hx). lia.
Qed.

End facts.
End NaturalDifference.

(** The union that [MergeSorted] computes, by identity. *)
Module MergeIdentity.
Section facts.
Context {E : Type}.
Variable zero : E.
Variable cmp : E → E → Z.
Variable eq : E → E → bool.
Hypothesis HL : Laws cmp eq.

Lemma MergeSorted_seq (a b : list E) :
  sorted_seq cmp eq a → sorted_seq cmp eq b →
  ∃ r, MergeSorted zero a b cmp eq = Ok r
    ∧ sorted_seq cmp eq r
    ∧ (∀ x, x ∈ r ↔ x ∈ b ∨ (x ∈ a ∧ ∀ y, y ∈ b → eq x y = false))
    ∧ (∀ y, has eq r y ↔ has eq a y ∨ has eq b y).
Proof.
  destruct HL as [Hcmp Heq]. intros [Ha Hd] [Hb Hbd].
  destruct (MergeUnion.MergeSorted_union zero cmp eq Hcmp Heq a b Ha Hd Hb Hbd)
    as (r & Hr & Hr1 & Hr2 & Hr3).
  exists r. split; [done|]. split; [done|]. split; [done|].
  intros y. split.
  - intros (x & Hx & Hxy). apply Hr3 in Hx as [Hx|[Hx _]].
    + right. by exists x.
    + left. by exists x.
  - intros [(x & Hx & Hxy)|(x & Hx & Hxy)].
    + destruct (ContainsFunc b (λ z, eq x z)) eqn:Hc.
      * apply ContainsFunc_true in Hc as (z & Hz & Hxz).
        exists z. split; [apply Hr3; by left|].
        apply (id_trans cmp eq Heq z x y); [|done]. by rewrite (id_sym cmp eq Heq).
      * exists x. split; [|done]. apply Hr3. right. split; [done|].
        intros z Hz. by apply (proj1 (ContainsFunc_false b (λ z, eq x z)) Hc).
    + exists x. split; [|done]. apply Hr3. by left.
Qed.

End facts.
End MergeIdentity.

Import Go slicesx GoFacts.
Import Spec Spec2 Spec3 Spec4 Spec5 Spec6.
Import SearchFacts OrderFacts LoopFacts ShiftFacts SeqSpec SeqFacts BatchFacts.
Import Natural NaturalOrder NaturalSpec NaturalLaws NaturalSorted NaturalMerge NaturalMergeLoop NaturalDelete NaturalDeleteLoop.

(** Sequences without two elements of equal identity that hold the same
    identities are equally long. *)
Module IdentityCount.
Section facts.
Context {E : Type}.
Variable cmp : E → E → Z.
Variable eq : E → E → bool.
Hypothesis HL : Laws cmp eq.

Lemma eq_congr_l x z y : eq z x = true → eq z y = eq x y.
Proof.
  destruct HL as [_ Heq]. intros Hzx.
  destruct (eq x y) eqn:Hxy.
  - by apply (id_trans cmp eq Heq z x y).
  - destruct (eq z y) eqn:Hzy; [|done].
    assert (eq x y = true); [|congruence].
    apply (id_trans cmp eq Heq x z y); [|done]. by rewrite (id_sym cmp eq Heq).
Qed.

Lemma same_identities_length (l1 : list E) : ∀ l2,
  distinct eq l1 → distinct eq l2 →
  (∀ y, has eq l1 y ↔ has eq l2 y) →
  length l1 = length l2.
Proof.
  pose proof HL as [_ Heq].
  induction l1 as [|x l1 IH]; intros l2 H1 H2 Hsame.
  - destruct l2 as [|z l2]; [done|]. exfalso.
    assert (has eq [] z) as (v & Hv & _).
    { apply Hsame. exists z. split; [by left|]. apply (id_refl cmp eq Heq). }
    inversion Hv.
  - assert (has eq l2 x) as (z & Hz & Hzx).
    { apply Hsame. exists x. split; [by left|]. apply (id_refl cmp eq Heq). }
    apply list_elem_of_split in Hz as (p & r & ->).
    rewrite length_app. simpl.
    rewrite (IH (p ++ r)).
    + rewrite length_app. lia.
    + by apply distinct_cons in H1 as [H1 _].
    + apply distinct_app in H2 as (Hp & Hr & Hpr).
      apply distinct_cons in Hr as [Hr _].
      apply distinct_app. split; [done|]. split; [done|].
      intros a b Ha Hb. apply Hpr; [done | by right].
    + intros y.
      rewrite (has_close cmp eq HL p z r y H2).
      rewrite <-Hsame.
      pose proof (has_close cmp eq HL [] x l1 y H1) as Hc. simpl in Hc.
      rewrite Hc. by rewrite (eq_congr_l x z y Hzx).
Qed.

End facts.
End IdentityCount.

(** [InsertSet] against inserting the elements of [other.Elems()] one at
    a time, for the comparator set of [sorted.go]. *)
Module SortedSubstitution.
Import sets SetSpec SortedLaws.
Section facts.
Context {E : Type}.
Variable zero : E.
Implicit Types set : sorted E.

Lemma inserts_spec (l : list E) : ∀ set,
  lawful set → sorted_sequence set →
  ∃ set', for_range l Insert set = Ok set'
    ∧ cmp set' = cmp set ∧ eq set' = eq set
    ∧ sorted_sequence set'
    ∧ (∀ y, member set' y ↔ member set y ∨ has (eq set) l y).
Proof.
  induction l as [|x l IH]; intros set HL Hseq.
  { exists set. split; [done|]. split; [done|]. split; [done|]. split; [done|].
    intros y. split; [by left|]. intros [H|(v & Hv & _)]; [done | inversion Hv]. }
  cbn [for_range].
  destruct (Insert_spec set x HL Hseq) as (s1 & -> & Hc & Hq & Hs1 & _ & Hm1).
  cbn [mbind run_bind].
  destruct (IH s1) as (set' & Hrun & Hc' & Hq' & Hs' & Hm').
  { unfold lawful. by rewrite Hc, Hq. }
  { done. }
  exists set'. split; [done|]. split; [congruence|]. split; [congruence|].
  split; [done|]. intros y. rewrite Hm', Hm1, Hq. split.
  - intros [[H|H]|(v & Hv & Hvy)].
    + by left.
    + right. exists x. split; [by left | done].
    + right. exists v. split; [by right | done].
  - intros [H|(v & Hv & Hvy)]; [by left; left|].
    apply elem_of_cons in Hv as [->|Hv]; [left; by right|].
    right. by exists v.
Qed.

(** Two sets with the same functions and the same members answer
    [Contains] alike and are equally long. *)
Lemma same_members set1 set2 :
  lawful set1 → sorted_sequence set1 → sorted_sequence set2 →
  cmp set2 = cmp set1 → eq set2 = eq set1 →
  (∀ y, member set1 y ↔ member set2 y) →
  (∀ y, Contains set1 y = Contains set2 y) ∧ Len set1 = Len set2.
Proof.
  intros HL Hs1 Hs2 Hc Hq Hm.
  assert (lawful set2) as HL2 by (unfold lawful; by rewrite Hc, Hq).
  split.
  - intros y.
    destruct (Contains_spec set1 HL Hs1 y) as (b1 & -> & Hb1).
    destruct (Contains_spec set2 HL2 Hs2 y) as (b2 & -> & Hb2).
    f_equal. destruct b1, b2; try done.
    + assert (false = true); [|done]. apply Hb2, Hm, Hb1. done.
    + assert (false = true); [|done]. apply Hb1, Hm, Hb2. done.
  - unfold Len, len. f_equal.
    apply (IdentityCount.same_identities_length (cmp set1) (eq set1) HL).
    + apply Hs1.
    + destruct Hs2 as [_ Hd]. by rewrite Hq in Hd.
    + intros y. unfold member in Hm. rewrite Hq in Hm. apply Hm.
Qed.

Lemma InsertSet_as_inserts set (other : Set_ E) :
  lawful set → sorted_sequence set →
  (is_receiver other = true → set_Elems other = Elems set) →
  ∃ s1 s2,
    InsertSet zero set other = Ok s1
    ∧ for_range (set_Elems other) Insert set = Ok s2
    ∧ (∀ y, Contains s1 y = Contains s2 y)
    ∧ Len s1 = Len s2.
Proof.
  intros HL Hseq Hself.
  destruct (inserts_spec (set_Elems other) set HL Hseq)
    as (s2 & Hrun & Hc2 & Hq2 & Hs2 & Hm2).
  unfold InsertSet. destruct (is_receiver other) eqn:Hr.
  - exists set, s2. split; [done|]. split; [done|].
    apply same_members; try done.
    intros y. rewrite Hm2. split; [by left|].
    intros [H|H]; [done|]. by rewrite (Hself eq_refl) in H.
  - destruct (insertAll_spec zero set (set_Elems other) HL Hseq)
      as (s1 & -> & Hc1 & Hq1 & Hs1 & _ & Hm1).
    exists s1, s2. split; [done|]. split; [done|].
    apply same_members; try done.
    + unfold lawful. by rewrite Hc1, Hq1.
    + congruence.
    + congruence.
    + intros y. by rewrite Hm1, Hm2.
Qed.

End facts.
End SortedSubstitution.

(** The same for the comparator set of the second package. *)
Module FuncSortedSubstitution.
Import sets2 FuncSetSpec FuncSortedLaws.
Section facts.
Context {E : Type}.
Variable zero : E.
Implicit Types s : funcSorted E.

Lemma func_inserts_spec (l : list E) : ∀ s,
  lawful s → sorted_sequence s →
  ∃ s', for_range l insert s = Ok s'
    ∧ cmp s' = cmp s ∧ eq s' = eq s
    ∧ sorted_sequence s'
    ∧ (∀ y, member s' y ↔ member s y ∨ has (eq s) l y).
Proof.
  induction l as [|x l IH]; intros s HL Hseq.
  { exists s. split; [done|]. split; [done|]. split; [done|]. split; [done|].
    intros y. split; [by left|]. intros [H|(v & Hv & _)]; [done | inversion Hv]. }
  cbn [for_range].
  destruct (func_insert_spec s x HL Hseq) as (s1 & -> & Hc & Hq & Hs1 & _ & Hm1).
  cbn [mbind run_bind].
  destruct (IH s1) as (s' & Hrun & Hc' & Hq' & Hs' & Hm').
  { unfold lawful. by rewrite Hc, Hq. }
  { done. }
  exists s'. split; [done|]. split; [congruence|]. split; [congruence|].
  split; [done|]. intros y. rewrite Hm', Hm1, Hq. split.
  - intros [[H|H]|(v & Hv & Hvy)].
    + by left.
    + right. exists x. split; [by left | done].
    + right. exists v. split; [by right | done].
  - intros [H|(v & Hv & Hvy)]; [by left; left|].
    apply elem_of_cons in Hv as [->|Hv]; [left; by right|].
    right. by exists v.
Qed.

Lemma func_same_members s1 s2 :
  lawful s1 → sorted_sequence s1 → sorted_sequence s2 →
  cmp s2 = cmp s1 → eq s2 = eq s1 →
  (∀ y, member s1 y ↔ member s2 y) →
  (∀ y, Contains s1 y = Contains s2 y) ∧ Len s1 = Len s2.
Proof.
  intros HL Hs1 Hs2 Hc Hq Hm.
  assert (lawful s2) as HL2 by (unfold lawful; by rewrite Hc, Hq).
  split.
  - intros y.
    destruct (func_contains_spec s1 HL Hs1 y) as (b1 & -> & Hb1).
    destruct (func_contains_spec s2 HL2 Hs2 y) as (b2 & -> & Hb2).
    f_equal. destruct b1, b2; try done.
    + assert (false = true); [|done]. apply Hb2, Hm, Hb1. done.
    + assert (false = true); [|done]. apply Hb1, Hm, Hb2. done.
  - unfold Len, len. f_equal.
    apply (IdentityCount.same_identities_length (cmp s1) (eq s1) HL).
    + apply Hs1.
    + destruct Hs2 as [_ Hd]. by rewrite Hq in Hd.
    + intros y. unfold member in Hm. rewrite Hq in Hm. apply Hm.
Qed.

Lemma func_insertSet_as_inserts s (other : View_ E) :
  lawful s → sorted_sequence s →
  (kind other = IsReceiver → view_Elems other = Elems s) →
  ∃ s1 s2,
    insertSet zero s other = Ok s1
    ∧ for_range (view_Elems other) insert s = Ok s2
    ∧ (∀ y, Contains s1 y = Contains s2 y)
    ∧ Len s1 = Len s2.
Proof.
  intros HL Hseq Hself.
  destruct (func_inserts_spec (view_Elems other) s HL Hseq)
    as (s2 & Hrun & Hc2 & Hq2 & Hs2 & Hm2).
  destruct (func_insertAll_spec zero s (view_Elems other) HL Hseq)
    as (s1 & Hall & Hc1 & Hq1 & Hs1 & _ & Hm1).
  unfold insertSet. destruct (kind other) eqn:Hk.
  1: { exists s, s2. split; [done|]. split; [done|].
       apply func_same_members; try done.
       intros y. rewrite Hm2. split; [by left|].
       intros [H|H]; [done|]. by rewrite (Hself eq_refl) in H. }
  all: exists s1, s2; split; [done|]; split; [done|];
       apply func_same_members; try done; try congruence;
       [ unfold lawful; by rewrite Hc1, Hq1
       | intros y; by rewrite Hm1, Hm2 ].
Qed.

End facts.
End FuncSortedSubstitution.

(** Strictly ascending lists with the same elements are the same list. *)
Module NaturalExtensionality.

Lemma strictly_sorted_ext (l1 : list Z) : ∀ l2,
  strictly_sorted l1 → strictly_sorted l2 →
  (∀ x, x ∈ l1 ↔ x ∈ l2) → l1 = l2.
Proof.
  induction l1 as [|x l1 IH]; intros l2 H1 H2 Hsame.
  - destruct l2 as [|y l2]; [done|]. exfalso.
    assert (y ∈ @nil Z) as Hy by (apply Hsame; by left). inversion Hy.
  - destruct l2 as [|y l2].
    { exfalso. assert (x ∈ @nil Z) as Hx by (apply Hsame; by left). inversion Hx. }
    apply strictly_sorted_cons in H1 as [H1 Hx].
    apply strictly_sorted_cons in H2 as [H2 Hy].
    assert (x = y) as ->.
    { assert (x ∈ y :: l2) as Hxy by (apply Hsame; by left).
      assert (y ∈ x :: l1) as Hyx by (apply Hsame; by left).
      apply elem_of_cons in Hxy as [?|Hxy]; [done|].
      apply elem_of_cons in Hyx as [?|Hyx]; [done|].
      apply Hx in Hyx. apply Hy in Hxy. lia. }
    f_equal. apply IH; [done | done |].
    intros z. split; intros Hz.
    + assert (z ∈ y :: l2) as Hz' by (apply Hsame; by right).
      apply elem_of_cons in Hz' as [->|?]; [|done]. apply Hx in Hz. lia.
    + assert (z ∈ y :: l1) as Hz' by (apply Hsame; by right).
      apply elem_of_cons in Hz' as [->|?]; [|done]. apply Hy in Hz. lia.
Qed.

End NaturalExtensionality.

(** The natural-order set of the first package: [InsertSet] leaves the
    very list that inserting the elements one at a time leaves. *)
Module OrderedSubstitution.
Import ordered OrderedFacts NaturalExtensionality.

Lemma ordered_inserts_spec (l : list Z) : ∀ set,
  strictly_sorted (elems set) →
  ∃ set', for_range l Insert set = Ok set'
    ∧ strictly_sorted (elems set')
    ∧ (∀ x, x ∈ elems set' ↔ x ∈ elems set ∨ x ∈ l).
Proof.
  induction l as [|e l IH]; intros set Hs.
  { exists set. split; [done|]. split; [done|].
    intros x. split; [by left|]. intros [H|H]; [done | inversion H]. }
  cbn [for_range].
  destruct (ordered_Insert_outcome set e Hs) as (p & old & r & Hl & -> & Hold & Hs1).
  cbn [mbind run_bind].
  destruct (IH (MkOrdered (p ++ e :: r)) Hs1) as (set' & Hrun & Hs' & Hm').
  exists set'. split; [done|]. split; [done|].
  intros x. rewrite Hm'. simpl. rewrite Hl.
  destruct Hold as [[-> _]| ->]; simpl;
    rewrite !elem_of_app, !elem_of_cons, ?elem_of_app; tauto.
Qed.

Lemma ordered_InsertSet_as_inserts set (other : Set_) :
  strictly_sorted (elems set) →
  (kind other = IsReceiver → set_Elems other = elems set) →
  ∃ set', InsertSet set other = Ok set'
    ∧ for_range (set_Elems other) Insert set = Ok set'.
Proof.
  intros Hs Hself.
  destruct (ordered_inserts_spec (set_Elems other) set Hs) as (s2 & Hrun & Hs2 & Hm2).
  exists s2. split; [|done].
  assert (∀ l1, strictly_sorted l1 →
            (∀ x, x ∈ l1 ↔ x ∈ elems set ∨ x ∈ set_Elems other) →
            MkOrdered l1 = s2) as Hsame.
  { intros l1 Hl1 Hm1. destruct s2 as [l2]. f_equal.
    apply strictly_sorted_ext; [done | done |].
    intros x. by rewrite Hm1, Hm2. }
  unfold InsertSet. destruct (kind other) eqn:Hk.
  1: { destruct set as [l]. f_equal. apply Hsame; [done|].
       intros x. rewrite (Hself eq_refl). simpl. tauto. }
  all: rewrite ordered_insertAll_eq; f_equal; apply Hsame;
       [ apply merge_uniq_sorted; [done | apply sort_compact]
       | intros x; rewrite merge_uniq_elem;
         by rewrite (proj2 (sort_compact (set_Elems other)) x) ].
Qed.

End OrderedSubstitution.

(** The natural-order set of the second package: the same, where the list
    of a comparator set is in the natural order. *)
Module Ordered2Substitution.
Import sets2 ordered2 Ordered2Facts NaturalExtensionality.

Lemma ordered2_inserts_spec (l : list Z) : ∀ s,
  strictly_sorted (list_ s) →
  ∃ s', for_range l insert s = Ok s'
    ∧ strictly_sorted (list_ s')
    ∧ (∀ x, x ∈ list_ s' ↔ x ∈ list_ s ∨ x ∈ l).
Proof.
  induction l as [|e l IH]; intros s Hs.
  { exists s. split; [done|]. split; [done|].
    intros x. split; [by left|]. intros [H|H]; [done | inversion H]. }
  cbn [for_range].
  destruct (ordered2_insert_outcome s e Hs) as (p & old & r & Hl & -> & Hold & Hs1).
  cbn [mbind run_bind].
  destruct (IH (MkOrdered (p ++ e :: r)) Hs1) as (s' & Hrun & Hs' & Hm').
  exists s'. split; [done|]. split; [done|].
  intros x. rewrite Hm'. simpl. rewrite Hl.
  destruct Hold as [[-> _]| ->]; simpl;
    rewrite !elem_of_app, !elem_of_cons, ?elem_of_app; tauto.
Qed.

Lemma ordered2_insertSet_as_inserts s (other : View_ Z) :
  strictly_sorted (list_ s) →
  match kind other with
  | IsReceiver => view_Elems other = list_ s
  | IsOrdered => strictly_sorted (view_Elems other)
  | IsFuncSorted => non_decreasing (view_Elems other)
  | _ => True
  end →
  ∃ s', insertSet s other = Ok s'
    ∧ for_range (view_Elems other) insert s = Ok s'.
Proof.
  intros Hs Hother.
  destruct (ordered2_inserts_spec (view_Elems other) s Hs) as (s2 & Hrun & Hs2 & Hm2).
  exists s2. split; [|done].
  rewrite ordered2_insertSet_eq. destruct s2 as [l2]. do 2 f_equal.
  simpl in Hs2, Hm2.
  apply strictly_sorted_ext; [|done|].
  - apply merge_uniq_sorted; [done|].
    destruct (kind other); try apply sort_compact.
    + done.
    + done.
    + by apply Compact_sorted.
  - intros x. rewrite merge_uniq_elem, Hm2.
    destruct (kind other).
    + by rewrite Hother.
    + done.
    + by rewrite Compact_elem.
    + by rewrite (proj2 (sort_compact (view_Elems other)) x).
    + by rewrite (proj2 (sort_compact (view_Elems other)) x).
Qed.

End Ordered2Substitution.

Import Go slicesx GoFacts.
Import Spec Spec2 Spec3 Spec4 Spec5 Spec6.
Import SearchFacts OrderFacts LoopFacts ShiftFacts SeqSpec SeqFacts BatchFacts.
Import Natural NaturalOrder NaturalSpec NaturalLaws NaturalSorted NaturalMerge NaturalMergeLoop NaturalDelete NaturalDeleteLoop.
Import Examples ExampleLaws.

(** Sortedness of a given list, by computation. *)
Ltac sorted_by_computation :=
  unfold sorted_seq, ascending, distinct, strictly_sorted;
  repeat match goal with
         | |- _ ∧ _ => split
         | |- StronglySorted _ _ => constructor
         | |- Forall _ _ => constructor
         end;
  vm_compute; try done; try (intros ?; discriminate).

(** * The slice algorithms *)
Module SliceProperties.

(** C1.  Merging B into A, both sorted by [cmp] and without two elements
    of equal identity under [eq], returns the sorted union without two
    elements of equal identity: the elements of B, and the elements of A
    whose identity is not in B, so that on a collision the result holds
    the value of B.  The natural-order merge of [sorted.go] returns the
    strictly ascending union.  Merging B = {2,6,8} into A = {1,2,3,4,5}
    yields [1,2,3,4,5,6,8], and the element 2 is the one of B. *)
Theorem merge_into_union {E : Type} (zero : E) (cmp : E → E → Z)
    (eq : E → E → bool) (A B : list E) :
  Laws cmp eq → sorted_seq cmp eq A → sorted_seq cmp eq B →
  (∃ A', MergeSorted zero A B cmp eq = Ok A'
     ∧ sorted_seq cmp eq A'
     ∧ (∀ x, x ∈ A' ↔ x ∈ B ∨ (x ∈ A ∧ ∀ y, y ∈ B → eq x y = false))
     ∧ (∀ y, has eq A' y ↔ has eq A y ∨ has eq B y))
  ∧ (∀ a b : list Z, strictly_sorted a → strictly_sorted b →
       ∃ a', ordered.mergeUniqSortedLists a b = Ok a'
         ∧ strictly_sorted a' ∧ ∀ x, x ∈ a' ↔ x ∈ a ∨ x ∈ b)
  ∧ MergeSorted (0, 0) tagged_A tagged_B by_key same_key
    = Ok [(1, 0); (2, 1); (3, 0); (4, 0); (5, 0); (6, 1); (8, 1)]
  ∧ ordered.mergeUniqSortedLists [1; 2; 3; 4; 5] [2; 6; 8]
    = Ok [1; 2; 3; 4; 5; 6; 8].
Proof.
  intros HL HA HB. split_and!.
  - by apply MergeIdentity.MergeSorted_seq.
  - intros a b Ha Hb. unfold ordered.mergeUniqSortedLists.
    rewrite MergeSortedUniq_spec. eexists. split; [done|].
    split; [by apply merge_uniq_sorted | apply merge_uniq_elem].
  - by vm_compute.
  - by vm_compute.
Qed.

Lemma merge_into_union_witness :
  Laws by_key same_key
  ∧ sorted_seq by_key same_key tagged_A
  ∧ sorted_seq by_key same_key tagged_B
  ∧ ∃ A', MergeSorted (0, 0) tagged_A tagged_B by_key same_key = Ok A'
      ∧ sorted_seq by_key same_key A'
      ∧ (∀ x, x ∈ A' ↔ x ∈ tagged_B
                       ∨ (x ∈ tagged_A ∧ ∀ y, y ∈ tagged_B → same_key x y = false))
      ∧ (∀ y, has same_key A' y ↔ has same_key tagged_A y ∨ has same_key tagged_B y).
Proof.
  assert (sorted_seq by_key same_key tagged_A) as HA by sorted_by_computation.
  assert (sorted_seq by_key same_key tagged_B) as HB by sorted_by_computation.
  split; [apply by_key_laws|]. split; [done|]. split; [done|].
  exact (proj1 (merge_into_union (0, 0) by_key same_key tagged_A tagged_B
                  by_key_laws HA HB)).
Defined.

(** C3.  [StableSortUniqFuncs] is what the specification says of
    StableSortDedup: the list is sorted stably by [cmp] (a permutation,
    non-decreasing, the elements of each order key in their original
    order); then each run of equal order key keeps one element per
    identity under [eq], in the order in which the identities are first
    seen and with the value of the last occurrence of the identity.
    [uniqEqSlow] does the latter on one run, [uniqCmpEq] on all runs. *)
Theorem stable_sort_dedup {E : Type} (zero : E) (cmp : E → E → Z)
    (eq : E → E → bool) (l : list E) :
  Laws cmp eq →
  StableSortUniqFuncs zero l cmp eq = Ok (StableSortDedup_spec cmp eq l)
  ∧ SortStableFunc cmp l ≡ₚ l
  ∧ ascending cmp (SortStableFunc cmp l)
  ∧ (∀ k, filter (λ y, cmp k y = 0) (SortStableFunc cmp l)
          = filter (λ y, cmp k y = 0) l)
  ∧ uniqEqSlow zero l eq
    = Ok (keep_last eq l ++ replicate (length l - length (keep_last eq l)) zero,
          len (keep_last eq l))
  ∧ sets.uniqCmpEq zero l cmp eq
    = Ok (concat (keep_last eq <$> maximal_runs cmp l)).
Proof.
  intros [Hcmp Heq]. split_and!.
  - by apply RunsFacts.StableSortUniqFuncs_spec.
  - apply SortFacts.SortStableFunc_perm.
  - by apply SortFacts.SortStableFunc_ascending.
  - intros k. by apply SortFacts.SortStableFunc_stable.
  - rewrite UniqFacts.uniqEqSlow_spec.
    by rewrite (DedupFacts.dedup_keep_last cmp eq Heq).
  - unfold sets.uniqCmpEq. rewrite UniqFacts.UniqSortedFuncs_spec.
    rewrite (RunsFacts.runs_maximal cmp Hcmp). do 2 f_equal.
    apply list_fmap_ext. intros i x _.
    apply (DedupFacts.dedup_keep_last cmp eq Heq).
Qed.

Lemma stable_sort_dedup_witness :
  Laws by_key same_key
  ∧ StableSortUniqFuncs (0, 0) [(3, 0); (1, 1); (3, 2); (2, 3); (1, 4)] by_key same_key
    = Ok (StableSortDedup_spec by_key same_key
            [(3, 0); (1, 1); (3, 2); (2, 3); (1, 4)])
  ∧ StableSortDedup_spec by_key same_key [(3, 0); (1, 1); (3, 2); (2, 3); (1, 4)]
    = [(1, 4); (2, 3); (3, 2)].
Proof.
  split; [apply by_key_laws|]. split.
  - exact (proj1 (stable_sort_dedup (0, 0) by_key same_key
                    [(3, 0); (1, 1); (3, 2); (2, 3); (1, 4)] by_key_laws)).
  - by vm_compute.
Defined.

(** C4.  Deleting B from A, both sorted by [cmp], returns A without
    exactly the elements whose identity under [eq] is that of some
    element of B, the others in their order.  The natural-order difference
    of [sorted.go] returns A without the elements of B.  Deleting {2,4}
    from {1,2,3,4,5} yields [1,3,5]. *)
Theorem delete_from_removes_matches {E : Type} (zero : E) (cmp : E → E → Z)
    (eq : E → E → bool) (A B : list E) :
  Laws cmp eq → ascending cmp A → distinct eq A → ascending cmp B →
  DeleteSorted zero A B cmp eq
  = Ok (filter (λ x, ContainsFunc B (λ y, eq x y) = false) A)
  ∧ (∀ x, ContainsFunc B (λ y, eq x y) = true ↔ ∃ y, y ∈ B ∧ eq x y = true)
  ∧ (∀ a b : list Z, strictly_sorted a → strictly_sorted b →
       ordered.diffUniqSortedLists a b = Ok (filter (λ x, x ∉ b) a))
  ∧ DeleteSorted 0 [1; 2; 3; 4; 5] [2; 4] Compare same = Ok [1; 3; 5]
  ∧ ordered.diffUniqSortedLists [1; 2; 3; 4; 5] [2; 4] = Ok [1; 3; 5].
Proof.
  intros [Hcmp Heq] HA _ HB. split_and!.
  - by apply DeleteCorrect.DeleteSorted_filter.
  - intros x. apply ContainsFunc_true.
  - intros a b Ha Hb. unfold ordered.diffUniqSortedLists.
    rewrite DeleteSortedUniq_spec. f_equal.
    by apply NaturalDifference.diff_uniq_filter.
  - by vm_compute.
  - by vm_compute.
Qed.

Lemma delete_from_removes_matches_witness :
  Laws by_key same_key
  ∧ ascending by_key tagged_A ∧ distinct same_key tagged_A
  ∧ ascending by_key tagged_B
  ∧ DeleteSorted (0, 0) tagged_A tagged_B by_key same_key
    = Ok (filter (λ x, ContainsFunc tagged_B (λ y, same_key x y) = false) tagged_A).
Proof.
  assert (sorted_seq by_key same_key tagged_A) as [HA HdA] by sorted_by_computation.
  assert (sorted_seq by_key same_key tagged_B) as [HB _] by sorted_by_computation.
  split; [apply by_key_laws|]. split; [done|]. split; [done|]. split; [done|].
  exact (proj1 (delete_from_removes_matches (0, 0) by_key same_key tagged_A tagged_B
                  by_key_laws HA HdA HB)).
Defined.

End SliceProperties.

Import Go slicesx GoFacts.
Import Spec Spec2 Spec3 Spec4 Spec5 Spec6.
Import SearchFacts OrderFacts LoopFacts ShiftFacts SeqSpec SeqFacts BatchFacts.
Import Natural NaturalOrder NaturalSpec NaturalLaws NaturalSorted NaturalMerge NaturalMergeLoop NaturalDelete NaturalDeleteLoop.
Import Examples ExampleLaws.
Import String.StringSyntax.

(** * The sorted sequence of a set *)
Module SequenceProperties.
Local Open Scope string_scope.

(** C2, as the specification states it, fails for a comparator set: with
    strings ordered by length and identified by exact value, the set
    built from nothing by inserting "ab" and "cd" lists both, and their
    order keys are equal. *)
Lemma comparator_elems_not_strictly_ascending :
  Laws by_length exact
  ∧ ∃ set,
      (s ← sets.NewSortedCmpEqFunc "" by_length exact [];
       SortedOps.apply_all "" s [SortedOps.DoInsert "ab"; SortedOps.DoInsert "cd"])
      = Ok set
      ∧ sets.Elems set = ["ab"; "cd"]
      ∧ ¬ (strictly_ascending (sets.cmp set) (sets.Elems set)
           ∧ distinct (sets.eq set) (sets.Elems set)).
Proof.
  split; [apply by_length_laws|].
  eexists. split; [by vm_compute|]. split; [done|].
  intros [Hs _]. simpl in Hs. unfold strictly_ascending in Hs.
  apply StronglySorted_inv in Hs as [_ Hs].
  apply Forall_cons in Hs as [Hs _]. vm_compute in Hs. discriminate.
Qed.

(** C2, amended.  For a comparator set whose functions meet their
    contract, after the constructor and any sequence of public
    operations [Elems] is non-decreasing by order key and holds no two
    elements of equal identity.  For a natural-order set, the other sets
    handed in being sets themselves, [Elems] is strictly ascending; for the
    natural-order set of the second package [InsertSet] of a comparator
    set is considered where that set is in natural order. *)
Theorem elems_sorted_distinct {E : Type} (zero : E) (cmp : E → E → Z)
    (eq : E → E → bool) (l : list E)
    (ops1 : list (SortedOps.op E)) (ops2 : list (FuncSortedOps.op E))
    (lz : list Z) (ops3 : list OrderedOps.op) (ops4 : list Ordered2Ops.op) :
  Laws cmp eq →
  Forall OrderedOps.proper_op ops3 →
  Forall Ordered2Ops.proper_op ops4 →
  (∃ set, (s ← sets.NewSortedCmpEqFunc zero cmp eq l;
           SortedOps.apply_all zero s ops1) = Ok set
     ∧ ascending cmp (sets.Elems set) ∧ distinct eq (sets.Elems set))
  ∧ (∃ s, (s0 ← sets2.funcSort zero l cmp eq;
           FuncSortedOps.apply_all zero s0 ops2) = Ok s
     ∧ ascending cmp (sets2.Elems s) ∧ distinct eq (sets2.Elems s))
  ∧ (∃ set, OrderedOps.apply_all (ordered.NewSorted lz) ops3 = Ok set
     ∧ strictly_sorted (ordered.Elems set))
  ∧ (∃ s, Ordered2Ops.apply_all (ordered2.NewSorted lz) ops4 = Ok s
     ∧ strictly_sorted (ordered2.Elems s)).
Proof.
  intros HL Hp3 Hp4. split_and!.
  - destruct (SortedLaws.NewSortedCmpEqFunc_spec zero cmp eq l HL)
      as (s0 & -> & Hc & Hq & Hs & _).
    cbn [mbind run_bind].
    destruct (SortedInvariant.apply_all_kept zero ops1 s0)
      as (set & -> & Hc' & Hq' & [Ha Hd]).
    { unfold SetSpec.lawful. by rewrite Hc, Hq. }
    { done. }
    exists set. split; [done|]. unfold sets.Elems.
    rewrite Hc', Hc in Ha. rewrite Hq', Hq in Hd. done.
  - destruct (FuncSortedLaws.funcSort_spec zero cmp eq l HL)
      as (s0 & -> & Hc & Hq & Hs & _).
    cbn [mbind run_bind].
    destruct (FuncSortedInvariant.func_apply_all_kept zero ops2 s0)
      as (s & -> & Hc' & Hq' & [Ha Hd]).
    { unfold FuncSetSpec.lawful. by rewrite Hc, Hq. }
    { done. }
    exists s. split; [done|]. unfold sets2.Elems.
    rewrite Hc', Hc in Ha. rewrite Hq', Hq in Hd. done.
  - apply OrderedInvariant.apply_all_sorted; [|done].
    apply OrderedInvariant.NewSorted_sorted.
  - apply Ordered2Facts.ordered2_apply_all_sorted; [|done].
    apply Ordered2Facts.order_sorted.
Qed.

Lemma elems_sorted_distinct_witness :
  Laws by_length exact
  ∧ (∃ set, (s ← sets.NewSortedCmpEqFunc "" by_length exact ["cd"; "a"; "cd"];
             SortedOps.apply_all "" s
               [SortedOps.DoInsert "ab"; SortedOps.DoRemove "a";
                SortedOps.DoInsertAll ["xyz"; "ab"]]) = Ok set
       ∧ ascending by_length (sets.Elems set) ∧ distinct exact (sets.Elems set))
  ∧ (∃ set, OrderedOps.apply_all (ordered.NewSorted [3; 1; 3])
              [OrderedOps.DoInsert 2; OrderedOps.DoRemoveAll [1; 5]] = Ok set
       ∧ strictly_sorted (ordered.Elems set)).
Proof.
  assert (Forall OrderedOps.proper_op
            [OrderedOps.DoInsert 2; OrderedOps.DoRemoveAll [1; 5]]) as H3
    by (repeat constructor).
  assert (Forall Ordered2Ops.proper_op []) as H4 by constructor.
  pose proof (elems_sorted_distinct "" by_length exact ["cd"; "a"; "cd"]
                [SortedOps.DoInsert "ab"; SortedOps.DoRemove "a";
                 SortedOps.DoInsertAll ["xyz"; "ab"]]
                [] [3; 1; 3]
                [OrderedOps.DoInsert 2; OrderedOps.DoRemoveAll [1; 5]] []
                by_length_laws H3 H4) as (H & _ & H' & _).
  split; [apply by_length_laws|]. split; [exact H | exact H'].
Defined.

(** C5.  The natural-order set of the second package merges the elements
    of a comparator set as they come, in the order of that set's
    comparator: with A = {1,2,3} and B = {4,5} in descending order,
    [A.InsertSet(B)] leaves the list [1,2,3,5,4], in which [Contains] does
    not find 4; inserting the elements of [B.Elems()] one at a time leaves
    [1,2,3,4,5]. *)
Theorem insert_set_of_comparator_set_unsorted :
  let A := ordered2.NewSorted [1; 2; 3] in
  ∃ B,
    sets2.funcSort 0 [4; 5] descending same = Ok B
    ∧ sets2.Elems B = [5; 4]
    ∧ let other := sets2.MkView sets2.IsFuncSorted (λ e, bool_decide (e ∈ [4; 5]))
                     (sets2.Elems B) (sets2.Elems B) in
      (s ← ordered2.InsertSet A other;
       c ← ordered2.Contains s 4;
       Ok (ordered2.Elems s, ordered2.Len s, c))
      = Ok ([1; 2; 3; 5; 4], 5, false)
      ∧ (s ← for_range (sets2.Elems B) ordered2.Insert A;
         c ← ordered2.Contains s 4;
         Ok (ordered2.Elems s, ordered2.Len s, c))
        = Ok ([1; 2; 3; 4; 5], 5, true).
Proof.
  eexists. split; [by vm_compute|]. split; [done|]. split; by vm_compute.
Qed.

End SequenceProperties.

Import Go slicesx GoFacts.
Import Spec Spec2 Spec3 Spec4 Spec5 Spec6.
Import SearchFacts OrderFacts LoopFacts ShiftFacts SeqSpec SeqFacts BatchFacts.
Import Natural NaturalOrder NaturalSpec NaturalLaws NaturalSorted NaturalMerge NaturalMergeLoop NaturalDelete NaturalDeleteLoop.
Import SearchSpec Examples ExampleLaws.
Import String.StringSyntax.

(** * Membership and insertion *)
Module MembershipProperties.
Local Open Scope string_scope.

(** C6.  In a comparator set, [search] is a binary search by order key
    followed by a scan of the run of that key that tests identity with
    [eq], and [Contains] answers whether the identity is in the set; so
    elements of equal order key and different identity are different
    members.  With strings ordered by length and identified by exact
    value, after inserting "ab" and "cd" both are contained and the
    length is 2. *)
Theorem contains_by_identity {E : Type} (set : sets.sorted E)
    (s : sets2.funcSorted E) (e : E) :
  SetSpec.lawful set → SetSpec.sorted_sequence set →
  FuncSetSpec.lawful s → FuncSetSpec.sorted_sequence s →
  (∃ idx found,
     sets.search set e = Ok (idx, found)
     ∧ two_phase (sets.cmp set) (sets.eq set) (sets.elems set) e idx found
     ∧ sets.Contains set e = Ok found
     ∧ (found = true ↔ SetSpec.member set e))
  ∧ (∃ idx found,
       sets2.search s e = Ok (idx, found)
       ∧ two_phase (sets2.cmp s) (sets2.eq s) (sets2.list_ s) e idx found
       ∧ sets2.Contains s e = Ok found
       ∧ (found = true ↔ FuncSetSpec.member s e))
  ∧ (s0 ← sets.NewSortedCmpEqFunc "" by_length exact [];
     s1 ← sets.Insert s0 "ab";
     s2 ← sets.Insert s1 "cd";
     a ← sets.Contains s2 "ab";
     b ← sets.Contains s2 "cd";
     Ok (a, b, sets.Len s2)) = Ok (true, true, 2)
  ∧ (s0 ← sets2.NewSortedFuncs "" by_length exact [];
     s1 ← sets2.Insert s0 "ab";
     s2 ← sets2.Insert s1 "cd";
     a ← sets2.Contains s2 "ab";
     b ← sets2.Contains s2 "cd";
     Ok (a, b, sets2.Len s2)) = Ok (true, true, 2).
Proof.
  intros HL Hseq HL2 Hseq2. split_and!.
  - destruct (TwoPhase.search_two_phase set e HL (proj1 Hseq))
      as (idx & found & Hs & Htp).
    exists idx, found. split; [done|]. split; [done|].
    unfold sets.Contains. rewrite Hs. split; [done|].
    apply (located_has (sets.cmp set)) with (idx := idx).
    apply TwoPhase.two_phase_located; [done | apply Hseq | done].
  - destruct (TwoPhase.func_search_two_phase s e HL2 (proj1 Hseq2))
      as (idx & found & Hs & Htp).
    exists idx, found. split; [done|]. split; [done|].
    unfold sets2.Contains. rewrite Hs. split; [done|].
    apply (located_has (sets2.cmp s)) with (idx := idx).
    apply TwoPhase.two_phase_located; [done | apply Hseq2 | done].
  - by vm_compute.
  - by vm_compute.
Qed.

Lemma contains_by_identity_witness :
  let set := sets.MkSorted ["a"; "ab"; "cd"] by_length exact in
  let s := sets2.MkFuncSorted ["a"; "ab"; "cd"] by_length exact in
  SetSpec.lawful set ∧ SetSpec.sorted_sequence set
  ∧ FuncSetSpec.lawful s ∧ FuncSetSpec.sorted_sequence s
  ∧ ∃ idx found,
      sets.search set "cd" = Ok (idx, found)
      ∧ two_phase by_length exact ["a"; "ab"; "cd"] "cd" idx found
      ∧ sets.Contains set "cd" = Ok found
      ∧ (found = true ↔ SetSpec.member set "cd").
Proof.
  intros set s.
  assert (sorted_seq by_length exact ["a"; "ab"; "cd"]) as Hs
    by sorted_by_computation.
  split; [apply by_length_laws|]. split; [exact Hs|].
  split; [apply by_length_laws|]. split; [exact Hs|].
  exact (proj1 (contains_by_identity set s "cd" by_length_laws Hs by_length_laws Hs)).
Defined.

(** C8.  Inserting an element a second time leaves the length and the
    elements of a sorted set as the first insertion left them: in the
    comparator sets and the natural-order sets of both packages. *)
Theorem insert_idempotent {E : Type} (set : sets.sorted E)
    (s : sets2.funcSorted E) (e : E)
    (oset : ordered.ordered) (os : ordered2.ordered) (z : Z) :
  SetSpec.lawful set → SetSpec.sorted_sequence set →
  FuncSetSpec.lawful s → FuncSetSpec.sorted_sequence s →
  strictly_sorted (ordered.elems oset) → strictly_sorted (ordered2.list_ os) →
  (∃ set1 set2, sets.Insert set e = Ok set1 ∧ sets.Insert set1 e = Ok set2
     ∧ sets.Len set2 = sets.Len set1 ∧ sets.Elems set2 = sets.Elems set1)
  ∧ (∃ s1 s2, sets2.Insert s e = Ok s1 ∧ sets2.Insert s1 e = Ok s2
       ∧ sets2.Len s2 = sets2.Len s1 ∧ sets2.Elems s2 = sets2.Elems s1)
  ∧ (∃ set1 set2, ordered.Insert oset z = Ok set1 ∧ ordered.Insert set1 z = Ok set2
       ∧ ordered.Len set2 = ordered.Len set1
       ∧ ordered.Elems set2 = ordered.Elems set1)
  ∧ (∃ s1 s2, ordered2.insert os z = Ok s1 ∧ ordered2.insert s1 z = Ok s2
       ∧ ordered2.Len s2 = ordered2.Len s1
       ∧ ordered2.Elems s2 = ordered2.Elems s1).
Proof.
  intros HL Hseq HL2 Hseq2 Ho Ho2. split_and!.
  - destruct (SortedLaws.Insert_spec set e HL Hseq) as (set1 & H1 & _).
    exists set1, set1. split; [done|].
    split; [by apply (SortedLaws.Insert_twice set e set1)|]. done.
  - destruct (FuncSortedLaws.func_insert_spec s e HL2 Hseq2) as (s1 & H1 & _).
    exists s1, s1. split; [done|].
    split; [by apply (FuncSortedLaws.func_insert_twice s e s1)|]. done.
  - destruct (OrderedFacts.ordered_Insert_outcome oset z Ho)
      as (p & old & r & _ & H1 & _).
    eexists _, _. split; [done|].
    split; [by apply (OrderedFacts.ordered_Insert_twice oset z)|]. done.
  - destruct (Ordered2Facts.ordered2_insert_outcome os z Ho2)
      as (p & old & r & _ & H1 & _).
    eexists _, _. split; [done|].
    split; [by apply (Ordered2Facts.ordered2_insert_twice os z)|]. done.
Qed.

Lemma insert_idempotent_witness :
  let set := sets.MkSorted ["a"; "cd"] by_length exact in
  let s := sets2.MkFuncSorted ["a"; "cd"] by_length exact in
  SetSpec.lawful set ∧ SetSpec.sorted_sequence set
  ∧ FuncSetSpec.lawful s ∧ FuncSetSpec.sorted_sequence s
  ∧ strictly_sorted [1; 3] ∧ strictly_sorted [1; 3]
  ∧ ∃ set1 set2, sets.Insert set "ab" = Ok set1 ∧ sets.Insert set1 "ab" = Ok set2
      ∧ sets.Len set2 = sets.Len set1 ∧ sets.Elems set2 = sets.Elems set1.
Proof.
  intros set s.
  assert (sorted_seq by_length exact ["a"; "cd"]) as Hs by sorted_by_computation.
  assert (strictly_sorted [1; 3]) as Ho by sorted_by_computation.
  split; [apply by_length_laws|]. split; [exact Hs|].
  split; [apply by_length_laws|]. split; [exact Hs|].
  split; [exact Ho|]. split; [exact Ho|].
  exact (proj1 (insert_idempotent set s "ab" (ordered.MkOrdered [1; 3])
                  (ordered2.MkOrdered [1; 3]) 2
                  by_length_laws Hs by_length_laws Hs Ho Ho)).
Defined.

(** C10.  When the identity of [e] is already in a sorted set,
    [Insert(e)] puts [e] in the place of the stored element of that
    identity and the length is unchanged.  In a comparator set, where the
    two can differ, the list afterwards holds [e] itself where the old
    element was, between the same elements; in a natural-order set the
    list is as it was. *)
Theorem insert_replaces_equal_identity {E : Type} (set : sets.sorted E)
    (s : sets2.funcSorted E) (e : E)
    (oset : ordered.ordered) (os : ordered2.ordered) (z : Z) :
  SetSpec.lawful set → SetSpec.sorted_sequence set → SetSpec.member set e →
  FuncSetSpec.lawful s → FuncSetSpec.sorted_sequence s → FuncSetSpec.member s e →
  strictly_sorted (ordered.elems oset) → z ∈ ordered.elems oset →
  strictly_sorted (ordered2.list_ os) → z ∈ ordered2.list_ os →
  (∃ p x r set',
     sets.Elems set = p ++ x :: r ∧ sets.eq set x e = true
     ∧ sets.Insert set e = Ok set'
     ∧ sets.Elems set' = p ++ e :: r
     ∧ sets.Len set' = sets.Len set)
  ∧ (∃ p x r s',
       sets2.Elems s = p ++ x :: r ∧ sets2.eq s x e = true
       ∧ sets2.Insert s e = Ok s'
       ∧ sets2.Elems s' = p ++ e :: r
       ∧ sets2.Len s' = sets2.Len s)
  ∧ (∃ set', ordered.Insert oset z = Ok set'
       ∧ ordered.Elems set' = ordered.Elems oset
       ∧ ordered.Len set' = ordered.Len oset)
  ∧ (∃ s', ordered2.Insert os z = Ok s'
       ∧ ordered2.Elems s' = ordered2.Elems os
       ∧ ordered2.Len s' = ordered2.Len os).
Proof.
  intros HL Hseq Hm HL2 Hseq2 Hm2 Ho Hz Ho2 Hz2. split_and!.
  - destruct (SortedLaws.Insert_replaces set e HL Hseq Hm) as (p & x & r & Hl & Hxe & Hi).
    exists p, x, r. eexists. split; [done|]. split; [done|]. split; [done|].
    split; [done|]. unfold sets.Len. simpl. rewrite Hl, !len_app, !len_cons. done.
  - destruct (FuncSortedLaws.func_insert_replaces s e HL2 Hseq2 Hm2)
      as (p & x & r & Hl & Hxe & Hi).
    exists p, x, r. eexists. split; [done|]. split; [done|]. split; [done|].
    split; [done|]. unfold sets2.Len. simpl. rewrite Hl, !len_app, !len_cons. done.
  - eexists. split; [by apply OrderedFacts.ordered_Insert_present|]. done.
  - eexists. split; [by apply Ordered2Facts.ordered2_insert_present|]. done.
Qed.

Lemma insert_replaces_equal_identity_witness :
  let set := sets.MkSorted tagged_A by_key same_key in
  let s := sets2.MkFuncSorted tagged_A by_key same_key in
  SetSpec.lawful set ∧ SetSpec.sorted_sequence set ∧ SetSpec.member set (2, 1)
  ∧ FuncSetSpec.lawful s ∧ FuncSetSpec.sorted_sequence s
  ∧ FuncSetSpec.member s (2, 1)
  ∧ strictly_sorted [1; 3] ∧ 3 ∈ [1; 3]
  ∧ ∃ p x r set',
      sets.Elems set = p ++ x :: r ∧ same_key x (2, 1) = true
      ∧ sets.Insert set (2, 1) = Ok set'
      ∧ sets.Elems set' = p ++ (2, 1) :: r
      ∧ sets.Len set' = sets.Len set.
Proof.
  intros set s.
  assert (sorted_seq by_key same_key tagged_A) as Hs by sorted_by_computation.
  assert (has same_key tagged_A (2, 1)) as Hm.
  { exists (2, 0). split; [|by vm_compute]. unfold tagged_A.
    apply elem_of_cons. right. apply elem_of_cons. by left. }
  assert (strictly_sorted [1; 3]) as Ho by sorted_by_computation.
  assert (3 ∈ [1; 3]) as Hz by (apply elem_of_cons; right; apply elem_of_cons; by left).
  split; [apply by_key_laws|]. split; [exact Hs|]. split; [exact Hm|].
  split; [apply by_key_laws|]. split; [exact Hs|]. split; [exact Hm|].
  split; [exact Ho|]. split; [exact Hz|].
  exact (proj1 (insert_replaces_equal_identity set s (2, 1)
                  (ordered.MkOrdered [1; 3]) (ordered2.MkOrdered [1; 3]) 3
                  by_key_laws Hs Hm by_key_laws Hs Hm Ho Hz Ho Hz)).
Defined.

End MembershipProperties.

Import Go slicesx GoFacts.
Import Spec Spec2 Spec3 Spec4 Spec5 Spec6.
Import SearchFacts OrderFacts LoopFacts ShiftFacts SeqSpec SeqFacts BatchFacts.
Import Natural NaturalOrder NaturalSpec NaturalLaws NaturalSorted NaturalMerge NaturalMergeLoop NaturalDelete NaturalDeleteLoop.
Import SearchSpec Examples ExampleLaws Heap HeapFacts.

(** * Safety and ownership *)
Module SafetyProperties.


(** C9.  [Elems] returns a copy in a backing array of its own.  The copy
    holds the elements of the set; whatever is then written through the
    returned slice, [Contains], [Len] and a later [Elems] of the set give
    what they gave before; and whatever mutating methods are then called
    on the set, the returned slice holds what it held.  For the
    comparator sets and the natural-order sets of both packages. *)
Theorem elems_freshly_owned {E : Type} (zero : E) (h : list (list E))
    (set : SortedHeap.sorted E) (s : FuncSortedHeap.funcSorted E)
    (hz : list (list Z)) (oset : OrderedHeap.ordered) (os : Ordered2Heap.ordered) :
  valid h (SortedHeap.elems set) → valid h (FuncSortedHeap.list_ s) →
  valid hz (OrderedHeap.elems oset) → valid hz (Ordered2Heap.list_ os) →
  (let '(h1, r) := SortedHeap.Elems h set in
   contents h1 r = sets.Elems (SortedHeap.read h set)
   ∧ (∀ ws h2, writes h1 r ws = Ok h2 →
        (∀ e, SortedHeap.Contains h2 set e = SortedHeap.Contains h set e)
        ∧ sets.Len (SortedHeap.read h2 set) = sets.Len (SortedHeap.read h set)
        ∧ (let '(h3, r') := SortedHeap.Elems h2 set in
           contents h3 r' = sets.Elems (SortedHeap.read h set)))
   ∧ (∀ ms h2 set2, SortedHeap.mutate_all zero (h1, set) ms = Ok (h2, set2) →
        contents h2 r = contents h1 r))
  ∧ (let '(h1, r) := FuncSortedHeap.Elems h s in
     contents h1 r = sets2.Elems (FuncSortedHeap.read h s)
     ∧ (∀ ws h2, writes h1 r ws = Ok h2 →
          (∀ e, FuncSortedHeap.Contains h2 s e = FuncSortedHeap.Contains h s e)
          ∧ sets2.Len (FuncSortedHeap.read h2 s) = sets2.Len (FuncSortedHeap.read h s)
          ∧ (let '(h3, r') := FuncSortedHeap.Elems h2 s in
             contents h3 r' = sets2.Elems (FuncSortedHeap.read h s)))
     ∧ (∀ ms h2 s2, FuncSortedHeap.mutate_all zero (h1, s) ms = Ok (h2, s2) →
          contents h2 r = contents h1 r))
  ∧ (let '(h1, r) := OrderedHeap.Elems hz oset in
     contents h1 r = ordered.Elems (OrderedHeap.read hz oset)
     ∧ (∀ ws h2, writes h1 r ws = Ok h2 →
          (∀ e, OrderedHeap.Contains h2 oset e = OrderedHeap.Contains hz oset e)
          ∧ ordered.Len (OrderedHeap.read h2 oset)
            = ordered.Len (OrderedHeap.read hz oset)
          ∧ (let '(h3, r') := OrderedHeap.Elems h2 oset in
             contents h3 r' = ordered.Elems (OrderedHeap.read hz oset)))
     ∧ (∀ ms h2 set2, OrderedHeap.mutate_all (h1, oset) ms = Ok (h2, set2) →
          contents h2 r = contents h1 r))
  ∧ (let '(h1, r) := Ordered2Heap.Elems hz os in
     contents h1 r = ordered2.Elems (Ordered2Heap.read hz os)
     ∧ (∀ ws h2, writes h1 r ws = Ok h2 →
          (∀ e, Ordered2Heap.Contains h2 os e = Ordered2Heap.Contains hz os e)
          ∧ ordered2.Len (Ordered2Heap.read h2 os)
            = ordered2.Len (Ordered2Heap.read hz os)
          ∧ (let '(h3, r') := Ordered2Heap.Elems h2 os in
             contents h3 r' = ordered2.Elems (Ordered2Heap.read hz os)))
     ∧ (∀ ms h2 s2, Ordered2Heap.mutate_all (h1, os) ms = Ok (h2, s2) →
          contents h2 r = contents h1 r)).
Proof.
  intros Hv Hv2 Hv3 Hv4. split_and!.
  - pose proof (SortedOwnership.Elems_apart h set Hv) as He.
    destruct (SortedHeap.Elems h set) as [h1 r].
    destruct He as (Hr & Hread & Hap). split; [done|]. split.
    + intros ws h2 Hw.
      destruct (SortedOwnership.writes_apart h1 set r ws h2 Hap Hw) as [Hread2 Hap2].
      assert (SortedHeap.read h2 set = SortedHeap.read h set) as Heq by congruence.
      split; [intros e; unfold SortedHeap.Contains; by rewrite Heq|].
      split; [by rewrite Heq|].
      pose proof (SortedOwnership.Elems_apart h2 set (proj1 Hap2)) as He2.
      destruct (SortedHeap.Elems h2 set) as [h3 r'].
      destruct He2 as (Hr' & _ & _). by rewrite Hr', Heq.
    + intros ms h2 set2 Hm.
      by apply (SortedOwnership.mutate_all_apart zero ms h1 set r h2 set2).
  - pose proof (FuncSortedOwnership.func_Elems_apart h s Hv2) as He.
    destruct (FuncSortedHeap.Elems h s) as [h1 r].
    destruct He as (Hr & Hread & Hap). split; [done|]. split.
    + intros ws h2 Hw.
      destruct (FuncSortedOwnership.func_writes_apart h1 s r ws h2 Hap Hw)
        as [Hread2 Hap2].
      assert (FuncSortedHeap.read h2 s = FuncSortedHeap.read h s) as Heq by congruence.
      split; [intros e; unfold FuncSortedHeap.Contains; by rewrite Heq|].
      split; [by rewrite Heq|].
      pose proof (FuncSortedOwnership.func_Elems_apart h2 s (proj1 Hap2)) as He2.
      destruct (FuncSortedHeap.Elems h2 s) as [h3 r'].
      destruct He2 as (Hr' & _ & _). by rewrite Hr', Heq.
    + intros ms h2 s2 Hm.
      by apply (FuncSortedOwnership.func_mutate_all_apart zero ms h1 s r h2 s2).
  - pose proof (OrderedOwnership.ordered_Elems_apart hz oset Hv3) as He.
    destruct (OrderedHeap.Elems hz oset) as [h1 r].
    destruct He as (Hr & Hread & Hap). split; [done|]. split.
    + intros ws h2 Hw.
      destruct (OrderedOwnership.ordered_writes_apart h1 oset r ws h2 Hap Hw)
        as [Hread2 Hap2].
      assert (OrderedHeap.read h2 oset = OrderedHeap.read hz oset) as Heq by congruence.
      split; [intros e; unfold OrderedHeap.Contains; by rewrite Heq|].
      split; [by rewrite Heq|].
      pose proof (OrderedOwnership.ordered_Elems_apart h2 oset (proj1 Hap2)) as He2.
      destruct (OrderedHeap.Elems h2 oset) as [h3 r'].
      destruct He2 as (Hr' & _ & _). by rewrite Hr', Heq.
    + intros ms h2 set2 Hm.
      by apply (OrderedOwnership.ordered_mutate_all_apart ms h1 oset r h2 set2).
  - pose proof (Ordered2Ownership.ordered2_Elems_apart hz os Hv4) as He.
    destruct (Ordered2Heap.Elems hz os) as [h1 r].
    destruct He as (Hr & Hread & Hap). split; [done|]. split.
    + intros ws h2 Hw.
      destruct (Ordered2Ownership.ordered2_writes_apart h1 os r ws h2 Hap Hw)
        as [Hread2 Hap2].
      assert (Ordered2Heap.read h2 os = Ordered2Heap.read hz os) as Heq by congruence.
      split; [intros e; unfold Ordered2Heap.Contains; by rewrite Heq|].
      split; [by rewrite Heq|].
      pose proof (Ordered2Ownership.ordered2_Elems_apart h2 os (proj1 Hap2)) as He2.
      destruct (Ordered2Heap.Elems h2 os) as [h3 r'].
      destruct He2 as (Hr' & _ & _). by rewrite Hr', Heq.
    + intros ms h2 s2 Hm.
      by apply (Ordered2Ownership.ordered2_mutate_all_apart ms h1 os r h2 s2).
Qed.

Lemma elems_freshly_owned_witness :
  let h := [[1; 2; 3; 0]] in
  let set := SortedHeap.MkSorted (Slice 0 3) Compare same in
  let s := FuncSortedHeap.MkFuncSorted (Slice 0 3) Compare same in
  let oset := OrderedHeap.MkOrdered (Slice 0 3) in
  let os := Ordered2Heap.MkOrdered (Slice 0 3) in
  valid h (SortedHeap.elems set) ∧ valid h (FuncSortedHeap.list_ s)
  ∧ valid h (OrderedHeap.elems oset) ∧ valid h (Ordered2Heap.list_ os)
  ∧ (let '(h1, r) := SortedHeap.Elems h set in
     contents h1 r = sets.Elems (SortedHeap.read h set)
     ∧ (∀ ws h2, writes h1 r ws = Ok h2 →
          (∀ e, SortedHeap.Contains h2 set e = SortedHeap.Contains h set e)
          ∧ sets.Len (SortedHeap.read h2 set) = sets.Len (SortedHeap.read h set)
          ∧ (let '(h3, r') := SortedHeap.Elems h2 set in
             contents h3 r' = sets.Elems (SortedHeap.read h set)))
     ∧ (∀ ms h2 set2, SortedHeap.mutate_all 0 (h1, set) ms = Ok (h2, set2) →
          contents h2 r = contents h1 r)).
Proof.
  intros h set s oset os.
  assert (valid h (Slice 0 3)) as Hv.
  { split; [simpl; lia|]. by vm_compute. }
  split; [exact Hv|]. split; [exact Hv|]. split; [exact Hv|]. split; [exact Hv|].
  exact (proj1 (elems_freshly_owned 0 h set s h oset os Hv Hv Hv Hv)).
Defined.

End SafetyProperties.

Import Go slicesx GoFacts.
Import Spec Spec2 Spec3 Spec4 Spec5 Spec6.
Import SearchFacts OrderFacts LoopFacts ShiftFacts SeqSpec SeqFacts BatchFacts.
Import Natural NaturalOrder NaturalSpec NaturalLaws NaturalSorted NaturalMerge NaturalMergeLoop NaturalDelete NaturalDeleteLoop.

(** A loop whose condition fails at the start leaves its state. *)
Module EmptyOperand.
Section facts.
Context {E : Type}.
Variable zero : E.
Variable cmp : E → E → Z.
Variable eq : E → E → bool.

Lemma while_done {S} fuel (cond : S → bool) body (s : S) :
  cond s = false → while fuel cond body s = Ok s.
Proof. intros H. destruct fuel; simpl; by rewrite H. Qed.

Lemma insertInto_nothing (a tail : list E) : insertInto zero a tail [] = Ok (a ++ tail).
Proof.
  rewrite (InsertFacts.insertInto_correct zero a tail []); [done|].
  simpl. apply len_nonneg.
Qed.

Lemma MergeSorted_nil_r (a : list E) : MergeSorted zero a [] cmp eq = Ok a.
Proof.
  unfold MergeSorted. cbn zeta. rewrite while_done.
  - cbn [mbind run_bind]. unfold slice. simpl.
    rewrite insertInto_nothing. by rewrite app_nil_r.
  - simpl. apply andb_false_r.
Qed.

Lemma MergeSorted_nil_l (b : list E) : MergeSorted zero [] b cmp eq = Ok b.
Proof.
  unfold MergeSorted. cbn zeta. rewrite while_done by done.
  cbn [mbind run_bind]. unfold slice.
  rewrite bool_decide_true by (pose proof (len_nonneg b); lia).
  cbn [mbind run_bind]. rewrite Z.sub_0_r, view_all. by rewrite insertInto_nothing.
Qed.

Lemma DeleteSorted_nil_r (a : list E) : DeleteSorted zero a [] cmp eq = Ok a.
Proof.
  unfold DeleteSorted. cbn zeta. rewrite while_done.
  - done.
  - simpl. apply andb_false_r.
Qed.

Lemma DeleteSorted_nil_l (b : list E) : DeleteSorted zero [] b cmp eq = Ok [].
Proof.
  unfold DeleteSorted. cbn zeta. by rewrite while_done.
Qed.

End facts.
End EmptyOperand.

(** Sorting and deduplicating a list that is sorted and holds no two
    elements of equal identity. *)
Module SortedInput.
Import SortFacts SortOrder DedupFacts RunsFacts RunsOrder UniqFacts UniqLoop.
Section facts.
Context {E : Type}.
Variable zero : E.
Variable cmp : E → E → Z.
Variable eq : E → E → bool.
Hypothesis HL : Laws cmp eq.

Lemma sort_insert_last (x : E) (r : list E) :
  (∀ y, y ∈ r → cmp y x ≤ 0) → sort_insert cmp x r = x :: r.
Proof.
  destruct HL as [Hcmp _].
  destruct r as [|y r]; [done|]. intros Hle. simpl.
  rewrite bool_decide_false; [done|].
  assert (cmp y x ≤ 0) by (apply Hle; by left).
  intros Hlt. apply (cmp_antisym cmp Hcmp) in Hlt. lia.
Qed.

Lemma SortStableFunc_sorted (l : list E) :
  ascending cmp l → SortStableFunc cmp l = l.
Proof.
  unfold SortStableFunc. intros Hasc.
  assert (foldl (λ acc x, sort_insert cmp x acc) [] l = reverse l) as ->;
    [|by rewrite reverse_involutive].
  induction l as [|x l IH] using rev_ind; [done|].
  apply ascending_app in Hasc as (Hl & _ & Hx).
  rewrite foldl_app. simpl. rewrite IH by done.
  rewrite sort_insert_last.
  - by rewrite reverse_snoc.
  - intros y Hy. apply (proj1 (elem_of_reverse _ _)) in Hy. apply Hx; [done | by left].
Qed.

Lemma dedup_step_fresh (acc : list E) (x : E) :
  (∀ a, a ∈ acc → eq a x = false) → dedup_step eq acc x = acc ++ [x].
Proof.
  destruct HL as [_ Heq]. intros Hne. unfold dedup_step.
  assert (IndexFunc acc (λ a, eq x a) = None) as ->; [|done].
  apply IndexFunc_None_iff. intros a Ha.
  rewrite (id_sym cmp eq Heq). by apply Hne.
Qed.

Lemma foldl_dedup_distinct (l : list E) : ∀ acc,
  distinct eq (acc ++ l) → foldl (dedup_step eq) acc l = acc ++ l.
Proof.
  induction l as [|x l IH]; intros acc Hd; simpl.
  { by rewrite app_nil_r. }
  rewrite dedup_step_fresh.
  - rewrite IH; [by rewrite <-app_assoc | by rewrite <-app_assoc].
  - intros a Ha. apply distinct_app in Hd as (_ & _ & Hd).
    apply Hd; [done | by left].
Qed.

Lemma dedup_distinct (l : list E) : distinct eq l → dedup eq l = l.
Proof. intros Hd. unfold dedup. by rewrite foldl_dedup_distinct. Qed.

Lemma distinct_concat (rs : list (list E)) r :
  distinct eq (concat rs) → r ∈ rs → distinct eq r.
Proof.
  induction rs as [|r' rs IH]; intros Hd Hr; [inversion Hr|].
  simpl in Hd. apply distinct_app in Hd as (Hr' & Hrs & _).
  apply elem_of_cons in Hr as [->|Hr]; [done | by apply IH].
Qed.

(** Sorted input without duplicates comes back as it is. *)
Lemma StableSortUniqFuncs_sorted (l : list E) :
  sorted_seq cmp eq l → StableSortUniqFuncs zero l cmp eq = Ok l.
Proof.
  pose proof HL as [Hcmp Heq]. intros [Hasc Hd].
  rewrite StableSortUniqFuncs_total. f_equal.
  rewrite SortStableFunc_sorted by done.
  rewrite (runs_maximal cmp Hcmp).
  destruct (maximal_runs_facts cmp Hcmp l Hasc) as (Hcat & _ & _).
  rewrite <-Hcat at 2. f_equal.
  rewrite <-(list_fmap_id (maximal_runs cmp l)) at 2.
  apply list_fmap_ext. intros i r Hr. simpl.
  apply dedup_distinct. apply (distinct_concat (maximal_runs cmp l)).
  - by rewrite Hcat.
  - by eapply list_elem_of_lookup_2.
Qed.

End facts.
End SortedInput.

Import Go slicesx GoFacts.
Import Spec Spec2 Spec3 Spec4 Spec5 Spec6.
Import SearchFacts OrderFacts LoopFacts ShiftFacts SeqSpec SeqFacts BatchFacts.
Import Natural NaturalOrder NaturalSpec NaturalLaws NaturalSorted NaturalMerge NaturalMergeLoop NaturalDelete NaturalDeleteLoop.
Import SetSpec.

Import Operand.

Module OperandFacts.
Section facts.
Context {E : Type}.

Lemma of_list_coherent (eq : E → E → bool) (l : list E) :
  coherent eq (of_list eq l).
Proof.
  split; [|done]. intros e. unfold holds, has. simpl.
  apply ContainsFunc_true.
Qed.

End facts.
End OperandFacts.

(** Distinct identities that are all found in a list are at most as many
    as the list is long. *)
Module IdentityBound.
Section facts.
Context {E : Type}.
Variable cmp : E → E → Z.
Variable eq : E → E → bool.
Hypothesis HL : Laws cmp eq.

Lemma distinct_within_length (l : list E) : ∀ m,
  distinct eq l → (∀ e, e ∈ l → has eq m e) → (length l ≤ length m)%nat.
Proof.
  pose proof HL as [_ Heq].
  induction l as [|e l IH]; intros m Hd Hin; [simpl; lia|].
  apply distinct_cons in Hd as [Hd He].
  destruct (Hin e) as (x & Hx & Hxe); [by left|].
  apply list_elem_of_split in Hx as (p & r & ->).
  rewrite length_app. simpl.
  assert (length l ≤ length (p ++ r))%nat as Hle; [|rewrite length_app in Hle; lia].
  apply IH; [done|]. intros e' He'.
  destruct (Hin e') as (y & Hy & Hye); [by right|].
  exists y. split; [|done].
  apply elem_of_app in Hy as [Hy|Hy]; [apply elem_of_app; by left|].
  apply elem_of_cons in Hy as [->|Hy]; [|apply elem_of_app; by right].
  exfalso. assert (eq e e' = true); [|by rewrite (He e' He') in *].
  apply (id_trans cmp eq Heq e x e'); [|done]. by rewrite (id_sym cmp eq Heq).
Qed.

(** An element that occurs in a list without two elements of equal
    identity splits the list in one way only. *)
Lemma distinct_split_unique (p r p' r' : list E) (e : E) :
  distinct eq (p ++ e :: r) → p ++ e :: r = p' ++ e :: r' → p = p' ∧ r = r'.
Proof.
  revert p'. induction p as [|x p IH]; intros p' Hd Hsplit.
  - destruct p' as [|x' p']; simpl in *.
    + by injection Hsplit as ->.
    + injection Hsplit as <- ->. exfalso.
      apply distinct_cons in Hd as [_ Hd].
      assert (eq e e = false) as Hee.
      { apply Hd. apply elem_of_app. right. by left. }
      by rewrite (id_refl cmp eq (proj2 HL)) in Hee.
  - destruct p' as [|x' p']; simpl in *.
    + injection Hsplit as -> <-. exfalso.
      apply distinct_cons in Hd as [_ Hd].
      assert (eq e e = false) as Hee.
      { apply Hd. apply elem_of_app. right. by left. }
      by rewrite (id_refl cmp eq (proj2 HL)) in Hee.
    + injection Hsplit as <- Hsplit.
      apply distinct_cons in Hd as [Hd _].
      destruct (IH p' Hd Hsplit) as [-> ->]. done.
Qed.

End facts.
End IdentityBound.

(** More on the comparator set of [sorted.go] under the caller's
    contract: the operations that ask and the set algebra. *)
Module SortedAlgebra.
Import sets SortedLaws SortedSubstitution IdentityBound.
Section facts.
Context {E : Type}.
Variable zero : E.
Implicit Types set : sorted E.

Lemma ContainsAll_spec set l :
  lawful set → sorted_sequence set →
  ∃ b, ContainsAll set l = Ok b ∧ (b = true ↔ ∀ e, e ∈ l → member set e).
Proof.
  intros HL Hseq. unfold ContainsAll.
  induction l as [|x l IH].
  { exists true. split; [done|]. split; [|done]. intros _ e He. inversion He. }
  cbn [for_range_ret].
  destruct (Contains_spec set HL Hseq x) as (b & Hb & Hm).
  unfold Contains in Hb.
  destruct (search set x) as [[idx ok]| |]; try done.
  cbn [mbind run_bind] in *. injection Hb as ->.
  destruct b; cbn [negb mbind run_bind].
  - destruct IH as (b' & Hb' & Hm'). exists b'. split; [done|].
    rewrite Hm'. split.
    + intros Hall e He. apply elem_of_cons in He as [->|He]; [by apply Hm | by apply Hall].
    + intros Hall e He. apply Hall. by right.
  - exists false. split; [done|]. split; [done|].
    intros Hall. apply Hm. apply Hall. by left.
Qed.

Lemma ContainsSet_spec set other :
  lawful set → sorted_sequence set →
  ∃ b, ContainsSet set other = Ok b
    ∧ (b = true ↔ ∀ e, e ∈ set_Range other → member set e).
Proof. intros HL Hseq. by apply ContainsAll_spec. Qed.

(** [Remove] one at a time. *)
Lemma removes_spec (l : list E) : ∀ set,
  lawful set → sorted_sequence set →
  ∃ set', for_range l (Remove zero) set = Ok set'
    ∧ cmp set' = cmp set ∧ eq set' = eq set
    ∧ sorted_sequence set'
    ∧ (∀ y, member set' y ↔ member set y ∧ ¬ has (eq set) l y).
Proof.
  induction l as [|x l IH]; intros set HL Hseq.
  { exists set. split; [done|]. split; [done|]. split; [done|]. split; [done|].
    intros y. split; [|tauto]. intros Hy. split; [done|].
    intros (v & Hv & _). inversion Hv. }
  cbn [for_range].
  destruct (Remove_spec zero set x HL Hseq) as (s1 & -> & Hc & Hq & Hs1 & Hm1).
  cbn [mbind run_bind].
  destruct (IH s1) as (set' & Hrun & Hc' & Hq' & Hs' & Hm').
  { unfold lawful. by rewrite Hc, Hq. }
  { done. }
  exists set'. split; [done|]. split; [congruence|]. split; [congruence|].
  split; [done|]. intros y. rewrite Hm', Hm1, Hq.
  pose proof HL as [_ Heq]. split.
  - intros [[Hy Hxy] Hl]. split; [done|].
    intros (v & Hv & Hvy). apply elem_of_cons in Hv as [->|Hv].
    + by rewrite Hvy in Hxy.
    + apply Hl. by exists v.
  - intros [Hy Hl]. split; [split; [done|]|].
    + destruct (eq set x y) eqn:Hxy; [|done]. exfalso. apply Hl.
      exists x. split; [by left | done].
    + intros (v & Hv & Hvy). apply Hl. exists v. split; [by right | done].
Qed.

(** What [Insert] does to the length. *)
Lemma Insert_Len set e :
  lawful set → sorted_sequence set →
  ∃ b set', Contains set e = Ok b ∧ Insert set e = Ok set'
    ∧ Len set' = Len set + (if b then 0 else 1).
Proof.
  intros HL Hseq.
  destruct (Contains_spec set HL Hseq e) as (b & Hb & Hm).
  destruct (Insert_outcome set HL Hseq e) as (p & old & r & Hl & Hins & Hold & _).
  exists b. eexists. split; [done|]. split; [done|].
  unfold Len. simpl. rewrite Hl.
  destruct Hold as [[-> Hn]|(x & -> & Hxe)].
  - destruct b; [exfalso; by apply Hn, Hm|].
    rewrite !len_app, len_cons, len_nil. lia.
  - destruct b.
    + rewrite !len_app, !len_cons, len_nil. lia.
    + assert (false = true); [|done]. apply Hm.
      exists x. split; [|done]. rewrite Hl. apply elem_of_app. right. by left.
Qed.

Lemma Remove_Len set e :
  lawful set → sorted_sequence set →
  ∃ b set', Contains set e = Ok b ∧ Remove zero set e = Ok set'
    ∧ Len set' = Len set - (if b then 1 else 0).
Proof.
  intros HL Hseq.
  destruct (Contains_spec set HL Hseq e) as (b & Hb & Hm).
  destruct (Remove_outcome zero set HL Hseq e) as (p & old & r & Hl & Hrem & Hold & _).
  exists b. eexists. split; [done|]. split; [done|].
  unfold Len. simpl. rewrite Hl.
  destruct Hold as [[-> Hn]|(x & -> & Hxe)].
  - destruct b; [exfalso; by apply Hn, Hm|].
    rewrite !len_app, len_nil. lia.
  - destruct b.
    + rewrite !len_app, !len_cons, len_nil. lia.
    + assert (false = true); [|done]. apply Hm.
      exists x. split; [|done]. rewrite Hl. apply elem_of_app. right. by left.
Qed.

(** Removing an element that was not in the set before it was inserted
    gives the list back. *)
Lemma Insert_Remove set e :
  lawful set → sorted_sequence set → ¬ member set e →
  ∃ set1, Insert set e = Ok set1
    ∧ Remove zero set1 e = Ok (MkSorted (elems set) (cmp set) (eq set)).
Proof.
  intros HL Hseq Hn.
  destruct (Insert_outcome set HL Hseq e) as (p & old & r & Hl & Hins & Hold & Hs1).
  destruct Hold as [[-> _]|(x & -> & Hxe)].
  2:{ exfalso. apply Hn. exists x. split; [|done].
      rewrite Hl. apply elem_of_app. right. by left. }
  eexists. split; [done|].
  set (set1 := MkSorted (p ++ e :: r) (cmp set) (eq set)).
  assert (lawful set1) as HL1 by done.
  destruct (Remove_outcome zero set1 HL1 Hs1 e)
    as (p' & old' & r' & Hl' & Hrem & Hold' & _).
  rewrite Hrem. simpl in Hl'. simpl. do 2 f_equal.
  destruct Hold' as [[-> Hn']|(x & -> & Hxe)].
  - exfalso. apply Hn'. apply (has_elem (cmp set)); [done|].
    simpl. apply elem_of_app. right. by left.
  - assert (x = e) as ->.
    { destruct HL as [_ Heq]. apply (distinct_eq_same _ _ Heq (p ++ e :: r)).
      - apply Hs1.
      - rewrite Hl'. apply elem_of_app. right. by left.
      - apply elem_of_app. right. by left.
      - done. }
    simpl in Hl'.
    destruct (distinct_split_unique (cmp set) (eq set) HL p r p' r' e) as [-> ->];
      [apply Hs1 | done |].
    by rewrite Hl.
Qed.

(** ** Set algebra *)

Lemma holds_congr set other (x y : E) :
  lawful set → eq set x y = true →
  holds (eq set) other x ↔ holds (eq set) other y.
Proof.
  intros HL Hxy. pose proof HL as [_ Heq]. unfold holds. split.
  - by apply (has_congr (cmp set) (eq set) HL).
  - apply (has_congr (cmp set) (eq set) HL). by rewrite (id_sym _ _ Heq).
Qed.

Lemma Intersection_spec set other :
  lawful set → sorted_sequence set → coherent (eq set) other →
  ∃ set', Intersection set other = Ok set'
    ∧ cmp set' = cmp set ∧ eq set' = eq set
    ∧ sorted_sequence set'
    ∧ (∀ y, member set' y ↔ member set y ∧ holds (eq set) other y).
Proof.
  intros HL Hseq [Hc _]. unfold Intersection.
  eexists. split; [done|]. split; [done|]. split; [done|].
  split. { unfold sorted_sequence. simpl. by apply sorted_seq_filter. }
  intros y. unfold member, has. simpl. split.
  - intros (x & Hx & Hxy). apply list_elem_of_filter in Hx as [Hcx Hx].
    split; [by exists x|].
    apply (holds_congr set other x y HL Hxy). by apply Hc.
  - intros [(x & Hx & Hxy) Hy]. exists x. split; [|done].
    apply list_elem_of_filter. split; [|done].
    apply Hc. by apply (holds_congr set other x y HL Hxy).
Qed.

Lemma Difference_spec set other :
  lawful set → sorted_sequence set → coherent (eq set) other →
  ∃ set', Difference set other = Ok set'
    ∧ cmp set' = cmp set ∧ eq set' = eq set
    ∧ sorted_sequence set'
    ∧ (∀ y, member set' y ↔ member set y ∧ ¬ holds (eq set) other y).
Proof.
  intros HL Hseq [Hc _]. unfold Difference.
  eexists. split; [done|]. split; [done|]. split; [done|].
  split. { unfold sorted_sequence. simpl. by apply sorted_seq_filter. }
  intros y. unfold member, has. simpl. split.
  - intros (x & Hx & Hxy). apply list_elem_of_filter in Hx as [Hcx Hx].
    split; [by exists x|]. intros Hy.
    apply (holds_congr set other x y HL Hxy) in Hy. apply Hc in Hy. congruence.
  - intros [(x & Hx & Hxy) Hy]. exists x. split; [|done].
    apply list_elem_of_filter. split; [|done].
    destruct (set_Contains other x) eqn:Hcx; [|done]. exfalso. apply Hy.
    apply (holds_congr set other x y HL Hxy). by apply Hc.
Qed.

Lemma Union_spec set other :
  lawful set → sorted_sequence set → coherent (eq set) other →
  ∃ set', Union zero set other = Ok set'
    ∧ cmp set' = cmp set ∧ eq set' = eq set
    ∧ sorted_sequence set'
    ∧ (∀ y, member set' y ↔ member set y ∨ holds (eq set) other y).
Proof.
  intros HL Hseq [_ He]. unfold Union. cbn zeta.
  destruct (insertAll_spec zero (Clone set) (set_Elems other))
    as (set' & -> & Hc & Hq & Hs & _ & Hm); [done | done |].
  exists set'. split; [done|]. split; [done|]. split; [done|]. split; [done|].
  intros y. rewrite Hm. simpl. by rewrite He.
Qed.

(** The elements of the operand that are not in the set, as
    [SymmetricDifference] collects them. *)
Lemma missing_spec set (l : list E) :
  lawful set → sorted_sequence set →
  ∀ acc, ∃ miss,
    for_range l
      (λ elems_ e, c ← Contains set e;
                   if negb c then Ok (elems_ ++ [e]) else Ok elems_) acc
    = Ok (acc ++ miss)
    ∧ ∀ x, x ∈ miss ↔ x ∈ l ∧ ¬ member set x.
Proof.
  intros HL Hseq. induction l as [|x l IH]; intros acc.
  { exists []. simpl. rewrite app_nil_r. split; [done|].
    intros x. split; [intros H; inversion H | intros [H _]; inversion H]. }
  cbn [for_range].
  destruct (Contains_spec set HL Hseq x) as (b & -> & Hm).
  cbn [mbind run_bind].
  destruct b; cbn [negb mbind run_bind].
  - destruct (IH acc) as (miss & -> & Hmiss). exists miss. split; [done|].
    intros y. rewrite Hmiss, elem_of_cons. split; [tauto|].
    intros [[->|Hy] Hn]; [|done]. exfalso. by apply Hn, Hm.
  - destruct (IH (acc ++ [x])) as (miss & -> & Hmiss). exists (x :: miss).
    split; [by rewrite <-app_assoc|].
    intros y. rewrite !elem_of_cons, Hmiss. split.
    + intros [->|[Hy Hn]]; [|tauto]. split; [by left|].
      intros Hx. apply Hm in Hx. done.
    + intros [[->|Hy] Hn]; [by left | by right].
Qed.

Lemma SymmetricDifference_spec set other :
  lawful set → sorted_sequence set → coherent (eq set) other →
  ∃ set', SymmetricDifference zero set other = Ok set'
    ∧ cmp set' = cmp set ∧ eq set' = eq set
    ∧ sorted_sequence set'
    ∧ (∀ y, member set' y ↔
            (member set y ∧ ¬ holds (eq set) other y)
            ∨ (holds (eq set) other y ∧ ¬ member set y)).
Proof.
  intros HL Hseq Hco. unfold SymmetricDifference. cbn zeta.
  destruct (missing_spec set (set_Range other) HL Hseq []) as (miss & -> & Hmiss).
  cbn [mbind run_bind app].
  destruct (Difference_spec set other HL Hseq Hco) as (d & Hd & Hdc & Hdq & Hds & Hdm).
  unfold Difference in Hd. injection Hd as <-.
  match goal with |- context [insertAll zero ?s ?l] =>
    destruct (insertAll_spec zero s l) as (set' & -> & Hc & Hq & Hs & _ & Hm);
      [done | done |]
  end.
  exists set'. split; [done|]. split; [done|]. split; [done|]. split; [done|].
  intros y. rewrite Hm, Hdm. simpl.
  assert (has (eq set) miss y ↔ holds (eq set) other y ∧ ¬ member set y) as ->; [|done].
  pose proof HL as [_ Heq]. unfold holds, has. split.
  - intros (x & Hx & Hxy). apply Hmiss in Hx as [Hx Hnx].
    split; [by exists x|]. intros Hy. apply Hnx.
    apply (has_congr (cmp set) (eq set) HL _ y x); [|done].
    by rewrite (id_sym _ _ Heq).
  - intros [(x & Hx & Hxy) Hny]. exists x. split; [|done].
    apply Hmiss. split; [done|]. intros Hmx. apply Hny.
    by apply (has_congr (cmp set) (eq set) HL _ x y).
Qed.

(** [Intersection] and [Difference] split the elements of the set. *)
Lemma Intersection_Difference_Len set other :
  ∃ i d, Intersection set other = Ok i ∧ Difference set other = Ok d
    ∧ Len i + Len d = Len set
    ∧ (∀ x, x ∈ elems set ↔ x ∈ elems i ∨ x ∈ elems d)
    ∧ (∀ x, x ∈ elems i → x ∉ elems d).
Proof.
  unfold Intersection, Difference. eexists. eexists.
  split; [done|]. split; [done|]. unfold Len. simpl. split_and!.
  - unfold len. induction (elems set) as [|x l IH]; [done|].
    rewrite !filter_cons.
    destruct (set_Contains other x); simpl;
      repeat (rewrite decide_True by done || rewrite decide_False by done);
      simpl; lia.
  - intros x. rewrite !list_elem_of_filter.
    destruct (set_Contains other x); split; try tauto; intros [[? ?]|[? ?]]; done.
  - intros x. rewrite !list_elem_of_filter. intros [H1 _] [H2 _]. congruence.
Qed.

(** ** [Range] *)

Lemma Range_visits_stop (l : list E) (fn : E → bool) :
  (Range_visits l fn = l ∧ ∀ x, x ∈ l → fn x = true)
  ∨ ∃ p x r, l = p ++ x :: r ∧ Range_visits l fn = p ++ [x]
      ∧ (∀ y, y ∈ p → fn y = true) ∧ fn x = false.
Proof.
  induction l as [|v l IH].
  { left. split; [done|]. intros x Hx. inversion Hx. }
  simpl. destruct (fn v) eqn:Hv.
  - destruct IH as [[-> Hall]|(p & x & r & -> & -> & Hp & Hx)].
    + left. split; [done|]. intros x Hx.
      apply elem_of_cons in Hx as [->|Hx]; [done | by apply Hall].
    + right. exists (v :: p), x, r. split; [done|]. split; [done|].
      split; [|done]. intros y Hy.
      apply elem_of_cons in Hy as [->|Hy]; [done | by apply Hp].
  - right. exists [], v, l. split; [done|]. split; [done|].
    split; [|done]. intros y Hy. inversion Hy.
Qed.

Lemma Range_visits_all (l : list E) (fn : E → bool) :
  (∀ x, x ∈ l → fn x = true) → Range_visits l fn = l.
Proof.
  induction l as [|v l IH]; intros Hall; [done|]. simpl.
  rewrite Hall by (by left). f_equal. apply IH. intros x Hx. apply Hall. by right.
Qed.

End facts.
End SortedAlgebra.

Import Go slicesx GoFacts.
Import Spec Spec2 Spec3 Spec4 Spec5 Spec6.
Import SearchFacts OrderFacts LoopFacts ShiftFacts SeqSpec SeqFacts BatchFacts.
Import Natural NaturalOrder NaturalSpec NaturalLaws NaturalSorted NaturalMerge NaturalMergeLoop NaturalDelete NaturalDeleteLoop.
Import FuncSetSpec.

Import Operand2.

Module Operand2Facts.
Section facts.
Context {E : Type}.

Lemma func_of_list_coherent k (eq : E → E → bool) (l : list E) :
  coherent eq (of_list k eq l).
Proof.
  split; [|done]. intros e. unfold holds, has. simpl.
  apply ContainsFunc_true.
Qed.

Lemma of_list_proper k (eq : E → E → bool) (l : list E) :
  k ≠ sets2.IsReceiver → distinct eq l → proper eq (of_list k eq l).
Proof. intros Hk Hd. by split_and!. Qed.

End facts.
End Operand2Facts.

(** More on the comparator set of the second package under the caller's
    contract: the operations that ask and the set algebra. *)
Module FuncSortedAlgebra.
Import sets2 FuncSortedLaws FuncSortedSubstitution IdentityBound.
Section facts.
Context {E : Type}.
Variable zero : E.
Implicit Types set : funcSorted E.

Lemma func_ContainsAll_spec set l :
  lawful set → sorted_sequence set →
  ∃ b, ContainsAll set l = Ok b ∧ (b = true ↔ ∀ e, e ∈ l → member set e).
Proof.
  intros HL Hseq. unfold ContainsAll.
  induction l as [|x l IH].
  { exists true. split; [done|]. split; [|done]. intros _ e He. inversion He. }
  cbn [for_range_ret].
  destruct (func_contains_spec set HL Hseq x) as (b & -> & Hm).
  destruct b; cbn [negb mbind run_bind].
  - destruct IH as (b' & Hb' & Hm'). exists b'. split; [done|].
    rewrite Hm'. split.
    + intros Hall e He. apply elem_of_cons in He as [->|He]; [by apply Hm | by apply Hall].
    + intros Hall e He. apply Hall. by right.
  - exists false. split; [done|]. split; [done|].
    intros Hall. apply Hm. apply Hall. by left.
Qed.

(** [ContainsSet] answers no at once when the operand is the longer. *)
Lemma func_ContainsSet_longer set other :
  len (view_Elems other) > len (list_ set) → ContainsSet set other = Ok false.
Proof. intros Hlen. unfold ContainsSet. by rewrite bool_decide_true. Qed.

Lemma func_ContainsSet_spec set other :
  lawful set → sorted_sequence set → proper (eq set) other →
  ∃ b, ContainsSet set other = Ok b
    ∧ (b = true ↔ ∀ e, e ∈ view_Range other → member set e).
Proof.
  intros HL Hseq (Hk & Hd & Hlen & Hfs). unfold ContainsSet.
  case_bool_decide as Hlong.
  - exists false. split; [done|]. split; [done|]. intros Hall. exfalso.
    pose proof (distinct_within_length (cmp set) (eq set) HL
                  (view_Range other) (list_ set) Hd Hall) as Hle.
    unfold len in *. lia.
  - destruct (kind other) eqn:Hkind; try done.
    + by apply func_ContainsAll_spec.
    + rewrite (Hfs eq_refl). by apply func_ContainsAll_spec.
    + by apply func_ContainsAll_spec.
    + by apply func_ContainsAll_spec.
Qed.

Lemma func_ContainsSet_itself set other :
  lawful set → sorted_sequence set → itself set other →
  ContainsSet set other = Ok true.
Proof.
  intros HL Hseq (Hk & He & Hr). unfold ContainsSet.
  rewrite He, bool_decide_false by lia. rewrite Hk.
  destruct (func_ContainsAll_spec set (list_ set) HL Hseq) as (b & -> & Hb).
  f_equal. apply Hb. intros e Hin. by apply (has_elem (cmp set)).
Qed.

(** [Remove] one at a time. *)
Lemma func_removes_spec (l : list E) : ∀ set,
  lawful set → sorted_sequence set →
  ∃ set', for_range l (remove zero) set = Ok set'
    ∧ cmp set' = cmp set ∧ eq set' = eq set
    ∧ sorted_sequence set'
    ∧ (∀ y, member set' y ↔ member set y ∧ ¬ has (eq set) l y).
Proof.
  induction l as [|x l IH]; intros set HL Hseq.
  { exists set. split; [done|]. split; [done|]. split; [done|]. split; [done|].
    intros y. split; [|tauto]. intros Hy. split; [done|].
    intros (v & Hv & _). inversion Hv. }
  cbn [for_range].
  destruct (func_remove_spec zero set x HL Hseq) as (s1 & -> & Hc & Hq & Hs1 & Hm1).
  cbn [mbind run_bind].
  destruct (IH s1) as (set' & Hrun & Hc' & Hq' & Hs' & Hm').
  { unfold lawful. by rewrite Hc, Hq. }
  { done. }
  exists set'. split; [done|]. split; [congruence|]. split; [congruence|].
  split; [done|]. intros y. rewrite Hm', Hm1, Hq.
  pose proof HL as [_ Heq]. split.
  - intros [[Hy Hxy] Hl]. split; [done|].
    intros (v & Hv & Hvy). apply elem_of_cons in Hv as [->|Hv].
    + by rewrite Hvy in Hxy.
    + apply Hl. by exists v.
  - intros [Hy Hl]. split; [split; [done|]|].
    + destruct (eq set x y) eqn:Hxy; [|done]. exfalso. apply Hl.
      exists x. split; [by left | done].
    + intros (v & Hv & Hvy). apply Hl. exists v. split; [by right | done].
Qed.

(** What [Insert] does to the length. *)
Lemma func_Insert_Len set e :
  lawful set → sorted_sequence set →
  ∃ b set', Contains set e = Ok b ∧ insert set e = Ok set'
    ∧ Len set' = Len set + (if b then 0 else 1).
Proof.
  intros HL Hseq.
  destruct (func_contains_spec set HL Hseq e) as (b & Hb & Hm).
  destruct (func_insert_outcome set HL Hseq e) as (p & old & r & Hl & Hins & Hold & _).
  exists b. eexists. split; [done|]. split; [done|].
  unfold Len. simpl. rewrite Hl.
  destruct Hold as [[-> Hn]|(x & -> & Hxe)].
  - destruct b; [exfalso; by apply Hn, Hm|].
    rewrite !len_app, len_cons, len_nil. lia.
  - destruct b.
    + rewrite !len_app, !len_cons, len_nil. lia.
    + assert (false = true); [|done]. apply Hm.
      exists x. split; [|done]. rewrite Hl. apply elem_of_app. right. by left.
Qed.

Lemma func_Remove_Len set e :
  lawful set → sorted_sequence set →
  ∃ b set', Contains set e = Ok b ∧ remove zero set e = Ok set'
    ∧ Len set' = Len set - (if b then 1 else 0).
Proof.
  intros HL Hseq.
  destruct (func_contains_spec set HL Hseq e) as (b & Hb & Hm).
  destruct (func_remove_outcome zero set HL Hseq e) as (p & old & r & Hl & Hrem & Hold & _).
  exists b. eexists. split; [done|]. split; [done|].
  unfold Len. simpl. rewrite Hl.
  destruct Hold as [[-> Hn]|(x & -> & Hxe)].
  - destruct b; [exfalso; by apply Hn, Hm|].
    rewrite !len_app, len_nil. lia.
  - destruct b.
    + rewrite !len_app, !len_cons, len_nil. lia.
    + assert (false = true); [|done]. apply Hm.
      exists x. split; [|done]. rewrite Hl. apply elem_of_app. right. by left.
Qed.

(** Removing an element that was not in the set before it was inserted
    gives the list back. *)
Lemma func_Insert_Remove set e :
  lawful set → sorted_sequence set → ¬ member set e →
  ∃ set1, insert set e = Ok set1
    ∧ remove zero set1 e = Ok (MkFuncSorted (list_ set) (cmp set) (eq set)).
Proof.
  intros HL Hseq Hn.
  destruct (func_insert_outcome set HL Hseq e) as (p & old & r & Hl & Hins & Hold & Hs1).
  destruct Hold as [[-> _]|(x & -> & Hxe)].
  2:{ exfalso. apply Hn. exists x. split; [|done].
      rewrite Hl. apply elem_of_app. right. by left. }
  eexists. split; [done|].
  set (set1 := MkFuncSorted (p ++ e :: r) (cmp set) (eq set)).
  assert (lawful set1) as HL1 by done.
  destruct (func_remove_outcome zero set1 HL1 Hs1 e)
    as (p' & old' & r' & Hl' & Hrem & Hold' & _).
  rewrite Hrem. simpl in Hl'. simpl. do 2 f_equal.
  destruct Hold' as [[-> Hn']|(x & -> & Hxe)].
  - exfalso. apply Hn'. apply (has_elem (cmp set)); [done|].
    simpl. apply elem_of_app. right. by left.
  - assert (x = e) as ->.
    { destruct HL as [_ Heq]. apply (distinct_eq_same _ _ Heq (p ++ e :: r)).
      - apply Hs1.
      - rewrite Hl'. apply elem_of_app. right. by left.
      - apply elem_of_app. right. by left.
      - done. }
    simpl in Hl'.
    destruct (distinct_split_unique (cmp set) (eq set) HL p r p' r' e) as [-> ->];
      [apply Hs1 | done |].
    by rewrite Hl.
Qed.

(** ** Set algebra *)

Lemma func_holds_congr set other (x y : E) :
  lawful set → eq set x y = true →
  holds (eq set) other x ↔ holds (eq set) other y.
Proof.
  intros HL Hxy. pose proof HL as [_ Heq]. unfold holds. split.
  - by apply (has_congr (cmp set) (eq set) HL).
  - apply (has_congr (cmp set) (eq set) HL). by rewrite (id_sym _ _ Heq).
Qed.

Lemma func_Intersection_spec set other :
  lawful set → sorted_sequence set → coherent (eq set) other →
  let set' := intersection set other in
  cmp set' = cmp set ∧ eq set' = eq set
  ∧ sorted_sequence set'
  ∧ (∀ y, member set' y ↔ member set y ∧ holds (eq set) other y).
Proof.
  intros HL Hseq [Hc _]. unfold intersection. cbn zeta.
  split; [done|]. split; [done|].
  split. { unfold sorted_sequence. simpl. by apply sorted_seq_filter. }
  intros y. unfold member, has. simpl. split.
  - intros (x & Hx & Hxy). apply list_elem_of_filter in Hx as [Hcx Hx].
    split; [by exists x|].
    apply (func_holds_congr set other x y HL Hxy). by apply Hc.
  - intros [(x & Hx & Hxy) Hy]. exists x. split; [|done].
    apply list_elem_of_filter. split; [|done].
    apply Hc. by apply (func_holds_congr set other x y HL Hxy).
Qed.

Lemma func_Difference_spec set other :
  lawful set → sorted_sequence set → coherent (eq set) other →
  let set' := difference set other in
  cmp set' = cmp set ∧ eq set' = eq set
  ∧ sorted_sequence set'
  ∧ (∀ y, member set' y ↔ member set y ∧ ¬ holds (eq set) other y).
Proof.
  intros HL Hseq [Hc _]. unfold difference. cbn zeta.
  split; [done|]. split; [done|].
  split. { unfold sorted_sequence. simpl. by apply sorted_seq_filter. }
  intros y. unfold member, has. simpl. split.
  - intros (x & Hx & Hxy). apply list_elem_of_filter in Hx as [Hcx Hx].
    split; [by exists x|]. intros Hy.
    apply (func_holds_congr set other x y HL Hxy) in Hy. apply Hc in Hy. congruence.
  - intros [(x & Hx & Hxy) Hy]. exists x. split; [|done].
    apply list_elem_of_filter. split; [|done].
    destruct (view_Contains other x) eqn:Hcx; [|done]. exfalso. apply Hy.
    apply (func_holds_congr set other x y HL Hxy). by apply Hc.
Qed.

Lemma func_Union_spec set other :
  lawful set → sorted_sequence set → coherent (eq set) other →
  kind other ≠ IsReceiver ∨ itself set other →
  ∃ set', union zero set other = Ok set'
    ∧ cmp set' = cmp set ∧ eq set' = eq set
    ∧ sorted_sequence set'
    ∧ (∀ y, member set' y ↔ member set y ∨ holds (eq set) other y).
Proof.
  intros HL Hseq [_ He] Hk. unfold union. cbn zeta.
  assert (∀ l, (∀ y, has (eq set) l y ↔ holds (eq set) other y) →
    ∃ set', insertAll zero (clone set) l = Ok set'
      ∧ cmp set' = cmp set ∧ eq set' = eq set
      ∧ sorted_sequence set'
      ∧ (∀ y, member set' y ↔ member set y ∨ holds (eq set) other y)) as Hall.
  { intros l Hl.
    destruct (func_insertAll_spec zero (clone set) l)
      as (set' & -> & Hc & Hq & Hs & _ & Hm); [done | done |].
    exists set'. split; [done|]. split; [done|]. split; [done|]. split; [done|].
    intros y. rewrite Hm. simpl. by rewrite Hl. }
  destruct (kind other) eqn:Hkind; try (by apply Hall).
  destruct Hk as [Hk|(_ & _ & Hr)]; [done|].
  apply Hall. intros y. unfold holds. by rewrite Hr.
Qed.

(** The elements of the operand that are not in the set, as
    [SymmetricDifference] collects them. *)
Lemma func_missing_spec set (l : list E) :
  lawful set → sorted_sequence set →
  ∀ acc, ∃ miss,
    for_range l
      (λ elems_ e, c ← Contains set e;
                   if negb c then Ok (elems_ ++ [e]) else Ok elems_) acc
    = Ok (acc ++ miss)
    ∧ ∀ x, x ∈ miss ↔ x ∈ l ∧ ¬ member set x.
Proof.
  intros HL Hseq. induction l as [|x l IH]; intros acc.
  { exists []. simpl. rewrite app_nil_r. split; [done|].
    intros x. split; [intros H; inversion H | intros [H _]; inversion H]. }
  cbn [for_range].
  destruct (func_contains_spec set HL Hseq x) as (b & -> & Hm).
  cbn [mbind run_bind].
  destruct b; cbn [negb mbind run_bind].
  - destruct (IH acc) as (miss & -> & Hmiss). exists miss. split; [done|].
    intros y. rewrite Hmiss, elem_of_cons. split; [tauto|].
    intros [[->|Hy] Hn]; [|done]. exfalso. by apply Hn, Hm.
  - destruct (IH (acc ++ [x])) as (miss & -> & Hmiss). exists (x :: miss).
    split; [by rewrite <-app_assoc|].
    intros y. rewrite !elem_of_cons, Hmiss. split.
    + intros [->|[Hy Hn]]; [|tauto]. split; [by left|].
      intros Hx. apply Hm in Hx. done.
    + intros [[->|Hy] Hn]; [by left | by right].
Qed.

Lemma func_SymmetricDifference_spec set other :
  lawful set → sorted_sequence set → coherent (eq set) other →
  ∃ set', symmetricDifference zero set other = Ok set'
    ∧ cmp set' = cmp set ∧ eq set' = eq set
    ∧ sorted_sequence set'
    ∧ (∀ y, member set' y ↔
            (member set y ∧ ¬ holds (eq set) other y)
            ∨ (holds (eq set) other y ∧ ¬ member set y)).
Proof.
  intros HL Hseq Hco. unfold symmetricDifference. cbn zeta.
  destruct (func_missing_spec set (view_Range other) HL Hseq []) as (miss & -> & Hmiss).
  cbn [mbind run_bind app].
  destruct (func_Difference_spec set other HL Hseq Hco) as (Hdc & Hdq & Hds & Hdm).
  unfold difference in Hdc, Hdq, Hds, Hdm.
  match goal with |- context [insertAll zero ?s ?l] =>
    destruct (func_insertAll_spec zero s l) as (set' & -> & Hc & Hq & Hs & _ & Hm);
      [done | done |]
  end.
  exists set'. split; [done|]. split; [done|]. split; [done|]. split; [done|].
  intros y. rewrite Hm, Hdm. simpl.
  assert (has (eq set) miss y ↔ holds (eq set) other y ∧ ¬ member set y) as ->; [|done].
  pose proof HL as [_ Heq]. unfold holds, has. split.
  - intros (x & Hx & Hxy). apply Hmiss in Hx as [Hx Hnx].
    split; [by exists x|]. intros Hy. apply Hnx.
    apply (has_congr (cmp set) (eq set) HL _ y x); [|done].
    by rewrite (id_sym _ _ Heq).
  - intros [(x & Hx & Hxy) Hny]. exists x. split; [|done].
    apply Hmiss. split; [done|]. intros Hmx. apply Hny.
    by apply (has_congr (cmp set) (eq set) HL _ x y).
Qed.

(** [intersection] and [difference] split the elements of the set. *)
Lemma func_Intersection_Difference_Len set other :
  let i := intersection set other in
  let d := difference set other in
  Len i + Len d = Len set
  ∧ (∀ x, x ∈ list_ set ↔ x ∈ list_ i ∨ x ∈ list_ d)
  ∧ (∀ x, x ∈ list_ i → x ∉ list_ d).
Proof.
  unfold intersection, difference, Len. simpl. split_and!.
  - unfold len. induction (list_ set) as [|x l IH]; [done|].
    rewrite !filter_cons.
    destruct (view_Contains other x); simpl;
      repeat (rewrite decide_True by done || rewrite decide_False by done);
      simpl; lia.
  - intros x. rewrite !list_elem_of_filter.
    destruct (view_Contains other x); split; try tauto; intros [[? ?]|[? ?]]; done.
  - intros x. rewrite !list_elem_of_filter. intros [H1 _] [H2 _]. congruence.
Qed.

End facts.
End FuncSortedAlgebra.

Import Go slicesx GoFacts.
Import Spec Spec2 Spec3 Spec4 Spec5 Spec6.
Import SearchFacts OrderFacts LoopFacts ShiftFacts SeqSpec SeqFacts BatchFacts.
Import Natural NaturalOrder NaturalSpec NaturalLaws NaturalSorted NaturalMerge NaturalMergeLoop NaturalDelete NaturalDeleteLoop.
Import Operand.

(** A comparison that also identifies leaves no ties. *)
Module StrictOrder.
Section facts.
Context {E : Type}.
Variable cmp : E → E → Z.

Lemma strict_of_cmp_identity (l : list E) :
  sorted_seq cmp (λ a b, bool_decide (cmp a b = 0)) l → strictly_ascending cmp l.
Proof.
  intros [Hasc Hd]. unfold ascending, distinct, strictly_ascending in *.
  induction l as [|x l IH]; [constructor|].
  apply StronglySorted_inv in Hasc as [Hasc Hx].
  apply StronglySorted_inv in Hd as [Hd Hxd].
  constructor; [by apply IH|].
  rewrite Forall_forall in *. intros y Hy.
  specialize (Hx y Hy). specialize (Hxd y Hy). simpl in Hxd.
  apply bool_decide_eq_false in Hxd. lia.
Qed.

End facts.
End StrictOrder.

(** The comparator set of [sorted.go] handed to itself. *)
Module SelfOperand.
Import sets SetSpec SortedLaws SortedSubstitution SortedAlgebra.
Section facts.
Context {E : Type}.
Variable zero : E.
Implicit Types set : sorted E.

Lemma no_member_nil set :
  lawful set → (∀ y, ¬ member set y) → elems set = [].
Proof.
  intros HL Hn. destruct (elems set) as [|x l] eqn:Hl; [done|].
  exfalso. apply (Hn x). apply (has_elem (cmp set)); [done|].
  rewrite Hl. by left.
Qed.

Lemma RemoveSet_itself set other :
  lawful set → sorted_sequence set → itself set other →
  RemoveSet zero set other = Ok (MkSorted [] (cmp set) (eq set)).
Proof.
  intros HL Hseq (_ & He & _). unfold RemoveSet. rewrite He.
  destruct (removeAll_spec zero set (elems set) HL Hseq)
    as (set' & -> & Hc & Hq & Hs & _ & Hm).
  f_equal. destruct set' as [l c q]. simpl in *. subst c q.
  f_equal. apply (no_member_nil (MkSorted l (cmp set) (eq set))); [done|].
  intros y Hy. apply Hm in Hy as [Hy Hn]. by apply Hn.
Qed.

Lemma holds_itself set other y :
  itself set other → holds (eq set) other y ↔ member set y.
Proof. intros (_ & _ & Hr). unfold holds, member. by rewrite Hr. Qed.

Lemma Intersection_itself set other :
  lawful set → itself set other → coherent (eq set) other →
  Intersection set other = Ok (MkSorted (elems set) (cmp set) (eq set)).
Proof.
  intros HL Hit [Hc _]. unfold Intersection. do 2 f_equal.
  apply NaturalDifference.filter_all. intros x Hx.
  apply Hc, (holds_itself set other x Hit). by apply (has_elem (cmp set)).
Qed.

Lemma Difference_itself set other :
  lawful set → itself set other → coherent (eq set) other →
  Difference set other = Ok (MkSorted [] (cmp set) (eq set)).
Proof.
  intros HL Hit [Hc _]. unfold Difference. do 2 f_equal.
  assert (∀ x, x ∈ elems set → set_Contains other x = true) as Hall.
  { intros y Hy. apply Hc, (holds_itself set other y Hit).
    by apply (has_elem (cmp set)). }
  induction (elems set) as [|y l IH]; [done|].
  rewrite filter_cons, decide_False.
  - apply IH. intros z Hz. apply Hall. by right.
  - rewrite Hall by (by left). done.
Qed.

Lemma ContainsSet_itself set other :
  lawful set → sorted_sequence set → itself set other →
  ContainsSet set other = Ok true.
Proof.
  intros HL Hseq (_ & _ & Hr).
  destruct (ContainsSet_spec set other HL Hseq) as (b & -> & Hb).
  f_equal. apply Hb. intros e He. rewrite Hr in He.
  by apply (has_elem (cmp set)).
Qed.

Lemma Union_itself set other :
  lawful set → sorted_sequence set → itself set other →
  ∃ set', Union zero set other = Ok set'
    ∧ (∀ y, Contains set' y = Contains set y) ∧ Len set' = Len set.
Proof.
  intros HL Hseq (_ & He & _). unfold Union. cbn zeta. rewrite He.
  destruct (insertAll_spec zero (Clone set) (elems set))
    as (set' & -> & Hc & Hq & Hs & _ & Hm); [done | done |].
  exists set'. split; [done|].
  apply same_members; try done.
  - unfold lawful. by rewrite Hc, Hq.
  - intros y. rewrite Hm. simpl. unfold member. tauto.
Qed.

Lemma SymmetricDifference_itself set other :
  lawful set → sorted_sequence set → itself set other → coherent (eq set) other →
  SymmetricDifference zero set other = Ok (MkSorted [] (cmp set) (eq set)).
Proof.
  intros HL Hseq Hit Hco.
  destruct (SymmetricDifference_spec zero set other HL Hseq Hco)
    as (set' & -> & Hc & Hq & Hs & Hm).
  f_equal. destruct set' as [l c q]. simpl in *. subst c q. f_equal.
  apply (no_member_nil (MkSorted l (cmp set) (eq set))); [done|].
  intros y Hy. apply Hm in Hy.
  rewrite (holds_itself set other y Hit) in Hy. tauto.
Qed.

End facts.
End SelfOperand.

(** The comparator set of the second package handed to itself. *)
Module FuncSelfOperand.
Import sets2 FuncSetSpec FuncSortedLaws FuncSortedSubstitution FuncSortedAlgebra Operand2.
Section facts.
Context {E : Type}.
Variable zero : E.
Implicit Types s : funcSorted E.

Lemma func_no_member_nil s :
  lawful s → (∀ y, ¬ member s y) → list_ s = [].
Proof.
  intros HL Hn. destruct (list_ s) as [|x l] eqn:Hl; [done|].
  exfalso. apply (Hn x). apply (has_elem (cmp s)); [done|].
  rewrite Hl. by left.
Qed.

(** [removeSet] of the receiver clears the list. *)
Lemma removeSet_itself s other :
  itself s other → removeSet zero s other = Ok (MkFuncSorted [] (cmp s) (eq s)).
Proof.
  intros (Hk & _ & _). unfold removeSet. rewrite Hk.
  unfold clear, slice. pose proof (len_nonneg (list_ s)).
  rewrite bool_decide_true by lia. cbn [mbind run_bind].
  rewrite bool_decide_true.
  - cbn [mbind run_bind]. done.
  - simpl. split; [done|]. split; [done|]. apply len_nonneg.
Qed.

Lemma func_holds_itself s other y :
  itself s other → holds (eq s) other y ↔ member s y.
Proof. intros (_ & _ & Hr). unfold holds, member. by rewrite Hr. Qed.

Lemma intersection_itself s other :
  lawful s → itself s other → coherent (eq s) other →
  intersection s other = MkFuncSorted (list_ s) (cmp s) (eq s).
Proof.
  intros HL Hit [Hc _]. unfold intersection. f_equal.
  apply NaturalDifference.filter_all. intros x Hx.
  apply Hc, (func_holds_itself s other x Hit). by apply (has_elem (cmp s)).
Qed.

Lemma difference_itself s other :
  lawful s → itself s other → coherent (eq s) other →
  difference s other = MkFuncSorted [] (cmp s) (eq s).
Proof.
  intros HL Hit [Hc _]. unfold difference. f_equal.
  assert (∀ x, x ∈ list_ s → view_Contains other x = true) as Hall.
  { intros y Hy. apply Hc, (func_holds_itself s other y Hit).
    by apply (has_elem (cmp s)). }
  induction (list_ s) as [|y l IH]; [done|].
  rewrite filter_cons, decide_False.
  - apply IH. intros z Hz. apply Hall. by right.
  - rewrite Hall by (by left). done.
Qed.

Lemma union_itself s other :
  lawful s → sorted_sequence s → itself s other →
  ∃ s', union zero s other = Ok s'
    ∧ (∀ y, Contains s' y = Contains s y) ∧ Len s' = Len s.
Proof.
  intros HL Hseq (Hk & _ & _). unfold union. cbn zeta. rewrite Hk.
  destruct (func_insertAll_spec zero (clone s) (list_ s))
    as (s' & -> & Hc & Hq & Hs & _ & Hm); [done | done |].
  exists s'. split; [done|].
  apply func_same_members; try done.
  - unfold lawful. by rewrite Hc, Hq.
  - intros y. rewrite Hm. simpl. unfold member. tauto.
Qed.

Lemma symmetricDifference_itself s other :
  lawful s → sorted_sequence s → itself s other → coherent (eq s) other →
  symmetricDifference zero s other = Ok (MkFuncSorted [] (cmp s) (eq s)).
Proof.
  intros HL Hseq Hit Hco.
  destruct (func_SymmetricDifference_spec zero s other HL Hseq Hco)
    as (s' & -> & Hc & Hq & Hs & Hm).
  f_equal. destruct s' as [l c q]. simpl in *. subst c q. f_equal.
  apply (func_no_member_nil (MkFuncSorted l (cmp s) (eq s))); [done|].
  intros y Hy. apply Hm in Hy.
  rewrite (func_holds_itself s other y Hit) in Hy. tauto.
Qed.

End facts.
End FuncSelfOperand.

Import Go slicesx GoFacts.
Import Spec Spec2 Spec3 Spec4 Spec5 Spec6.
Import SearchFacts OrderFacts LoopFacts ShiftFacts SeqSpec SeqFacts BatchFacts.
Import Natural NaturalOrder NaturalSpec NaturalLaws NaturalSorted NaturalMerge NaturalMergeLoop NaturalDelete NaturalDeleteLoop.
Import Heap HeapFacts.

(** A clone and its original do not share. *)
Module CloneFacts.
Import CloneHeap.

Lemma Clone_apart {E} (h : list (list E)) (set : SortedHeap.sorted E) :
  valid h (SortedHeap.elems set) →
  let '(h1, c) := Clone h set in
  SortedHeap.read h1 c = SortedHeap.read h set
  ∧ SortedHeap.read h1 set = SortedHeap.read h set
  ∧ SortedApart.apart h1 set (SortedHeap.elems c)
  ∧ SortedApart.apart h1 c (SortedHeap.elems set).
Proof.
  intros Hv. unfold Clone.
  pose proof (Clone_fresh h (SortedHeap.elems set) Hv) as Hc.
  destruct (Heap.Clone h (SortedHeap.elems set)) as [h1 sl].
  destruct Hc as (Hcont & Hbase & Hvalid & Hlen & Hframe & Hkeep).
  pose proof Hv as [Hlt _].
  unfold SortedHeap.read, SortedApart.apart. simpl. split_and!.
  - by rewrite Hcont.
  - by rewrite Hframe.
  - by apply Hkeep.
  - lia.
  - lia.
  - done.
  - lia.
  - lia.
Qed.

Lemma clone_apart {E} (h : list (list E)) (s : FuncSortedHeap.funcSorted E) :
  valid h (FuncSortedHeap.list_ s) →
  let '(h1, c) := clone h s in
  FuncSortedHeap.read h1 c = FuncSortedHeap.read h s
  ∧ FuncSortedHeap.read h1 s = FuncSortedHeap.read h s
  ∧ FuncSortedApart.apart h1 s (FuncSortedHeap.list_ c)
  ∧ FuncSortedApart.apart h1 c (FuncSortedHeap.list_ s).
Proof.
  intros Hv. unfold clone.
  pose proof (Clone_fresh h (FuncSortedHeap.list_ s) Hv) as Hc.
  destruct (Heap.Clone h (FuncSortedHeap.list_ s)) as [h1 sl].
  destruct Hc as (Hcont & Hbase & Hvalid & Hlen & Hframe & Hkeep).
  pose proof Hv as [Hlt _].
  unfold FuncSortedHeap.read, FuncSortedApart.apart. simpl. split_and!.
  - by rewrite Hcont.
  - by rewrite Hframe.
  - by apply Hkeep.
  - lia.
  - lia.
  - done.
  - lia.
  - lia.
Qed.

Lemma ordered_Clone_apart (h : list (list Z)) (set : OrderedHeap.ordered) :
  valid h (OrderedHeap.elems set) →
  let '(h1, c) := ordered_Clone h set in
  OrderedHeap.read h1 c = OrderedHeap.read h set
  ∧ OrderedHeap.read h1 set = OrderedHeap.read h set
  ∧ OrderedApart.apart h1 set (OrderedHeap.elems c)
  ∧ OrderedApart.apart h1 c (OrderedHeap.elems set).
Proof.
  intros Hv. unfold ordered_Clone.
  pose proof (Clone_fresh h (OrderedHeap.elems set) Hv) as Hc.
  destruct (Heap.Clone h (OrderedHeap.elems set)) as [h1 sl].
  destruct Hc as (Hcont & Hbase & Hvalid & Hlen & Hframe & Hkeep).
  pose proof Hv as [Hlt _].
  unfold OrderedHeap.read, OrderedApart.apart. simpl. split_and!.
  - by rewrite Hcont.
  - by rewrite Hframe.
  - by apply Hkeep.
  - lia.
  - lia.
  - done.
  - lia.
  - lia.
Qed.

Lemma ordered_clone_apart (h : list (list Z)) (s : Ordered2Heap.ordered) :
  valid h (Ordered2Heap.list_ s) →
  let '(h1, c) := ordered_clone h s in
  Ordered2Heap.read h1 c = Ordered2Heap.read h s
  ∧ Ordered2Heap.read h1 s = Ordered2Heap.read h s
  ∧ Ordered2Apart.apart h1 s (Ordered2Heap.list_ c)
  ∧ Ordered2Apart.apart h1 c (Ordered2Heap.list_ s).
Proof.
  intros Hv. unfold ordered_clone.
  pose proof (Clone_fresh h (Ordered2Heap.list_ s) Hv) as Hc.
  destruct (Heap.Clone h (Ordered2Heap.list_ s)) as [h1 sl].
  destruct Hc as (Hcont & Hbase & Hvalid & Hlen & Hframe & Hkeep).
  pose proof Hv as [Hlt _].
  unfold Ordered2Heap.read, Ordered2Apart.apart. simpl. split_and!.
  - by rewrite Hcont.
  - by rewrite Hframe.
  - by apply Hkeep.
  - lia.
  - lia.
  - done.
  - lia.
  - lia.
Qed.

End CloneFacts.

Import Go slicesx GoFacts.
Import Spec Spec2 Spec3 Spec4 Spec5 Spec6.
Import SearchFacts OrderFacts LoopFacts ShiftFacts SeqSpec SeqFacts BatchFacts.
Import Natural NaturalOrder NaturalSpec NaturalLaws NaturalSorted NaturalMerge NaturalMergeLoop NaturalDelete NaturalDeleteLoop.
Import WalkLoop WalkFacts NaturalExtensionality.

(** ** The natural-order sets: membership questions *)
Module NaturalQuestions.
Import LockStep.

Lemma strictly_sorted_NoDup l : strictly_sorted l → NoDup l.
Proof.
  induction l as [|x l IH]; [constructor|].
  intros Hs. apply strictly_sorted_cons in Hs as [Hl Hx].
  constructor; [|by apply IH]. intros Hin. specialize (Hx x Hin). lia.
Qed.

Lemma strictly_sorted_non_decreasing l : strictly_sorted l → non_decreasing l.
Proof.
  unfold strictly_sorted, non_decreasing. induction 1 as [|x l Hl IH Hx]; constructor.
  - done.
  - eapply Forall_impl; [done|]. intros y Hy. simpl in Hy. lia.
Qed.

Lemma in_step_spec a b :
  strictly_sorted a → strictly_sorted b →
  ∃ r, in_step a b = Ok r ∧ (r = true ↔ ∀ x, x ∈ b → x ∈ a).
Proof.
  intros Ha Hb. unfold in_step. cbn zeta.
  match goal with |- context [while_ret ?fu ?c ?bd ?st] =>
    destruct (while_ret_inv (S:=Z * Z) (R:=bool)
                (in_step_inv a b)
                (λ r, r = false ∧ ¬ ∀ x, x ∈ b → x ∈ a)
                (λ '(ai, bi), Z.to_nat (len a - ai + (len b - bi)))
                fu c bd st)
      as (r & -> & Hr)
  end.
  - exists [], a, [], b. split; [done|]. split; [done|]. split; [done|].
    split; intros x; [|intros y]; intros Hx; inversion Hx.
  - unfold len. lia.
  - intros [ai bi] (p & ra & q & rb & Hs & Hea & Heb & Hsub & Hlow).
    injection Hs as -> ->. eexists. split; [done|].
    intros Hc. apply andb_true_iff in Hc as [Hlta Hltb].
    apply bool_decide_eq_true in Hlta, Hltb.
    destruct ra as [|av ra].
    { rewrite app_nil_r in Hea. subst. lia. }
    destruct rb as [|bv rb].
    { rewrite app_nil_r in Heb. subst. lia. }
    pose proof (len_nonneg ra). pose proof (len_nonneg rb).
    assert (len a = len p + 1 + len ra) as Hla by (rewrite Hea, len_app, len_cons; lia).
    assert (len b = len q + 1 + len rb) as Hlb by (rewrite Heb, len_app, len_cons; lia).
    split; [lia|].
    assert (index a (len p) = Ok av) as -> by (rewrite Hea; apply index_mid).
    assert (index b (len q) = Ok bv) as -> by (rewrite Heb; apply index_mid).
    cbn [mbind run_bind].
    assert (∀ y, y ∈ ra → av < y) as Hav.
    { rewrite Hea in Ha. apply strictly_sorted_app in Ha as (_ & Ha & _).
      by apply strictly_sorted_cons in Ha as [_ Ha]. }
    assert (∀ y, y ∈ rb → bv < y) as Hbv.
    { rewrite Heb in Hb. apply strictly_sorted_app in Hb as (_ & Hb & _).
      by apply strictly_sorted_cons in Hb as [_ Hb]. }
    case_bool_decide as Hc1; [|case_bool_decide as Hc2].
    + eexists. split; [done|]. split; [|lia].
      exists (p ++ [av]), ra, q, (bv :: rb).
      rewrite len_snoc, <-app_assoc. split; [done|]. split; [done|]. split; [done|].
      split.
      * intros x Hx. apply elem_of_app. left. by apply Hsub.
      * intros x y Hx Hy. apply elem_of_app in Hx as [Hx|Hx]; [by apply Hlow|].
        apply list_elem_of_singleton in Hx as ->.
        apply elem_of_cons in Hy as [->|Hy]; [done|]. specialize (Hbv y Hy). lia.
    + subst bv. eexists. split; [done|]. split; [|lia].
      exists (p ++ [av]), ra, (q ++ [av]), rb.
      rewrite !len_snoc, <-!app_assoc. split; [done|]. split; [done|]. split; [done|].
      split.
      * intros x Hx. apply elem_of_app in Hx as [Hx|Hx].
        -- apply elem_of_app. left. by apply Hsub.
        -- apply elem_of_app. by right.
      * intros x y Hx Hy. apply elem_of_app in Hx as [Hx|Hx].
        -- apply Hlow; [done|]. by right.
        -- apply list_elem_of_singleton in Hx as ->. by apply Hbv.
    + eexists. split; [done|]. split; [done|]. intros Hall.
      assert (bv ∈ a) as Hin.
      { apply Hall. rewrite Heb. apply elem_of_app. right. by left. }
      rewrite Hea in Hin. apply elem_of_app in Hin as [Hin|Hin].
      * assert (bv < bv) by (apply Hlow; [done | by left]). lia.
      * apply elem_of_cons in Hin as [->|Hin]; [done|]. specialize (Hav bv Hin). lia.
  - destruct r as [[ai bi]|ok]; cbn [mbind run_bind].
    + destruct Hr as [(p & ra & q & rb & Hs & Hea & Heb & Hsub & Hlow) Hc].
      injection Hs as -> ->. eexists. split; [done|].
      injection Hc as Hc.
      destruct (decide (len q = len b)) as [Hbn|Hbn];
        [rewrite (bool_decide_true (len q = len b)) by done
        |rewrite (bool_decide_false (len q = len b)) by done].
      * split; [|done]. intros _ x Hx.
        assert (rb = []) as ->.
        { rewrite Heb, len_app in Hbn. destruct rb; [done|].
          rewrite len_cons in Hbn. pose proof (len_nonneg rb). lia. }
        rewrite app_nil_r in Heb. subst b. rewrite Hea. apply elem_of_app. left.
        by apply Hsub.
      * split; [done|]. intros Hall. exfalso.
        apply andb_false_iff in Hc as [Hc|Hc]; apply bool_decide_eq_false in Hc.
        -- assert (ra = []) as ->.
           { rewrite Hea, len_app in Hc. destruct ra; [done|].
             rewrite len_cons in Hc. pose proof (len_nonneg ra). lia. }
           rewrite app_nil_r in Hea. subst a.
           destruct rb as [|y rb]. { rewrite app_nil_r in Heb. by subst b. }
           assert (y ∈ p) as Hy.
           { apply Hall. rewrite Heb. apply elem_of_app. right. by left. }
           assert (y < y) by (apply Hlow; [done | by left]). lia.
        -- rewrite Heb, len_app in Hc, Hbn. pose proof (len_nonneg rb). lia.
    + destruct Hr as [-> Hr]. exists false. split; [done|]. split; [done|].
      intros Hall. done.
Qed.

Section first.
Import ordered.

Lemma ordered_Contains_spec set e :
  strictly_sorted (elems set) →
  ∃ b, Contains set e = Ok b ∧ (b = true ↔ e ∈ elems set).
Proof.
  intros Hs. apply strictly_sorted_non_decreasing in Hs as Hnd.
  unfold Contains.
  destruct (NaturalSearch.ordered_search_spec set e Hnd) as (idx & found & -> & Hloc).
  exists found. split; [done|].
  rewrite (located_has _ _ _ _ _ _ Hloc). apply has_same.
Qed.

Lemma ordered_ContainsAll_spec set l :
  strictly_sorted (elems set) →
  ∃ b, ContainsAll set l = Ok b ∧ (b = true ↔ ∀ e, e ∈ l → e ∈ elems set).
Proof.
  intros Hs. unfold ContainsAll.
  induction l as [|x l IH].
  { exists true. split; [done|]. split; [|done]. intros _ e He. inversion He. }
  cbn [for_range_ret].
  destruct (ordered_Contains_spec set x Hs) as (b & Hb & Hm).
  unfold Contains in Hb.
  destruct (search set x) as [[idx ok]| |]; try done.
  cbn [mbind run_bind] in *. injection Hb as ->.
  destruct b; cbn [negb mbind run_bind].
  - destruct IH as (b' & Hb' & Hm'). exists b'. split; [done|].
    rewrite Hm'. split.
    + intros Hall e He. apply elem_of_cons in He as [->|He]; [by apply Hm | by apply Hall].
    + intros Hall e He. apply Hall. by right.
  - exists false. split; [done|]. split; [done|].
    intros Hall. apply Hm. apply Hall. by left.
Qed.

Lemma ordered_ContainsSet_in_step set other :
  kind other ≠ IsOther →
  ContainsSet set other
  = in_step (elems set) (NaturalOperand.members set other).
Proof.
  intros Hk. unfold ContainsSet, NaturalOperand.members, in_step.
  by destruct (kind other).
Qed.

Lemma ordered_ContainsSet_spec set other :
  strictly_sorted (elems set) → NaturalOperand.coherent other →
  ∃ b, ContainsSet set other = Ok b
    ∧ (b = true ↔ ∀ e, e ∈ NaturalOperand.members set other → e ∈ elems set).
Proof.
  intros Hs Hco. unfold NaturalOperand.coherent in Hco.
  destruct (kind other) eqn:Hk.
  - rewrite ordered_ContainsSet_in_step by congruence.
    unfold NaturalOperand.members. rewrite Hk. by apply in_step_spec.
  - rewrite ordered_ContainsSet_in_step by congruence.
    unfold NaturalOperand.members. rewrite Hk. by apply in_step_spec.
  - unfold ContainsSet, NaturalOperand.members. rewrite Hk.
    by apply ordered_ContainsAll_spec.
Qed.

End first.

Section second.
Import ordered2.
Import sets2 (view_kind, IsReceiver, IsOrdered, IsFuncSorted, IsTable, IsExternal,
              View_, MkView, kind, view_Contains, view_Elems, view_Range).

Lemma ordered2_ContainsAll_spec s l :
  strictly_sorted (list_ s) →
  ∃ b, ContainsAll s l = Ok b ∧ (b = true ↔ ∀ e, e ∈ l → e ∈ list_ s).
Proof.
  intros Hs. unfold ContainsAll.
  induction l as [|x l IH].
  { exists true. split; [done|]. split; [|done]. intros _ e He. inversion He. }
  cbn [for_range_ret].
  destruct (Ordered2Facts.ordered2_Contains_spec s x Hs) as (b & -> & Hm).
  cbn [mbind run_bind].
  destruct b; cbn [negb mbind run_bind].
  - destruct IH as (b' & Hb' & Hm'). exists b'. split; [done|].
    rewrite Hm'. split.
    + intros Hall e He. apply elem_of_cons in He as [->|He]; [by apply Hm | by apply Hall].
    + intros Hall e He. apply Hall. by right.
  - exists false. split; [done|]. split; [done|].
    intros Hall. apply Hm. apply Hall. by left.
Qed.

(** A list without repetition whose elements all lie in another is not
    the longer one. *)
Lemma NoDup_within_length (l k : list Z) :
  NoDup l → (∀ x, x ∈ l → x ∈ k) → (length l ≤ length k)%nat.
Proof.
  intros Hn Hsub. apply submseteq_length. by apply NoDup_submseteq.
Qed.

Lemma ordered2_ContainsSet_longer s other :
  len (view_Elems other) > len (list_ s) → ContainsSet s other = Ok false.
Proof.
  intros Hlen. unfold ContainsSet. by rewrite bool_decide_true by done.
Qed.

Lemma ordered2_ContainsSet_spec s other :
  strictly_sorted (list_ s) → NaturalOperand2.coherent other →
  (kind other = IsReceiver → view_Elems other = list_ s) →
  ∃ b, ContainsSet s other = Ok b
    ∧ (b = true ↔ ∀ e, e ∈ NaturalOperand2.members s other → e ∈ list_ s).
Proof.
  intros Hs Hco Hself. unfold ContainsSet.
  case_bool_decide as Hlen.
  { exists false. split; [done|]. split; [done|]. intros Hall. exfalso.
    assert (NoDup (view_Elems other)
            ∧ ∀ x, x ∈ view_Elems other → x ∈ NaturalOperand2.members s other)
      as [Hnd Hin].
    { unfold NaturalOperand2.coherent, NaturalOperand2.members in *.
      destruct (kind other).
      - rewrite Hself by done. split; [by apply strictly_sorted_NoDup|done].
      - split; [by apply strictly_sorted_NoDup|done].
      - destruct Hco as (_ & He & Hn). split; [done|]. intros x. apply He.
      - destruct Hco as (_ & He & Hn). split; [done|]. intros x. apply He.
      - destruct Hco as (_ & He & Hn). split; [done|]. intros x. apply He. }
    assert (length (view_Elems other) ≤ length (list_ s))%nat as Hle.
    { apply NoDup_within_length; [done|]. intros x Hx. by apply Hall, Hin. }
    unfold len in Hlen. lia. }
  unfold NaturalOperand2.coherent, NaturalOperand2.members in *.
  destruct (kind other) eqn:Hk.
  - by apply in_step_spec.
  - by apply in_step_spec.
  - destruct Hco as (_ & He & _).
    destruct (ordered2_ContainsAll_spec s (view_Elems other) Hs) as (b & -> & Hb).
    exists b. split; [done|]. rewrite Hb. split; intros Hall e Hin; apply Hall; by apply He.
  - by apply ordered2_ContainsAll_spec.
  - by apply ordered2_ContainsAll_spec.
Qed.

End second.
End NaturalQuestions.

Import Go slicesx GoFacts.
Import Spec Spec2 Spec3 Spec4 Spec5 Spec6.
Import SearchFacts OrderFacts LoopFacts ShiftFacts SeqSpec SeqFacts BatchFacts.
Import Natural NaturalOrder NaturalSpec NaturalLaws NaturalSorted NaturalMerge NaturalMergeLoop NaturalDelete NaturalDeleteLoop.
Import WalkLoop WalkFacts NaturalExtensionality NaturalQuestions.

(** ** The walk in step: what it collects *)
Module WalkCollects.
Import ordered WalkMembers.
Section facts.
Variables a b : list Z.
Variables keep_lt keep_gt keep_eq : bool.

Local Abbreviation walk_at := (WalkLoop.walk_at a b).
Local Abbreviation walk_members := (WalkMembers.walk_members a b keep_lt keep_gt keep_eq).

Lemma walk_at_inj s p ra q rb p' ra' q' rb' :
  walk_at s p ra q rb → walk_at s p' ra' q' rb' →
  p' = p ∧ ra' = ra ∧ q' = q ∧ rb' = rb.
Proof.
  intros (H1 & H2 & H3 & H4) (H1' & H2' & H3' & H4').
  assert (length p = length p') by (unfold len in *; lia).
  assert (length q = length q') by (unfold len in *; lia).
  rewrite H3 in H3'. rewrite H4 in H4'.
  apply app_inj_1 in H3' as [-> ->]; [|done].
  apply app_inj_1 in H4' as [-> ->]; [|done]. done.
Qed.

Lemma walk_collects :
  strictly_sorted a → strictly_sorted b →
  ∃ out p ra q rb,
    walk a b keep_lt keep_gt keep_eq = Ok (len p, len q, out)
    ∧ a = p ++ ra ∧ b = q ++ rb ∧ (ra = [] ∨ rb = [])
    ∧ (∀ x, x ∈ p → x ∉ rb)
    ∧ (∀ x, x ∈ q → x ∉ ra)
    ∧ (∀ x, x ∈ out ↔
         (keep_lt = true ∧ x ∈ p ∧ x ∉ q)
         ∨ (keep_gt = true ∧ x ∈ q ∧ x ∉ p)
         ∨ (keep_eq = true ∧ x ∈ p ∧ x ∈ q)).
Proof.
  intros Ha Hb.
  destruct (walk_inv a b keep_lt keep_gt keep_eq walk_members)
    as (ai & bi & out & p & ra & q & rb & Hw & Hat & Hend & Hinv).
  - intros p ra q rb (Hp & Hq & _ & _). simpl in Hp, Hq.
    assert (p = []) as -> by (destruct p; [done|]; rewrite len_cons in Hp;
                              pose proof (len_nonneg p); lia).
    assert (q = []) as -> by (destruct q; [done|]; rewrite len_cons in Hq;
                              pose proof (len_nonneg q); lia).
    split; [intros x y Hx; inversion Hx|]. split; [intros x y Hx; inversion Hx|].
    intros x. simpl. split; [intros Hx; inversion Hx|].
    intros [(_ & Hx & _)|[(_ & Hx & _)|(_ & Hx & _)]]; inversion Hx.
  - intros ai bi out p av ra q bv rb Hat Hinv.
    destruct (Hinv _ _ _ _ Hat) as (Hlow & Hlow' & Hm). simpl in Hm.
    pose proof Hat as (Hai & Hbi & Hea & Heb). simpl in Hai, Hbi.
    assert (∀ y, y ∈ ra → av < y) as Hav.
    { rewrite Hea in Ha. apply strictly_sorted_app in Ha as (_ & Ha & _).
      by apply strictly_sorted_cons in Ha as [_ Ha]. }
    assert (∀ y, y ∈ rb → bv < y) as Hbv.
    { rewrite Heb in Hb. apply strictly_sorted_app in Hb as (_ & Hb & _).
      by apply strictly_sorted_cons in Hb as [_ Hb]. }
    assert (av ∉ q) as Hnq.
    { intros Hin. assert (av < av) by (apply Hlow'; [done | by left]). lia. }
    assert (bv ∉ p) as Hnp.
    { intros Hin. assert (bv < bv) by (apply Hlow; [done | by left]). lia. }
    split_and!.
    + intros Hlt p' ra' q' rb' Hat'.
      assert (walk_at (ai + 1, bi, if keep_lt then out ++ [av] else out)
                (p ++ [av]) ra q (bv :: rb)) as Hat2.
      { unfold WalkLoop.walk_at. simpl. rewrite len_snoc, <-app_assoc.
        split_and!; try done; lia. }
      destruct (walk_at_inj _ _ _ _ _ _ _ _ _ Hat2 Hat') as (-> & -> & -> & ->).
      split_and!.
      * intros x y Hx Hy. apply elem_of_app in Hx as [Hx|Hx]; [by apply Hlow|].
        apply list_elem_of_singleton in Hx as ->.
        apply elem_of_cons in Hy as [->|Hy]; [done|]. specialize (Hbv y Hy). lia.
      * intros x y Hx Hy. apply Hlow'; [done | by right].
      * intros x. simpl. specialize (Hm x).
        destruct (decide (x = av)) as [->|Hne].
        -- destruct keep_lt; rewrite ?elem_of_app, ?list_elem_of_singleton, ?Hm;
             intuition congruence.
        -- destruct keep_lt; rewrite ?elem_of_app, ?list_elem_of_singleton, ?Hm;
             intuition congruence.
    + intros Hgt p' ra' q' rb' Hat'.
      assert (walk_at (ai, bi + 1, if keep_gt then out ++ [bv] else out)
                p (av :: ra) (q ++ [bv]) rb) as Hat2.
      { unfold WalkLoop.walk_at. simpl. rewrite len_snoc, <-app_assoc.
        split_and!; try done; lia. }
      destruct (walk_at_inj _ _ _ _ _ _ _ _ _ Hat2 Hat') as (-> & -> & -> & ->).
      split_and!.
      * intros x y Hx Hy. apply Hlow; [done | by right].
      * intros x y Hx Hy. apply elem_of_app in Hx as [Hx|Hx]; [by apply Hlow'|].
        apply list_elem_of_singleton in Hx as ->.
        apply elem_of_cons in Hy as [->|Hy]; [lia|]. specialize (Hav y Hy). lia.
      * intros x. simpl. specialize (Hm x).
        destruct (decide (x = bv)) as [->|Hne].
        -- destruct keep_gt; rewrite ?elem_of_app, ?list_elem_of_singleton, ?Hm;
             intuition congruence.
        -- destruct keep_gt; rewrite ?elem_of_app, ?list_elem_of_singleton, ?Hm;
             intuition congruence.
    + intros Heq. subst bv. intros p' ra' q' rb' Hat'.
      assert (walk_at (ai + 1, bi + 1, if keep_eq then out ++ [av] else out)
                (p ++ [av]) ra (q ++ [av]) rb) as Hat2.
      { unfold WalkLoop.walk_at. simpl. rewrite !len_snoc, <-!app_assoc.
        split_and!; try done; lia. }
      destruct (walk_at_inj _ _ _ _ _ _ _ _ _ Hat2 Hat') as (-> & -> & -> & ->).
      split_and!.
      * intros x y Hx Hy. apply elem_of_app in Hx as [Hx|Hx].
        -- apply Hlow; [done | by right].
        -- apply list_elem_of_singleton in Hx as ->. by apply Hbv.
      * intros x y Hx Hy. apply elem_of_app in Hx as [Hx|Hx].
        -- apply Hlow'; [done | by right].
        -- apply list_elem_of_singleton in Hx as ->. by apply Hav.
      * intros x. simpl. specialize (Hm x).
        destruct (decide (x = av)) as [->|Hne].
        -- destruct keep_eq; rewrite ?elem_of_app, ?list_elem_of_singleton, ?Hm;
             intuition congruence.
        -- destruct keep_eq; rewrite ?elem_of_app, ?list_elem_of_singleton, ?Hm;
             intuition congruence.
  - destruct (Hinv _ _ _ _ Hat) as (Hlow & Hlow' & Hm). simpl in Hm.
    destruct Hat as (Hai & Hbi & Hea & Heb). simpl in Hai, Hbi. subst ai bi.
    exists out, p, ra, q, rb. split; [done|]. split; [done|]. split; [done|].
    split; [done|]. split_and!.
    + intros x Hx Hin. specialize (Hlow x x Hx Hin). lia.
    + intros x Hx Hin. specialize (Hlow' x x Hx Hin). lia.
    + done.
Qed.

End facts.

(** The four results. *)
Lemma walk_intersection a b :
  strictly_sorted a → strictly_sorted b →
  ∃ ai bi out, walk a b false false true = Ok (ai, bi, out)
    ∧ ∀ x, x ∈ out ↔ x ∈ a ∧ x ∈ b.
Proof.
  intros Ha Hb.
  destruct (walk_collects a b false false true Ha Hb)
    as (out & p & ra & q & rb & Hw & -> & -> & Hend & Hp & Hq & Hm).
  exists (len p), (len q), out. split; [done|]. intros x.
  specialize (Hp x). specialize (Hq x). rewrite Hm, !elem_of_app.
  destruct Hend as [-> | ->]; rewrite ?elem_of_nil in *; intuition congruence.
Qed.

Lemma walk_union a b :
  strictly_sorted a → strictly_sorted b →
  ∃ ai bi out ra rb, walk a b true true true = Ok (ai, bi, out)
    ∧ slice a ai (len a) = Ok ra ∧ slice b bi (len b) = Ok rb
    ∧ ∀ x, x ∈ (out ++ ra) ++ rb ↔ x ∈ a ∨ x ∈ b.
Proof.
  intros Ha Hb.
  destruct (walk_collects a b true true true Ha Hb)
    as (out & p & ra & q & rb & Hw & -> & -> & Hend & Hp & Hq & Hm).
  exists (len p), (len q), out, ra, rb. split; [done|].
  split; [apply slice_suffix|]. split; [apply slice_suffix|]. intros x.
  specialize (Hp x). specialize (Hq x). rewrite !elem_of_app, Hm.
  destruct (decide (x ∈ p)); destruct (decide (x ∈ q)); intuition congruence.
Qed.

Lemma walk_difference a b :
  strictly_sorted a → strictly_sorted b →
  ∃ ai bi out ra, walk a b true false false = Ok (ai, bi, out)
    ∧ slice a ai (len a) = Ok ra
    ∧ ∀ x, x ∈ out ++ ra ↔ x ∈ a ∧ x ∉ b.
Proof.
  intros Ha Hb.
  destruct (walk_collects a b true false false Ha Hb)
    as (out & p & ra & q & rb & Hw & -> & -> & Hend & Hp & Hq & Hm).
  exists (len p), (len q), out, ra. split; [done|].
  split; [apply slice_suffix|]. intros x.
  specialize (Hp x). specialize (Hq x). rewrite !elem_of_app, Hm.
  destruct Hend as [-> | ->]; rewrite ?elem_of_nil in *; intuition congruence.
Qed.

Lemma walk_symmetric a b :
  strictly_sorted a → strictly_sorted b →
  ∃ ai bi out ra rb, walk a b true true false = Ok (ai, bi, out)
    ∧ slice a ai (len a) = Ok ra ∧ slice b bi (len b) = Ok rb
    ∧ ∀ x, x ∈ (out ++ ra) ++ rb ↔ (x ∈ a ∧ x ∉ b) ∨ (x ∈ b ∧ x ∉ a).
Proof.
  intros Ha Hb.
  destruct (walk_collects a b true true false Ha Hb)
    as (out & p & ra & q & rb & Hw & -> & -> & Hend & Hp & Hq & Hm).
  exists (len p), (len q), out, ra, rb. split; [done|].
  split; [apply slice_suffix|]. split; [apply slice_suffix|]. intros x.
  specialize (Hp x). specialize (Hq x). rewrite !elem_of_app, Hm.
  destruct Hend as [-> | ->]; rewrite ?elem_of_nil in *; intuition congruence.
Qed.

End WalkCollects.

Import Go slicesx GoFacts.
Import Spec Spec2 Spec3 Spec4 Spec5 Spec6.
Import SearchFacts OrderFacts LoopFacts ShiftFacts SeqSpec SeqFacts BatchFacts.
Import Natural NaturalOrder NaturalSpec NaturalLaws NaturalSorted NaturalMerge NaturalMergeLoop NaturalDelete NaturalDeleteLoop.
Import WalkLoop WalkFacts NaturalExtensionality NaturalQuestions WalkCollects.

(** ** The natural-order set of [sorted.go]: what the operations leave *)
Module OrderedAlgebra.
Import ordered OrderedFacts OrderedInvariant NaturalOperand.

Lemma non_decreasing_cons x l :
  non_decreasing (x :: l) ↔ non_decreasing l ∧ ∀ y, y ∈ l → x ≤ y.
Proof.
  unfold non_decreasing. rewrite StronglySorted_cons, Forall_forall. tauto.
Qed.

(** Deleting a list that repeats elements deletes the same elements. *)
Lemma diff_uniq_elem_repeats a : ∀ b x,
  strictly_sorted a → non_decreasing b →
  (x ∈ diff_uniq a b ↔ x ∈ a ∧ x ∉ b).
Proof.
  induction a as [|u a IHa]; intros b x Ha Hb.
  { destruct b; simpl; split; try (by intros H; inversion H);
      intros [H _]; inversion H. }
  induction b as [|v b IHb].
  { rewrite diff_uniq_nil_r. split; [|by intros [H _]].
    intros H. split; [done|]. intros H'. inversion H'. }
  rewrite diff_uniq_cons.
  apply strictly_sorted_cons in Ha as Ha'. destruct Ha' as [Ha1 Ha2].
  apply non_decreasing_cons in Hb as Hb'. destruct Hb' as [Hb1 Hb2].
  case_bool_decide as Hlt; [|case_bool_decide as Hgt].
  - rewrite !elem_of_cons, (IHa (v :: b) x Ha1 Hb). unfold not.
    rewrite !elem_of_cons.
    assert (x = u → x = v → False) by lia.
    assert (x = u → x ∈ b → False) by (intros -> Hin; specialize (Hb2 _ Hin); lia).
    tauto.
  - rewrite (IHb Hb1). unfold not. rewrite !elem_of_cons.
    assert (x = u → x = v → False) by lia.
    assert (x ∈ a → x = v → False) by (intros Hin ->; specialize (Ha2 _ Hin); lia).
    tauto.
  - assert (u = v) as -> by lia.
    rewrite (IHa b x Ha1 Hb1). unfold not. rewrite !elem_of_cons.
    assert (x ∈ a → x = v → False) by (intros Hin ->; specialize (Ha2 _ Hin); lia).
    tauto.
Qed.

Lemma sort_elem (l : list Z) x : x ∈ SortStableFunc Compare l ↔ x ∈ l.
Proof. by rewrite (SortFacts.SortStableFunc_perm Compare l). Qed.

Lemma kind_cases other : kind other = IsOther ∨ kind other ≠ IsOther.
Proof. destruct (kind other); [by right | by right | by left]. Qed.

Lemma coherent_proper other : coherent other → OrderedOps.proper other.
Proof.
  unfold coherent, OrderedOps.proper. destruct (kind other); [done | done |].
  by intros (_ & _ & Hn).
Qed.

Lemma members_sorted set other :
  strictly_sorted (elems set) → coherent other → kind other ≠ IsOther →
  strictly_sorted (members set other)
  ∧ ordered_elems set other = Some (members set other).
Proof.
  unfold coherent, members, ordered_elems. intros Hs Hco Hk.
  by destruct (kind other).
Qed.

(** *** One element *)

Lemma ordered_Insert_spec set e :
  strictly_sorted (elems set) →
  ∃ set', Insert set e = Ok set'
    ∧ strictly_sorted (elems set')
    ∧ (∀ x, x ∈ elems set' ↔ x = e ∨ x ∈ elems set)
    ∧ Len set' = Len set + (if bool_decide (e ∈ elems set) then 0 else 1).
Proof.
  intros Hs.
  destruct (ordered_Insert_outcome set e Hs) as (p & old & r & Hl & -> & Hold & Hs').
  eexists. split; [done|]. split; [done|]. simpl. unfold Len. simpl. rewrite Hl.
  destruct Hold as [[-> Hn]| ->].
  - rewrite bool_decide_false by (by rewrite <-Hl). split.
    + intros x. simpl. rewrite !elem_of_app, elem_of_cons. tauto.
    + simpl. rewrite !len_app, len_cons. lia.
  - rewrite bool_decide_true by (rewrite !elem_of_app, elem_of_cons; tauto). split.
    + intros x. rewrite !elem_of_app, !elem_of_cons, elem_of_nil. tauto.
    + rewrite !len_app, !len_cons. change (len (@nil Z)) with 0. lia.
Qed.

Lemma ordered_Remove_spec set e :
  strictly_sorted (elems set) →
  ∃ set', Remove set e = Ok set'
    ∧ strictly_sorted (elems set')
    ∧ (∀ x, x ∈ elems set' ↔ x ∈ elems set ∧ x ≠ e)
    ∧ Len set' = Len set - (if bool_decide (e ∈ elems set) then 1 else 0).
Proof.
  intros Hs.
  destruct (ordered_Remove_outcome set e Hs) as (p & old & r & Hl & -> & Hold & Hs').
  eexists. split; [done|]. split; [done|]. simpl. unfold Len. simpl.
  destruct Hold as [[-> Hn]| ->].
  - rewrite bool_decide_false by done. simpl in Hl. rewrite Hl. split; [|lia].
    intros x. split; [|tauto]. intros Hx. split; [done|]. intros ->. apply Hn.
    by rewrite Hl.
  - assert (e ∈ elems set) as Hin by (rewrite Hl, !elem_of_app, elem_of_cons; tauto).
    rewrite bool_decide_true by done. split.
    + rewrite Hl in Hs. intros x.
      apply strictly_sorted_app in Hs as (Hp & Hr & Hpr).
      apply strictly_sorted_app in Hr as (_ & Hr & Her).
      rewrite Hl, !elem_of_app, !elem_of_cons, elem_of_nil.
      assert (x ∈ p → x ≠ e).
      { intros Hx ->. assert (e < e); [|lia]. apply Hpr; [done|]. apply elem_of_app.
        left. by left. }
      assert (x ∈ r → x ≠ e).
      { intros Hx ->. assert (e < e); [|lia]. apply Her; [by left | done]. }
      tauto.
    + rewrite Hl, !len_app, len_cons. change (len (@nil Z)) with 0. lia.
Qed.

(** Removing what was inserted into a set that did not hold it gives the
    list back. *)
Lemma ordered_Insert_Remove set e :
  strictly_sorted (elems set) → e ∉ elems set →
  ∃ set1, Insert set e = Ok set1 ∧ Remove set1 e = Ok (MkOrdered (elems set)).
Proof.
  intros Hs Hn.
  destruct (ordered_Insert_spec set e Hs) as (set1 & Hi & Hs1 & Hm1 & _).
  destruct (ordered_Remove_spec set1 e Hs1) as (set2 & Hr & Hs2 & Hm2 & _).
  exists set1. split; [done|]. rewrite Hr. f_equal.
  destruct set2 as [l2]. f_equal. simpl in *.
  apply strictly_sorted_ext; [done | done |].
  intros x. rewrite Hm2, Hm1. split; [tauto|].
  intros Hx. split; [tauto|]. by intros ->.
Qed.

(** *** Many elements *)

Lemma ordered_insertAll_spec set l :
  strictly_sorted (elems set) →
  ∃ set', insertAll set l = Ok set'
    ∧ strictly_sorted (elems set')
    ∧ (∀ x, x ∈ elems set' ↔ x ∈ elems set ∨ x ∈ l).
Proof.
  intros Hs. rewrite ordered_insertAll_eq. eexists. split; [done|]. simpl.
  destruct (sort_compact l) as [Hsc Hmc]. split.
  - by apply merge_uniq_sorted.
  - intros x. by rewrite merge_uniq_elem, Hmc.
Qed.

Lemma ordered_removeAll_spec set l :
  strictly_sorted (elems set) →
  ∃ set', removeAll set l = Ok set'
    ∧ strictly_sorted (elems set')
    ∧ (∀ x, x ∈ elems set' ↔ x ∈ elems set ∧ x ∉ l).
Proof.
  intros Hs. rewrite ordered_removeAll_eq. eexists. split; [done|]. simpl. split.
  - by apply diff_uniq_sorted.
  - intros x. rewrite diff_uniq_elem_repeats; [|done|apply stableSort_sorted].
    by rewrite sort_elem.
Qed.

Lemma ordered_InsertSet_spec set other :
  strictly_sorted (elems set) → coherent other →
  ∃ set', InsertSet set other = Ok set'
    ∧ strictly_sorted (elems set')
    ∧ (∀ x, x ∈ elems set' ↔ x ∈ elems set ∨ x ∈ members set other).
Proof.
  intros Hs Hco. unfold InsertSet, members, coherent in *.
  destruct (kind other).
  - exists set. split; [done|]. split; [done|]. tauto.
  - by apply ordered_insertAll_spec.
  - destruct Hco as (_ & He & _).
    destruct (ordered_insertAll_spec set (set_Elems other) Hs) as (r & -> & Hsr & Hm).
    exists r. split; [done|]. split; [done|]. intros x. by rewrite Hm, He.
Qed.

Lemma ordered_RemoveSet_spec set other :
  strictly_sorted (elems set) → coherent other →
  ∃ set', RemoveSet set other = Ok set'
    ∧ strictly_sorted (elems set')
    ∧ (∀ x, x ∈ elems set' ↔ x ∈ elems set ∧ x ∉ members set other).
Proof.
  intros Hs Hco. unfold RemoveSet, members, coherent, diffUniqSortedLists in *.
  destruct (kind other).
  - rewrite DeleteSortedUniq_spec. cbn [mbind run_bind]. eexists. split; [done|].
    simpl. split; [by apply diff_uniq_sorted|]. intros x. by apply diff_uniq_elem.
  - rewrite DeleteSortedUniq_spec. cbn [mbind run_bind]. eexists. split; [done|].
    simpl. split; [by apply diff_uniq_sorted|]. intros x. by apply diff_uniq_elem.
  - destruct Hco as (_ & He & _).
    destruct (ordered_removeAll_spec set (set_Elems other) Hs) as (r & -> & Hsr & Hm).
    exists r. split; [done|]. split; [done|]. intros x. by rewrite Hm, He.
Qed.

(** *** Set algebra *)

Lemma ordered_missing_spec set (l : list Z) :
  strictly_sorted (elems set) →
  ∀ acc, ∃ miss,
    for_range l
      (λ elems_ e, c ← Contains set e;
                   if negb c then Ok (elems_ ++ [e]) else Ok elems_) acc
    = Ok (acc ++ miss)
    ∧ ∀ x, x ∈ miss ↔ x ∈ l ∧ x ∉ elems set.
Proof.
  intros Hs. induction l as [|y l IH]; intros acc.
  { exists []. rewrite app_nil_r. split; [done|]. intros x.
    rewrite elem_of_nil. split; [done|]. intros [H _]. inversion H. }
  cbn [for_range].
  destruct (ordered_Contains_spec set y Hs) as (c & -> & Hc).
  cbn [mbind run_bind]. destruct c; cbn [negb mbind run_bind].
  - destruct (IH acc) as (miss & -> & Hm). exists miss. split; [done|].
    intros x. rewrite Hm, elem_of_cons.
    assert (y ∈ elems set) by by apply Hc. split; [tauto|].
    intros [[->|Hx] Hn]; [done | tauto].
  - destruct (IH (acc ++ [y])) as (miss & -> & Hm). exists (y :: miss).
    split; [by rewrite <-app_assoc|].
    intros x. rewrite !elem_of_cons, Hm.
    assert (y ∉ elems set) by (intros Hin; apply Hc in Hin; done).
    split; [intros [->|?]; tauto | tauto].
Qed.

Lemma ordered_Intersection_spec set other :
  strictly_sorted (elems set) → coherent other →
  ∃ r, Intersection set other = Ok r
    ∧ strictly_sorted (elems r)
    ∧ (∀ x, x ∈ elems r ↔ x ∈ elems set ∧ x ∈ members set other).
Proof.
  intros Hs Hco.
  destruct (apply_sorted set (OrderedOps.DoIntersection other) Hs
              (coherent_proper other Hco)) as (r & Hr & Hsr).
  simpl in Hr. exists r. split; [done|]. split; [done|].
  unfold Intersection in Hr.
  destruct (kind_cases other) as [Hk|Hk].
  - unfold ordered_elems, members, coherent in *. rewrite Hk in *.
    injection Hr as <-. simpl. destruct Hco as (Hc & _ & _).
    intros x. rewrite list_elem_of_filter, Hc. tauto.
  - destruct (members_sorted set other Hs Hco Hk) as [Hsb Hb]. rewrite Hb in Hr.
    destruct (walk_intersection (elems set) (members set other) Hs Hsb)
      as (ai & bi & out & Hw & Hm).
    rewrite Hw in Hr. cbn [mbind run_bind] in Hr. by injection Hr as <-.
Qed.

Lemma ordered_Difference_spec set other :
  strictly_sorted (elems set) → coherent other →
  ∃ r, Difference set other = Ok r
    ∧ strictly_sorted (elems r)
    ∧ (∀ x, x ∈ elems r ↔ x ∈ elems set ∧ x ∉ members set other).
Proof.
  intros Hs Hco.
  destruct (apply_sorted set (OrderedOps.DoDifference other) Hs
              (coherent_proper other Hco)) as (r & Hr & Hsr).
  simpl in Hr. exists r. split; [done|]. split; [done|].
  unfold Difference in Hr.
  destruct (kind_cases other) as [Hk|Hk].
  - unfold ordered_elems, members, coherent in *. rewrite Hk in *.
    injection Hr as <-. simpl. destruct Hco as (Hc & _ & _).
    intros x. rewrite list_elem_of_filter, <-Hc.
    destruct (set_Contains other x); intuition congruence.
  - destruct (members_sorted set other Hs Hco Hk) as [Hsb Hb]. rewrite Hb in Hr.
    destruct (walk_difference (elems set) (members set other) Hs Hsb)
      as (ai & bi & out & ra & Hw & Hra & Hm).
    cbn zeta in Hr. rewrite Hw in Hr. cbn [mbind run_bind] in Hr.
    rewrite Hra in Hr. cbn [mbind run_bind] in Hr. by injection Hr as <-.
Qed.

Lemma ordered_Union_spec set other :
  strictly_sorted (elems set) → coherent other →
  ∃ r, Union set other = Ok r
    ∧ strictly_sorted (elems r)
    ∧ (∀ x, x ∈ elems r ↔ x ∈ elems set ∨ x ∈ members set other).
Proof.
  intros Hs Hco.
  destruct (apply_sorted set (OrderedOps.DoUnion other) Hs
              (coherent_proper other Hco)) as (r & Hr & Hsr).
  simpl in Hr. exists r. split; [done|]. split; [done|].
  unfold Union in Hr.
  destruct (kind_cases other) as [Hk|Hk].
  - unfold ordered_elems, members, coherent, mergeUniqSortedLists, stableSort in *.
    rewrite Hk in *. rewrite MergeSortedUniq_spec in Hr.
    cbn [mbind run_bind] in Hr. injection Hr as <-. simpl.
    destruct Hco as (_ & He & _).
    intros x. rewrite merge_uniq_elem, sort_elem, He. tauto.
  - destruct (members_sorted set other Hs Hco Hk) as [Hsb Hb]. rewrite Hb in Hr.
    destruct (walk_union (elems set) (members set other) Hs Hsb)
      as (ai & bi & out & ra & rb & Hw & Hra & Hrb & Hm).
    cbn zeta in Hr. rewrite Hw in Hr. cbn [mbind run_bind] in Hr.
    rewrite Hra in Hr. cbn [mbind run_bind] in Hr.
    rewrite Hrb in Hr. cbn [mbind run_bind] in Hr. by injection Hr as <-.
Qed.

Lemma ordered_SymmetricDifference_spec set other :
  strictly_sorted (elems set) → coherent other →
  ∃ r, SymmetricDifference set other = Ok r
    ∧ strictly_sorted (elems r)
    ∧ (∀ x, x ∈ elems r ↔
         (x ∈ elems set ∧ x ∉ members set other)
         ∨ (x ∈ members set other ∧ x ∉ elems set)).
Proof.
  intros Hs Hco.
  destruct (apply_sorted set (OrderedOps.DoSymmetricDifference other) Hs
              (coherent_proper other Hco)) as (r & Hr & Hsr).
  simpl in Hr. exists r. split; [done|]. split; [done|].
  unfold SymmetricDifference in Hr.
  destruct (kind_cases other) as [Hk|Hk].
  - unfold ordered_elems, members, coherent in *. rewrite Hk in *.
    cbn zeta in Hr.
    destruct (ordered_missing_spec set (set_Range other) Hs []) as (miss & Hmiss & Hm).
    rewrite Hmiss in Hr. cbn [mbind run_bind] in Hr.
    rewrite ordered_insertAll_eq in Hr. injection Hr as <-. simpl.
    destruct Hco as (Hc & _ & _). destruct (sort_compact miss) as [_ Hmc].
    intros x. rewrite merge_uniq_elem, Hmc, Hm, list_elem_of_filter, <-Hc.
    destruct (set_Contains other x); intuition congruence.
  - destruct (members_sorted set other Hs Hco Hk) as [Hsb Hb]. rewrite Hb in Hr.
    destruct (walk_symmetric (elems set) (members set other) Hs Hsb)
      as (ai & bi & out & ra & rb & Hw & Hra & Hrb & Hm).
    cbn zeta in Hr. rewrite Hw in Hr. cbn [mbind run_bind] in Hr.
    rewrite Hra in Hr. cbn [mbind run_bind] in Hr.
    rewrite Hrb in Hr. cbn [mbind run_bind] in Hr. by injection Hr as <-.
Qed.

(** The operand handed over as any other set is the same set. *)
Lemma generic_coherent set other :
  strictly_sorted (elems set) → coherent other → kind other ≠ IsOther →
  coherent (generic set other)
  ∧ members set (generic set other) = members set other.
Proof.
  intros Hs Hco Hk. destruct (members_sorted set other Hs Hco Hk) as [Hsb _].
  split; [|done]. unfold coherent, generic. simpl. split_and!.
  - intros e. by rewrite bool_decide_eq_true.
  - done.
  - by apply strictly_sorted_NoDup.
Qed.

End OrderedAlgebra.

Import Go slicesx GoFacts.
Import Spec Spec2 Spec3 Spec4 Spec5 Spec6.
Import SearchFacts OrderFacts LoopFacts ShiftFacts SeqSpec SeqFacts BatchFacts.
Import Natural NaturalOrder NaturalSpec NaturalLaws NaturalSorted NaturalMerge NaturalMergeLoop NaturalDelete NaturalDeleteLoop.
Import WalkLoop WalkFacts NaturalExtensionality NaturalQuestions WalkCollects.

(** ** The natural-order set of the second package: what the operations
    leave *)
Module Ordered2Algebra.
Import ordered2 Ordered2Facts NaturalOperand2.
Import sets2 (view_kind, IsReceiver, IsOrdered, IsFuncSorted, IsTable, IsExternal,
              View_, MkView, kind, view_Contains, view_Elems, view_Range).
Import OrderedAlgebra (sort_elem).

Lemma view_cases (other : View_ Z) :
  (kind other = IsReceiver ∨ kind other = IsOrdered)
  ∨ (kind other ≠ IsReceiver ∧ kind other ≠ IsOrdered).
Proof. destruct (kind other); (by left; auto) || (by right). Qed.

Lemma coherent2_proper other : coherent other → Ordered2Ops.proper other.
Proof. unfold coherent, Ordered2Ops.proper. by destruct (kind other). Qed.

Lemma members2_sorted s other :
  strictly_sorted (list_ s) → coherent other →
  kind other = IsReceiver ∨ kind other = IsOrdered →
  strictly_sorted (members s other)
  ∧ ordered_list s other = Some (members s other).
Proof.
  unfold coherent, members, ordered_list. intros Hs Hco [Hk|Hk]; by rewrite Hk in *.
Qed.

Lemma members2_generic s other :
  coherent other → kind other ≠ IsReceiver ∧ kind other ≠ IsOrdered →
  ordered_list s other = None
  ∧ members s other = view_Range other
  ∧ (∀ e, view_Contains other e = true ↔ e ∈ view_Range other)
  ∧ (∀ e, e ∈ view_Elems other ↔ e ∈ view_Range other)
  ∧ NoDup (view_Elems other).
Proof.
  unfold coherent, members, ordered_list. intros Hco [Hk1 Hk2].
  by destruct (kind other).
Qed.

(** *** One element *)

Lemma ordered2_insert_spec s e :
  strictly_sorted (list_ s) →
  ∃ s', insert s e = Ok s'
    ∧ strictly_sorted (list_ s')
    ∧ (∀ x, x ∈ list_ s' ↔ x = e ∨ x ∈ list_ s)
    ∧ Len s' = Len s + (if bool_decide (e ∈ list_ s) then 0 else 1).
Proof.
  intros Hs.
  destruct (ordered2_insert_outcome s e Hs) as (p & old & r & Hl & -> & Hold & Hs').
  eexists. split; [done|]. split; [done|]. simpl. unfold Len. simpl. rewrite Hl.
  destruct Hold as [[-> Hn]| ->].
  - rewrite bool_decide_false by (by rewrite <-Hl). split.
    + intros x. simpl. rewrite !elem_of_app, elem_of_cons. tauto.
    + simpl. rewrite !len_app, len_cons. lia.
  - rewrite bool_decide_true by (rewrite !elem_of_app, elem_of_cons; tauto). split.
    + intros x. rewrite !elem_of_app, !elem_of_cons, elem_of_nil. tauto.
    + rewrite !len_app, !len_cons. change (len (@nil Z)) with 0. lia.
Qed.

Lemma ordered2_remove_spec s e :
  strictly_sorted (list_ s) →
  ∃ s', remove s e = Ok s'
    ∧ strictly_sorted (list_ s')
    ∧ (∀ x, x ∈ list_ s' ↔ x ∈ list_ s ∧ x ≠ e)
    ∧ Len s' = Len s - (if bool_decide (e ∈ list_ s) then 1 else 0).
Proof.
  intros Hs.
  destruct (ordered2_remove_outcome s e Hs) as (p & old & r & Hl & -> & Hold & Hs').
  eexists. split; [done|]. split; [done|]. simpl. unfold Len. simpl.
  destruct Hold as [[-> Hn]| ->].
  - rewrite bool_decide_false by done. simpl in Hl. rewrite Hl. split; [|lia].
    intros x. split; [|tauto]. intros Hx. split; [done|]. intros ->. apply Hn.
    by rewrite Hl.
  - assert (e ∈ list_ s) as Hin by (rewrite Hl, !elem_of_app, elem_of_cons; tauto).
    rewrite bool_decide_true by done. split.
    + rewrite Hl in Hs. intros x.
      apply strictly_sorted_app in Hs as (Hp & Hr & Hpr).
      apply strictly_sorted_app in Hr as (_ & Hr & Her).
      rewrite Hl, !elem_of_app, !elem_of_cons, elem_of_nil.
      assert (x ∈ p → x ≠ e).
      { intros Hx ->. assert (e < e); [|lia]. apply Hpr; [done|]. apply elem_of_app.
        left. by left. }
      assert (x ∈ r → x ≠ e).
      { intros Hx ->. assert (e < e); [|lia]. apply Her; [by left | done]. }
      tauto.
    + rewrite Hl, !len_app, len_cons. change (len (@nil Z)) with 0. lia.
Qed.

Lemma ordered2_insert_remove s e :
  strictly_sorted (list_ s) → e ∉ list_ s →
  ∃ s1, insert s e = Ok s1 ∧ remove s1 e = Ok (MkOrdered (list_ s)).
Proof.
  intros Hs Hn.
  destruct (ordered2_insert_spec s e Hs) as (s1 & Hi & Hs1 & Hm1 & _).
  destruct (ordered2_remove_spec s1 e Hs1) as (s2 & Hr & Hs2 & Hm2 & _).
  exists s1. split; [done|]. rewrite Hr. f_equal.
  destruct s2 as [l2]. f_equal. simpl in *.
  apply strictly_sorted_ext; [done | done |].
  intros x. rewrite Hm2, Hm1. split; [tauto|].
  intros Hx. split; [tauto|]. by intros ->.
Qed.

(** *** Many elements *)

Lemma ordered2_insertAll_spec s l :
  strictly_sorted (list_ s) →
  ∃ s', insertAll s l = Ok s'
    ∧ strictly_sorted (list_ s')
    ∧ (∀ x, x ∈ list_ s' ↔ x ∈ list_ s ∨ x ∈ l).
Proof.
  intros Hs. rewrite ordered2_insertAll_eq. eexists. split; [done|]. simpl.
  destruct (sort_compact l) as [Hsc Hmc]. split.
  - by apply merge_uniq_sorted.
  - intros x. by rewrite merge_uniq_elem, Hmc.
Qed.

Lemma ordered2_removeAll_spec s l :
  strictly_sorted (list_ s) →
  ∃ s', removeAll s l = Ok s'
    ∧ strictly_sorted (list_ s')
    ∧ (∀ x, x ∈ list_ s' ↔ x ∈ list_ s ∧ x ∉ l).
Proof.
  intros Hs. rewrite ordered2_removeAll_eq. eexists. split; [done|]. simpl.
  destruct (sort_compact l) as [Hsc Hmc]. split.
  - by apply diff_uniq_sorted.
  - intros x. by rewrite diff_uniq_elem, Hmc.
Qed.

(** The list that [insertSet] and [removeSet] take from the operand. *)
Lemma operand_list_sorted s other :
  strictly_sorted (list_ s) → coherent other → Ordered2Ops.in_natural_order other →
  let l := match kind other with
           | IsReceiver => list_ s
           | IsOrdered => view_Elems other
           | IsFuncSorted => Compact (view_Elems other)
           | _ => Compact (SortStableFunc Compare (view_Elems other))
           end in
  strictly_sorted l ∧ ∀ x, x ∈ l ↔ x ∈ members s other.
Proof.
  intros Hs Hco Hnat. unfold coherent, members, Ordered2Ops.in_natural_order in *.
  destruct (kind other); simpl.
  - done.
  - done.
  - destruct Hco as (_ & He & _). split; [by apply Compact_sorted|].
    intros x. by rewrite Compact_elem, He.
  - destruct Hco as (_ & He & _). destruct (sort_compact (view_Elems other)) as [H1 H2].
    split; [done|]. intros x. by rewrite H2, He.
  - destruct Hco as (_ & He & _). destruct (sort_compact (view_Elems other)) as [H1 H2].
    split; [done|]. intros x. by rewrite H2, He.
Qed.

Lemma ordered2_insertSet_spec s other :
  strictly_sorted (list_ s) → coherent other → Ordered2Ops.in_natural_order other →
  ∃ s', insertSet s other = Ok s'
    ∧ strictly_sorted (list_ s')
    ∧ (∀ x, x ∈ list_ s' ↔ x ∈ list_ s ∨ x ∈ members s other).
Proof.
  intros Hs Hco Hnat. rewrite ordered2_insertSet_eq.
  destruct (operand_list_sorted s other Hs Hco Hnat) as [Hsl Hml].
  eexists. split; [done|]. simpl. split.
  - by apply merge_uniq_sorted.
  - intros x. by rewrite merge_uniq_elem, Hml.
Qed.

Lemma ordered2_removeSet_spec s other :
  strictly_sorted (list_ s) → coherent other → Ordered2Ops.in_natural_order other →
  ∃ s', removeSet s other = Ok s'
    ∧ strictly_sorted (list_ s')
    ∧ (∀ x, x ∈ list_ s' ↔ x ∈ list_ s ∧ x ∉ members s other).
Proof.
  intros Hs Hco Hnat. rewrite ordered2_removeSet_eq.
  destruct (operand_list_sorted s other Hs Hco Hnat) as [Hsl Hml].
  eexists. split; [done|]. simpl. split.
  - by apply diff_uniq_sorted.
  - intros x. by rewrite diff_uniq_elem, Hml.
Qed.

(** *** Set algebra *)

Lemma ordered2_missing_spec s (l : list Z) :
  strictly_sorted (list_ s) →
  ∀ acc, ∃ miss,
    for_range l
      (λ b e, c ← Contains s e;
              if negb c then Ok (b ++ [e]) else Ok b) acc
    = Ok (acc ++ miss)
    ∧ ∀ x, x ∈ miss ↔ x ∈ l ∧ x ∉ list_ s.
Proof.
  intros Hs. induction l as [|y l IH]; intros acc.
  { exists []. rewrite app_nil_r. split; [done|]. intros x.
    rewrite elem_of_nil. split; [done|]. intros [H _]. inversion H. }
  cbn [for_range].
  destruct (ordered2_Contains_spec s y Hs) as (c & -> & Hc).
  cbn [mbind run_bind]. destruct c; cbn [negb mbind run_bind].
  - destruct (IH acc) as (miss & -> & Hm). exists miss. split; [done|].
    intros x. rewrite Hm, elem_of_cons.
    assert (y ∈ list_ s) by by apply Hc. split; [tauto|].
    intros [[->|Hx] Hn]; [done | tauto].
  - destruct (IH (acc ++ [y])) as (miss & -> & Hm). exists (y :: miss).
    split; [by rewrite <-app_assoc|].
    intros x. rewrite !elem_of_cons, Hm.
    assert (y ∉ list_ s) by (intros Hin; apply Hc in Hin; done).
    split; [intros [->|?]; tauto | tauto].
Qed.

Lemma ordered2_intersection_spec s other :
  strictly_sorted (list_ s) → coherent other →
  ∃ r, intersection s other = Ok r
    ∧ strictly_sorted (list_ r)
    ∧ (∀ x, x ∈ list_ r ↔ x ∈ list_ s ∧ x ∈ members s other).
Proof.
  intros Hs Hco.
  destruct (ordered2_apply_sorted s (Ordered2Ops.DoIntersection other) Hs
              (coherent2_proper other Hco)) as (r & Hr & Hsr).
  simpl in Hr. exists r. split; [done|]. split; [done|].
  unfold intersection in Hr.
  destruct (view_cases other) as [Hk|Hk].
  - destruct (members2_sorted s other Hs Hco Hk) as [Hsb Hb]. rewrite Hb in Hr.
    destruct (walk_intersection (list_ s) (members s other) Hs Hsb)
      as (ai & bi & out & Hw & Hm).
    unfold walk in Hr. rewrite Hw in Hr. cbn [mbind run_bind] in Hr.
    by injection Hr as <-.
  - destruct (members2_generic s other Hco Hk) as (Hb & -> & Hc & _ & _).
    rewrite Hb in Hr. injection Hr as <-. simpl.
    intros x. rewrite list_elem_of_filter, Hc. tauto.
Qed.

Lemma ordered2_difference_spec s other :
  strictly_sorted (list_ s) → coherent other →
  ∃ r, difference s other = Ok r
    ∧ strictly_sorted (list_ r)
    ∧ (∀ x, x ∈ list_ r ↔ x ∈ list_ s ∧ x ∉ members s other).
Proof.
  intros Hs Hco.
  destruct (ordered2_apply_sorted s (Ordered2Ops.DoDifference other) Hs
              (coherent2_proper other Hco)) as (r & Hr & Hsr).
  simpl in Hr. exists r. split; [done|]. split; [done|].
  unfold difference in Hr.
  destruct (view_cases other) as [Hk|Hk].
  - destruct (members2_sorted s other Hs Hco Hk) as [Hsb Hb]. rewrite Hb in Hr.
    destruct (walk_difference (list_ s) (members s other) Hs Hsb)
      as (ai & bi & out & ra & Hw & Hra & Hm).
    unfold walk in Hr. cbn zeta in Hr. rewrite Hw in Hr. cbn [mbind run_bind] in Hr.
    rewrite Hra in Hr. cbn [mbind run_bind] in Hr. by injection Hr as <-.
  - destruct (members2_generic s other Hco Hk) as (Hb & -> & Hc & _ & _).
    rewrite Hb in Hr. injection Hr as <-. simpl.
    intros x. rewrite list_elem_of_filter, <-Hc.
    destruct (view_Contains other x); intuition congruence.
Qed.

Lemma ordered2_union_spec s other :
  strictly_sorted (list_ s) → coherent other →
  ∃ r, union s other = Ok r
    ∧ strictly_sorted (list_ r)
    ∧ (∀ x, x ∈ list_ r ↔ x ∈ list_ s ∨ x ∈ members s other).
Proof.
  intros Hs Hco.
  destruct (ordered2_apply_sorted s (Ordered2Ops.DoUnion other) Hs
              (coherent2_proper other Hco)) as (r & Hr & Hsr).
  simpl in Hr. exists r. split; [done|]. split; [done|].
  unfold union in Hr.
  destruct (view_cases other) as [Hk|Hk].
  - destruct (members2_sorted s other Hs Hco Hk) as [Hsb Hb]. rewrite Hb in Hr.
    destruct (walk_union (list_ s) (members s other) Hs Hsb)
      as (ai & bi & out & ra & rb & Hw & Hra & Hrb & Hm).
    unfold walk in Hr. cbn zeta in Hr. rewrite Hw in Hr. cbn [mbind run_bind] in Hr.
    rewrite Hra in Hr. cbn [mbind run_bind] in Hr.
    rewrite Hrb in Hr. cbn [mbind run_bind] in Hr. by injection Hr as <-.
  - destruct (members2_generic s other Hco Hk) as (Hb & -> & _ & He & _).
    rewrite Hb in Hr. cbn zeta in Hr. rewrite MergeSortedUniq_spec in Hr.
    cbn [mbind run_bind] in Hr. injection Hr as <-. simpl.
    destruct (sort_compact (view_Elems other)) as [_ Hmc].
    intros x. rewrite merge_uniq_elem, Hmc, He. tauto.
Qed.

Lemma ordered2_symmetricDifference_spec s other :
  strictly_sorted (list_ s) → coherent other →
  ∃ r, symmetricDifference s other = Ok r
    ∧ strictly_sorted (list_ r)
    ∧ (∀ x, x ∈ list_ r ↔
         (x ∈ list_ s ∧ x ∉ members s other)
         ∨ (x ∈ members s other ∧ x ∉ list_ s)).
Proof.
  intros Hs Hco.
  destruct (ordered2_apply_sorted s (Ordered2Ops.DoSymmetricDifference other) Hs
              (coherent2_proper other Hco)) as (r & Hr & Hsr).
  simpl in Hr. exists r. split; [done|]. split; [done|].
  unfold symmetricDifference in Hr.
  destruct (view_cases other) as [Hk|Hk].
  - destruct (members2_sorted s other Hs Hco Hk) as [Hsb Hb]. rewrite Hb in Hr.
    destruct (walk_symmetric (list_ s) (members s other) Hs Hsb)
      as (ai & bi & out & ra & rb & Hw & Hra & Hrb & Hm).
    unfold walk in Hr. cbn zeta in Hr. rewrite Hw in Hr. cbn [mbind run_bind] in Hr.
    rewrite Hra in Hr. cbn [mbind run_bind] in Hr.
    rewrite Hrb in Hr. cbn [mbind run_bind] in Hr. by injection Hr as <-.
  - destruct (members2_generic s other Hco Hk) as (Hb & -> & Hc & _ & _).
    rewrite Hb in Hr. cbn zeta in Hr.
    destruct (ordered2_missing_spec s (view_Range other) Hs []) as (miss & Hmiss & Hm).
    rewrite Hmiss in Hr. cbn [mbind run_bind] in Hr.
    rewrite MergeSortedUniq_spec in Hr. cbn [mbind run_bind] in Hr.
    injection Hr as <-. simpl.
    destruct (sort_compact miss) as [_ Hmc].
    intros x. rewrite merge_uniq_elem, Hmc, Hm, list_elem_of_filter, <-Hc.
    destruct (view_Contains other x); intuition congruence.
Qed.

(** The operand handed over as a set of another implementation is the
    same set. *)
Lemma generic2_coherent s other :
  strictly_sorted (list_ s) → coherent other →
  kind other = IsReceiver ∨ kind other = IsOrdered →
  coherent (generic s other)
  ∧ members s (generic s other) = members s other.
Proof.
  intros Hs Hco Hk. destruct (members2_sorted s other Hs Hco Hk) as [Hsb _].
  split; [|done]. unfold coherent, generic. simpl. split_and!.
  - intros e. by rewrite bool_decide_eq_true.
  - done.
  - by apply strictly_sorted_NoDup.
Qed.

End Ordered2Algebra.

Import Go slicesx GoFacts.
Import Spec Spec2 Spec3 Spec4 Spec5 Spec6.
Import SearchFacts OrderFacts LoopFacts ShiftFacts SeqSpec SeqFacts BatchFacts.
Import Natural NaturalOrder NaturalSpec NaturalLaws NaturalSorted NaturalMerge NaturalMergeLoop NaturalDelete NaturalDeleteLoop.
Import WalkLoop WalkFacts NaturalExtensionality NaturalQuestions WalkCollects.

(** ** The four sorted sets on integers in their natural order *)
Module NaturalAgreement.
Import OrderedAlgebra Ordered2Algebra.

(** The stable sort with deduplication under the natural order is the
    stable sort followed by [slices.Compact]. *)
Lemma StableSortUniqFuncs_natural (l : list Z) :
  StableSortUniqFuncs 0 l Compare same = Ok (Compact (SortStableFunc Compare l)).
Proof.
  destruct (StableSortUniqFuncs_seq 0 Compare same natural_laws l)
    as (s & -> & Hs & Hin & Hm).
  f_equal. destruct (sort_compact l) as [Hsc Hmc].
  apply strictly_sorted_ext; [by apply strictly_sorted_seq | done |].
  intros x. by rewrite Hmc, <-!has_same, Hm.
Qed.

Lemma sorted_is (r : sets.sorted Z) (l : list Z) :
  sets.cmp r = Compare → sets.eq r = same →
  SetSpec.sorted_sequence r → strictly_sorted l →
  (∀ y, SetSpec.member r y ↔ y ∈ l) →
  r = sets.MkSorted l Compare same.
Proof.
  destruct r as [lr c q]. unfold SetSpec.sorted_sequence, SetSpec.member. simpl.
  intros -> -> Hs Hl Hm. f_equal.
  apply strictly_sorted_ext; [by apply strictly_sorted_seq | done |].
  intros x. by rewrite <-has_same, Hm.
Qed.

Lemma funcSorted_is (r : sets2.funcSorted Z) (l : list Z) :
  sets2.cmp r = Compare → sets2.eq r = same →
  FuncSetSpec.sorted_sequence r → strictly_sorted l →
  (∀ y, FuncSetSpec.member r y ↔ y ∈ l) →
  r = sets2.MkFuncSorted l Compare same.
Proof.
  destruct r as [lr c q]. unfold FuncSetSpec.sorted_sequence, FuncSetSpec.member. simpl.
  intros -> -> Hs Hl Hm. f_equal.
  apply strictly_sorted_ext; [by apply strictly_sorted_seq | done |].
  intros x. by rewrite <-has_same, Hm.
Qed.

Lemma ordered2_is (r : ordered2.ordered) (l : list Z) :
  strictly_sorted (ordered2.list_ r) → strictly_sorted l →
  (∀ y, y ∈ ordered2.list_ r ↔ y ∈ l) →
  r = ordered2.MkOrdered l.
Proof.
  destruct r as [lr]. simpl. intros Hs Hl Hm. f_equal. by apply strictly_sorted_ext.
Qed.

Lemma ordered_is (r : ordered.ordered) (l : list Z) :
  strictly_sorted (ordered.elems r) → strictly_sorted l →
  (∀ y, y ∈ ordered.elems r ↔ y ∈ l) →
  r = ordered.MkOrdered l.
Proof.
  destruct r as [lr]. simpl. intros Hs Hl Hm. f_equal. by apply strictly_sorted_ext.
Qed.

Section agree.
Variable a : list Z.
Hypothesis Ha : strictly_sorted a.

Local Abbreviation set := (ordered.MkOrdered a).
Local Abbreviation s := (ordered2.MkOrdered a).
Local Abbreviation cset := (sets.MkSorted a Compare same).
Local Abbreviation cs := (sets2.MkFuncSorted a Compare same).

Lemma cset_lawful : SetSpec.lawful cset ∧ SetSpec.sorted_sequence cset.
Proof. split; [apply natural_laws | by apply strictly_sorted_seq]. Qed.

Lemma cs_lawful : FuncSetSpec.lawful cs ∧ FuncSetSpec.sorted_sequence cs.
Proof. split; [apply natural_laws | by apply strictly_sorted_seq]. Qed.

Lemma agree_Contains e :
  ∃ b, ordered.Contains set e = Ok b ∧ ordered2.Contains s e = Ok b
    ∧ sets.Contains cset e = Ok b ∧ sets2.Contains cs e = Ok b
    ∧ (b = true ↔ e ∈ a).
Proof.
  destruct cset_lawful as [HL Hseq]. destruct cs_lawful as [HL2 Hseq2].
  destruct (ordered_Contains_spec set e Ha) as (b & Hb & Hm).
  destruct (Ordered2Facts.ordered2_Contains_spec s e Ha) as (b2 & Hb2 & Hm2).
  destruct (SortedLaws.Contains_spec cset HL Hseq e) as (b3 & Hb3 & Hm3).
  destruct (FuncSortedLaws.func_contains_spec cs HL2 Hseq2 e) as (b4 & Hb4 & Hm4).
  unfold SetSpec.member in Hm3. unfold FuncSetSpec.member in Hm4.
  simpl in Hm, Hm2, Hm3, Hm4. rewrite has_same in Hm3, Hm4.
  exists b. split; [done|].
  assert (b2 = b) as -> by (destruct b, b2; intuition congruence).
  assert (b3 = b) as -> by (destruct b, b3; intuition congruence).
  assert (b4 = b) as -> by (destruct b, b4; intuition congruence).
  done.
Qed.

Lemma agree_Insert e :
  ∃ l, ordered.Insert set e = Ok (ordered.MkOrdered l)
    ∧ ordered2.insert s e = Ok (ordered2.MkOrdered l)
    ∧ sets.Insert cset e = Ok (sets.MkSorted l Compare same)
    ∧ sets2.insert cs e = Ok (sets2.MkFuncSorted l Compare same).
Proof.
  destruct cset_lawful as [HL Hseq]. destruct cs_lawful as [HL2 Hseq2].
  destruct (ordered_Insert_spec set e Ha) as ([l] & H1 & Hs1 & Hm1 & _).
  destruct (ordered2_insert_spec s e Ha) as (r2 & H2 & Hs2 & Hm2 & _).
  destruct (SortedLaws.Insert_spec cset e HL Hseq) as (r3 & H3 & Hc3 & Hq3 & Hs3 & _ & Hm3).
  destruct (FuncSortedLaws.func_insert_spec cs e HL2 Hseq2)
    as (r4 & H4 & Hc4 & Hq4 & Hs4 & _ & Hm4).
  simpl in *. exists l. split; [done|]. split_and!.
  - rewrite H2. f_equal. apply ordered2_is; [done | done |].
    intros y. by rewrite Hm2, Hm1.
  - rewrite H3. f_equal. apply sorted_is; [done | done | done | done |].
    intros y. rewrite Hm3, Hm1. unfold SetSpec.member. simpl.
    rewrite has_same, same_true. intuition congruence.
  - rewrite H4. f_equal. apply funcSorted_is; [done | done | done | done |].
    intros y. rewrite Hm4, Hm1. unfold FuncSetSpec.member. simpl.
    rewrite has_same, same_true. intuition congruence.
Qed.

Lemma agree_Remove e :
  ∃ l, ordered.Remove set e = Ok (ordered.MkOrdered l)
    ∧ ordered2.remove s e = Ok (ordered2.MkOrdered l)
    ∧ sets.Remove 0 cset e = Ok (sets.MkSorted l Compare same)
    ∧ sets2.remove 0 cs e = Ok (sets2.MkFuncSorted l Compare same).
Proof.
  destruct cset_lawful as [HL Hseq]. destruct cs_lawful as [HL2 Hseq2].
  destruct (ordered_Remove_spec set e Ha) as ([l] & H1 & Hs1 & Hm1 & _).
  destruct (ordered2_remove_spec s e Ha) as (r2 & H2 & Hs2 & Hm2 & _).
  destruct (SortedLaws.Remove_spec 0 cset e HL Hseq) as (r3 & H3 & Hc3 & Hq3 & Hs3 & Hm3).
  destruct (FuncSortedLaws.func_remove_spec 0 cs e HL2 Hseq2)
    as (r4 & H4 & Hc4 & Hq4 & Hs4 & Hm4).
  simpl in *. exists l. split; [done|]. split_and!.
  - rewrite H2. f_equal. apply ordered2_is; [done | done |].
    intros y. by rewrite Hm2, Hm1.
  - rewrite H3. f_equal. apply sorted_is; [done | done | done | done |].
    intros y. rewrite Hm3, Hm1. unfold SetSpec.member. simpl.
    rewrite has_same, same_false. intuition congruence.
  - rewrite H4. f_equal. apply funcSorted_is; [done | done | done | done |].
    intros y. rewrite Hm4, Hm1. unfold FuncSetSpec.member. simpl.
    rewrite has_same, same_false. intuition congruence.
Qed.

Lemma agree_InsertAll l0 :
  ∃ l, ordered.InsertAll set l0 = Ok (ordered.MkOrdered l)
    ∧ ordered2.InsertAll s l0 = Ok (ordered2.MkOrdered l)
    ∧ sets.InsertAll 0 cset l0 = Ok (sets.MkSorted l Compare same)
    ∧ sets2.InsertAll 0 cs l0 = Ok (sets2.MkFuncSorted l Compare same).
Proof.
  destruct cset_lawful as [HL Hseq]. destruct cs_lawful as [HL2 Hseq2].
  destruct (ordered_insertAll_spec set l0 Ha) as ([l] & H1 & Hs1 & Hm1).
  destruct (ordered2_insertAll_spec s l0 Ha) as (r2 & H2 & Hs2 & Hm2).
  destruct (SortedLaws.insertAll_spec 0 cset l0 HL Hseq)
    as (r3 & H3 & Hc3 & Hq3 & Hs3 & _ & Hm3).
  destruct (FuncSortedLaws.func_insertAll_spec 0 cs l0 HL2 Hseq2)
    as (r4 & H4 & Hc4 & Hq4 & Hs4 & _ & Hm4).
  simpl in *. exists l. split; [done|]. split_and!.
  - unfold ordered2.InsertAll. rewrite H2. f_equal. apply ordered2_is; [done | done |].
    intros y. by rewrite Hm2, Hm1.
  - unfold sets.InsertAll. rewrite H3. f_equal.
    apply sorted_is; [done | done | done | done |].
    intros y. rewrite Hm3, Hm1. unfold SetSpec.member. simpl.
    by rewrite !has_same.
  - unfold sets2.InsertAll. rewrite H4. f_equal.
    apply funcSorted_is; [done | done | done | done |].
    intros y. rewrite Hm4, Hm1. unfold FuncSetSpec.member. simpl.
    by rewrite !has_same.
Qed.

Lemma agree_RemoveAll l0 :
  ∃ l, ordered.RemoveAll set l0 = Ok (ordered.MkOrdered l)
    ∧ ordered2.RemoveAll s l0 = Ok (ordered2.MkOrdered l)
    ∧ sets.RemoveAll 0 cset l0 = Ok (sets.MkSorted l Compare same)
    ∧ sets2.RemoveAll 0 cs l0 = Ok (sets2.MkFuncSorted l Compare same).
Proof.
  destruct cset_lawful as [HL Hseq]. destruct cs_lawful as [HL2 Hseq2].
  destruct (ordered_removeAll_spec set l0 Ha) as ([l] & H1 & Hs1 & Hm1).
  destruct (ordered2_removeAll_spec s l0 Ha) as (r2 & H2 & Hs2 & Hm2).
  destruct (SortedLaws.removeAll_spec 0 cset l0 HL Hseq)
    as (r3 & H3 & Hc3 & Hq3 & Hs3 & _ & Hm3).
  destruct (FuncSortedLaws.func_removeAll_spec 0 cs l0 HL2 Hseq2)
    as (r4 & H4 & Hc4 & Hq4 & Hs4 & _ & Hm4).
  simpl in *. exists l. split; [done|]. split_and!.
  - unfold ordered2.RemoveAll. rewrite H2. f_equal. apply ordered2_is; [done | done |].
    intros y. by rewrite Hm2, Hm1.
  - unfold sets.RemoveAll. rewrite H3. f_equal.
    apply sorted_is; [done | done | done | done |].
    intros y. rewrite Hm3, Hm1. unfold SetSpec.member. simpl.
    by rewrite !has_same.
  - unfold sets2.RemoveAll. rewrite H4. f_equal.
    apply funcSorted_is; [done | done | done | done |].
    intros y. rewrite Hm4, Hm1. unfold FuncSetSpec.member. simpl.
    by rewrite !has_same.
Qed.

End agree.

(** *** One at a time *)

Lemma ordered_removes_spec (l : list Z) : ∀ set,
  strictly_sorted (ordered.elems set) →
  ∃ set', for_range l ordered.Remove set = Ok set'
    ∧ strictly_sorted (ordered.elems set')
    ∧ (∀ x, x ∈ ordered.elems set' ↔ x ∈ ordered.elems set ∧ x ∉ l).
Proof.
  induction l as [|e l IH]; intros set Hs.
  { exists set. split; [done|]. split; [done|].
    intros x. rewrite elem_of_nil. tauto. }
  cbn [for_range].
  destruct (ordered_Remove_spec set e Hs) as (set1 & -> & Hs1 & Hm1 & _).
  cbn [mbind run_bind].
  destruct (IH set1 Hs1) as (set' & Hrun & Hs' & Hm').
  exists set'. split; [done|]. split; [done|].
  intros x. rewrite Hm', Hm1, elem_of_cons. intuition congruence.
Qed.

Lemma ordered2_removes_spec (l : list Z) : ∀ s,
  strictly_sorted (ordered2.list_ s) →
  ∃ s', for_range l ordered2.remove s = Ok s'
    ∧ strictly_sorted (ordered2.list_ s')
    ∧ (∀ x, x ∈ ordered2.list_ s' ↔ x ∈ ordered2.list_ s ∧ x ∉ l).
Proof.
  induction l as [|e l IH]; intros s Hs.
  { exists s. split; [done|]. split; [done|].
    intros x. rewrite elem_of_nil. tauto. }
  cbn [for_range].
  destruct (ordered2_remove_spec s e Hs) as (s1 & -> & Hs1 & Hm1 & _).
  cbn [mbind run_bind].
  destruct (IH s1 Hs1) as (s' & Hrun & Hs' & Hm').
  exists s'. split; [done|]. split; [done|].
  intros x. rewrite Hm', Hm1, elem_of_cons. intuition congruence.
Qed.

Lemma ordered_same (r1 r2 : ordered.ordered) :
  strictly_sorted (ordered.elems r1) → strictly_sorted (ordered.elems r2) →
  (∀ x, x ∈ ordered.elems r1 ↔ x ∈ ordered.elems r2) → r1 = r2.
Proof.
  destruct r1, r2. simpl. intros H1 H2 Hm. f_equal. by apply strictly_sorted_ext.
Qed.

Lemma ordered2_same (r1 r2 : ordered2.ordered) :
  strictly_sorted (ordered2.list_ r1) → strictly_sorted (ordered2.list_ r2) →
  (∀ x, x ∈ ordered2.list_ r1 ↔ x ∈ ordered2.list_ r2) → r1 = r2.
Proof.
  destruct r1, r2. simpl. intros H1 H2 Hm. f_equal. by apply strictly_sorted_ext.
Qed.

End NaturalAgreement.

Import Go slicesx GoFacts.
Import Spec Spec2 Spec3 Spec4 Spec5 Spec6.
Import SearchFacts OrderFacts LoopFacts ShiftFacts SeqSpec SeqFacts BatchFacts.
Import Natural NaturalOrder NaturalSpec NaturalLaws NaturalSorted NaturalMerge NaturalMergeLoop NaturalDelete NaturalDeleteLoop.

(** ** The hash-backed sets *)
Module TableFacts.
Import TableSpec.
Section facts.
Context `{Countable E}.
Implicit Types s m : gset E.
Implicit Types l keys : list E.

(** Equations and inclusions of sets, element by element. *)
Ltac elementwise :=
  try (apply set_eq; intros ?); set_unfold; intuition congruence.

Lemma ranges_set m keys : ranges m keys → list_to_set keys = m.
Proof.
  unfold ranges. intros Hp. apply set_eq. intros x.
  by rewrite elem_of_list_to_set, Hp, elem_of_elements.
Qed.

Lemma ranges_NoDup m keys : ranges m keys → NoDup keys.
Proof. unfold ranges. intros ->. apply NoDup_elements. Qed.

Lemma ranges_length m keys : ranges m keys → length keys = size m.
Proof. unfold ranges. by intros ->. Qed.

Lemma foldl_insert s l : foldl (λ t e, {[e]} ∪ t) s l = s ∪ list_to_set l.
Proof.
  revert s. induction l as [|x l IH]; intros s; simpl.
  - elementwise.
  - rewrite IH. elementwise.
Qed.

Lemma foldl_remove s l : foldl (λ t e, t ∖ {[e]}) s l = s ∖ list_to_set l.
Proof.
  revert s. induction l as [|x l IH]; intros s; simpl.
  - elementwise.
  - rewrite IH. elementwise.
Qed.

Lemma forallb_in s l :
  forallb (λ e, bool_decide (e ∈ s)) l = true ↔ list_to_set l ⊆ s.
Proof.
  induction l as [|x l IH]; simpl.
  - split; [|done]. intros _ y Hy. by apply elem_of_empty in Hy.
  - rewrite andb_true_iff, IH, bool_decide_eq_true. split.
    + intros [Hx Hl] y Hy. apply elem_of_union in Hy as [Hy|Hy]; [|by apply Hl].
      by apply elem_of_singleton in Hy as ->.
    + intros Hsub. split.
      * apply Hsub, elem_of_union. left. by apply elem_of_singleton.
      * intros y Hy. apply Hsub, elem_of_union. by right.
Qed.

Lemma foldl_keep (c : E → bool) s l :
  foldl (λ t e, if c e then {[e]} ∪ t else t) s l
  = s ∪ filter (λ e, c e = true) (list_to_set l).
Proof.
  revert s. induction l as [|x l IH]; intros s; simpl.
  - elementwise.
  - rewrite IH. destruct (c x) eqn:Hc; apply set_eq; intros y;
      rewrite !elem_of_union, !elem_of_filter, ?elem_of_union, ?elem_of_singleton;
      [|split; [tauto|]; intros [?|[? [->|?]]]; [tauto | congruence | tauto]].
    split; [intros [[->|?]|?]; tauto | tauto].
Qed.

Lemma live_insert s keys :
  foldl (λ t e, if bool_decide (e ∈ t) then {[e]} ∪ t else t) s keys = s.
Proof.
  revert s. induction keys as [|x l IH]; intros s; simpl; [done|].
  case_bool_decide as Hx; [|apply IH].
  assert ({[x]} ∪ s = s) as -> by elementwise. apply IH.
Qed.

Lemma live_remove s keys :
  foldl (λ t e, if bool_decide (e ∈ t) then t ∖ {[e]} else t) s keys
  = s ∖ list_to_set keys.
Proof.
  revert s. induction keys as [|x l IH]; intros s; simpl.
  - elementwise.
  - case_bool_decide as Hx; rewrite IH; elementwise.
Qed.

Lemma size_list_to_set_le l : (size (list_to_set l : gset E) ≤ length l)%nat.
Proof.
  induction l as [|x l IH].
  - by rewrite list_to_set_nil, size_empty.
  - rewrite list_to_set_cons. cbn [length].
    destruct (decide (x ∈ (list_to_set l : gset E))) as [Hin|Hin].
    + assert ({[x]} ∪ list_to_set l = (list_to_set l : gset E)) as -> by elementwise.
      lia.
    + rewrite size_union by elementwise. rewrite size_singleton. lia.
Qed.

Lemma size_insert s e :
  size ({[e]} ∪ s) = (size s + (if bool_decide (e ∈ s) then 0 else 1))%nat.
Proof.
  case_bool_decide as Hin.
  - assert ({[e]} ∪ s = s) as -> by elementwise. lia.
  - rewrite size_union by elementwise. rewrite size_singleton. lia.
Qed.

Lemma size_remove s e :
  size s = (size (s ∖ {[e]}) + (if bool_decide (e ∈ s) then 1 else 0))%nat.
Proof.
  case_bool_decide as Hin.
  - assert ({[e]} ⊆ s) as Hsub by (by apply singleton_subseteq_l).
    rewrite size_difference by done. apply subseteq_size in Hsub.
    rewrite size_singleton in *. lia.
  - assert (s ∖ {[e]} = s) as -> by elementwise. lia.
Qed.

(** *** The table of [set.go] *)

Lemma New_set l : table.New l = list_to_set l.
Proof. unfold table.New. rewrite foldl_insert. elementwise. Qed.

Lemma InsertAll_set s l : table.InsertAll s l = s ∪ list_to_set l.
Proof.
  exact (foldl_insert s l).
Qed.

Lemma RemoveAll_set s l : table.RemoveAll s l = s ∖ list_to_set l.
Proof.
  exact (foldl_remove s l).
Qed.

Lemma members_receiver (set : gset E) other :
  proper set other →
  match other with table.Receiver _ => members other = set | _ => True end.
Proof.
  destruct other; try done. simpl. intros Hr. unfold members. simpl.
  by apply ranges_set.
Qed.

Lemma other_Contains_members (set : gset E) other e :
  proper set other →
  table.other_Contains set other e = true ↔ e ∈ members other.
Proof.
  unfold members. destruct other as [ks|m ks|l c|c r]; simpl; intros Hp.
  - by rewrite (ranges_set _ _ Hp), bool_decide_eq_true.
  - by rewrite (ranges_set _ _ Hp), bool_decide_eq_true.
  - by rewrite elem_of_list_to_set.
  - by rewrite elem_of_list_to_set.
Qed.

Lemma table_ContainsSet_spec (set : gset E) other :
  table.ContainsSet set other = true ↔ members other ⊆ set.
Proof. unfold table.ContainsSet, members. apply forallb_in. Qed.

Lemma InsertSet_set (set : gset E) other :
  proper set other → table.InsertSet set other = set ∪ members other.
Proof.
  intros Hp. pose proof (members_receiver set other Hp) as Hr.
  unfold table.InsertSet, members in *.
  destruct other as [ks|m ks|l c|c r]; simpl in *.
  - unfold table.range_live.
    etrans; [exact (live_insert set ks)|]. rewrite Hr. elementwise.
  - apply (foldl_insert set ks).
  - apply (foldl_insert set l).
  - apply (foldl_insert set r).
Qed.

Lemma RemoveSet_set (set : gset E) other :
  table.RemoveSet set other = set ∖ members other.
Proof.
  unfold table.RemoveSet, members.
  destruct other as [ks|m ks|l c|c r]; simpl.
  - apply (live_remove set ks).
  - apply (foldl_remove set ks).
  - apply (foldl_remove set l).
  - apply (foldl_remove set r).
Qed.

Lemma Intersection_set (set : gset E) other :
  table.Intersection set other = set ∩ members other.
Proof.
  unfold table.Intersection, members.
  etrans; [exact (foldl_keep (λ e, bool_decide (e ∈ set)) ∅ (table.visits other))|].
  apply set_eq. intros x.
  rewrite elem_of_union, elem_of_filter, bool_decide_eq_true, elem_of_intersection,
    elem_of_empty. tauto.
Qed.

Lemma Union_set (set : gset E) other :
  proper set other → table.Union set other = set ∪ members other.
Proof.
  intros Hp. unfold table.Union, table.Clone.
  destruct other as [ks|m ks|l c|c r].
  - rewrite InsertSet_set by exact Hp. done.
  - by rewrite InsertSet_set.
  - by rewrite InsertSet_set.
  - by rewrite InsertSet_set.
Qed.

Lemma Difference_set (set : gset E) keys other :
  ranges set keys → proper set other →
  table.Difference set keys other = set ∖ members other.
Proof.
  intros Hk Hp. unfold table.Difference.
  etrans; [exact (foldl_keep (λ e, negb (table.other_Contains set other e)) ∅ keys)|].
  rewrite (ranges_set _ _ Hk). apply set_eq. intros x.
  rewrite elem_of_union, elem_of_filter, elem_of_difference, negb_true_iff.
  rewrite <-(other_Contains_members set other x Hp).
  rewrite elem_of_empty.
  destruct (table.other_Contains set other x); intuition congruence.
Qed.

Lemma SymmetricDifference_set (set : gset E) keys other :
  ranges set keys → proper set other →
  table.SymmetricDifference set keys other
  = (set ∖ members other) ∪ (members other ∖ set).
Proof.
  intros Hk Hp. unfold table.SymmetricDifference. cbn zeta.
  pose proof (Difference_set set keys other Hk Hp) as Hd.
  unfold table.Difference in Hd. rewrite Hd.
  etrans; [exact (foldl_keep (λ e, negb (bool_decide (e ∈ set)))
                    (set ∖ members other) (table.visits other))|].
  fold (members other). apply set_eq. intros x.
  rewrite !elem_of_union, elem_of_filter, !elem_of_difference, negb_true_iff,
    bool_decide_eq_false. tauto.
Qed.

(** *** The table of the second package *)

Lemma newTable_set l : table2.tbl (table2.newTable l) = list_to_set l.
Proof. unfold table2.newTable. simpl. rewrite foldl_insert. elementwise. Qed.

Lemma InsertAll2_set (t : table2.table E) l :
  table2.tbl (table2.InsertAll t l) = table2.tbl t ∪ list_to_set l.
Proof.
  unfold table2.InsertAll. revert t. induction l as [|x l IH]; intros t; simpl.
  - elementwise.
  - rewrite IH. simpl. elementwise.
Qed.

Lemma RemoveAll2_set (t : table2.table E) l :
  table2.tbl (table2.RemoveAll t l) = table2.tbl t ∖ list_to_set l.
Proof.
  unfold table2.RemoveAll. revert t. induction l as [|x l IH]; intros t; simpl.
  - elementwise.
  - rewrite IH. simpl. elementwise.
Qed.

Lemma other_Contains2_members (t : table2.table E) other e :
  proper2 t other →
  table2.other_Contains t other e = true ↔ e ∈ members2 other.
Proof.
  unfold members2. destruct other as [ks|m ks|l c|c r n]; simpl; intros Hp.
  - by rewrite (ranges_set _ _ Hp), bool_decide_eq_true.
  - by rewrite (ranges_set _ _ Hp), bool_decide_eq_true.
  - destruct Hp as [Hc _]. by rewrite elem_of_list_to_set.
  - destruct Hp as [Hc _]. by rewrite elem_of_list_to_set.
Qed.

Lemma other_Len2_size (t : table2.table E) other :
  proper2 t other →
  table2.other_Len t other = Z.of_nat (size (members2 other)).
Proof.
  unfold members2. destruct other as [ks|m ks|l c|c r n]; simpl; intros Hp.
  - by rewrite (ranges_set _ _ Hp).
  - by rewrite (ranges_set _ _ Hp).
  - destruct Hp as [_ Hn]. by rewrite size_list_to_set.
  - destruct Hp as (_ & Hn & ->). by rewrite size_list_to_set.
Qed.

Lemma table2_ContainsSet_spec (t : table2.table E) other :
  proper2 t other →
  table2.ContainsSet t other = true ↔ members2 other ⊆ table2.tbl t.
Proof.
  intros Hp. unfold table2.ContainsSet, table2.Len.
  rewrite (other_Len2_size t other Hp).
  case_bool_decide as Hlen.
  - split; [done|]. intros Hsub. apply subseteq_size in Hsub. lia.
  - apply forallb_in.
Qed.

Lemma InsertSet2_set (t : table2.table E) other :
  proper2 t other →
  table2.tbl (table2.InsertSet t other) = table2.tbl t ∪ members2 other.
Proof.
  intros Hp. unfold table2.InsertSet, members2.
  destruct other as [ks|m ks|l c|c r n]; simpl in *;
    try apply (InsertAll2_set t).
  rewrite (ranges_set _ _ Hp). unfold table2.range_live.
  assert (∀ keys (u : table2.table E),
            foldl (λ u e, if bool_decide (e ∈ table2.tbl u)
                          then table2.Insert u e else u) u keys = u) as Hlive.
  { induction keys as [|x keys IH]; intros u; simpl; [done|].
    case_bool_decide as Hx; [|apply IH].
    assert (table2.Insert u x = u) as ->; [|apply IH].
    destruct u as [m]. unfold table2.Insert. simpl in *. f_equal. elementwise. }
  rewrite Hlive. elementwise.
Qed.

Lemma RemoveSet2_set (t : table2.table E) other :
  table2.tbl (table2.RemoveSet t other) = table2.tbl t ∖ members2 other.
Proof.
  unfold table2.RemoveSet, members2.
  destruct other as [ks|m ks|l c|c r n]; simpl in *;
    try apply (RemoveAll2_set t).
  unfold table2.range_live. revert t.
  induction ks as [|x ks IH]; intros t; simpl.
  - elementwise.
  - case_bool_decide as Hx; rewrite IH; simpl; elementwise.
Qed.

Lemma intersection2_set (t : table2.table E) other :
  table2.tbl (table2.intersection t other) = table2.tbl t ∩ members2 other.
Proof.
  unfold table2.intersection, members2. simpl.
  etrans; [exact (foldl_keep (λ e, bool_decide (e ∈ table2.tbl t)) ∅
                    (table2.visits other))|].
  apply set_eq. intros x.
  rewrite elem_of_union, elem_of_filter, bool_decide_eq_true, elem_of_intersection,
    elem_of_empty. tauto.
Qed.

Lemma union2_set (t : table2.table E) other :
  table2.tbl (table2.union t other) = table2.tbl t ∪ members2 other.
Proof. unfold table2.union, members2. simpl. apply foldl_insert. Qed.

Lemma own_fold (t : table2.table E) keys other acc :
  ranges (table2.tbl t) keys → proper2 t other →
  foldl (λ u e, if negb (table2.other_Contains t other e) then {[e]} ∪ u else u)
        acc keys
  = acc ∪ (table2.tbl t ∖ members2 other).
Proof.
  intros Hk Hp.
  etrans; [exact (foldl_keep (λ e, negb (table2.other_Contains t other e)) acc keys)|].
  rewrite (ranges_set _ _ Hk). apply set_eq. intros x.
  rewrite !elem_of_union, elem_of_filter, elem_of_difference, negb_true_iff.
  rewrite <-(other_Contains2_members t other x Hp).
  destruct (table2.other_Contains t other x); intuition congruence.
Qed.

Lemma theirs_fold (t : table2.table E) other acc :
  foldl (λ u e, if negb (bool_decide (e ∈ table2.tbl t)) then {[e]} ∪ u else u)
        acc (table2.visits other)
  = acc ∪ (members2 other ∖ table2.tbl t).
Proof.
  etrans; [exact (foldl_keep (λ e, negb (bool_decide (e ∈ table2.tbl t))) acc
                    (table2.visits other))|].
  fold (members2 other). apply set_eq. intros x.
  rewrite !elem_of_union, elem_of_filter, !elem_of_difference, negb_true_iff,
    bool_decide_eq_false. tauto.
Qed.

Lemma difference2_set (t : table2.table E) keys other :
  ranges (table2.tbl t) keys → proper2 t other →
  table2.tbl (table2.difference t keys other) = table2.tbl t ∖ members2 other.
Proof.
  intros Hk Hp. unfold table2.difference. simpl.
  rewrite (own_fold t keys other ∅ Hk Hp). elementwise.
Qed.

Lemma symmetricDifference2_set (t : table2.table E) keys other :
  ranges (table2.tbl t) keys → proper2 t other →
  table2.tbl (table2.symmetricDifference t keys other)
  = (table2.tbl t ∖ members2 other) ∪ (members2 other ∖ table2.tbl t).
Proof.
  intros Hk Hp. unfold table2.symmetricDifference. cbn zeta.
  destruct other as [ks|m ks|l c|c r n]; simpl.
  - rewrite (own_fold t keys _ ∅ Hk Hp).
    rewrite (theirs_fold t (table2.Receiver ks)). elementwise.
  - rewrite (own_fold t keys _ ∅ Hk Hp).
    rewrite (theirs_fold t (table2.Table m ks)). elementwise.
  - rewrite (theirs_fold t (table2.List l c) ∅).
    rewrite (own_fold t keys _ _ Hk Hp). elementwise.
  - rewrite (own_fold t keys _ ∅ Hk Hp).
    rewrite (theirs_fold t (table2.Other c r n)). elementwise.
Qed.

End facts.
End TableFacts.

Import Go slicesx GoFacts.
Import Spec Spec2 Spec3 Spec4 Spec5 Spec6.
Import SearchFacts OrderFacts LoopFacts ShiftFacts SeqSpec SeqFacts BatchFacts.
Import Natural NaturalOrder NaturalSpec NaturalLaws NaturalSorted NaturalMerge NaturalMergeLoop NaturalDelete NaturalDeleteLoop.
Import TableSpec NaturalExtensionality NaturalQuestions.

(** ** Hash-backed and natural-order sets together *)
Module InterplayFacts.
Import Interplay.

Lemma table_operand_coherent (m : gset Z) ke kr :
  ranges m ke → ranges m kr →
  NaturalOperand.coherent (table_operand m ke kr)
  ∧ ∀ set x, x ∈ NaturalOperand.members set (table_operand m ke kr) ↔ x ∈ m.
Proof.
  unfold ranges. intros Hke Hkr. split.
  - unfold NaturalOperand.coherent, table_operand, table.Contains, table.Elems. simpl.
    split_and!.
    + intros e. by rewrite bool_decide_eq_true, Hkr, elem_of_elements.
    + intros e. by rewrite Hke, Hkr.
    + rewrite Hke. apply NoDup_elements.
  - intros set x. unfold NaturalOperand.members, table_operand. simpl.
    by rewrite Hkr, elem_of_elements.
Qed.

Lemma table_view_coherent (t : table2.table Z) ke kr :
  ranges (table2.tbl t) ke → ranges (table2.tbl t) kr →
  NaturalOperand2.coherent (table_view t ke kr)
  ∧ Ordered2Ops.in_natural_order (table_view t ke kr)
  ∧ ∀ s x, x ∈ NaturalOperand2.members s (table_view t ke kr) ↔ x ∈ table2.tbl t.
Proof.
  unfold ranges. intros Hke Hkr. split_and!.
  - unfold NaturalOperand2.coherent, table_view, table2.Contains, table2.Elems. simpl.
    split_and!.
    + intros e. by rewrite bool_decide_eq_true, Hkr, elem_of_elements.
    + intros e. by rewrite Hke, Hkr.
    + rewrite Hke. apply NoDup_elements.
  - done.
  - intros s x. unfold NaturalOperand2.members, table_view. simpl.
    by rewrite Hkr, elem_of_elements.
Qed.

Lemma ordered_operand_proper (m : gset Z) set :
  strictly_sorted (ordered.elems set) →
  proper m (ordered_operand set)
  ∧ members (ordered_operand set) = list_to_set (ordered.elems set).
Proof.
  intros Hs. split; [|done]. unfold proper, ordered_operand. intros e.
  destruct (ordered_Contains_spec set e Hs) as (b & -> & Hb). simpl.
  by rewrite <-Hb.
Qed.

Lemma ordered_view_proper (t : table2.table Z) s :
  strictly_sorted (ordered2.list_ s) →
  proper2 t (ordered_view s)
  ∧ members2 (ordered_view s) = list_to_set (ordered2.list_ s).
Proof.
  intros Hs. split; [|done]. unfold proper2, ordered_view. split.
  - intros e.
    destruct (Ordered2Facts.ordered2_Contains_spec s e Hs) as (b & -> & Hb). simpl.
    by rewrite <-Hb.
  - by apply strictly_sorted_NoDup.
Qed.

(** A strictly ascending list is as long as the set of its elements is
    large. *)
Lemma sorted_size l :
  strictly_sorted l → Z.of_nat (size (list_to_set l : gset Z)) = len l.
Proof.
  intros Hs. unfold len. f_equal. apply size_list_to_set.
  by apply strictly_sorted_NoDup.
Qed.

Lemma elems_set_eq (l1 : list Z) (m : gset Z) :
  (∀ x, x ∈ l1 ↔ x ∈ m) → list_to_set l1 = m.
Proof.
  intros Hm. apply set_eq. intros x. by rewrite elem_of_list_to_set.
Qed.

End InterplayFacts.

Import Go slicesx GoFacts.
Import Spec Spec2 Spec3 Spec4 Spec5 Spec6.
Import SearchFacts OrderFacts LoopFacts ShiftFacts SeqSpec SeqFacts BatchFacts.
Import Natural NaturalOrder NaturalSpec NaturalLaws NaturalSorted NaturalMerge NaturalMergeLoop NaturalDelete NaturalDeleteLoop.
Import Examples ExampleLaws.
Import String.StringSyntax.

(** * The helpers of the slice algorithms *)
Module SliceHelperProperties.
Local Open Scope string_scope.

(** X1.  [insertInto] realizes a schedule of insertions whose positions do
    not decrease and lie within the array: each element is placed in
    front of the element that stands at its position, the tail follows,
    and the result is as long as the array, the insertions and the tail
    together.  With no insertion the result is the array followed by the
    tail.  A single insertion at a position outside the array panics.
    The example of the source: B at 1, G at 5, J and K at 7 into
    a c d e f h i l m, with the tail N O P. *)
Theorem insert_into_weaves {E : Type} (zero : E) (a tail : list E)
    (inserts : list (insert E)) :
  positions_ok 0 (len a) inserts →
  insertInto zero a tail inserts = Ok (weave a 0 inserts ++ tail)
  ∧ len (weave a 0 inserts ++ tail) = len a + len inserts + len tail
  ∧ insertInto zero a tail [] = Ok (a ++ tail)
  ∧ (∀ x e, ¬ (0 ≤ x ≤ len a) → insertInto zero a tail [Insert x e] = Panic)
  ∧ insertInto "_" ["a"; "c"; "d"; "e"; "f"; "h"; "i"; "l"; "m"] ["N"; "O"; "P"]
      [Insert 1 "B"; Insert 5 "G"; Insert 7 "J"; Insert 7 "K"]
    = Ok ["a"; "B"; "c"; "d"; "e"; "f"; "G"; "h"; "i"; "J"; "K"; "l"; "m";
          "N"; "O"; "P"].
Proof.
  intros Hok. split_and!.
  - by apply InsertFacts.insertInto_correct.
  - unfold len. rewrite length_app, InsertFacts.length_weave. lia.
  - apply EmptyOperand.insertInto_nothing.
  - intros x e Hx. unfold insertInto. cbn zeta.
    pose proof (len_nonneg a) as Ha. pose proof (len_nonneg tail) as Ht.
    change (len [Insert x e]) with 1.
    unfold grow_to. case_bool_decide as Hk; [|lia].
    cbn [mbind run_bind].
    set (g := take _ a ++ replicate _ zero).
    assert (len g = len a + 1 + len tail) as Hg.
    { unfold g, len. rewrite length_app, length_take, length_replicate.
      unfold len. lia. }
    unfold copy. case_bool_decide as Hc; [|lia].
    cbn [mbind run_bind reverse rev_append for_range].
    cbn [ins_i]. unfold slice.
    match goal with
    | |- context [bool_decide (0 ≤ x ∧ ?Q)] =>
        rewrite (bool_decide_false (0 ≤ x ∧ Q)) by lia
    end.
    done.
  - by vm_compute.
Qed.

Lemma insert_into_weaves_witness :
  positions_ok 0 (len [10; 30]) [Insert 1 20]
  ∧ insertInto 0 [10; 30] [40] [Insert 1 20] = Ok (weave [10; 30] 0 [Insert 1 20] ++ [40]).
Proof.
  assert (positions_ok 0 (len [10; 30]) [Insert 1 20]) as Hok by (vm_compute; done).
  split; [exact Hok|].
  exact (proj1 (insert_into_weaves 0 [10; 30] [40] [Insert 1 20] Hok)).
Defined.

(** X2.  [deleteFrom] removes the elements at a list of positions that
    strictly increase and lie within the array: what is left keeps its
    order and is shorter by the number of positions.  With no position
    the array is returned as it is.  A single position outside the array
    panics.  The example of the source: positions 1, 6, 9, 10, 13, 14, 15
    of a .. p leave a c d e f h i l m. *)
Theorem delete_from_cuts {E : Type} (zero : E) (a : list E) (deletes : list Z) :
  deletes_ok 0 (len a) deletes →
  deleteFrom zero a deletes = Ok (cut a 0 deletes)
  ∧ len (cut a 0 deletes) = len a - len deletes
  ∧ deleteFrom zero a [] = Ok a
  ∧ (∀ d, ¬ (0 ≤ d < len a) → deleteFrom zero a [d] = Panic)
  ∧ deleteFrom "_" ["a"; "b"; "c"; "d"; "e"; "f"; "g"; "h"; "i"; "j"; "k"; "l";
                    "m"; "n"; "o"; "p"] [1; 6; 9; 10; 13; 14; 15]
    = Ok ["a"; "c"; "d"; "e"; "f"; "h"; "i"; "l"; "m"].
Proof.
  intros Hok. split_and!.
  - by apply DeleteFacts.deleteFrom_correct.
  - by apply DeleteFacts.len_cut.
  - done.
  - intros d Hd. unfold deleteFrom. cbn zeta.
    change (len [d]) with 1.
    rewrite bool_decide_false by lia.
    change (index [d] 0) with (Ok d).
    cbn [mbind run_bind drop for_range].
    pose proof (len_nonneg a) as Ha.
    unfold slice. case_bool_decide as Hs; [|done].
    cbn [mbind run_bind]. unfold copy.
    case_bool_decide as Hc; [lia | done].
  - by vm_compute.
Qed.

Lemma delete_from_cuts_witness :
  deletes_ok 0 (len [10; 20; 30]) [1]
  ∧ deleteFrom 0 [10; 20; 30] [1] = Ok (cut [10; 20; 30] 0 [1]).
Proof.
  assert (deletes_ok 0 (len [10; 20; 30]) [1]) as Hok by (vm_compute; split; discriminate).
  split; [exact Hok|].
  exact (proj1 (delete_from_cuts 0 [10; 20; 30] [1] Hok)).
Defined.

(** X3.  [runEq] returns the leading run of its argument: the head and
    the elements that follow it for as long as they compare equal to the
    head; the element after the run, if there is one, does not compare
    equal to the head.  Of the empty list and of a list of one element it
    returns the list itself. *)
Theorem run_eq_leading_run {E : Type} (cmp : E → E → Z) (v0 : E) (rest : list E) :
  (∃ k : nat, runEq (v0 :: rest) cmp = v0 :: take k rest
     ∧ (∀ y, y ∈ take k rest → cmp v0 y = 0)
     ∧ (∀ y, rest !! k = Some y → cmp v0 y ≠ 0))
  ∧ runEq [] cmp = []
  ∧ runEq [v0] cmp = [v0].
Proof.
  split; [apply RunOrder.runEq_cons|]. done.
Qed.

(** X4.  An empty operand, whatever the order and identity functions are:
    merging the empty list into A and deleting the empty list from A
    return A, merging B into the empty list returns B, and deleting from
    the empty list returns the empty list. *)
Theorem empty_operand_unchanged {E : Type} (zero : E) (cmp : E → E → Z)
    (eq : E → E → bool) (a : list E) :
  MergeSorted zero a [] cmp eq = Ok a
  ∧ MergeSorted zero [] a cmp eq = Ok a
  ∧ DeleteSorted zero a [] cmp eq = Ok a
  ∧ DeleteSorted zero [] a cmp eq = Ok [].
Proof.
  split_and!.
  - apply EmptyOperand.MergeSorted_nil_r.
  - apply EmptyOperand.MergeSorted_nil_l.
  - apply EmptyOperand.DeleteSorted_nil_r.
  - apply EmptyOperand.DeleteSorted_nil_l.
Qed.

End SliceHelperProperties.

Import Go slicesx GoFacts.
Import Spec Spec2 Spec3 Spec4 Spec5 Spec6.
Import SearchFacts OrderFacts LoopFacts ShiftFacts SeqSpec SeqFacts BatchFacts.
Import Natural NaturalOrder NaturalSpec NaturalLaws NaturalSorted NaturalMerge NaturalMergeLoop NaturalDelete NaturalDeleteLoop.
Import SearchSpec Examples ExampleLaws.

(** * The comparator sets: construction, removal, questions, algebra *)
Module ComparatorSetProperties.

(** X5.  A list that is sorted by [cmp] and holds no two elements of
    equal identity comes back from the stable sort with deduplication as
    it is; so building a comparator set from the elements of a comparator
    set, with the same functions, gives the same list, in both packages. *)
Theorem constructor_of_sorted_input {E : Type} (zero : E) (cmp : E → E → Z)
    (eq : E → E → bool) (l : list E) :
  Laws cmp eq → sorted_seq cmp eq l →
  StableSortUniqFuncs zero l cmp eq = Ok l
  ∧ sets.NewSortedCmpEqFunc zero cmp eq l = Ok (sets.MkSorted l cmp eq)
  ∧ sets2.NewSortedFuncs zero cmp eq l = Ok (sets2.MkFuncSorted l cmp eq).
Proof.
  intros HL Hs.
  pose proof (SortedInput.StableSortUniqFuncs_sorted zero cmp eq HL l Hs) as Hsame.
  split; [done|]. split.
  - unfold sets.NewSortedCmpEqFunc, sets.stableSortUniqCmpEq. by rewrite Hsame.
  - unfold sets2.NewSortedFuncs, sets2.funcSort. by rewrite Hsame.
Qed.

Lemma constructor_of_sorted_input_witness :
  Laws by_key same_key ∧ sorted_seq by_key same_key tagged_A
  ∧ StableSortUniqFuncs (0, 0) tagged_A by_key same_key = Ok tagged_A.
Proof.
  assert (sorted_seq by_key same_key tagged_A) as Hs by sorted_by_computation.
  split; [apply by_key_laws|]. split; [exact Hs|].
  exact (proj1 (constructor_of_sorted_input (0, 0) by_key same_key tagged_A
                  by_key_laws Hs)).
Defined.

(** X6.  The constructors of the comparator sets return a set that holds
    exactly the identities of the given elements, every element of which
    is one of the given elements, and that is at most as long as the
    list given; without elements the set is empty. *)
Theorem constructor_membership {E : Type} (zero : E) (cmp : E → E → Z)
    (eq : E → E → bool) (l : list E) :
  Laws cmp eq →
  (∃ set, sets.NewSortedCmpEqFunc zero cmp eq l = Ok set
     ∧ (∀ y, SetSpec.member set y ↔ has eq l y)
     ∧ (∀ x, x ∈ sets.Elems set → x ∈ l)
     ∧ sets.Len set ≤ len l)
  ∧ (∃ s, sets2.NewSortedFuncs zero cmp eq l = Ok s
       ∧ (∀ y, FuncSetSpec.member s y ↔ has eq l y)
       ∧ (∀ x, x ∈ sets2.Elems s → x ∈ l)
       ∧ sets2.Len s ≤ len l)
  ∧ sets.NewSortedCmpEqFunc zero cmp eq [] = Ok (sets.MkSorted [] cmp eq)
  ∧ sets2.NewSortedFuncs zero cmp eq [] = Ok (sets2.MkFuncSorted [] cmp eq).
Proof.
  intros HL. split_and!.
  - destruct (SortedLaws.NewSortedCmpEqFunc_spec zero cmp eq l HL)
      as (set & Hset & Hc & Hq & Hs & Hin & Hm).
    exists set. split; [done|]. split; [done|]. split; [done|].
    unfold sets.Len, len. apply inj_le.
    apply (IdentityBound.distinct_within_length cmp eq HL).
    + destruct Hs as [_ Hd]. by rewrite Hq in Hd.
    + intros e He. apply (has_elem cmp eq HL). by apply Hin.
  - destruct (FuncSortedLaws.funcSort_spec zero cmp eq l HL)
      as (s & Hset & Hc & Hq & Hs & Hin & Hm).
    exists s. split; [done|]. split; [done|]. split; [done|].
    unfold sets2.Len, len. apply inj_le.
    apply (IdentityBound.distinct_within_length cmp eq HL).
    + destruct Hs as [_ Hd]. by rewrite Hq in Hd.
    + intros e He. apply (has_elem cmp eq HL). by apply Hin.
  - done.
  - done.
Qed.

Lemma constructor_membership_witness :
  Laws by_key same_key
  ∧ ∃ set, sets.NewSortedCmpEqFunc (0, 0) by_key same_key [(3, 0); (1, 1); (3, 2)] = Ok set
      ∧ (∀ y, SetSpec.member set y ↔ has same_key [(3, 0); (1, 1); (3, 2)] y)
      ∧ (∀ x, x ∈ sets.Elems set → x ∈ [(3, 0); (1, 1); (3, 2)])
      ∧ sets.Len set ≤ len [(3, 0); (1, 1); (3, 2)].
Proof.
  split; [apply by_key_laws|].
  exact (proj1 (constructor_membership (0, 0) by_key same_key
                  [(3, 0); (1, 1); (3, 2)] by_key_laws)).
Defined.

(** X7.  When the comparison alone orders and identifies
    ([NewSortedCmpFunc], [NewSortedMutableFunc],
    [NewSortedImmutableFunc]), a comparison that is a strict weak order
    is all the constructor needs: the set is strictly ascending, so no
    two of its elements compare equal, and it holds an element that
    compares equal to [y] exactly when the given list does. *)
Theorem cmp_only_constructor_strict {E : Type} (zero : E) (cmp : E → E → Z)
    (l : list E) :
  Comparator cmp →
  (∃ set, sets.NewSortedCmpFunc zero cmp l = Ok set
     ∧ strictly_ascending cmp (sets.Elems set)
     ∧ (∀ y, (∃ x, x ∈ sets.Elems set ∧ cmp x y = 0) ↔ ∃ x, x ∈ l ∧ cmp x y = 0))
  ∧ (∃ s, sets2.NewSortedFunc zero cmp l = Ok s
       ∧ strictly_ascending cmp (sets2.Elems s)
       ∧ (∀ y, (∃ x, x ∈ sets2.Elems s ∧ cmp x y = 0) ↔ ∃ x, x ∈ l ∧ cmp x y = 0)).
Proof.
  intros Hcmp. pose proof (cmp_identity_laws cmp Hcmp) as HL.
  assert (∀ (m : list E) y, has (λ a b, bool_decide (cmp a b = 0)) m y
                            ↔ ∃ x, x ∈ m ∧ cmp x y = 0) as Hhas.
  { intros m y. unfold has. split; intros (x & Hx & Hxy); exists x; split; try done.
    - by apply bool_decide_eq_true in Hxy.
    - by apply bool_decide_eq_true. }
  split.
  - unfold sets.NewSortedCmpFunc.
    destruct (SortedLaws.NewSortedCmpEqFunc_spec zero cmp _ l HL)
      as (set & Hset & Hc & Hq & Hs & Hin & Hm).
    exists set. split; [done|]. split.
    + apply StrictOrder.strict_of_cmp_identity.
      unfold SetSpec.sorted_sequence in Hs. by rewrite Hc, Hq in Hs.
    + intros y. rewrite <-!Hhas. rewrite <-Hm. unfold SetSpec.member. by rewrite Hq.
  - unfold sets2.NewSortedFunc, sets2.NewSortedFuncs.
    destruct (FuncSortedLaws.funcSort_spec zero cmp _ l HL)
      as (s & Hset & Hc & Hq & Hs & Hin & Hm).
    exists s. split; [done|]. split.
    + apply StrictOrder.strict_of_cmp_identity.
      unfold FuncSetSpec.sorted_sequence in Hs. by rewrite Hc, Hq in Hs.
    + intros y. rewrite <-!Hhas. rewrite <-Hm. unfold FuncSetSpec.member. by rewrite Hq.
Qed.

Lemma cmp_only_constructor_strict_witness :
  Comparator by_key
  ∧ ∃ set, sets.NewSortedCmpFunc (0, 0) by_key [(3, 0); (1, 1); (3, 2)] = Ok set
      ∧ strictly_ascending by_key (sets.Elems set)
      ∧ (∀ y, (∃ x, x ∈ sets.Elems set ∧ by_key x y = 0)
              ↔ ∃ x, x ∈ [(3, 0); (1, 1); (3, 2)] ∧ by_key x y = 0).
Proof.
  split; [apply by_key_laws|].
  exact (proj1 (cmp_only_constructor_strict (0, 0) by_key [(3, 0); (1, 1); (3, 2)]
                  (proj1 by_key_laws))).
Defined.

(** X8.  [Remove] takes out the element whose identity is that of the
    argument, if the set holds one: afterwards the set holds the other
    identities and no others, it is still sorted without two elements of
    equal identity, its elements are elements it had, and it is shorter
    by one exactly when [Contains] answered yes before.  In both
    packages. *)
Theorem remove_by_identity {E : Type} (zero : E) (set : sets.sorted E)
    (s : sets2.funcSorted E) (e : E) :
  SetSpec.lawful set → SetSpec.sorted_sequence set →
  FuncSetSpec.lawful s → FuncSetSpec.sorted_sequence s →
  (∃ b set', sets.Contains set e = Ok b ∧ sets.Remove zero set e = Ok set'
     ∧ SetSpec.sorted_sequence set'
     ∧ (∀ y, SetSpec.member set' y ↔ SetSpec.member set y ∧ sets.eq set e y = false)
     ∧ sets.Contains set' e = Ok false
     ∧ sets.Len set' = sets.Len set - (if b then 1 else 0))
  ∧ (∃ b s', sets2.Contains s e = Ok b ∧ sets2.Remove zero s e = Ok s'
       ∧ FuncSetSpec.sorted_sequence s'
       ∧ (∀ y, FuncSetSpec.member s' y ↔ FuncSetSpec.member s y ∧ sets2.eq s e y = false)
       ∧ sets2.Contains s' e = Ok false
       ∧ sets2.Len s' = sets2.Len s - (if b then 1 else 0)).
Proof.
  intros HL Hseq HL2 Hseq2. split.
  - destruct (SortedAlgebra.Remove_Len zero set e HL Hseq) as (b & set' & Hb & Hrem & Hlen).
    destruct (SortedLaws.Remove_spec zero set e HL Hseq) as (s1 & Hs1 & Hc & Hq & Hs & Hm).
    rewrite Hrem in Hs1. injection Hs1 as <-.
    exists b, set'. split; [done|]. split; [done|]. split; [done|]. split; [done|].
    split; [|done].
    assert (SetSpec.lawful set') as HL' by (unfold SetSpec.lawful; by rewrite Hc, Hq).
    destruct (SortedLaws.Contains_spec set' HL' Hs e) as (b' & -> & Hb').
    f_equal. destruct b'; [|done]. exfalso.
    assert (SetSpec.member set' e) as He by by apply Hb'.
    apply Hm in He as [_ He]. destruct HL as [_ Heq].
    by rewrite (id_refl _ _ Heq) in He.
  - destruct (FuncSortedAlgebra.func_Remove_Len zero s e HL2 Hseq2)
      as (b & s' & Hb & Hrem & Hlen).
    destruct (FuncSortedLaws.func_remove_spec zero s e HL2 Hseq2)
      as (s1 & Hs1 & Hc & Hq & Hs & Hm).
    rewrite Hrem in Hs1. injection Hs1 as <-.
    exists b, s'. split; [done|]. split; [done|]. split; [done|]. split; [done|].
    split; [|done].
    assert (FuncSetSpec.lawful s') as HL' by (unfold FuncSetSpec.lawful; by rewrite Hc, Hq).
    destruct (FuncSortedLaws.func_contains_spec s' HL' Hs e) as (b' & -> & Hb').
    f_equal. destruct b'; [|done]. exfalso.
    assert (FuncSetSpec.member s' e) as He by by apply Hb'.
    apply Hm in He as [_ He]. destruct HL2 as [_ Heq].
    by rewrite (id_refl _ _ Heq) in He.
Qed.

Lemma remove_by_identity_witness :
  let set := sets.MkSorted tagged_A by_key same_key in
  let s := sets2.MkFuncSorted tagged_A by_key same_key in
  SetSpec.lawful set ∧ SetSpec.sorted_sequence set
  ∧ FuncSetSpec.lawful s ∧ FuncSetSpec.sorted_sequence s
  ∧ ∃ b set', sets.Contains set (2, 7) = Ok b ∧ sets.Remove (0, 0) set (2, 7) = Ok set'
      ∧ SetSpec.sorted_sequence set'
      ∧ (∀ y, SetSpec.member set' y ↔ SetSpec.member set y ∧ sets.eq set (2, 7) y = false)
      ∧ sets.Contains set' (2, 7) = Ok false
      ∧ sets.Len set' = sets.Len set - (if b then 1 else 0).
Proof.
  intros set s.
  assert (sorted_seq by_key same_key tagged_A) as Hs by sorted_by_computation.
  split; [apply by_key_laws|]. split; [exact Hs|].
  split; [apply by_key_laws|]. split; [exact Hs|].
  exact (proj1 (remove_by_identity (0, 0) set s (2, 7) by_key_laws Hs by_key_laws Hs)).
Defined.

(** X9.  [Insert] makes the set hold the element and lengthens it by one
    exactly when [Contains] answered no before; and when the set did not
    hold the identity, removing the element again gives back the very
    list the set had.  In both packages. *)
Theorem insert_then_remove_restores {E : Type} (zero : E) (set : sets.sorted E)
    (s : sets2.funcSorted E) (e : E) :
  SetSpec.lawful set → SetSpec.sorted_sequence set →
  FuncSetSpec.lawful s → FuncSetSpec.sorted_sequence s →
  (∃ b set1, sets.Contains set e = Ok b ∧ sets.Insert set e = Ok set1
     ∧ sets.Contains set1 e = Ok true
     ∧ sets.Len set1 = sets.Len set + (if b then 0 else 1)
     ∧ (b = false →
        ∃ set2, sets.Remove zero set1 e = Ok set2
          ∧ sets.Elems set2 = sets.Elems set))
  ∧ (∃ b s1, sets2.Contains s e = Ok b ∧ sets2.Insert s e = Ok s1
       ∧ sets2.Contains s1 e = Ok true
       ∧ sets2.Len s1 = sets2.Len s + (if b then 0 else 1)
       ∧ (b = false →
          ∃ s2, sets2.Remove zero s1 e = Ok s2
            ∧ sets2.Elems s2 = sets2.Elems s)).
Proof.
  intros HL Hseq HL2 Hseq2. split.
  - destruct (SortedAlgebra.Insert_Len set e HL Hseq) as (b & set1 & Hb & Hins & Hlen).
    destruct (SortedLaws.Insert_spec set e HL Hseq) as (s1 & Hs1 & Hc & Hq & Hs & He & Hm).
    rewrite Hins in Hs1. injection Hs1 as <-.
    exists b, set1. split; [done|]. split; [done|]. split_and!.
    + assert (SetSpec.lawful set1) as HL' by (unfold SetSpec.lawful; by rewrite Hc, Hq).
      destruct (SortedLaws.Contains_spec set1 HL' Hs e) as (b' & -> & Hb').
      f_equal. apply Hb'. by apply (has_elem (sets.cmp set1)).
    + done.
    + intros ->.
      destruct (SortedLaws.Contains_spec set HL Hseq e) as (b' & Hb' & Hmem).
      rewrite Hb in Hb'. injection Hb' as <-.
      destruct (SortedAlgebra.Insert_Remove zero set e HL Hseq) as (s1 & Hi & Hr).
      { intros Hmm. apply Hmem in Hmm. done. }
      rewrite Hins in Hi. injection Hi as <-.
      eexists. split; [done|]. done.
  - destruct (FuncSortedAlgebra.func_Insert_Len s e HL2 Hseq2)
      as (b & s1 & Hb & Hins & Hlen).
    destruct (FuncSortedLaws.func_insert_spec s e HL2 Hseq2)
      as (s1' & Hs1 & Hc & Hq & Hs & He & Hm).
    unfold sets2.Insert. rewrite Hins in Hs1. injection Hs1 as <-.
    exists b, s1. split; [done|]. split; [done|]. split_and!.
    + assert (FuncSetSpec.lawful s1) as HL' by (unfold FuncSetSpec.lawful; by rewrite Hc, Hq).
      destruct (FuncSortedLaws.func_contains_spec s1 HL' Hs e) as (b' & -> & Hb').
      f_equal. apply Hb'. by apply (has_elem (sets2.cmp s1)).
    + done.
    + intros ->.
      destruct (FuncSortedLaws.func_contains_spec s HL2 Hseq2 e) as (b' & Hb' & Hmem).
      rewrite Hb in Hb'. injection Hb' as <-.
      destruct (FuncSortedAlgebra.func_Insert_Remove zero s e HL2 Hseq2) as (s1' & Hi & Hr).
      { intros Hmm. apply Hmem in Hmm. done. }
      rewrite Hins in Hi. injection Hi as <-.
      eexists. split; [done|]. done.
Qed.

Lemma insert_then_remove_restores_witness :
  let set := sets.MkSorted tagged_A by_key same_key in
  let s := sets2.MkFuncSorted tagged_A by_key same_key in
  SetSpec.lawful set ∧ SetSpec.sorted_sequence set
  ∧ FuncSetSpec.lawful s ∧ FuncSetSpec.sorted_sequence s
  ∧ ∃ b set1, sets.Contains set (7, 7) = Ok b ∧ sets.Insert set (7, 7) = Ok set1
      ∧ sets.Contains set1 (7, 7) = Ok true
      ∧ sets.Len set1 = sets.Len set + (if b then 0 else 1)
      ∧ (b = false →
         ∃ set2, sets.Remove (0, 0) set1 (7, 7) = Ok set2
           ∧ sets.Elems set2 = sets.Elems set).
Proof.
  intros set s.
  assert (sorted_seq by_key same_key tagged_A) as Hs by sorted_by_computation.
  split; [apply by_key_laws|]. split; [exact Hs|].
  split; [apply by_key_laws|]. split; [exact Hs|].
  exact (proj1 (insert_then_remove_restores (0, 0) set s (7, 7)
                  by_key_laws Hs by_key_laws Hs)).
Defined.

(** X10.  [InsertAll] leaves the set with the membership that inserting
    the elements one at a time with [Insert] leaves: the same answers of
    [Contains] and the same length, namely the identities the set held
    and those of the elements given.  In both packages. *)
Theorem insert_all_as_inserts {E : Type} (zero : E) (set : sets.sorted E)
    (s : sets2.funcSorted E) (l : list E) :
  SetSpec.lawful set → SetSpec.sorted_sequence set →
  FuncSetSpec.lawful s → FuncSetSpec.sorted_sequence s →
  (∃ set1 set2, sets.InsertAll zero set l = Ok set1
     ∧ for_range l sets.Insert set = Ok set2
     ∧ (∀ y, sets.Contains set1 y = sets.Contains set2 y)
     ∧ sets.Len set1 = sets.Len set2
     ∧ (∀ y, SetSpec.member set1 y ↔ SetSpec.member set y ∨ has (sets.eq set) l y))
  ∧ (∃ s1 s2, sets2.InsertAll zero s l = Ok s1
       ∧ for_range l sets2.Insert s = Ok s2
       ∧ (∀ y, sets2.Contains s1 y = sets2.Contains s2 y)
       ∧ sets2.Len s1 = sets2.Len s2
       ∧ (∀ y, FuncSetSpec.member s1 y ↔ FuncSetSpec.member s y ∨ has (sets2.eq s) l y)).
Proof.
  intros HL Hseq HL2 Hseq2. split.
  - destruct (SortedSubstitution.inserts_spec l set HL Hseq)
      as (set2 & Hrun & Hc2 & Hq2 & Hs2 & Hm2).
    destruct (SortedLaws.insertAll_spec zero set l HL Hseq)
      as (set1 & Hall & Hc1 & Hq1 & Hs1 & _ & Hm1).
    exists set1, set2. split; [done|]. split; [done|].
    destruct (SortedSubstitution.same_members set1 set2) as [Hcon Hlen]; try done.
    + unfold SetSpec.lawful. by rewrite Hc1, Hq1.
    + congruence.
    + congruence.
    + intros y. by rewrite Hm1, Hm2.
  - destruct (FuncSortedSubstitution.func_inserts_spec l s HL2 Hseq2)
      as (s2 & Hrun & Hc2 & Hq2 & Hs2 & Hm2).
    destruct (FuncSortedLaws.func_insertAll_spec zero s l HL2 Hseq2)
      as (s1 & Hall & Hc1 & Hq1 & Hs1 & _ & Hm1).
    exists s1, s2. split; [done|]. split; [done|].
    destruct (FuncSortedSubstitution.func_same_members s1 s2) as [Hcon Hlen]; try done.
    + unfold FuncSetSpec.lawful. by rewrite Hc1, Hq1.
    + congruence.
    + congruence.
    + intros y. by rewrite Hm1, Hm2.
Qed.

Lemma insert_all_as_inserts_witness :
  let set := sets.MkSorted tagged_A by_key same_key in
  let s := sets2.MkFuncSorted tagged_A by_key same_key in
  SetSpec.lawful set ∧ SetSpec.sorted_sequence set
  ∧ FuncSetSpec.lawful s ∧ FuncSetSpec.sorted_sequence s
  ∧ ∃ set1 set2, sets.InsertAll (0, 0) set tagged_B = Ok set1
      ∧ for_range tagged_B sets.Insert set = Ok set2
      ∧ (∀ y, sets.Contains set1 y = sets.Contains set2 y)
      ∧ sets.Len set1 = sets.Len set2
      ∧ (∀ y, SetSpec.member set1 y ↔ SetSpec.member set y ∨ has (sets.eq set) tagged_B y).
Proof.
  intros set s.
  assert (sorted_seq by_key same_key tagged_A) as Hs by sorted_by_computation.
  split; [apply by_key_laws|]. split; [exact Hs|].
  split; [apply by_key_laws|]. split; [exact Hs|].
  exact (proj1 (insert_all_as_inserts (0, 0) set s tagged_B by_key_laws Hs by_key_laws Hs)).
Defined.

(** X11.  [RemoveAll] leaves the set with the membership that removing
    the elements one at a time with [Remove] leaves: the same answers of
    [Contains] and the same length, namely the identities the set held
    that are not among those of the elements given.  [RemoveSet] of
    another set is [RemoveAll] of its elements.  In both packages. *)
Theorem remove_all_as_removes {E : Type} (zero : E) (set : sets.sorted E)
    (s : sets2.funcSorted E) (l : list E) :
  SetSpec.lawful set → SetSpec.sorted_sequence set →
  FuncSetSpec.lawful s → FuncSetSpec.sorted_sequence s →
  (∃ set1 set2, sets.RemoveAll zero set l = Ok set1
     ∧ for_range l (sets.Remove zero) set = Ok set2
     ∧ (∀ y, sets.Contains set1 y = sets.Contains set2 y)
     ∧ sets.Len set1 = sets.Len set2
     ∧ (∀ y, SetSpec.member set1 y ↔ SetSpec.member set y ∧ ¬ has (sets.eq set) l y))
  ∧ (∃ s1 s2, sets2.RemoveAll zero s l = Ok s1
       ∧ for_range l (sets2.Remove zero) s = Ok s2
       ∧ (∀ y, sets2.Contains s1 y = sets2.Contains s2 y)
       ∧ sets2.Len s1 = sets2.Len s2
       ∧ (∀ y, FuncSetSpec.member s1 y ↔ FuncSetSpec.member s y ∧ ¬ has (sets2.eq s) l y))
  ∧ (∀ other, sets.RemoveSet zero set other
              = sets.RemoveAll zero set (sets.set_Elems other))
  ∧ (∀ other, sets2.kind other ≠ sets2.IsReceiver →
       sets2.RemoveSet zero s other = sets2.RemoveAll zero s (sets2.view_Elems other)).
Proof.
  intros HL Hseq HL2 Hseq2. split_and!.
  - destruct (SortedAlgebra.removes_spec zero l set HL Hseq)
      as (set2 & Hrun & Hc2 & Hq2 & Hs2 & Hm2).
    destruct (SortedLaws.removeAll_spec zero set l HL Hseq)
      as (set1 & Hall & Hc1 & Hq1 & Hs1 & _ & Hm1).
    exists set1, set2. split; [done|]. split; [done|].
    destruct (SortedSubstitution.same_members set1 set2) as [Hcon Hlen]; try done.
    + unfold SetSpec.lawful. by rewrite Hc1, Hq1.
    + congruence.
    + congruence.
    + intros y. by rewrite Hm1, Hm2.
  - destruct (FuncSortedAlgebra.func_removes_spec zero l s HL2 Hseq2)
      as (s2 & Hrun & Hc2 & Hq2 & Hs2 & Hm2).
    destruct (FuncSortedLaws.func_removeAll_spec zero s l HL2 Hseq2)
      as (s1 & Hall & Hc1 & Hq1 & Hs1 & _ & Hm1).
    exists s1, s2. split; [done|]. split; [done|].
    destruct (FuncSortedSubstitution.func_same_members s1 s2) as [Hcon Hlen]; try done.
    + unfold FuncSetSpec.lawful. by rewrite Hc1, Hq1.
    + congruence.
    + congruence.
    + intros y. by rewrite Hm1, Hm2.
  - done.
  - intros other Hk. unfold sets2.RemoveSet, sets2.removeSet.
    by destruct (sets2.kind other).
Qed.

Lemma remove_all_as_removes_witness :
  let set := sets.MkSorted tagged_A by_key same_key in
  let s := sets2.MkFuncSorted tagged_A by_key same_key in
  SetSpec.lawful set ∧ SetSpec.sorted_sequence set
  ∧ FuncSetSpec.lawful s ∧ FuncSetSpec.sorted_sequence s
  ∧ ∃ set1 set2, sets.RemoveAll (0, 0) set tagged_B = Ok set1
      ∧ for_range tagged_B (sets.Remove (0, 0)) set = Ok set2
      ∧ (∀ y, sets.Contains set1 y = sets.Contains set2 y)
      ∧ sets.Len set1 = sets.Len set2
      ∧ (∀ y, SetSpec.member set1 y ↔ SetSpec.member set y ∧ ¬ has (sets.eq set) tagged_B y).
Proof.
  intros set s.
  assert (sorted_seq by_key same_key tagged_A) as Hs by sorted_by_computation.
  split; [apply by_key_laws|]. split; [exact Hs|].
  split; [apply by_key_laws|]. split; [exact Hs|].
  exact (proj1 (remove_all_as_removes (0, 0) set s tagged_B by_key_laws Hs by_key_laws Hs)).
Defined.

(** X12.  [ContainsAll] answers yes exactly when the set holds the
    identity of every element given; for no elements it answers yes.  In
    both packages. *)
Theorem contains_all_iff {E : Type} (set : sets.sorted E)
    (s : sets2.funcSorted E) (l : list E) :
  SetSpec.lawful set → SetSpec.sorted_sequence set →
  FuncSetSpec.lawful s → FuncSetSpec.sorted_sequence s →
  (∃ b, sets.ContainsAll set l = Ok b
     ∧ (b = true ↔ ∀ e, e ∈ l → SetSpec.member set e))
  ∧ (∃ b, sets2.ContainsAll s l = Ok b
       ∧ (b = true ↔ ∀ e, e ∈ l → FuncSetSpec.member s e))
  ∧ sets.ContainsAll set [] = Ok true
  ∧ sets2.ContainsAll s [] = Ok true.
Proof.
  intros HL Hseq HL2 Hseq2. split_and!.
  - by apply SortedAlgebra.ContainsAll_spec.
  - by apply FuncSortedAlgebra.func_ContainsAll_spec.
  - done.
  - done.
Qed.

Lemma contains_all_iff_witness :
  let set := sets.MkSorted tagged_A by_key same_key in
  let s := sets2.MkFuncSorted tagged_A by_key same_key in
  SetSpec.lawful set ∧ SetSpec.sorted_sequence set
  ∧ FuncSetSpec.lawful s ∧ FuncSetSpec.sorted_sequence s
  ∧ ∃ b, sets.ContainsAll set tagged_B = Ok b
      ∧ (b = true ↔ ∀ e, e ∈ tagged_B → SetSpec.member set e).
Proof.
  intros set s.
  assert (sorted_seq by_key same_key tagged_A) as Hs by sorted_by_computation.
  split; [apply by_key_laws|]. split; [exact Hs|].
  split; [apply by_key_laws|]. split; [exact Hs|].
  exact (proj1 (contains_all_iff set s tagged_B by_key_laws Hs by_key_laws Hs)).
Defined.

(** X13.  [ContainsSet] answers yes exactly when the set holds the
    identity of every element the other set ranges over.  In the second
    package it first compares the lengths and answers no when the other
    set is the longer; for another set whose elements have distinct
    identities that is the same answer.  Handed the receiver itself, it
    answers yes. *)
Theorem contains_set_iff {E : Type} (set : sets.sorted E) (other : sets.Set_ E)
    (s : sets2.funcSorted E) (view : sets2.View_ E) :
  SetSpec.lawful set → SetSpec.sorted_sequence set →
  FuncSetSpec.lawful s → FuncSetSpec.sorted_sequence s →
  Operand2.proper (sets2.eq s) view →
  (∃ b, sets.ContainsSet set other = Ok b
     ∧ (b = true ↔ ∀ e, e ∈ sets.set_Range other → SetSpec.member set e))
  ∧ (∃ b, sets2.ContainsSet s view = Ok b
       ∧ (b = true ↔ ∀ e, e ∈ sets2.view_Range view → FuncSetSpec.member s e))
  ∧ (∀ v, len (sets2.view_Elems v) > sets2.Len s → sets2.ContainsSet s v = Ok false)
  ∧ (∀ o, Operand.itself set o → sets.ContainsSet set o = Ok true)
  ∧ (∀ v, Operand2.itself s v → sets2.ContainsSet s v = Ok true).
Proof.
  intros HL Hseq HL2 Hseq2 Hp. split_and!.
  - by apply SortedAlgebra.ContainsSet_spec.
  - by apply FuncSortedAlgebra.func_ContainsSet_spec.
  - intros v Hv. by apply FuncSortedAlgebra.func_ContainsSet_longer.
  - intros o Ho. by apply SelfOperand.ContainsSet_itself.
  - intros v Hv. by apply FuncSortedAlgebra.func_ContainsSet_itself.
Qed.

Lemma contains_set_iff_witness :
  let set := sets.MkSorted tagged_A by_key same_key in
  let s := sets2.MkFuncSorted tagged_A by_key same_key in
  let other := Operand.of_list same_key tagged_B in
  let view := Operand2.of_list sets2.IsTable same_key tagged_B in
  SetSpec.lawful set ∧ SetSpec.sorted_sequence set
  ∧ FuncSetSpec.lawful s ∧ FuncSetSpec.sorted_sequence s
  ∧ Operand2.proper (sets2.eq s) view
  ∧ ∃ b, sets.ContainsSet set other = Ok b
      ∧ (b = true ↔ ∀ e, e ∈ sets.set_Range other → SetSpec.member set e).
Proof.
  intros set s other view.
  assert (sorted_seq by_key same_key tagged_A) as Hs by sorted_by_computation.
  assert (sorted_seq by_key same_key tagged_B) as [_ Hd] by sorted_by_computation.
  assert (Operand2.proper (sets2.eq s) view) as Hp
    by (apply Operand2Facts.of_list_proper; done).
  split; [apply by_key_laws|]. split; [exact Hs|].
  split; [apply by_key_laws|]. split; [exact Hs|]. split; [exact Hp|].
  exact (proj1 (contains_set_iff set other s view by_key_laws Hs by_key_laws Hs Hp)).
Defined.

(** X14.  The set algebra of a comparator set against another set that
    answers by the same identity: the intersection holds the identities
    both hold, the union those either holds, the difference those the
    receiver holds and the other does not, the symmetric difference those
    exactly one of them holds.  Each result is sorted without two
    elements of equal identity.  In both packages. *)
Theorem set_algebra_membership {E : Type} (zero : E) (set : sets.sorted E)
    (other : sets.Set_ E) (s : sets2.funcSorted E) (view : sets2.View_ E) :
  SetSpec.lawful set → SetSpec.sorted_sequence set →
  Operand.coherent (sets.eq set) other →
  FuncSetSpec.lawful s → FuncSetSpec.sorted_sequence s →
  Operand2.coherent (sets2.eq s) view →
  sets2.kind view ≠ sets2.IsReceiver →
  let A := SetSpec.member set in
  let B := Operand.holds (sets.eq set) other in
  let A2 := FuncSetSpec.member s in
  let B2 := Operand2.holds (sets2.eq s) view in
  (∃ r, sets.Intersection set other = Ok r ∧ SetSpec.sorted_sequence r
     ∧ ∀ y, SetSpec.member r y ↔ A y ∧ B y)
  ∧ (∃ r, sets.Union zero set other = Ok r ∧ SetSpec.sorted_sequence r
       ∧ ∀ y, SetSpec.member r y ↔ A y ∨ B y)
  ∧ (∃ r, sets.Difference set other = Ok r ∧ SetSpec.sorted_sequence r
       ∧ ∀ y, SetSpec.member r y ↔ A y ∧ ¬ B y)
  ∧ (∃ r, sets.SymmetricDifference zero set other = Ok r ∧ SetSpec.sorted_sequence r
       ∧ ∀ y, SetSpec.member r y ↔ (A y ∧ ¬ B y) ∨ (B y ∧ ¬ A y))
  ∧ (FuncSetSpec.sorted_sequence (sets2.intersection s view)
     ∧ ∀ y, FuncSetSpec.member (sets2.intersection s view) y ↔ A2 y ∧ B2 y)
  ∧ (∃ r, sets2.union zero s view = Ok r ∧ FuncSetSpec.sorted_sequence r
       ∧ ∀ y, FuncSetSpec.member r y ↔ A2 y ∨ B2 y)
  ∧ (FuncSetSpec.sorted_sequence (sets2.difference s view)
     ∧ ∀ y, FuncSetSpec.member (sets2.difference s view) y ↔ A2 y ∧ ¬ B2 y)
  ∧ (∃ r, sets2.symmetricDifference zero s view = Ok r ∧ FuncSetSpec.sorted_sequence r
       ∧ ∀ y, FuncSetSpec.member r y ↔ (A2 y ∧ ¬ B2 y) ∨ (B2 y ∧ ¬ A2 y)).
Proof.
  intros HL Hseq Hco HL2 Hseq2 Hco2 Hk A B A2 B2.
  destruct (SortedAlgebra.Intersection_spec set other HL Hseq Hco)
    as (r1 & Hr1 & _ & _ & Hs1 & Hm1).
  destruct (SortedAlgebra.Union_spec zero set other HL Hseq Hco)
    as (r2 & Hr2 & _ & _ & Hs2 & Hm2).
  destruct (SortedAlgebra.Difference_spec set other HL Hseq Hco)
    as (r3 & Hr3 & _ & _ & Hs3 & Hm3).
  destruct (SortedAlgebra.SymmetricDifference_spec zero set other HL Hseq Hco)
    as (r4 & Hr4 & _ & _ & Hs4 & Hm4).
  pose proof (FuncSortedAlgebra.func_Intersection_spec s view HL2 Hseq2 Hco2) as H5.
  cbn zeta in H5. destruct H5 as (_ & _ & Hs5 & Hm5).
  destruct (FuncSortedAlgebra.func_Union_spec zero s view HL2 Hseq2 Hco2
              (or_introl Hk)) as (r6 & Hr6 & _ & _ & Hs6 & Hm6).
  pose proof (FuncSortedAlgebra.func_Difference_spec s view HL2 Hseq2 Hco2) as H7.
  cbn zeta in H7. destruct H7 as (_ & _ & Hs7 & Hm7).
  destruct (FuncSortedAlgebra.func_SymmetricDifference_spec zero s view HL2 Hseq2 Hco2)
    as (r8 & Hr8 & _ & _ & Hs8 & Hm8).
  split; [by exists r1|]. split; [by exists r2|]. split; [by exists r3|].
  split; [by exists r4|]. split; [done|]. split; [by exists r6|].
  split; [done|]. by exists r8.
Qed.

Lemma set_algebra_membership_witness :
  let set := sets.MkSorted tagged_A by_key same_key in
  let s := sets2.MkFuncSorted tagged_A by_key same_key in
  let other := Operand.of_list same_key tagged_B in
  let view := Operand2.of_list sets2.IsTable same_key tagged_B in
  SetSpec.lawful set ∧ SetSpec.sorted_sequence set
  ∧ Operand.coherent (sets.eq set) other
  ∧ FuncSetSpec.lawful s ∧ FuncSetSpec.sorted_sequence s
  ∧ Operand2.coherent (sets2.eq s) view
  ∧ sets2.kind view ≠ sets2.IsReceiver
  ∧ ∃ r, sets.Intersection set other = Ok r ∧ SetSpec.sorted_sequence r
      ∧ ∀ y, SetSpec.member r y
             ↔ SetSpec.member set y ∧ Operand.holds (sets.eq set) other y.
Proof.
  intros set s other view.
  assert (sorted_seq by_key same_key tagged_A) as Hs by sorted_by_computation.
  pose proof (OperandFacts.of_list_coherent same_key tagged_B) as Hco.
  pose proof (Operand2Facts.func_of_list_coherent sets2.IsTable same_key tagged_B) as Hco2.
  assert (sets2.kind view ≠ sets2.IsReceiver) as Hk by done.
  split; [apply by_key_laws|]. split; [exact Hs|]. split; [exact Hco|].
  split; [apply by_key_laws|]. split; [exact Hs|]. split; [exact Hco2|].
  split; [exact Hk|].
  exact (proj1 (set_algebra_membership (0, 0) set other s view
                  by_key_laws Hs Hco by_key_laws Hs Hco2 Hk)).
Defined.

(** X15.  Whatever the other set answers, [Intersection] and
    [Difference] split the elements of the receiver between them: every
    element of the receiver is in exactly one of the two results, and
    their lengths add up to the length of the receiver.  In both
    packages. *)
Theorem intersection_difference_partition {E : Type} (set : sets.sorted E)
    (other : sets.Set_ E) (s : sets2.funcSorted E) (view : sets2.View_ E) :
  (∃ i d, sets.Intersection set other = Ok i ∧ sets.Difference set other = Ok d
     ∧ sets.Len i + sets.Len d = sets.Len set
     ∧ (∀ x, x ∈ sets.Elems set ↔ x ∈ sets.Elems i ∨ x ∈ sets.Elems d)
     ∧ (∀ x, x ∈ sets.Elems i → x ∉ sets.Elems d))
  ∧ (let i := sets2.intersection s view in
     let d := sets2.difference s view in
     sets2.Len i + sets2.Len d = sets2.Len s
     ∧ (∀ x, x ∈ sets2.Elems s ↔ x ∈ sets2.Elems i ∨ x ∈ sets2.Elems d)
     ∧ (∀ x, x ∈ sets2.Elems i → x ∉ sets2.Elems d)).
Proof.
  split.
  - apply SortedAlgebra.Intersection_Difference_Len.
  - apply FuncSortedAlgebra.func_Intersection_Difference_Len.
Qed.

(** X16.  [Range] calls the function with the elements in the order of
    the list and stops after the first element for which it returns
    false: either every element is visited and the function returned true
    for all of them, or the visit ends with the first element for which
    it returned false.  For the comparator sets and the natural-order
    sets of both packages. *)
Theorem range_stops_at_first_refusal {E : Type} (set : sets.sorted E)
    (s : sets2.funcSorted E) (fn : E → bool)
    (oset : ordered.ordered) (os : ordered2.ordered) (fz : Z → bool) :
  ((sets.Range set fn = sets.Elems set ∧ ∀ x, x ∈ sets.Elems set → fn x = true)
   ∨ ∃ p x r, sets.Elems set = p ++ x :: r ∧ sets.Range set fn = p ++ [x]
       ∧ (∀ y, y ∈ p → fn y = true) ∧ fn x = false)
  ∧ ((sets2.Range s fn = sets2.Elems s ∧ ∀ x, x ∈ sets2.Elems s → fn x = true)
     ∨ ∃ p x r, sets2.Elems s = p ++ x :: r ∧ sets2.Range s fn = p ++ [x]
         ∧ (∀ y, y ∈ p → fn y = true) ∧ fn x = false)
  ∧ ((ordered.Range oset fz = ordered.Elems oset
      ∧ ∀ x, x ∈ ordered.Elems oset → fz x = true)
     ∨ ∃ p x r, ordered.Elems oset = p ++ x :: r ∧ ordered.Range oset fz = p ++ [x]
         ∧ (∀ y, y ∈ p → fz y = true) ∧ fz x = false)
  ∧ ((ordered2.Range os fz = ordered2.Elems os
      ∧ ∀ x, x ∈ ordered2.Elems os → fz x = true)
     ∨ ∃ p x r, ordered2.Elems os = p ++ x :: r ∧ ordered2.Range os fz = p ++ [x]
         ∧ (∀ y, y ∈ p → fz y = true) ∧ fz x = false).
Proof.
  split_and!.
  - apply SortedAlgebra.Range_visits_stop.
  - apply (SortedAlgebra.Range_visits_stop (sets2.list_ s) fn).
  - apply (SortedAlgebra.Range_visits_stop (ordered.elems oset) fz).
  - apply (SortedAlgebra.Range_visits_stop (ordered2.list_ os) fz).
Qed.

(** X17.  A comparator set handed to itself: [InsertSet] leaves it as it
    is, [RemoveSet] empties it, the intersection is the set and the
    difference and the symmetric difference are empty, and the union has
    the membership and the length of the set.  In both packages. *)
Theorem self_operand {E : Type} (zero : E) (set : sets.sorted E)
    (other : sets.Set_ E) (s : sets2.funcSorted E) (view : sets2.View_ E) :
  SetSpec.lawful set → SetSpec.sorted_sequence set →
  Operand.itself set other → Operand.coherent (sets.eq set) other →
  FuncSetSpec.lawful s → FuncSetSpec.sorted_sequence s →
  Operand2.itself s view → Operand2.coherent (sets2.eq s) view →
  (sets.InsertSet zero set other = Ok set
   ∧ (∃ r, sets.RemoveSet zero set other = Ok r ∧ sets.Elems r = [])
   ∧ (∃ r, sets.Intersection set other = Ok r ∧ sets.Elems r = sets.Elems set)
   ∧ (∃ r, sets.Difference set other = Ok r ∧ sets.Elems r = [])
   ∧ (∃ r, sets.SymmetricDifference zero set other = Ok r ∧ sets.Elems r = [])
   ∧ (∃ r, sets.Union zero set other = Ok r
        ∧ (∀ y, sets.Contains r y = sets.Contains set y)
        ∧ sets.Len r = sets.Len set))
  ∧ (sets2.InsertSet zero s view = Ok s
     ∧ (∃ r, sets2.RemoveSet zero s view = Ok r ∧ sets2.Elems r = [])
     ∧ sets2.Elems (sets2.intersection s view) = sets2.Elems s
     ∧ sets2.Elems (sets2.difference s view) = []
     ∧ (∃ r, sets2.symmetricDifference zero s view = Ok r ∧ sets2.Elems r = [])
     ∧ (∃ r, sets2.union zero s view = Ok r
          ∧ (∀ y, sets2.Contains r y = sets2.Contains s y)
          ∧ sets2.Len r = sets2.Len s)).
Proof.
  intros HL Hseq Hit Hco HL2 Hseq2 Hit2 Hco2.
  split; (split; [|split; [|split; [|split; [|split]]]]).
  - unfold sets.InsertSet. by rewrite (proj1 Hit).
  - rewrite (SelfOperand.RemoveSet_itself zero set other HL Hseq Hit). by eexists.
  - rewrite (SelfOperand.Intersection_itself set other HL Hit Hco). by eexists.
  - rewrite (SelfOperand.Difference_itself set other HL Hit Hco). by eexists.
  - rewrite (SelfOperand.SymmetricDifference_itself zero set other HL Hseq Hit Hco).
    by eexists.
  - by apply SelfOperand.Union_itself.
  - unfold sets2.InsertSet, sets2.insertSet. by rewrite (proj1 Hit2).
  - unfold sets2.RemoveSet.
    rewrite (FuncSelfOperand.removeSet_itself zero s view Hit2). by eexists.
  - by rewrite (FuncSelfOperand.intersection_itself s view HL2 Hit2 Hco2).
  - by rewrite (FuncSelfOperand.difference_itself s view HL2 Hit2 Hco2).
  - rewrite (FuncSelfOperand.symmetricDifference_itself zero s view HL2 Hseq2 Hit2 Hco2).
    by eexists.
  - by apply FuncSelfOperand.union_itself.
Qed.

Lemma self_operand_witness :
  let set := sets.MkSorted tagged_A by_key same_key in
  let s := sets2.MkFuncSorted tagged_A by_key same_key in
  let other := sets.MkSet true (λ e, ContainsFunc tagged_A (λ x, same_key x e))
                 tagged_A tagged_A in
  let view := Operand2.of_list sets2.IsReceiver same_key tagged_A in
  SetSpec.lawful set ∧ SetSpec.sorted_sequence set
  ∧ Operand.itself set other ∧ Operand.coherent (sets.eq set) other
  ∧ FuncSetSpec.lawful s ∧ FuncSetSpec.sorted_sequence s
  ∧ Operand2.itself s view ∧ Operand2.coherent (sets2.eq s) view
  ∧ sets.InsertSet (0, 0) set other = Ok set.
Proof.
  intros set s other view.
  assert (sorted_seq by_key same_key tagged_A) as Hs by sorted_by_computation.
  assert (Operand.itself set other) as Hit by done.
  assert (Operand.coherent (sets.eq set) other) as Hco.
  { split; [|done]. intros e. apply ContainsFunc_true. }
  assert (Operand2.itself s view) as Hit2 by done.
  pose proof (Operand2Facts.func_of_list_coherent sets2.IsReceiver same_key tagged_A) as Hco2.
  split; [apply by_key_laws|]. split; [exact Hs|].
  split; [exact Hit|]. split; [exact Hco|].
  split; [apply by_key_laws|]. split; [exact Hs|].
  split; [exact Hit2|]. split; [exact Hco2|].
  exact (proj1 (proj1 (self_operand (0, 0) set other s view
                         by_key_laws Hs Hit Hco by_key_laws Hs Hit2 Hco2))).
Defined.

End ComparatorSetProperties.

Import Go slicesx GoFacts.
Import Spec Spec2 Spec3 Spec4 Spec5 Spec6.
Import SearchFacts OrderFacts LoopFacts ShiftFacts SeqSpec SeqFacts BatchFacts.
Import Natural NaturalOrder NaturalSpec NaturalLaws NaturalSorted NaturalMerge NaturalMergeLoop NaturalDelete NaturalDeleteLoop.
Import Heap HeapFacts.

(** * Clones *)
Module OwnershipProperties.

(** X18.  [Clone] returns a set with the elements and the functions of
    the receiver in a backing array of its own: whatever sequence of
    mutating methods is then run on the clone, the receiver reads as
    before, and whatever sequence is run on the receiver, the clone reads
    as the receiver did when it was cloned.  For the four sorted sets. *)
Theorem clone_independent {E : Type} (zero : E) (h : list (list E))
    (set : SortedHeap.sorted E) (s : FuncSortedHeap.funcSorted E)
    (hz : list (list Z)) (oset : OrderedHeap.ordered) (os : Ordered2Heap.ordered) :
  valid h (SortedHeap.elems set) → valid h (FuncSortedHeap.list_ s) →
  valid hz (OrderedHeap.elems oset) → valid hz (Ordered2Heap.list_ os) →
  (let '(h1, c) := CloneHeap.Clone h set in
   SortedHeap.read h1 c = SortedHeap.read h set
   ∧ (∀ ms h2 c2, SortedHeap.mutate_all zero (h1, c) ms = Ok (h2, c2) →
        SortedHeap.read h2 set = SortedHeap.read h set)
   ∧ (∀ ms h2 set2, SortedHeap.mutate_all zero (h1, set) ms = Ok (h2, set2) →
        SortedHeap.read h2 c = SortedHeap.read h set))
  ∧ (let '(h1, c) := CloneHeap.clone h s in
     FuncSortedHeap.read h1 c = FuncSortedHeap.read h s
     ∧ (∀ ms h2 c2, FuncSortedHeap.mutate_all zero (h1, c) ms = Ok (h2, c2) →
          FuncSortedHeap.read h2 s = FuncSortedHeap.read h s)
     ∧ (∀ ms h2 s2, FuncSortedHeap.mutate_all zero (h1, s) ms = Ok (h2, s2) →
          FuncSortedHeap.read h2 c = FuncSortedHeap.read h s))
  ∧ (let '(h1, c) := CloneHeap.ordered_Clone hz oset in
     OrderedHeap.read h1 c = OrderedHeap.read hz oset
     ∧ (∀ ms h2 c2, OrderedHeap.mutate_all (h1, c) ms = Ok (h2, c2) →
          OrderedHeap.read h2 oset = OrderedHeap.read hz oset)
     ∧ (∀ ms h2 set2, OrderedHeap.mutate_all (h1, oset) ms = Ok (h2, set2) →
          OrderedHeap.read h2 c = OrderedHeap.read hz oset))
  ∧ (let '(h1, c) := CloneHeap.ordered_clone hz os in
     Ordered2Heap.read h1 c = Ordered2Heap.read hz os
     ∧ (∀ ms h2 c2, Ordered2Heap.mutate_all (h1, c) ms = Ok (h2, c2) →
          Ordered2Heap.read h2 os = Ordered2Heap.read hz os)
     ∧ (∀ ms h2 s2, Ordered2Heap.mutate_all (h1, os) ms = Ok (h2, s2) →
          Ordered2Heap.read h2 c = Ordered2Heap.read hz os)).
Proof.
  intros Hv Hv2 Hv3 Hv4. split_and!.
  - pose proof (CloneFacts.Clone_apart h set Hv) as Hc.
    destruct (CloneHeap.Clone h set) as [h1 c].
    destruct Hc as (Hread & Hkeep & Hap & Hap'). split; [done|]. split.
    + intros ms h2 c2 Hm. rewrite <-Hkeep. unfold SortedHeap.read. f_equal.
      by apply (SortedOwnership.mutate_all_apart zero ms h1 c _ h2 c2).
    + intros ms h2 set2 Hm. rewrite <-Hread. unfold SortedHeap.read. f_equal.
      by apply (SortedOwnership.mutate_all_apart zero ms h1 set _ h2 set2).
  - pose proof (CloneFacts.clone_apart h s Hv2) as Hc.
    destruct (CloneHeap.clone h s) as [h1 c].
    destruct Hc as (Hread & Hkeep & Hap & Hap'). split; [done|]. split.
    + intros ms h2 c2 Hm. rewrite <-Hkeep. unfold FuncSortedHeap.read. f_equal.
      by apply (FuncSortedOwnership.func_mutate_all_apart zero ms h1 c _ h2 c2).
    + intros ms h2 s2 Hm. rewrite <-Hread. unfold FuncSortedHeap.read. f_equal.
      by apply (FuncSortedOwnership.func_mutate_all_apart zero ms h1 s _ h2 s2).
  - pose proof (CloneFacts.ordered_Clone_apart hz oset Hv3) as Hc.
    destruct (CloneHeap.ordered_Clone hz oset) as [h1 c].
    destruct Hc as (Hread & Hkeep & Hap & Hap'). split; [done|]. split.
    + intros ms h2 c2 Hm. rewrite <-Hkeep. unfold OrderedHeap.read. f_equal.
      by apply (OrderedOwnership.ordered_mutate_all_apart ms h1 c _ h2 c2).
    + intros ms h2 set2 Hm. rewrite <-Hread. unfold OrderedHeap.read. f_equal.
      by apply (OrderedOwnership.ordered_mutate_all_apart ms h1 oset _ h2 set2).
  - pose proof (CloneFacts.ordered_clone_apart hz os Hv4) as Hc.
    destruct (CloneHeap.ordered_clone hz os) as [h1 c].
    destruct Hc as (Hread & Hkeep & Hap & Hap'). split; [done|]. split.
    + intros ms h2 c2 Hm. rewrite <-Hkeep. unfold Ordered2Heap.read. f_equal.
      by apply (Ordered2Ownership.ordered2_mutate_all_apart ms h1 c _ h2 c2).
    + intros ms h2 s2 Hm. rewrite <-Hread. unfold Ordered2Heap.read. f_equal.
      by apply (Ordered2Ownership.ordered2_mutate_all_apart ms h1 os _ h2 s2).
Qed.

Lemma clone_independent_witness :
  let h := [[1; 2; 3; 0]] in
  let set := SortedHeap.MkSorted (Slice 0 3) Compare same in
  let s := FuncSortedHeap.MkFuncSorted (Slice 0 3) Compare same in
  let oset := OrderedHeap.MkOrdered (Slice 0 3) in
  let os := Ordered2Heap.MkOrdered (Slice 0 3) in
  valid h (SortedHeap.elems set) ∧ valid h (FuncSortedHeap.list_ s)
  ∧ valid h (OrderedHeap.elems oset) ∧ valid h (Ordered2Heap.list_ os)
  ∧ (let '(h1, c) := CloneHeap.Clone h set in
     SortedHeap.read h1 c = SortedHeap.read h set
     ∧ (∀ ms h2 c2, SortedHeap.mutate_all 0 (h1, c) ms = Ok (h2, c2) →
          SortedHeap.read h2 set = SortedHeap.read h set)
     ∧ (∀ ms h2 set2, SortedHeap.mutate_all 0 (h1, set) ms = Ok (h2, set2) →
          SortedHeap.read h2 c = SortedHeap.read h set)).
Proof.
  intros h set s oset os.
  assert (valid h (Slice 0 3)) as Hv.
  { split; [simpl; lia|]. by vm_compute. }
  split; [exact Hv|]. split; [exact Hv|]. split; [exact Hv|]. split; [exact Hv|].
  exact (proj1 (clone_independent 0 h set s h oset os Hv Hv Hv Hv)).
Defined.

End OwnershipProperties.

Import Go slicesx GoFacts.
Import Spec Spec2 Spec3 Spec4 Spec5 Spec6.
Import SearchFacts OrderFacts LoopFacts ShiftFacts SeqSpec SeqFacts BatchFacts.
Import Natural NaturalOrder NaturalSpec NaturalLaws NaturalSorted NaturalMerge NaturalMergeLoop NaturalDelete NaturalDeleteLoop.
Import NaturalExtensionality NaturalQuestions.

(** * The natural-order sets *)
Module NaturalSetProperties.

(** X19.  [NewSorted] sorts the given elements and drops the repeated
    ones: the stable sort with deduplication that it runs with
    [cmp.Compare] and [==] returns the strictly ascending list of the
    given elements, which is also the list of [order] in the second
    package and of the comparator set built with the same two functions;
    it is at most as long as the list given, a strictly ascending list
    comes back as it is, and no elements give the empty set. *)
Theorem natural_constructor (l : list Z) :
  sets.stableSortUniqCmpEq 0 l Compare same
  = Ok (ordered.elems (ordered.NewSorted l))
  ∧ ordered2.list_ (ordered2.NewSorted l) = ordered.elems (ordered.NewSorted l)
  ∧ sets.NewSortedCmpEqFunc 0 Compare same l
    = Ok (sets.MkSorted (ordered.elems (ordered.NewSorted l)) Compare same)
  ∧ strictly_sorted (ordered.elems (ordered.NewSorted l))
  ∧ (∀ x, x ∈ ordered.elems (ordered.NewSorted l) ↔ x ∈ l)
  ∧ ordered.Len (ordered.NewSorted l) ≤ len l
  ∧ (strictly_sorted l → ordered.NewSorted l = ordered.MkOrdered l)
  ∧ ordered.NewSorted [] = ordered.MkOrdered [].
Proof.
  destruct (sort_compact l) as [Hs Hm].
  pose proof (NaturalAgreement.StableSortUniqFuncs_natural l) as Hrun.
  split_and!.
  - done.
  - done.
  - unfold sets.NewSortedCmpEqFunc, sets.stableSortUniqCmpEq. by rewrite Hrun.
  - done.
  - done.
  - unfold ordered.Len, ordered.NewSorted, ordered.uniq, ordered.stableSort, len. simpl.
    apply inj_le. apply NoDup_within_length; [by apply strictly_sorted_NoDup|].
    intros x. apply Hm.
  - intros Hl. unfold ordered.NewSorted, ordered.uniq, ordered.stableSort. f_equal.
    apply strictly_sorted_ext; [done | done | done].
  - done.
Qed.

(** X20.  On a natural-order set, [Contains] answers whether the element
    is in the list, [ContainsAll] whether all the given elements are, and
    [ContainsSet] whether all the elements of the other set are: against
    another natural-order set by walking both lists in step, otherwise
    element by element.  The second package first answers no when the
    other set is the longer one. *)
Theorem natural_contains (set : ordered.ordered) (other : ordered.Set_)
    (s : ordered2.ordered) (view : sets2.View_ Z) (l : list Z) (e : Z) :
  strictly_sorted (ordered.elems set) → NaturalOperand.coherent other →
  strictly_sorted (ordered2.list_ s) → NaturalOperand2.coherent view →
  (sets2.kind view = sets2.IsReceiver → sets2.view_Elems view = ordered2.list_ s) →
  (∃ b, ordered.Contains set e = Ok b ∧ (b = true ↔ e ∈ ordered.elems set))
  ∧ (∃ b, ordered.ContainsAll set l = Ok b
       ∧ (b = true ↔ ∀ x, x ∈ l → x ∈ ordered.elems set))
  ∧ (∃ b, ordered.ContainsSet set other = Ok b
       ∧ (b = true ↔ ∀ x, x ∈ NaturalOperand.members set other
                           → x ∈ ordered.elems set))
  ∧ (∃ b, ordered2.Contains s e = Ok b ∧ (b = true ↔ e ∈ ordered2.list_ s))
  ∧ (∃ b, ordered2.ContainsAll s l = Ok b
       ∧ (b = true ↔ ∀ x, x ∈ l → x ∈ ordered2.list_ s))
  ∧ (∃ b, ordered2.ContainsSet s view = Ok b
       ∧ (b = true ↔ ∀ x, x ∈ NaturalOperand2.members s view
                           → x ∈ ordered2.list_ s))
  ∧ (∀ v, len (sets2.view_Elems v) > ordered2.Len s
          → ordered2.ContainsSet s v = Ok false).
Proof.
  intros Hs Hco Hs2 Hco2 Hself. split_and!.
  - by apply ordered_Contains_spec.
  - by apply ordered_ContainsAll_spec.
  - by apply ordered_ContainsSet_spec.
  - by apply Ordered2Facts.ordered2_Contains_spec.
  - by apply ordered2_ContainsAll_spec.
  - by apply ordered2_ContainsSet_spec.
  - intros v Hv. by apply ordered2_ContainsSet_longer.
Qed.

Lemma natural_contains_witness :
  let set := ordered.MkOrdered [1; 3; 5] in
  let other := ordered.MkSet ordered.IsOrdered (λ e, bool_decide (e ∈ [3; 5]))
                 [3; 5] [3; 5] in
  let s := ordered2.MkOrdered [1; 3; 5] in
  let view := sets2.MkView sets2.IsOrdered (λ e, bool_decide (e ∈ [3; 4]))
                [3; 4] [3; 4] in
  strictly_sorted (ordered.elems set) ∧ NaturalOperand.coherent other
  ∧ strictly_sorted (ordered2.list_ s) ∧ NaturalOperand2.coherent view
  ∧ (sets2.kind view = sets2.IsReceiver → sets2.view_Elems view = ordered2.list_ s)
  ∧ ∃ b, ordered.ContainsSet set other = Ok b
      ∧ (b = true ↔ ∀ x, x ∈ NaturalOperand.members set other
                          → x ∈ ordered.elems set).
Proof.
  intros set other s view.
  assert (strictly_sorted [1; 3; 5]) as Hs by sorted_by_computation.
  assert (NaturalOperand.coherent other) as Hco
    by (unfold NaturalOperand.coherent; simpl; sorted_by_computation).
  assert (NaturalOperand2.coherent view) as Hco2
    by (unfold NaturalOperand2.coherent; simpl; sorted_by_computation).
  assert (sets2.kind view = sets2.IsReceiver
          → sets2.view_Elems view = ordered2.list_ s) as Hself by done.
  split; [exact Hs|]. split; [exact Hco|]. split; [exact Hs|]. split; [exact Hco2|].
  split; [exact Hself|].
  exact (proj1 (proj2 (proj2 (natural_contains set other s view [] 0
                                Hs Hco Hs Hco2 Hself)))).
Defined.

(** X21.  [Insert] on a natural-order set leaves the strictly ascending
    list of the element and the elements held before, longer by one
    exactly when the element was not held; [Remove] leaves the elements
    held before other than the element, shorter by one exactly when it
    was held; and removing an element just inserted into a set that did
    not hold it gives back the list the set had.  In both packages. *)
Theorem natural_insert_remove (set : ordered.ordered) (s : ordered2.ordered) (e : Z) :
  strictly_sorted (ordered.elems set) → strictly_sorted (ordered2.list_ s) →
  (∃ set', ordered.Insert set e = Ok set'
     ∧ strictly_sorted (ordered.elems set')
     ∧ (∀ x, x ∈ ordered.elems set' ↔ x = e ∨ x ∈ ordered.elems set)
     ∧ ordered.Len set'
       = ordered.Len set + (if bool_decide (e ∈ ordered.elems set) then 0 else 1))
  ∧ (∃ set', ordered.Remove set e = Ok set'
       ∧ strictly_sorted (ordered.elems set')
       ∧ (∀ x, x ∈ ordered.elems set' ↔ x ∈ ordered.elems set ∧ x ≠ e)
       ∧ ordered.Len set'
         = ordered.Len set - (if bool_decide (e ∈ ordered.elems set) then 1 else 0))
  ∧ (e ∉ ordered.elems set →
     ∃ set1, ordered.Insert set e = Ok set1
       ∧ ordered.Remove set1 e = Ok (ordered.MkOrdered (ordered.elems set)))
  ∧ (∃ s', ordered2.Insert s e = Ok s'
       ∧ strictly_sorted (ordered2.list_ s')
       ∧ (∀ x, x ∈ ordered2.list_ s' ↔ x = e ∨ x ∈ ordered2.list_ s)
       ∧ ordered2.Len s'
         = ordered2.Len s + (if bool_decide (e ∈ ordered2.list_ s) then 0 else 1))
  ∧ (∃ s', ordered2.Remove s e = Ok s'
       ∧ strictly_sorted (ordered2.list_ s')
       ∧ (∀ x, x ∈ ordered2.list_ s' ↔ x ∈ ordered2.list_ s ∧ x ≠ e)
       ∧ ordered2.Len s'
         = ordered2.Len s - (if bool_decide (e ∈ ordered2.list_ s) then 1 else 0))
  ∧ (e ∉ ordered2.list_ s →
     ∃ s1, ordered2.Insert s e = Ok s1
       ∧ ordered2.Remove s1 e = Ok (ordered2.MkOrdered (ordered2.list_ s))).
Proof.
  intros Hs Hs2. split_and!.
  - by apply OrderedAlgebra.ordered_Insert_spec.
  - by apply OrderedAlgebra.ordered_Remove_spec.
  - intros Hn. by apply OrderedAlgebra.ordered_Insert_Remove.
  - by apply Ordered2Algebra.ordered2_insert_spec.
  - by apply Ordered2Algebra.ordered2_remove_spec.
  - intros Hn. by apply Ordered2Algebra.ordered2_insert_remove.
Qed.

Lemma natural_insert_remove_witness :
  let set := ordered.MkOrdered [1; 3; 5] in
  let s := ordered2.MkOrdered [1; 3; 5] in
  strictly_sorted (ordered.elems set) ∧ strictly_sorted (ordered2.list_ s)
  ∧ ∃ set', ordered.Insert set 4 = Ok set'
      ∧ strictly_sorted (ordered.elems set')
      ∧ (∀ x, x ∈ ordered.elems set' ↔ x = 4 ∨ x ∈ ordered.elems set)
      ∧ ordered.Len set'
        = ordered.Len set + (if bool_decide (4 ∈ ordered.elems set) then 0 else 1).
Proof.
  intros set s.
  assert (strictly_sorted [1; 3; 5]) as Hs by sorted_by_computation.
  split; [exact Hs|]. split; [exact Hs|].
  exact (proj1 (natural_insert_remove set s 4 Hs Hs)).
Defined.

(** X22.  [InsertAll] and [RemoveAll] on a natural-order set leave the
    very set that inserting or removing the elements one at a time
    leaves: the elements held before together with, or without, the
    given ones.  [InsertSet] adds and [RemoveSet] removes the elements of
    the other set, [RemoveSet] as removing them one at a time does.  In
    the second package the list of a comparator set must be in the
    natural order: from [1, 2, 3], [RemoveSet] of the comparator set that
    lists 3, 2, 1 removes 3 only. *)
Theorem natural_bulk (set : ordered.ordered) (other : ordered.Set_)
    (s : ordered2.ordered) (view : sets2.View_ Z) (l : list Z) :
  strictly_sorted (ordered.elems set) → NaturalOperand.coherent other →
  (ordered.kind other = ordered.IsReceiver
   → ordered.set_Elems other = ordered.elems set) →
  strictly_sorted (ordered2.list_ s) → NaturalOperand2.coherent view →
  Ordered2Ops.in_natural_order view →
  (sets2.kind view = sets2.IsReceiver → sets2.view_Elems view = ordered2.list_ s) →
  (∃ r, ordered.InsertAll set l = Ok r ∧ for_range l ordered.Insert set = Ok r
     ∧ ∀ x, x ∈ ordered.elems r ↔ x ∈ ordered.elems set ∨ x ∈ l)
  ∧ (∃ r, ordered.RemoveAll set l = Ok r
       ∧ for_range l ordered.Remove set = Ok r
       ∧ ∀ x, x ∈ ordered.elems r ↔ x ∈ ordered.elems set ∧ x ∉ l)
  ∧ (∃ r, ordered.InsertSet set other = Ok r
       ∧ strictly_sorted (ordered.elems r)
       ∧ ∀ x, x ∈ ordered.elems r
              ↔ x ∈ ordered.elems set ∨ x ∈ NaturalOperand.members set other)
  ∧ (∃ r, ordered.RemoveSet set other = Ok r
       ∧ for_range (ordered.set_Elems other) ordered.Remove set = Ok r
       ∧ ∀ x, x ∈ ordered.elems r
              ↔ x ∈ ordered.elems set ∧ x ∉ NaturalOperand.members set other)
  ∧ (∃ r, ordered2.InsertAll s l = Ok r ∧ for_range l ordered2.Insert s = Ok r
       ∧ ∀ x, x ∈ ordered2.list_ r ↔ x ∈ ordered2.list_ s ∨ x ∈ l)
  ∧ (∃ r, ordered2.RemoveAll s l = Ok r
       ∧ for_range l ordered2.Remove s = Ok r
       ∧ ∀ x, x ∈ ordered2.list_ r ↔ x ∈ ordered2.list_ s ∧ x ∉ l)
  ∧ (∃ r, ordered2.InsertSet s view = Ok r
       ∧ strictly_sorted (ordered2.list_ r)
       ∧ ∀ x, x ∈ ordered2.list_ r
              ↔ x ∈ ordered2.list_ s ∨ x ∈ NaturalOperand2.members s view)
  ∧ (∃ r, ordered2.RemoveSet s view = Ok r
       ∧ for_range (sets2.view_Elems view) ordered2.Remove s = Ok r
       ∧ ∀ x, x ∈ ordered2.list_ r
              ↔ x ∈ ordered2.list_ s ∧ x ∉ NaturalOperand2.members s view)
  ∧ ordered2.RemoveSet (ordered2.MkOrdered [1; 2; 3])
      (sets2.MkView sets2.IsFuncSorted (λ e, bool_decide (e ∈ [3; 2; 1]))
         [3; 2; 1] [3; 2; 1])
    = Ok (ordered2.MkOrdered [1; 2]).
Proof.
  intros Hs Hco Hself Hs2 Hco2 Hnat Hself2.
  assert (∀ x, x ∈ ordered.set_Elems other ↔ x ∈ NaturalOperand.members set other)
    as Hel.
  { intros x. unfold NaturalOperand.members, NaturalOperand.coherent in *.
    destruct (ordered.kind other).
    - by rewrite Hself.
    - done.
    - by destruct Hco as (_ & He & _). }
  assert (∀ x, x ∈ sets2.view_Elems view ↔ x ∈ NaturalOperand2.members s view)
    as Hel2.
  { intros x. unfold NaturalOperand2.members, NaturalOperand2.coherent in *.
    destruct (sets2.kind view).
    - by rewrite Hself2.
    - done.
    - by destruct Hco2 as (_ & He & _).
    - by destruct Hco2 as (_ & He & _).
    - by destruct Hco2 as (_ & He & _). }
  split_and!.
  - destruct (OrderedAlgebra.ordered_insertAll_spec set l Hs) as (r & Hr & Hsr & Hm).
    destruct (OrderedSubstitution.ordered_inserts_spec l set Hs) as (r' & Hr' & Hsr' & Hm').
    exists r. split; [done|]. split; [|done]. rewrite Hr'. f_equal.
    apply NaturalAgreement.ordered_same; [done | done |]. intros x. by rewrite Hm, Hm'.
  - destruct (OrderedAlgebra.ordered_removeAll_spec set l Hs) as (r & Hr & Hsr & Hm).
    destruct (NaturalAgreement.ordered_removes_spec l set Hs) as (r' & Hr' & Hsr' & Hm').
    exists r. split; [done|]. split; [|done]. rewrite Hr'. f_equal.
    apply NaturalAgreement.ordered_same; [done | done |]. intros x. by rewrite Hm, Hm'.
  - by apply OrderedAlgebra.ordered_InsertSet_spec.
  - destruct (OrderedAlgebra.ordered_RemoveSet_spec set other Hs Hco) as (r & Hr & Hsr & Hm).
    destruct (NaturalAgreement.ordered_removes_spec (ordered.set_Elems other) set Hs)
      as (r' & Hr' & Hsr' & Hm').
    exists r. split; [done|]. split; [|done]. rewrite Hr'. f_equal.
    apply NaturalAgreement.ordered_same; [done | done |].
    intros x. by rewrite Hm, Hm', Hel.
  - destruct (Ordered2Algebra.ordered2_insertAll_spec s l Hs2) as (r & Hr & Hsr & Hm).
    destruct (Ordered2Substitution.ordered2_inserts_spec l s Hs2) as (r' & Hr' & Hsr' & Hm').
    exists r. split; [done|]. split; [|done]. unfold ordered2.Insert. rewrite Hr'. f_equal.
    apply NaturalAgreement.ordered2_same; [done | done |]. intros x. by rewrite Hm, Hm'.
  - destruct (Ordered2Algebra.ordered2_removeAll_spec s l Hs2) as (r & Hr & Hsr & Hm).
    destruct (NaturalAgreement.ordered2_removes_spec l s Hs2) as (r' & Hr' & Hsr' & Hm').
    exists r. split; [done|]. split; [|done]. unfold ordered2.Remove. rewrite Hr'. f_equal.
    apply NaturalAgreement.ordered2_same; [done | done |]. intros x. by rewrite Hm, Hm'.
  - by apply Ordered2Algebra.ordered2_insertSet_spec.
  - destruct (Ordered2Algebra.ordered2_removeSet_spec s view Hs2 Hco2 Hnat)
      as (r & Hr & Hsr & Hm).
    destruct (NaturalAgreement.ordered2_removes_spec (sets2.view_Elems view) s Hs2)
      as (r' & Hr' & Hsr' & Hm').
    exists r. split; [done|]. split; [|done]. unfold ordered2.Remove. rewrite Hr'. f_equal.
    apply NaturalAgreement.ordered2_same; [done | done |].
    intros x. by rewrite Hm, Hm', Hel2.
  - by vm_compute.
Qed.

Lemma natural_bulk_witness :
  let set := ordered.MkOrdered [1; 3; 5] in
  let other := ordered.MkSet ordered.IsOrdered (λ e, bool_decide (e ∈ [3; 4]))
                 [3; 4] [3; 4] in
  let s := ordered2.MkOrdered [1; 3; 5] in
  let view := sets2.MkView sets2.IsFuncSorted (λ e, bool_decide (e ∈ [3; 4]))
                [3; 4] [3; 4] in
  strictly_sorted (ordered.elems set) ∧ NaturalOperand.coherent other
  ∧ (ordered.kind other = ordered.IsReceiver
     → ordered.set_Elems other = ordered.elems set)
  ∧ strictly_sorted (ordered2.list_ s) ∧ NaturalOperand2.coherent view
  ∧ Ordered2Ops.in_natural_order view
  ∧ (sets2.kind view = sets2.IsReceiver → sets2.view_Elems view = ordered2.list_ s)
  ∧ ∃ r, ordered.InsertAll set [4; 1; 4] = Ok r
      ∧ for_range [4; 1; 4] ordered.Insert set = Ok r
      ∧ ∀ x, x ∈ ordered.elems r ↔ x ∈ ordered.elems set ∨ x ∈ [4; 1; 4].
Proof.
  intros set other s view.
  assert (strictly_sorted [1; 3; 5]) as Hs by sorted_by_computation.
  assert (NaturalOperand.coherent other) as Hco
    by (unfold NaturalOperand.coherent; simpl; sorted_by_computation).
  assert (ordered.kind other = ordered.IsReceiver
          → ordered.set_Elems other = ordered.elems set) as Hself by done.
  assert (NaturalOperand2.coherent view) as Hco2.
  { unfold NaturalOperand2.coherent. simpl. split_and!.
    - intros e. by rewrite bool_decide_eq_true.
    - done.
    - apply strictly_sorted_NoDup. sorted_by_computation. }
  assert (Ordered2Ops.in_natural_order view) as Hnat.
  { unfold Ordered2Ops.in_natural_order. simpl.
    repeat constructor; by vm_compute. }
  assert (sets2.kind view = sets2.IsReceiver
          → sets2.view_Elems view = ordered2.list_ s) as Hself2 by done.
  split; [exact Hs|]. split; [exact Hco|]. split; [exact Hself|].
  split; [exact Hs|]. split; [exact Hco2|]. split; [exact Hnat|].
  split; [exact Hself2|].
  exact (proj1 (natural_bulk set other s view [4; 1; 4]
                  Hs Hco Hself Hs Hco2 Hnat Hself2)).
Defined.

(** X23.  The set algebra of a natural-order set: the intersection holds
    the elements both sets hold, the union those either holds, the
    difference those the receiver holds and the other does not, the
    symmetric difference those exactly one of them holds; each result is
    strictly ascending.  Against another natural-order set the lists are
    walked in step, against any other set its [Contains], [Elems] and
    [Range] are used.  In both packages. *)
Theorem natural_algebra (set : ordered.ordered) (other : ordered.Set_)
    (s : ordered2.ordered) (view : sets2.View_ Z) :
  strictly_sorted (ordered.elems set) → NaturalOperand.coherent other →
  strictly_sorted (ordered2.list_ s) → NaturalOperand2.coherent view →
  let A x := x ∈ ordered.elems set in
  let B x := x ∈ NaturalOperand.members set other in
  let A2 x := x ∈ ordered2.list_ s in
  let B2 x := x ∈ NaturalOperand2.members s view in
  (∃ r, ordered.Intersection set other = Ok r ∧ strictly_sorted (ordered.elems r)
     ∧ ∀ x, x ∈ ordered.elems r ↔ A x ∧ B x)
  ∧ (∃ r, ordered.Union set other = Ok r ∧ strictly_sorted (ordered.elems r)
       ∧ ∀ x, x ∈ ordered.elems r ↔ A x ∨ B x)
  ∧ (∃ r, ordered.Difference set other = Ok r ∧ strictly_sorted (ordered.elems r)
       ∧ ∀ x, x ∈ ordered.elems r ↔ A x ∧ ¬ B x)
  ∧ (∃ r, ordered.SymmetricDifference set other = Ok r
       ∧ strictly_sorted (ordered.elems r)
       ∧ ∀ x, x ∈ ordered.elems r ↔ (A x ∧ ¬ B x) ∨ (B x ∧ ¬ A x))
  ∧ (∃ r, ordered2.intersection s view = Ok r ∧ strictly_sorted (ordered2.list_ r)
       ∧ ∀ x, x ∈ ordered2.list_ r ↔ A2 x ∧ B2 x)
  ∧ (∃ r, ordered2.union s view = Ok r ∧ strictly_sorted (ordered2.list_ r)
       ∧ ∀ x, x ∈ ordered2.list_ r ↔ A2 x ∨ B2 x)
  ∧ (∃ r, ordered2.difference s view = Ok r ∧ strictly_sorted (ordered2.list_ r)
       ∧ ∀ x, x ∈ ordered2.list_ r ↔ A2 x ∧ ¬ B2 x)
  ∧ (∃ r, ordered2.symmetricDifference s view = Ok r
       ∧ strictly_sorted (ordered2.list_ r)
       ∧ ∀ x, x ∈ ordered2.list_ r ↔ (A2 x ∧ ¬ B2 x) ∨ (B2 x ∧ ¬ A2 x)).
Proof.
  intros Hs Hco Hs2 Hco2 A B A2 B2. split_and!.
  - by apply OrderedAlgebra.ordered_Intersection_spec.
  - by apply OrderedAlgebra.ordered_Union_spec.
  - by apply OrderedAlgebra.ordered_Difference_spec.
  - by apply OrderedAlgebra.ordered_SymmetricDifference_spec.
  - by apply Ordered2Algebra.ordered2_intersection_spec.
  - by apply Ordered2Algebra.ordered2_union_spec.
  - by apply Ordered2Algebra.ordered2_difference_spec.
  - by apply Ordered2Algebra.ordered2_symmetricDifference_spec.
Qed.

Lemma natural_algebra_witness :
  let set := ordered.MkOrdered [1; 3; 5] in
  let other := ordered.MkSet ordered.IsOrdered (λ e, bool_decide (e ∈ [3; 4]))
                 [3; 4] [3; 4] in
  let s := ordered2.MkOrdered [1; 3; 5] in
  let view := sets2.MkView sets2.IsTable (λ e, bool_decide (e ∈ [4; 3]))
                [3; 4] [4; 3] in
  strictly_sorted (ordered.elems set) ∧ NaturalOperand.coherent other
  ∧ strictly_sorted (ordered2.list_ s) ∧ NaturalOperand2.coherent view
  ∧ ∃ r, ordered.Intersection set other = Ok r ∧ strictly_sorted (ordered.elems r)
      ∧ ∀ x, x ∈ ordered.elems r
             ↔ x ∈ ordered.elems set ∧ x ∈ NaturalOperand.members set other.
Proof.
  intros set other s view.
  assert (strictly_sorted [1; 3; 5]) as Hs by sorted_by_computation.
  assert (NaturalOperand.coherent other) as Hco
    by (unfold NaturalOperand.coherent; simpl; sorted_by_computation).
  assert (NaturalOperand2.coherent view) as Hco2.
  { unfold NaturalOperand2.coherent. simpl. split_and!.
    - intros e. by rewrite bool_decide_eq_true.
    - intros e. rewrite !elem_of_cons, !elem_of_nil. tauto.
    - apply strictly_sorted_NoDup. sorted_by_computation. }
  split; [exact Hs|]. split; [exact Hco|]. split; [exact Hs|]. split; [exact Hco2|].
  exact (proj1 (natural_algebra set other s view Hs Hco Hs Hco2)).
Defined.

End NaturalSetProperties.

Import Go slicesx GoFacts.
Import Spec Spec2 Spec3 Spec4 Spec5 Spec6.
Import SearchFacts OrderFacts LoopFacts ShiftFacts SeqSpec SeqFacts BatchFacts.
Import Natural NaturalOrder NaturalSpec NaturalLaws NaturalSorted NaturalMerge NaturalMergeLoop NaturalDelete NaturalDeleteLoop.
Import NaturalExtensionality NaturalQuestions.

(** * The natural-order sets: the paths of the operations *)
Module NaturalPathProperties.

(** X24.  Against another natural-order set the operations walk both
    lists in step; handed the same elements as a set of any other
    implementation they go through its [Contains], [Elems] and [Range]
    instead.  Both paths return the same result, for [ContainsSet] and
    for the four operations of set algebra, in both packages. *)
Theorem natural_fast_path_agrees (set : ordered.ordered) (other : ordered.Set_)
    (s : ordered2.ordered) (view : sets2.View_ Z) :
  strictly_sorted (ordered.elems set) → NaturalOperand.coherent other →
  ordered.kind other ≠ ordered.IsOther →
  strictly_sorted (ordered2.list_ s) → NaturalOperand2.coherent view →
  sets2.kind view = sets2.IsReceiver ∨ sets2.kind view = sets2.IsOrdered →
  (sets2.kind view = sets2.IsReceiver → sets2.view_Elems view = ordered2.list_ s) →
  let slow := NaturalOperand.generic set other in
  let slow2 := NaturalOperand2.generic s view in
  ordered.ContainsSet set other = ordered.ContainsSet set slow
  ∧ ordered.Intersection set other = ordered.Intersection set slow
  ∧ ordered.Union set other = ordered.Union set slow
  ∧ ordered.Difference set other = ordered.Difference set slow
  ∧ ordered.SymmetricDifference set other = ordered.SymmetricDifference set slow
  ∧ ordered2.ContainsSet s view = ordered2.ContainsSet s slow2
  ∧ ordered2.intersection s view = ordered2.intersection s slow2
  ∧ ordered2.union s view = ordered2.union s slow2
  ∧ ordered2.difference s view = ordered2.difference s slow2
  ∧ ordered2.symmetricDifference s view = ordered2.symmetricDifference s slow2.
Proof.
  intros Hs Hco Hk Hs2 Hco2 Hk2 Hself slow slow2.
  destruct (OrderedAlgebra.generic_coherent set other Hs Hco Hk) as [Hcg Hmg].
  destruct (Ordered2Algebra.generic2_coherent s view Hs2 Hco2 Hk2) as [Hcg2 Hmg2].
  fold slow in Hcg, Hmg. fold slow2 in Hcg2, Hmg2.
  split_and!.
  - destruct (ordered_ContainsSet_spec set other Hs Hco) as (b & -> & Hb).
    destruct (ordered_ContainsSet_spec set slow Hs Hcg) as (b' & -> & Hb').
    rewrite Hmg in Hb'. f_equal. destruct b, b'; intuition congruence.
  - destruct (OrderedAlgebra.ordered_Intersection_spec set other Hs Hco)
      as (r & -> & Hsr & Hm).
    destruct (OrderedAlgebra.ordered_Intersection_spec set slow Hs Hcg)
      as (r' & -> & Hsr' & Hm').
    f_equal. apply NaturalAgreement.ordered_same; [done | done |].
    intros x. by rewrite Hm, Hm', Hmg.
  - destruct (OrderedAlgebra.ordered_Union_spec set other Hs Hco)
      as (r & -> & Hsr & Hm).
    destruct (OrderedAlgebra.ordered_Union_spec set slow Hs Hcg)
      as (r' & -> & Hsr' & Hm').
    f_equal. apply NaturalAgreement.ordered_same; [done | done |].
    intros x. by rewrite Hm, Hm', Hmg.
  - destruct (OrderedAlgebra.ordered_Difference_spec set other Hs Hco)
      as (r & -> & Hsr & Hm).
    destruct (OrderedAlgebra.ordered_Difference_spec set slow Hs Hcg)
      as (r' & -> & Hsr' & Hm').
    f_equal. apply NaturalAgreement.ordered_same; [done | done |].
    intros x. by rewrite Hm, Hm', Hmg.
  - destruct (OrderedAlgebra.ordered_SymmetricDifference_spec set other Hs Hco)
      as (r & -> & Hsr & Hm).
    destruct (OrderedAlgebra.ordered_SymmetricDifference_spec set slow Hs Hcg)
      as (r' & -> & Hsr' & Hm').
    f_equal. apply NaturalAgreement.ordered_same; [done | done |].
    intros x. by rewrite Hm, Hm', Hmg.
  - destruct (ordered2_ContainsSet_spec s view Hs2 Hco2 Hself) as (b & -> & Hb).
    destruct (ordered2_ContainsSet_spec s slow2 Hs2 Hcg2) as (b' & -> & Hb'); [done|].
    rewrite Hmg2 in Hb'. f_equal. destruct b, b'; intuition congruence.
  - destruct (Ordered2Algebra.ordered2_intersection_spec s view Hs2 Hco2)
      as (r & -> & Hsr & Hm).
    destruct (Ordered2Algebra.ordered2_intersection_spec s slow2 Hs2 Hcg2)
      as (r' & -> & Hsr' & Hm').
    f_equal. apply NaturalAgreement.ordered2_same; [done | done |].
    intros x. by rewrite Hm, Hm', Hmg2.
  - destruct (Ordered2Algebra.ordered2_union_spec s view Hs2 Hco2)
      as (r & -> & Hsr & Hm).
    destruct (Ordered2Algebra.ordered2_union_spec s slow2 Hs2 Hcg2)
      as (r' & -> & Hsr' & Hm').
    f_equal. apply NaturalAgreement.ordered2_same; [done | done |].
    intros x. by rewrite Hm, Hm', Hmg2.
  - destruct (Ordered2Algebra.ordered2_difference_spec s view Hs2 Hco2)
      as (r & -> & Hsr & Hm).
    destruct (Ordered2Algebra.ordered2_difference_spec s slow2 Hs2 Hcg2)
      as (r' & -> & Hsr' & Hm').
    f_equal. apply NaturalAgreement.ordered2_same; [done | done |].
    intros x. by rewrite Hm, Hm', Hmg2.
  - destruct (Ordered2Algebra.ordered2_symmetricDifference_spec s view Hs2 Hco2)
      as (r & -> & Hsr & Hm).
    destruct (Ordered2Algebra.ordered2_symmetricDifference_spec s slow2 Hs2 Hcg2)
      as (r' & -> & Hsr' & Hm').
    f_equal. apply NaturalAgreement.ordered2_same; [done | done |].
    intros x. by rewrite Hm, Hm', Hmg2.
Qed.

Lemma natural_fast_path_agrees_witness :
  let set := ordered.MkOrdered [1; 3; 5] in
  let other := ordered.MkSet ordered.IsOrdered (λ e, bool_decide (e ∈ [3; 4]))
                 [3; 4] [3; 4] in
  let s := ordered2.MkOrdered [1; 3; 5] in
  let view := sets2.MkView sets2.IsOrdered (λ e, bool_decide (e ∈ [3; 4]))
                [3; 4] [3; 4] in
  strictly_sorted (ordered.elems set) ∧ NaturalOperand.coherent other
  ∧ ordered.kind other ≠ ordered.IsOther
  ∧ strictly_sorted (ordered2.list_ s) ∧ NaturalOperand2.coherent view
  ∧ (sets2.kind view = sets2.IsReceiver ∨ sets2.kind view = sets2.IsOrdered)
  ∧ (sets2.kind view = sets2.IsReceiver → sets2.view_Elems view = ordered2.list_ s)
  ∧ ordered.ContainsSet set other
    = ordered.ContainsSet set (NaturalOperand.generic set other).
Proof.
  intros set other s view.
  assert (strictly_sorted [1; 3; 5]) as Hs by sorted_by_computation.
  assert (NaturalOperand.coherent other) as Hco
    by (unfold NaturalOperand.coherent; simpl; sorted_by_computation).
  assert (ordered.kind other ≠ ordered.IsOther) as Hk by done.
  assert (NaturalOperand2.coherent view) as Hco2
    by (unfold NaturalOperand2.coherent; simpl; sorted_by_computation).
  assert (sets2.kind view = sets2.IsReceiver ∨ sets2.kind view = sets2.IsOrdered)
    as Hk2 by (by right).
  assert (sets2.kind view = sets2.IsReceiver
          → sets2.view_Elems view = ordered2.list_ s) as Hself by done.
  split; [exact Hs|]. split; [exact Hco|]. split; [exact Hk|].
  split; [exact Hs|]. split; [exact Hco2|]. split; [exact Hk2|].
  split; [exact Hself|].
  exact (proj1 (natural_fast_path_agrees set other s view
                  Hs Hco Hk Hs Hco2 Hk2 Hself)).
Defined.

(** X25.  On integers in their natural order the four sorted sets are
    one: from the same strictly ascending list, the natural-order sets of
    both packages and the comparator sets of both packages built with
    [cmp.Compare] and [==] give the same answer to [Contains] and are
    left with the same list by [Insert], [Remove], [InsertAll] and
    [RemoveAll]. *)
Theorem four_sets_agree (a l : list Z) (e : Z) :
  strictly_sorted a →
  let set := ordered.MkOrdered a in
  let s := ordered2.MkOrdered a in
  let cset := sets.MkSorted a Compare same in
  let cs := sets2.MkFuncSorted a Compare same in
  (∃ b, ordered.Contains set e = Ok b ∧ ordered2.Contains s e = Ok b
     ∧ sets.Contains cset e = Ok b ∧ sets2.Contains cs e = Ok b
     ∧ (b = true ↔ e ∈ a))
  ∧ (∃ r, ordered.Insert set e = Ok (ordered.MkOrdered r)
       ∧ ordered2.Insert s e = Ok (ordered2.MkOrdered r)
       ∧ sets.Insert cset e = Ok (sets.MkSorted r Compare same)
       ∧ sets2.Insert cs e = Ok (sets2.MkFuncSorted r Compare same))
  ∧ (∃ r, ordered.Remove set e = Ok (ordered.MkOrdered r)
       ∧ ordered2.Remove s e = Ok (ordered2.MkOrdered r)
       ∧ sets.Remove 0 cset e = Ok (sets.MkSorted r Compare same)
       ∧ sets2.Remove 0 cs e = Ok (sets2.MkFuncSorted r Compare same))
  ∧ (∃ r, ordered.InsertAll set l = Ok (ordered.MkOrdered r)
       ∧ ordered2.InsertAll s l = Ok (ordered2.MkOrdered r)
       ∧ sets.InsertAll 0 cset l = Ok (sets.MkSorted r Compare same)
       ∧ sets2.InsertAll 0 cs l = Ok (sets2.MkFuncSorted r Compare same))
  ∧ (∃ r, ordered.RemoveAll set l = Ok (ordered.MkOrdered r)
       ∧ ordered2.RemoveAll s l = Ok (ordered2.MkOrdered r)
       ∧ sets.RemoveAll 0 cset l = Ok (sets.MkSorted r Compare same)
       ∧ sets2.RemoveAll 0 cs l = Ok (sets2.MkFuncSorted r Compare same)).
Proof.
  intros Ha set s cset cs. split_and!.
  - by apply NaturalAgreement.agree_Contains.
  - by apply NaturalAgreement.agree_Insert.
  - by apply NaturalAgreement.agree_Remove.
  - by apply NaturalAgreement.agree_InsertAll.
  - by apply NaturalAgreement.agree_RemoveAll.
Qed.

Lemma four_sets_agree_witness :
  strictly_sorted [1; 3; 5]
  ∧ ∃ b, ordered.Contains (ordered.MkOrdered [1; 3; 5]) 3 = Ok b
      ∧ ordered2.Contains (ordered2.MkOrdered [1; 3; 5]) 3 = Ok b
      ∧ sets.Contains (sets.MkSorted [1; 3; 5] Compare same) 3 = Ok b
      ∧ sets2.Contains (sets2.MkFuncSorted [1; 3; 5] Compare same) 3 = Ok b
      ∧ (b = true ↔ 3 ∈ [1; 3; 5]).
Proof.
  assert (strictly_sorted [1; 3; 5]) as Hs by sorted_by_computation.
  split; [exact Hs|].
  exact (proj1 (four_sets_agree [1; 3; 5] [4; 1] 3 Hs)).
Defined.

(** X26.  A natural-order set handed to itself: [ContainsSet] answers
    yes, [InsertSet] leaves it as it is, [RemoveSet] empties it, the
    intersection and the union are the set, and the difference and the
    symmetric difference are empty.  In both packages. *)
Theorem natural_self_operand (set : ordered.ordered) (other : ordered.Set_)
    (s : ordered2.ordered) (view : sets2.View_ Z) :
  strictly_sorted (ordered.elems set) → ordered.kind other = ordered.IsReceiver →
  strictly_sorted (ordered2.list_ s) → sets2.kind view = sets2.IsReceiver →
  sets2.view_Elems view = ordered2.list_ s →
  (ordered.ContainsSet set other = Ok true
   ∧ ordered.InsertSet set other = Ok set
   ∧ ordered.RemoveSet set other = Ok (ordered.MkOrdered [])
   ∧ ordered.Intersection set other = Ok (ordered.MkOrdered (ordered.elems set))
   ∧ ordered.Union set other = Ok (ordered.MkOrdered (ordered.elems set))
   ∧ ordered.Difference set other = Ok (ordered.MkOrdered [])
   ∧ ordered.SymmetricDifference set other = Ok (ordered.MkOrdered []))
  ∧ (ordered2.ContainsSet s view = Ok true
     ∧ ordered2.InsertSet s view = Ok (ordered2.MkOrdered (ordered2.list_ s))
     ∧ ordered2.RemoveSet s view = Ok (ordered2.MkOrdered [])
     ∧ ordered2.intersection s view = Ok (ordered2.MkOrdered (ordered2.list_ s))
     ∧ ordered2.union s view = Ok (ordered2.MkOrdered (ordered2.list_ s))
     ∧ ordered2.difference s view = Ok (ordered2.MkOrdered [])
     ∧ ordered2.symmetricDifference s view = Ok (ordered2.MkOrdered [])).
Proof.
  intros Hs Hk Hs2 Hk2 Hself.
  assert (NaturalOperand.coherent other) as Hco
    by (unfold NaturalOperand.coherent; by rewrite Hk).
  assert (NaturalOperand.members set other = ordered.elems set) as Hmem
    by (unfold NaturalOperand.members; by rewrite Hk).
  assert (NaturalOperand2.coherent view) as Hco2
    by (unfold NaturalOperand2.coherent; by rewrite Hk2).
  assert (NaturalOperand2.members s view = ordered2.list_ s) as Hmem2
    by (unfold NaturalOperand2.members; by rewrite Hk2).
  assert (Ordered2Ops.in_natural_order view) as Hnat
    by (unfold Ordered2Ops.in_natural_order; by rewrite Hk2).
  assert (strictly_sorted []) as Hnil by constructor.
  split; split_and!.
  - destruct (ordered_ContainsSet_spec set other Hs Hco) as (b & -> & Hb).
    f_equal. apply Hb. by rewrite Hmem.
  - unfold ordered.InsertSet. by rewrite Hk.
  - destruct (OrderedAlgebra.ordered_RemoveSet_spec set other Hs Hco)
      as (r & -> & Hsr & Hm).
    f_equal. apply NaturalAgreement.ordered_is; [done | done |].
    intros x. rewrite Hm, Hmem, elem_of_nil. tauto.
  - destruct (OrderedAlgebra.ordered_Intersection_spec set other Hs Hco)
      as (r & -> & Hsr & Hm).
    f_equal. apply NaturalAgreement.ordered_is; [done | done |].
    intros x. rewrite Hm, Hmem. tauto.
  - destruct (OrderedAlgebra.ordered_Union_spec set other Hs Hco)
      as (r & -> & Hsr & Hm).
    f_equal. apply NaturalAgreement.ordered_is; [done | done |].
    intros x. rewrite Hm, Hmem. tauto.
  - destruct (OrderedAlgebra.ordered_Difference_spec set other Hs Hco)
      as (r & -> & Hsr & Hm).
    f_equal. apply NaturalAgreement.ordered_is; [done | done |].
    intros x. rewrite Hm, Hmem, elem_of_nil. tauto.
  - destruct (OrderedAlgebra.ordered_SymmetricDifference_spec set other Hs Hco)
      as (r & -> & Hsr & Hm).
    f_equal. apply NaturalAgreement.ordered_is; [done | done |].
    intros x. rewrite Hm, Hmem, elem_of_nil. tauto.
  - destruct (ordered2_ContainsSet_spec s view Hs2 Hco2) as (b & -> & Hb); [done|].
    f_equal. apply Hb. by rewrite Hmem2.
  - destruct (Ordered2Algebra.ordered2_insertSet_spec s view Hs2 Hco2 Hnat)
      as (r & Hr & Hsr & Hm).
    unfold ordered2.InsertSet. rewrite Hr.
    f_equal. apply NaturalAgreement.ordered2_is; [done | done |].
    intros x. rewrite Hm, Hmem2. tauto.
  - destruct (Ordered2Algebra.ordered2_removeSet_spec s view Hs2 Hco2 Hnat)
      as (r & Hr & Hsr & Hm).
    unfold ordered2.RemoveSet. rewrite Hr.
    f_equal. apply NaturalAgreement.ordered2_is; [done | done |].
    intros x. rewrite Hm, Hmem2, elem_of_nil. tauto.
  - destruct (Ordered2Algebra.ordered2_intersection_spec s view Hs2 Hco2)
      as (r & -> & Hsr & Hm).
    f_equal. apply NaturalAgreement.ordered2_is; [done | done |].
    intros x. rewrite Hm, Hmem2. tauto.
  - destruct (Ordered2Algebra.ordered2_union_spec s view Hs2 Hco2)
      as (r & -> & Hsr & Hm).
    f_equal. apply NaturalAgreement.ordered2_is; [done | done |].
    intros x. rewrite Hm, Hmem2. tauto.
  - destruct (Ordered2Algebra.ordered2_difference_spec s view Hs2 Hco2)
      as (r & -> & Hsr & Hm).
    f_equal. apply NaturalAgreement.ordered2_is; [done | done |].
    intros x. rewrite Hm, Hmem2, elem_of_nil. tauto.
  - destruct (Ordered2Algebra.ordered2_symmetricDifference_spec s view Hs2 Hco2)
      as (r & -> & Hsr & Hm).
    f_equal. apply NaturalAgreement.ordered2_is; [done | done |].
    intros x. rewrite Hm, Hmem2, elem_of_nil. tauto.
Qed.

Lemma natural_self_operand_witness :
  let set := ordered.MkOrdered [1; 3; 5] in
  let other := ordered.MkSet ordered.IsReceiver (λ e, bool_decide (e ∈ [1; 3; 5]))
                 [1; 3; 5] [1; 3; 5] in
  let s := ordered2.MkOrdered [1; 3; 5] in
  let view := sets2.MkView sets2.IsReceiver (λ e, bool_decide (e ∈ [1; 3; 5]))
                [1; 3; 5] [1; 3; 5] in
  strictly_sorted (ordered.elems set) ∧ ordered.kind other = ordered.IsReceiver
  ∧ strictly_sorted (ordered2.list_ s) ∧ sets2.kind view = sets2.IsReceiver
  ∧ sets2.view_Elems view = ordered2.list_ s
  ∧ ordered.ContainsSet set other = Ok true.
Proof.
  intros set other s view.
  assert (strictly_sorted [1; 3; 5]) as Hs by sorted_by_computation.
  split; [exact Hs|]. split; [reflexivity|]. split; [exact Hs|].
  split; [reflexivity|]. split; [reflexivity|].
  exact (proj1 (proj1 (natural_self_operand set other s view
                         Hs eq_refl Hs eq_refl eq_refl))).
Defined.

End NaturalPathProperties.

Import Go slicesx GoFacts.
Import Spec Spec2 Spec3 Spec4 Spec5 Spec6.
Import SearchFacts OrderFacts LoopFacts ShiftFacts SeqSpec SeqFacts BatchFacts.
Import Natural NaturalOrder NaturalSpec NaturalLaws NaturalSorted NaturalMerge NaturalMergeLoop NaturalDelete NaturalDeleteLoop.
Import TableSpec.

(** * The hash-backed sets *)
Module TableProperties.

(** X27.  The hash-backed set holds what was put in and not taken out:
    [New] holds exactly the given elements, once each, so its length is
    at most that of the list and equal to it when the list does not
    repeat; [Insert] adds the element and lengthens the set by one
    exactly when it was not held, [Remove] takes it out and shortens the
    set by one exactly when it was held, and removing an element just
    inserted into a set that did not hold it gives the set back;
    [InsertAll], [RemoveAll] and [ContainsAll] do the same for every
    element given.  In both packages. *)
Theorem table_membership `{Countable E} (set : table.table E)
    (t : table2.table E) (l : list E) (e : E) :
  ((∀ x, table.Contains (table.New l) x = true ↔ x ∈ l)
   ∧ table.Len (table.New l) ≤ len l
   ∧ (NoDup l → table.Len (table.New l) = len l)
   ∧ table.Len (table.New (E:=E) []) = 0
   ∧ (table.ContainsAll set l = true ↔ ∀ x, x ∈ l → table.Contains set x = true)
   ∧ (∀ x, table.Contains (table.Insert set e) x = true
           ↔ x = e ∨ table.Contains set x = true)
   ∧ table.Len (table.Insert set e)
     = table.Len set + (if table.Contains set e then 0 else 1)
   ∧ (∀ x, table.Contains (table.Remove set e) x = true
           ↔ x ≠ e ∧ table.Contains set x = true)
   ∧ table.Len (table.Remove set e)
     = table.Len set - (if table.Contains set e then 1 else 0)
   ∧ (table.Contains set e = false → table.Remove (table.Insert set e) e = set)
   ∧ (∀ x, table.Contains (table.InsertAll set l) x = true
           ↔ table.Contains set x = true ∨ x ∈ l)
   ∧ (∀ x, table.Contains (table.RemoveAll set l) x = true
           ↔ table.Contains set x = true ∧ x ∉ l))
  ∧ ((∀ x, table2.Contains (table2.New l) x = true ↔ x ∈ l)
     ∧ table2.Len (table2.New l) ≤ len l
     ∧ (NoDup l → table2.Len (table2.New l) = len l)
     ∧ table2.Len (table2.New (E:=E) []) = 0
     ∧ (table2.ContainsAll t l = true ↔ ∀ x, x ∈ l → table2.Contains t x = true)
     ∧ (∀ x, table2.Contains (table2.Insert t e) x = true
             ↔ x = e ∨ table2.Contains t x = true)
     ∧ table2.Len (table2.Insert t e)
       = table2.Len t + (if table2.Contains t e then 0 else 1)
     ∧ (∀ x, table2.Contains (table2.Remove t e) x = true
             ↔ x ≠ e ∧ table2.Contains t x = true)
     ∧ table2.Len (table2.Remove t e)
       = table2.Len t - (if table2.Contains t e then 1 else 0)
     ∧ (table2.Contains t e = false → table2.Remove (table2.Insert t e) e = t)
     ∧ (∀ x, table2.Contains (table2.InsertAll t l) x = true
             ↔ table2.Contains t x = true ∨ x ∈ l)
     ∧ (∀ x, table2.Contains (table2.RemoveAll t l) x = true
             ↔ table2.Contains t x = true ∧ x ∉ l)).
Proof.
  split.
  - unfold table.Contains, table.Len, table.ContainsAll, table.Insert, table.Remove.
    rewrite TableFacts.New_set, TableFacts.InsertAll_set, TableFacts.RemoveAll_set.
    split_and!.
    + intros x. by rewrite bool_decide_eq_true, elem_of_list_to_set.
    + unfold len. apply inj_le, TableFacts.size_list_to_set_le.
    + intros Hn. unfold len. by rewrite size_list_to_set.
    + by rewrite (TableFacts.New_set []), list_to_set_nil, size_empty.
    + rewrite TableFacts.forallb_in, elem_of_subseteq. split.
      * intros Hsub x Hx. apply bool_decide_eq_true, Hsub. by apply elem_of_list_to_set.
      * intros Hall x Hx. apply elem_of_list_to_set in Hx.
        specialize (Hall x Hx). by apply bool_decide_eq_true in Hall.
    + intros x. rewrite !bool_decide_eq_true, elem_of_union, elem_of_singleton. tauto.
    + rewrite TableFacts.size_insert. repeat case_bool_decide; first [lia | done].
    + intros x. rewrite !bool_decide_eq_true, elem_of_difference, elem_of_singleton.
      tauto.
    + rewrite (TableFacts.size_remove set e). repeat case_bool_decide; first [lia | done].
    + intros Hn. apply bool_decide_eq_false in Hn. apply set_eq. intros x.
      rewrite elem_of_difference, elem_of_union, elem_of_singleton.
      split; [tauto|]. intros Hx. split; [tauto|]. by intros ->.
    + intros x. by rewrite !bool_decide_eq_true, elem_of_union, elem_of_list_to_set.
    + intros x. by rewrite !bool_decide_eq_true, elem_of_difference, elem_of_list_to_set.
  - unfold table2.Contains, table2.Len, table2.ContainsAll, table2.New.
    rewrite TableFacts.newTable_set, TableFacts.InsertAll2_set,
      TableFacts.RemoveAll2_set.
    split_and!.
    + intros x. by rewrite bool_decide_eq_true, elem_of_list_to_set.
    + unfold len. apply inj_le, TableFacts.size_list_to_set_le.
    + intros Hn. unfold len. by rewrite size_list_to_set.
    + by rewrite (TableFacts.newTable_set []), list_to_set_nil, size_empty.
    + rewrite TableFacts.forallb_in, elem_of_subseteq. split.
      * intros Hsub x Hx. apply bool_decide_eq_true, Hsub. by apply elem_of_list_to_set.
      * intros Hall x Hx. apply elem_of_list_to_set in Hx.
        specialize (Hall x Hx). by apply bool_decide_eq_true in Hall.
    + intros x. simpl.
      rewrite !bool_decide_eq_true, elem_of_union, elem_of_singleton. tauto.
    + simpl. rewrite TableFacts.size_insert. repeat case_bool_decide; first [lia | done].
    + intros x. simpl.
      rewrite !bool_decide_eq_true, elem_of_difference, elem_of_singleton. tauto.
    + simpl. rewrite (TableFacts.size_remove (table2.tbl t) e).
      repeat case_bool_decide; first [lia | done].
    + intros Hn. apply bool_decide_eq_false in Hn. destruct t as [m].
      unfold table2.Remove, table2.Insert. simpl in *. f_equal. apply set_eq. intros x.
      rewrite elem_of_difference, elem_of_union, elem_of_singleton.
      split; [tauto|]. intros Hx. split; [tauto|]. by intros ->.
    + intros x. by rewrite !bool_decide_eq_true, elem_of_union, elem_of_list_to_set.
    + intros x. by rewrite !bool_decide_eq_true, elem_of_difference, elem_of_list_to_set.
Qed.

(** X28.  Whatever the orders in which the runtime ranges over the maps,
    the operations of the hash-backed set against another set return the
    sets of the algebra: [ContainsSet] answers inclusion, [InsertSet] and
    [Union] give the union, [RemoveSet] and [Difference] the difference,
    [Intersection] the intersection and [SymmetricDifference] the
    symmetric difference; this includes the set handed to itself, whose
    map [InsertSet] and [RemoveSet] change while they range over it.
    [Elems] lists every element once.  In both packages. *)
Theorem table_algebra_any_order `{Countable E} (set : table.table E)
    (keys : list E) (other : table.Set_ E)
    (t : table2.table E) (keys2 : list E) (view : table2.View_ E) :
  ranges set keys → proper set other →
  ranges (table2.tbl t) keys2 → proper2 t view →
  let B := members other in
  let A2 := table2.tbl t in
  let B2 := members2 view in
  ((table.ContainsSet set other = true ↔ B ⊆ set)
   ∧ table.InsertSet set other = set ∪ B
   ∧ table.RemoveSet set other = set ∖ B
   ∧ table.Intersection set other = set ∩ B
   ∧ table.Union set other = set ∪ B
   ∧ table.Difference set keys other = set ∖ B
   ∧ table.SymmetricDifference set keys other = (set ∖ B) ∪ (B ∖ set)
   ∧ NoDup (table.Elems set keys)
   ∧ (∀ x, x ∈ table.Elems set keys ↔ table.Contains set x = true)
   ∧ len (table.Elems set keys) = table.Len set)
  ∧ ((table2.ContainsSet t view = true ↔ B2 ⊆ A2)
     ∧ table2.tbl (table2.InsertSet t view) = A2 ∪ B2
     ∧ table2.tbl (table2.RemoveSet t view) = A2 ∖ B2
     ∧ table2.tbl (table2.intersection t view) = A2 ∩ B2
     ∧ table2.tbl (table2.union t view) = A2 ∪ B2
     ∧ table2.tbl (table2.difference t keys2 view) = A2 ∖ B2
     ∧ table2.tbl (table2.symmetricDifference t keys2 view) = (A2 ∖ B2) ∪ (B2 ∖ A2)
     ∧ NoDup (table2.Elems t keys2)
     ∧ (∀ x, x ∈ table2.Elems t keys2 ↔ table2.Contains t x = true)
     ∧ len (table2.Elems t keys2) = table2.Len t).
Proof.
  intros Hk Hp Hk2 Hp2 B A2 B2. split; split_and!.
  - apply TableFacts.table_ContainsSet_spec.
  - by apply TableFacts.InsertSet_set.
  - apply TableFacts.RemoveSet_set.
  - apply TableFacts.Intersection_set.
  - by apply TableFacts.Union_set.
  - by apply TableFacts.Difference_set.
  - by apply TableFacts.SymmetricDifference_set.
  - by apply (TableFacts.ranges_NoDup set).
  - intros x. unfold table.Elems, table.Contains.
    rewrite bool_decide_eq_true. unfold ranges in Hk. by rewrite Hk, elem_of_elements.
  - unfold table.Elems, table.Len, len. by rewrite (TableFacts.ranges_length set).
  - by apply TableFacts.table2_ContainsSet_spec.
  - by apply TableFacts.InsertSet2_set.
  - apply TableFacts.RemoveSet2_set.
  - apply TableFacts.intersection2_set.
  - apply TableFacts.union2_set.
  - by apply TableFacts.difference2_set.
  - by apply TableFacts.symmetricDifference2_set.
  - by apply (TableFacts.ranges_NoDup A2).
  - intros x. unfold table2.Elems, table2.Contains.
    rewrite bool_decide_eq_true. unfold ranges in Hk2. by rewrite Hk2, elem_of_elements.
  - unfold table2.Elems, table2.Len, len. by rewrite (TableFacts.ranges_length A2).
Qed.

Lemma table_algebra_any_order_witness :
  let set : table.table Z := table.New [1; 2; 3] in
  let keys := elements set in
  let other := table.Receiver (reverse (elements set)) in
  let t : table2.table Z := table2.New [1; 2; 3] in
  let keys2 := elements (table2.tbl t) in
  let view := table2.List [2; 5] (λ e, bool_decide (e ∈ [2; 5])) in
  ranges set keys ∧ proper set other
  ∧ ranges (table2.tbl t) keys2 ∧ proper2 t view
  ∧ (table.ContainsSet set other = true ↔ members other ⊆ set)
  ∧ table.InsertSet set other = set ∪ members other
  ∧ table.RemoveSet set other = set ∖ members other.
Proof.
  intros set keys other t keys2 view.
  assert (ranges set keys) as Hk by (unfold ranges, keys; reflexivity).
  assert (proper set other) as Hp.
  { unfold proper, other, ranges. apply reverse_Permutation. }
  assert (ranges (table2.tbl t) keys2) as Hk2 by (unfold ranges, keys2; reflexivity).
  assert (proper2 t view) as Hp2.
  { unfold proper2, view. split.
    - intros e. by rewrite bool_decide_eq_true.
    - apply NoDup_cons. split; [|apply NoDup_singleton].
      intros Hin. apply list_elem_of_singleton in Hin. discriminate. }
  split; [exact Hk|]. split; [exact Hp|]. split; [exact Hk2|]. split; [exact Hp2|].
  pose proof (proj1 (table_algebra_any_order set keys other t keys2 view
                       Hk Hp Hk2 Hp2)) as (H1 & H2 & H3 & _).
  split; [exact H1|]. split; [exact H2 | exact H3].
Defined.

End TableProperties.

Import Go slicesx GoFacts.
Import Spec Spec2 Spec3 Spec4 Spec5 Spec6.
Import SearchFacts OrderFacts LoopFacts ShiftFacts SeqSpec SeqFacts BatchFacts.
Import Natural NaturalOrder NaturalSpec NaturalLaws NaturalSorted NaturalMerge NaturalMergeLoop NaturalDelete NaturalDeleteLoop.
Import TableSpec NaturalExtensionality NaturalQuestions Interplay.

(** * Hash-backed and natural-order sets together *)
Module InterplayProperties.

(** X29.  A hash-backed set and a natural-order set built from the same
    elements are the same set: they have the same length and give the
    same answers to [Contains]; the natural-order set built from the
    [Elems] of the hash-backed set, in whatever order the runtime lists
    them, is the one built from the elements, and the hash-backed set
    built from the [Elems] of the natural-order set is the one built from
    the elements.  In both packages. *)
Theorem representations_convert (l keys keys2 : list Z) :
  ranges (table.New l) keys → ranges (table2.tbl (table2.New l)) keys2 →
  (ordered.NewSorted (table.Elems (table.New l) keys) = ordered.NewSorted l
   ∧ table.New (ordered.Elems (ordered.NewSorted l)) = table.New l
   ∧ ordered.Len (ordered.NewSorted l) = table.Len (table.New l)
   ∧ ∀ e, ordered.Contains (ordered.NewSorted l) e
          = Ok (table.Contains (table.New l) e))
  ∧ (ordered2.NewSorted (table2.Elems (table2.New l) keys2) = ordered2.NewSorted l
     ∧ table2.New (ordered2.Elems (ordered2.NewSorted l)) = table2.New l
     ∧ ordered2.Len (ordered2.NewSorted l) = table2.Len (table2.New l)
     ∧ ∀ e, ordered2.Contains (ordered2.NewSorted l) e
            = Ok (table2.Contains (table2.New l) e)).
Proof.
  intros Hk Hk2.
  destruct (sort_compact l) as [Hs Hm].
  assert (∀ x, x ∈ keys ↔ x ∈ l) as Hkeys.
  { intros x. unfold ranges in Hk.
    by rewrite Hk, elem_of_elements, TableFacts.New_set, elem_of_list_to_set. }
  assert (∀ x, x ∈ keys2 ↔ x ∈ l) as Hkeys2.
  { intros x. unfold ranges in Hk2. unfold table2.New in Hk2.
    by rewrite Hk2, elem_of_elements, TableFacts.newTable_set, elem_of_list_to_set. }
  assert (list_to_set (Compact (SortStableFunc Compare l)) = (list_to_set l : gset Z))
    as Hset.
  { apply set_eq. intros x. by rewrite !elem_of_list_to_set, Hm. }
  split; split_and!.
  - unfold table.Elems, ordered.NewSorted, ordered.uniq, ordered.stableSort. f_equal.
    destruct (sort_compact keys) as [Hs' Hm'].
    apply strictly_sorted_ext; [done | done |]. intros x. by rewrite Hm', Hm, Hkeys.
  - unfold ordered.Elems, ordered.NewSorted, ordered.uniq, ordered.stableSort. simpl.
    by rewrite !TableFacts.New_set.
  - unfold ordered.Len, ordered.NewSorted, ordered.uniq, ordered.stableSort, table.Len.
    simpl. rewrite TableFacts.New_set, <-Hset. symmetry.
    by apply InterplayFacts.sorted_size.
  - intros e.
    destruct (ordered_Contains_spec (ordered.NewSorted l) e Hs) as (b & -> & Hb).
    f_equal. unfold table.Contains. rewrite TableFacts.New_set.
    unfold ordered.NewSorted, ordered.uniq, ordered.stableSort in Hb. simpl in Hb.
    rewrite Hm in Hb. destruct b.
    + symmetry. apply bool_decide_eq_true, elem_of_list_to_set. by apply Hb.
    + symmetry. apply bool_decide_eq_false. rewrite elem_of_list_to_set.
      intros Hin. apply Hb in Hin. done.
  - unfold table2.Elems, ordered2.NewSorted, ordered2.order. f_equal.
    destruct (sort_compact keys2) as [Hs' Hm'].
    apply strictly_sorted_ext; [done | done |]. intros x. by rewrite Hm', Hm, Hkeys2.
  - unfold ordered2.Elems, ordered2.NewSorted, ordered2.order, table2.New. simpl.
    unfold table2.newTable. f_equal.
    by rewrite !TableFacts.foldl_insert, Hset.
  - unfold ordered2.Len, ordered2.NewSorted, ordered2.order, table2.Len, table2.New.
    simpl. rewrite TableFacts.foldl_insert.
    assert (∅ ∪ list_to_set l = (list_to_set l : gset Z)) as ->
      by (apply set_eq; intros x; rewrite elem_of_union, elem_of_empty; tauto).
    rewrite <-Hset. symmetry. by apply InterplayFacts.sorted_size.
  - intros e.
    destruct (Ordered2Facts.ordered2_Contains_spec (ordered2.NewSorted l) e Hs)
      as (b & -> & Hb).
    f_equal. unfold table2.Contains, table2.New. rewrite TableFacts.newTable_set.
    unfold ordered2.NewSorted, ordered2.order in Hb. simpl in Hb.
    rewrite Hm in Hb. destruct b.
    + symmetry. apply bool_decide_eq_true, elem_of_list_to_set. by apply Hb.
    + symmetry. apply bool_decide_eq_false. rewrite elem_of_list_to_set.
      intros Hin. apply Hb in Hin. done.
Qed.

Lemma representations_convert_witness :
  let l := [3; 1; 3; 2] in
  let keys := reverse (elements (table.New l)) in
  let keys2 := elements (table2.tbl (table2.New l)) in
  ranges (table.New l) keys ∧ ranges (table2.tbl (table2.New l)) keys2
  ∧ ordered.NewSorted (table.Elems (table.New l) keys) = ordered.NewSorted l
  ∧ table.New (ordered.Elems (ordered.NewSorted l)) = table.New l
  ∧ ordered.Len (ordered.NewSorted l) = table.Len (table.New l)
  ∧ ∀ e, ordered.Contains (ordered.NewSorted l) e
         = Ok (table.Contains (table.New l) e).
Proof.
  intros l keys keys2.
  assert (ranges (table.New l) keys) as Hk
    by (unfold ranges, keys; apply reverse_Permutation).
  assert (ranges (table2.tbl (table2.New l)) keys2) as Hk2
    by (unfold ranges, keys2; reflexivity).
  split; [exact Hk|]. split; [exact Hk2|].
  exact (proj1 (representations_convert l keys keys2 Hk Hk2)).
Defined.

(** X30.  A natural-order set and a hash-backed set as operands of each
    other: whichever of the two is the receiver, and whatever the orders
    in which the runtime ranges over the map, [ContainsSet] answers
    inclusion, and the intersection, the union, the symmetric difference
    and [InsertSet] hold the same elements on both sides; [Difference]
    and [RemoveSet] hold the elements of the receiver that the operand
    does not hold.  In both packages. *)
Theorem mixed_operands (a : list Z) (m : gset Z) (ke kr keys : list Z) :
  strictly_sorted a → ranges m ke → ranges m kr → ranges m keys →
  let A : gset Z := list_to_set a in
  let held (l : list Z) : gset Z := list_to_set l in
  (let set := ordered.MkOrdered a in
   let other := table_operand m ke kr in
   let back := ordered_operand set in
   (∃ b, ordered.ContainsSet set other = Ok b ∧ (b = true ↔ m ⊆ A))
   ∧ (table.ContainsSet m back = true ↔ A ⊆ m)
   ∧ (∃ r, ordered.Intersection set other = Ok r
        ∧ held (ordered.elems r) = table.Intersection m back)
   ∧ (∃ r, ordered.Union set other = Ok r
        ∧ held (ordered.elems r) = table.Union m back)
   ∧ (∃ r, ordered.SymmetricDifference set other = Ok r
        ∧ held (ordered.elems r) = table.SymmetricDifference m keys back)
   ∧ (∃ r, ordered.InsertSet set other = Ok r
        ∧ held (ordered.elems r) = table.InsertSet m back)
   ∧ (∃ r, ordered.Difference set other = Ok r ∧ held (ordered.elems r) = A ∖ m)
   ∧ (∃ r, ordered.RemoveSet set other = Ok r ∧ held (ordered.elems r) = A ∖ m)
   ∧ table.Difference m keys back = m ∖ A
   ∧ table.RemoveSet m back = m ∖ A)
  ∧ (let s := ordered2.MkOrdered a in
     let t := table2.MkTable m in
     let other := table_view t ke kr in
     let back := ordered_view s in
     (∃ b, ordered2.ContainsSet s other = Ok b ∧ (b = true ↔ m ⊆ A))
     ∧ (table2.ContainsSet t back = true ↔ A ⊆ m)
     ∧ (∃ r, ordered2.intersection s other = Ok r
          ∧ held (ordered2.list_ r) = table2.tbl (table2.intersection t back))
     ∧ (∃ r, ordered2.union s other = Ok r
          ∧ held (ordered2.list_ r) = table2.tbl (table2.union t back))
     ∧ (∃ r, ordered2.symmetricDifference s other = Ok r
          ∧ held (ordered2.list_ r)
            = table2.tbl (table2.symmetricDifference t keys back))
     ∧ (∃ r, ordered2.InsertSet s other = Ok r
          ∧ held (ordered2.list_ r) = table2.tbl (table2.InsertSet t back))
     ∧ (∃ r, ordered2.difference s other = Ok r ∧ held (ordered2.list_ r) = A ∖ m)
     ∧ (∃ r, ordered2.RemoveSet s other = Ok r ∧ held (ordered2.list_ r) = A ∖ m)
     ∧ table2.tbl (table2.difference t keys back) = m ∖ A
     ∧ table2.tbl (table2.RemoveSet t back) = m ∖ A).
Proof.
  intros Ha Hke Hkr Hkeys A held. split.
  - intros set other back.
    destruct (InterplayFacts.table_operand_coherent m ke kr Hke Hkr) as [Hco Hmem].
    destruct (InterplayFacts.ordered_operand_proper m set Ha) as [Hp HB].
    fold other in Hco, Hmem. fold back in Hp, HB. simpl in HB. fold A in HB.
    split_and!.
    + destruct (ordered_ContainsSet_spec set other Ha Hco) as (b & -> & Hb).
      exists b. split; [done|]. rewrite Hb, elem_of_subseteq.
      split; intros Hall x Hx.
      * apply elem_of_list_to_set. apply Hall. by apply Hmem.
      * apply Hmem in Hx. specialize (Hall x Hx). by apply elem_of_list_to_set in Hall.
    + rewrite TableFacts.table_ContainsSet_spec. by rewrite HB.
    + destruct (OrderedAlgebra.ordered_Intersection_spec set other Ha Hco)
        as (r & -> & _ & Hm).
      exists r. split; [done|]. rewrite TableFacts.Intersection_set, HB.
      apply InterplayFacts.elems_set_eq. intros x.
      rewrite Hm, Hmem, elem_of_intersection. unfold A. rewrite elem_of_list_to_set.
      simpl. tauto.
    + destruct (OrderedAlgebra.ordered_Union_spec set other Ha Hco)
        as (r & -> & _ & Hm).
      exists r. split; [done|]. rewrite TableFacts.Union_set, HB by done.
      apply InterplayFacts.elems_set_eq. intros x.
      rewrite Hm, Hmem, elem_of_union. unfold A. rewrite elem_of_list_to_set.
      simpl. tauto.
    + destruct (OrderedAlgebra.ordered_SymmetricDifference_spec set other Ha Hco)
        as (r & -> & _ & Hm).
      exists r. split; [done|].
      rewrite TableFacts.SymmetricDifference_set, HB by done.
      apply InterplayFacts.elems_set_eq. intros x.
      rewrite Hm, Hmem, elem_of_union, !elem_of_difference. unfold A.
      rewrite elem_of_list_to_set. simpl. tauto.
    + destruct (OrderedAlgebra.ordered_InsertSet_spec set other Ha Hco)
        as (r & -> & _ & Hm).
      exists r. split; [done|]. rewrite TableFacts.InsertSet_set, HB by done.
      apply InterplayFacts.elems_set_eq. intros x.
      rewrite Hm, Hmem, elem_of_union. unfold A. rewrite elem_of_list_to_set.
      simpl. tauto.
    + destruct (OrderedAlgebra.ordered_Difference_spec set other Ha Hco)
        as (r & -> & _ & Hm).
      exists r. split; [done|].
      apply InterplayFacts.elems_set_eq. intros x.
      rewrite Hm, Hmem, elem_of_difference. unfold A. rewrite elem_of_list_to_set.
      simpl. tauto.
    + destruct (OrderedAlgebra.ordered_RemoveSet_spec set other Ha Hco)
        as (r & -> & _ & Hm).
      exists r. split; [done|].
      apply InterplayFacts.elems_set_eq. intros x.
      rewrite Hm, Hmem, elem_of_difference. unfold A. rewrite elem_of_list_to_set.
      simpl. tauto.
    + by rewrite TableFacts.Difference_set, HB.
    + by rewrite TableFacts.RemoveSet_set, HB.
  - intros s t other back.
    assert (ranges (table2.tbl t) ke) as Hke' by done.
    assert (ranges (table2.tbl t) kr) as Hkr' by done.
    assert (ranges (table2.tbl t) keys) as Hkeys' by done.
    destruct (InterplayFacts.table_view_coherent t ke kr Hke' Hkr')
      as (Hco & Hnat & Hmem).
    destruct (InterplayFacts.ordered_view_proper t s Ha) as [Hp HB].
    fold other in Hco, Hnat, Hmem. fold back in Hp, HB. simpl in HB, Hmem.
    fold A in HB.
    split_and!.
    + destruct (ordered2_ContainsSet_spec s other Ha Hco) as (b & -> & Hb); [done|].
      exists b. split; [done|]. rewrite Hb, elem_of_subseteq.
      split; intros Hall x Hx.
      * apply elem_of_list_to_set. apply Hall. by apply Hmem.
      * apply Hmem in Hx. specialize (Hall x Hx). by apply elem_of_list_to_set in Hall.
    + rewrite TableFacts.table2_ContainsSet_spec by done. by rewrite HB.
    + destruct (Ordered2Algebra.ordered2_intersection_spec s other Ha Hco)
        as (r & -> & _ & Hm).
      exists r. split; [done|]. rewrite TableFacts.intersection2_set, HB.
      apply InterplayFacts.elems_set_eq. intros x.
      rewrite Hm, Hmem, elem_of_intersection. unfold A. rewrite elem_of_list_to_set.
      simpl. tauto.
    + destruct (Ordered2Algebra.ordered2_union_spec s other Ha Hco)
        as (r & -> & _ & Hm).
      exists r. split; [done|]. rewrite TableFacts.union2_set, HB.
      apply InterplayFacts.elems_set_eq. intros x.
      rewrite Hm, Hmem, elem_of_union. unfold A. rewrite elem_of_list_to_set.
      simpl. tauto.
    + destruct (Ordered2Algebra.ordered2_symmetricDifference_spec s other Ha Hco)
        as (r & -> & _ & Hm).
      exists r. split; [done|].
      rewrite TableFacts.symmetricDifference2_set, HB by done.
      apply InterplayFacts.elems_set_eq. intros x.
      rewrite Hm, Hmem, elem_of_union, !elem_of_difference. unfold A.
      rewrite elem_of_list_to_set. simpl. tauto.
    + destruct (Ordered2Algebra.ordered2_insertSet_spec s other Ha Hco Hnat)
        as (r & Hr & _ & Hm).
      exists r. split; [done|]. rewrite TableFacts.InsertSet2_set, HB by done.
      apply InterplayFacts.elems_set_eq. intros x.
      rewrite Hm, Hmem, elem_of_union. unfold A. rewrite elem_of_list_to_set.
      simpl. tauto.
    + destruct (Ordered2Algebra.ordered2_difference_spec s other Ha Hco)
        as (r & -> & _ & Hm).
      exists r. split; [done|].
      apply InterplayFacts.elems_set_eq. intros x.
      rewrite Hm, Hmem, elem_of_difference. unfold A. rewrite elem_of_list_to_set.
      simpl. tauto.
    + destruct (Ordered2Algebra.ordered2_removeSet_spec s other Ha Hco Hnat)
        as (r & Hr & _ & Hm).
      exists r. split; [done|].
      apply InterplayFacts.elems_set_eq. intros x.
      rewrite Hm, Hmem, elem_of_difference. unfold A. rewrite elem_of_list_to_set.
      simpl. tauto.
    + by rewrite TableFacts.difference2_set, HB.
    + by rewrite TableFacts.RemoveSet2_set, HB.
Qed.

Lemma mixed_operands_witness :
  let a := [1; 3; 5] in
  let m : gset Z := table.New [5; 4] in
  let ke := elements m in
  let kr := reverse (elements m) in
  strictly_sorted a ∧ ranges m ke ∧ ranges m kr ∧ ranges m ke
  ∧ ∃ b, ordered.ContainsSet (ordered.MkOrdered a) (table_operand m ke kr) = Ok b
      ∧ (b = true ↔ m ⊆ list_to_set a).
Proof.
  intros a m ke kr.
  assert (strictly_sorted a) as Ha by sorted_by_computation.
  assert (ranges m ke) as Hke by (unfold ranges, ke; reflexivity).
  assert (ranges m kr) as Hkr by (unfold ranges, kr; apply reverse_Permutation).
  split; [exact Ha|]. split; [exact Hke|]. split; [exact Hkr|]. split; [exact Hke|].
  exact (proj1 (proj1 (mixed_operands a m ke kr ke Ha Hke Hkr Hke))).
Defined.

End InterplayProperties.
